(** * Verification of the graph and coding algorithms of the project
    (Union-Find, Kruskal, Prim, Dijkstra, Huffman).

    The Python sources [src/kruskal.py], [src/prim.py], [src/dijkstra.py]
    and [src/huffman.py] are embedded as Rocq functions.  Dictionaries
    that are only read and written by key are [gmap]s, sets are [gset]s,
    dictionaries whose iteration order is observed (the adjacency of a
    networkx graph, a [Counter]) are association lists in insertion order.
    Node identifiers are strings.  Edge weights are Python numbers: the
    graph algorithms are written once, for any type of numbers with the
    operations the code uses (class [Numero]); the weights that
    [leer_grafo_csv] produces are [float]s, IEEE 754 binary64 numbers
    with their rounding, overflow, signed zeros and NaN, and the claims
    are about them.  Loops and recursions that are not structural carry a
    fuel argument; the functions below compute the fuel themselves and
    the theorems show that it is never exhausted on well-formed inputs. *)

From stdpp Require Import gmap strings list fin_maps sorting relations.
From Stdlib Require Import ZArith Lia Ascii.
From Corelib Require Import SpecFloat.

(* [set_solver] clears hypotheses that its own simplification has already
   removed. *)
Set Warnings "-clear-no-such-hyp".

Open Scope Z_scope.
Open Scope string_scope.
Open Scope list_scope.
Open Scope nat_scope.

(** ** Outcomes of a Python call *)

Inductive exn : Type :=
| KeyError (k : string)
| ValueError (msg : string)
| NetworkXError (n : string)
| IndexError.

Inductive result (A : Type) : Type :=
| Ok (a : A)
| Raise (e : exn)
| OutOfFuel.
Arguments Ok {A} a.
Arguments Raise {A} e.
Arguments OutOfFuel {A}.

Definition result_bind {A B} (f : A → result B) (c : result A) : result B :=
  match c with
  | Ok a => f a
  | Raise e => Raise e
  | OutOfFuel => OutOfFuel
  end.

#[global] Instance result_ret : MRet result := λ A a, Ok a.
#[global] Instance result_mbind : MBind result := λ A B f c, result_bind f c.

(** [d[k]] on a dictionary: a missing key raises [KeyError]. *)
Definition getitem {V} (d : gmap string V) (k : string) : result V :=
  match d !! k with
  | Some v => Ok v
  | None => Raise (KeyError k)
  end.

(** Nodes are identified by their name. *)
Abbreviation node := string (only parsing).

(** ** Numbers

    What the graph algorithms do with a weight: start a sum from the
    integer [0], add, compare with [<], and compare with [float('inf')]. *)

Class Numero (W : Type) : Type := {
  cero : W;
  suma : W → W → W;
  menor : W → W → bool;
  menor_inf : W → bool
}.

(** Python's [float]: a binary64 number, as the standard specifies it
    (53 bits of precision, exponents below 1024, round to nearest even).
    The type also holds pairs of a mantissa and an exponent that are not
    the normal form of a binary64 number: what a theorem states for every
    float holds for them too, and the floats that a file gives
    ([flotante]) are in normal form. *)
Abbreviation float := spec_float (only parsing).

#[global] Instance float_eq_dec : EqDecision float.
Proof. solve_decision. Defined.

(** [x + y] and [x < y] on floats; a comparison with NaN is false. *)
Definition fsuma : float → float → float := SFadd 53 1024.
Definition fmenor : float → float → bool := SFltb.

(** [float('inf')] *)
Definition infinito : float := S754_infinity false.

(** The float nearest to [m * 2^e], and [float(z)] for an integer. *)
Definition flotante (m e : Z) : float := binary_normalize 53 1024 m e false.
Definition entero (z : Z) : float := flotante z 0.

(** The integer [0] the sums start from behaves as the float [0.0]. *)
#[global] Instance numero_float : Numero float := {|
  cero := S754_zero false;
  suma := fsuma;
  menor := fmenor;
  menor_inf := λ x, fmenor x infinito
|}.

(** Python's [int]: exact integers, all of them below [float('inf')]. *)
#[global] Instance numero_Z : Numero Z := {|
  cero := 0%Z;
  suma := Z.add;
  menor := Z.ltb;
  menor_inf := λ _, true
|}.

(** ** [heapq]: the binary heap of the Python standard library

    [heappush] and [heappop] of CPython's [heapq], on a list, for an
    arbitrary comparison [lt] (Python's [<] on the items). *)

Module Heapq.
Section heapq.
Context {A : Type} (lt : A → A → bool).

(** The loop of [_siftdown]: [newitem] travels from [pos] towards
    [startpos]; [pos] decreases at every turn, so [pos] turns are enough
    and the last turn leaves through the same assignment as the test. *)
Fixpoint siftdown_loop (fuel : nat) (heap : list A) (startpos pos : nat)
    (newitem : A) : list A :=
  match fuel with
  | 0 => <[pos:=newitem]> heap
  | S fuel =>
    if decide (startpos < pos) then
      let parentpos := (pos - 1) / 2 in
      match heap !! parentpos with
      | Some parent =>
        if lt newitem parent
        then siftdown_loop fuel (<[pos:=parent]> heap) startpos parentpos newitem
        else <[pos:=newitem]> heap
      | None => <[pos:=newitem]> heap
      end
    else <[pos:=newitem]> heap
  end.

Definition siftdown (heap : list A) (startpos pos : nat) : list A :=
  match heap !! pos with
  | Some newitem => siftdown_loop pos heap startpos pos newitem
  | None => heap
  end.

(** The loop of [_siftup]: the smaller child is moved up until a leaf is
    reached; returns the heap and the final position of the hole. *)
Fixpoint siftup_loop (fuel : nat) (heap : list A) (endpos pos childpos : nat)
    : list A * nat :=
  match fuel with
  | 0 => (heap, pos)
  | S fuel =>
    if decide (childpos < endpos) then
      let rightpos := childpos + 1 in
      let childpos :=
        if decide (rightpos < endpos) then
          match heap !! childpos, heap !! rightpos with
          | Some c, Some r => if negb (lt c r) then rightpos else childpos
          | _, _ => childpos
          end
        else childpos in
      match heap !! childpos with
      | Some c => siftup_loop fuel (<[pos:=c]> heap) endpos childpos (2 * childpos + 1)
      | None => (heap, pos)
      end
    else (heap, pos)
  end.

Definition siftup (heap : list A) (pos : nat) : list A :=
  match heap !! pos with
  | Some newitem =>
    let endpos := length heap in
    let '(heap, p) := siftup_loop endpos heap endpos pos (2 * pos + 1) in
    siftdown (<[p:=newitem]> heap) pos p
  | None => heap
  end.

Definition heappush (heap : list A) (item : A) : list A :=
  siftdown (heap ++ [item]) 0 (length heap).

(** [heappop] on an empty list raises [IndexError]: [None]. *)
Definition heappop (heap : list A) : option (A * list A) :=
  match last heap with
  | None => None
  | Some lastelt =>
    let heap := take (length heap - 1) heap in
    match heap with
    | [] => Some (lastelt, heap)
    | returnitem :: _ => Some (returnitem, siftup (<[0:=lastelt]> heap) 0)
    end
  end.

End heapq.
End Heapq.

(** ** Union-Find ([class UnionFind] of kruskal.py) *)

Record UnionFind : Type := mkUF {
  padre : gmap node node;
  rango : gmap node nat
}.

(** Methods run in a state monad over the object, with exceptions. *)
Definition UFm (A : Type) : Type := UnionFind → UnionFind * result A.

#[global] Instance UFm_ret : MRet UFm := λ A a s, (s, Ok a).
#[global] Instance UFm_bind : MBind UFm := λ A B f c s,
  match c s with
  | (s', Ok a) => f a s'
  | (s', Raise e) => (s', Raise e)
  | (s', OutOfFuel) => (s', OutOfFuel)
  end.

Definition get_padre (e : node) : UFm node := λ s, (s, getitem (padre s) e).
Definition get_rango (e : node) : UFm nat := λ s, (s, getitem (rango s) e).
Definition set_padre (e p : node) : UFm unit :=
  λ s, (mkUF (<[e:=p]> (padre s)) (rango s), Ok tt).
Definition set_rango (e : node) (r : nat) : UFm unit :=
  λ s, (mkUF (padre s) (<[e:=r]> (rango s)), Ok tt).

(** [UnionFind.__init__] *)
Definition uf_init (elementos : list node) : UnionFind :=
  mkUF (list_to_map ((λ e, (e, e)) <$> elementos))
       (list_to_map ((λ e, (e, 0)) <$> elementos)).

(** [UnionFind.encontrar]; [fuel] bounds the recursion depth. *)
Fixpoint encontrar_rec (fuel : nat) (elemento : node) : UFm node :=
  match fuel with
  | 0 => λ s, (s, OutOfFuel)
  | S fuel =>
    p ← get_padre elemento;
    if decide (p ≠ elemento) then
      r ← encontrar_rec fuel p;
      _ ← set_padre elemento r;
      get_padre elemento
    else get_padre elemento
  end.

(** A parent chain without repetition visits at most every registered
    element once. *)
Definition encontrar (elemento : node) : UFm node :=
  λ s, encontrar_rec (S (size (padre s))) elemento s.

(** [UnionFind.unir] *)
Definition unir (elem1 elem2 : node) : UFm bool :=
  raiz1 ← encontrar elem1;
  raiz2 ← encontrar elem2;
  if decide (raiz1 = raiz2) then mret false
  else
    r1 ← get_rango raiz1;
    r2 ← get_rango raiz2;
    if decide (r1 < r2) then
      _ ← set_padre raiz1 raiz2; mret true
    else if decide (r2 < r1) then
      _ ← set_padre raiz2 raiz1; mret true
    else
      _ ← set_padre raiz2 raiz1;
      _ ← set_rango raiz1 (r1 + 1);
      mret true.

(** ** Graphs ([networkx.Graph])

    The adjacency of an undirected graph: for every node, in insertion
    order, its neighbours with the edge weight, in insertion order. *)

Record Graph (W : Type) : Type := mkGraph {
  adj : list (node * list (node * W))
}.
Arguments mkGraph {W} adj.
Arguments adj {W} g.

Fixpoint alookup {V} (k : node) (l : list (node * V)) : option V :=
  match l with
  | [] => None
  | (k', v) :: l => if decide (k = k') then Some v else alookup k l
  end.

(** [d[k] = v] on an insertion-ordered dictionary. *)
Fixpoint aupdate {V} (k : node) (v : V) (l : list (node * V)) : list (node * V) :=
  match l with
  | [] => [(k, v)]
  | (k', v') :: l =>
    if decide (k = k') then (k', v) :: l else (k', v') :: aupdate k v l
  end.

(** [grafo.nodes()] *)
Definition nodes {W} (g : Graph W) : list node := (adj g).*1.

(** [grafo.neighbors(n)] *)
Definition neighbors {W} (g : Graph W) (n : node) : result (list node) :=
  match alookup n (adj g) with
  | Some nbrs => Ok nbrs.*1
  | None => Raise (NetworkXError n)
  end.

(** [grafo[u][v]['weight']] *)
Definition weight {W} (g : Graph W) (u v : node) : result W :=
  match alookup u (adj g) with
  | Some nbrs =>
    match alookup v nbrs with
    | Some w => Ok w
    | None => Raise (KeyError v)
    end
  | None => Raise (KeyError u)
  end.

(** [grafo.edges(data=True)]: every edge once, reported from the endpoint
    that comes first in node order. *)
Fixpoint edges_from {W} (seen : gset node) (l : list (node * list (node * W)))
    : list (node * node * W) :=
  match l with
  | [] => []
  | (n, nbrs) :: l =>
    ((λ p, (n, p.1, p.2)) <$> filter (λ p, p.1 ∉ seen) nbrs)
      ++ edges_from ({[n]} ∪ seen) l
  end.

Definition edges {W} (g : Graph W) : list (node * node * W) :=
  edges_from ∅ (adj g).

(** [grafo.add_edge(u, v, weight=w)], as [leer_grafo_csv] calls it. *)
Definition add_node {W} (n : node) (a : list (node * list (node * W)))
    : list (node * list (node * W)) :=
  match alookup n a with
  | Some _ => a
  | None => a ++ [(n, [])]
  end.

Definition set_adj {W} (u v : node) (w : W) (a : list (node * list (node * W)))
    : list (node * list (node * W)) :=
  match alookup u a with
  | Some nbrs => aupdate u (aupdate v w nbrs) a
  | None => a
  end.

Definition add_edge {W} (g : Graph W) (u v : node) (w : W) : Graph W :=
  mkGraph (set_adj v u w (set_adj u v w (add_node v (add_node u (adj g))))).

(** The graph [leer_grafo_csv] builds from the rows of the file, the
    weight of a row being the float that [float(...)] has read. *)
Definition grafo_de_filas {W} (filas : list (node * node * W)) : Graph W :=
  foldl (λ g f, add_edge g f.1.1 f.1.2 f.2) (mkGraph []) filas.

(** Well-formed adjacency: every node once, every neighbour once, and
    [v] is a neighbour of [u] with weight [w] exactly when [u] is one of
    [v] with weight [w]. *)
Definition wf_graph {W} (g : Graph W) : Prop :=
  NoDup (nodes g) ∧
  Forall (λ p, NoDup (p.2).*1 ∧
               Forall (λ q, alookup q.1 (adj g) ≫= alookup p.1 = Some q.2) p.2)
         (adj g).

#[global] Instance wf_graph_dec `{EqDecision W} (g : Graph W) :
  Decision (wf_graph g).
Proof. unfold wf_graph. apply _. Defined.

Definition nonneg_weights (g : Graph Z) : Prop :=
  Forall (λ p, Forall (λ q : node * Z, (0 ≤ q.2)%Z) p.2) (adj g).

#[global] Instance nonneg_weights_dec g : Decision (nonneg_weights g).
Proof. unfold nonneg_weights. apply _. Defined.

(** No weight is NaN.  NaN is the one float that is not [==] to itself,
    and Python looks at the identity of two objects before it compares
    them inside tuples: how the sort and the heap order tuples that hold
    NaN is outside this model, and the theorems on Kruskal and Prim
    assume that the file has no such weight. *)
Definition sin_nan (g : Graph float) : Prop :=
  Forall (λ p, Forall (λ q : node * float, q.2 ≠ S754_nan) p.2) (adj g).

#[global] Instance sin_nan_dec g : Decision (sin_nan g).
Proof. unfold sin_nan. apply _. Defined.

(** Every weight [w] is a float with [0 <= w]. *)
Definition no_negativos (g : Graph float) : Prop :=
  Forall (λ p, Forall (λ q : node * float,
                         SFleb (S754_zero false) q.2 = true) p.2) (adj g).

#[global] Instance no_negativos_dec g : Decision (no_negativos g).
Proof. unfold no_negativos. apply _. Defined.

(** The same graph with every weight [w] replaced by [f w]. *)
Definition graph_map {W1 W2} (f : W1 → W2) (g : Graph W1) : Graph W2 :=
  mkGraph ((λ p : node * list (node * W1),
              (p.1, (λ q : node * W1, (q.1, f q.2)) <$> p.2)) <$> adj g).

(** ** Python's order on the tuples the algorithms compare *)

Definition str_lt (a b : string) : bool := String.ltb a b.

(** [None] is never compared with a string by the code: the only tuple
    that holds it is alone in the heap when it is popped. *)
Definition ostr_lt (a b : option string) : bool :=
  match a, b with
  | Some a, Some b => str_lt a b
  | None, Some _ => true
  | _, None => false
  end.

(** Python compares tuples lexicographically: the first components
    that are not [==] decide.  Two strings, or two numbers other than
    NaN, are [==] when neither is [<] the other. *)
Definition lex_lt {A B} (ltA : A → A → bool) (ltB : B → B → bool)
    (x y : A * B) : bool :=
  if ltA x.1 y.1 then true
  else if ltA y.1 x.1 then false
  else ltB x.2 y.2.

Section algoritmos.
Context {W : Type} `{Numero W}.

(** [(peso, u, v) < (peso', u', v')] *)
Definition arista_lt : W * node * node → W * node * node → bool :=
  lex_lt (lex_lt menor str_lt) str_lt.

Definition arista_le (a b : W * node * node) : Prop := arista_lt b a = false.

#[global] Instance arista_le_dec : RelDecision arista_le.
Proof. intros a b. unfold arista_le. apply _. Defined.

(** ** Kruskal ([algoritmo_kruskal]) *)

(** The [for] loop over the sorted edges, with its [break]. *)
Fixpoint kruskal_loop (n_nodes : nat) (aristas : list (W * node * node))
    (uf : UnionFind) (mst_aristas : list (node * node * W)) (peso_total : W)
    : result (list (node * node * W) * W) :=
  match aristas with
  | [] => Ok (mst_aristas, peso_total)
  | (peso, u, v) :: aristas =>
    match unir u v uf with
    | (uf, Ok true) =>
      let mst_aristas := mst_aristas ++ [(u, v, peso)] in
      let peso_total := suma peso_total peso in
      if decide (length mst_aristas = n_nodes - 1)
      then Ok (mst_aristas, peso_total)
      else kruskal_loop n_nodes aristas uf mst_aristas peso_total
    | (uf, Ok false) => kruskal_loop n_nodes aristas uf mst_aristas peso_total
    | (_, Raise e) => Raise e
    | (_, OutOfFuel) => OutOfFuel
    end
  end.

Definition algoritmo_kruskal (grafo : Graph W)
    : result (list (node * node * W) * W) :=
  if decide (length (nodes grafo) = 0) then Ok ([], cero)
  else
    let aristas := (λ e, (e.2, e.1.1, e.1.2)) <$> edges grafo in
    let aristas := merge_sort arista_le aristas in
    let uf := uf_init (nodes grafo) in
    kruskal_loop (length (nodes grafo)) aristas uf [] cero.

(** Enough turns for the loops of Prim and Dijkstra: every turn pops one
    heap entry, at most one entry per adjacency entry is ever pushed
    besides the seed, and one more turn sees the loop test fail. *)
Definition fuel_of (g : Graph W) : nat :=
  S (S (length (concat ((adj g).*2)))).

(** ** Prim ([algoritmo_prim]) *)

Definition prim_entry : Type := W * node * option node.

(** [(peso, nodo, anterior) < (peso', nodo', anterior')] *)
Definition prim_lt : prim_entry → prim_entry → bool :=
  lex_lt (lex_lt menor str_lt) ostr_lt.

(** The inner [for vecino in grafo.neighbors(nodo_actual)] loop. *)
Fixpoint prim_vecinos (g : Graph W) (nodo_actual : node) (visitados : gset node)
    (heap : list prim_entry) (vecinos : list node) : result (list prim_entry) :=
  match vecinos with
  | [] => Ok heap
  | vecino :: vecinos =>
    if decide (vecino ∉ visitados) then
      peso_arista ← weight g nodo_actual vecino;
      prim_vecinos g nodo_actual visitados
        (Heapq.heappush prim_lt heap (peso_arista, vecino, Some nodo_actual))
        vecinos
    else prim_vecinos g nodo_actual visitados heap vecinos
  end.

(** The [while heap and len(visitados) < len(grafo.nodes())] loop. *)
Fixpoint prim_loop (fuel : nat) (g : Graph W) (visitados : gset node)
    (mst_aristas : list (node * node * W)) (peso_total : W)
    (heap : list prim_entry) : result (list (node * node * W) * W) :=
  match fuel with
  | 0 => OutOfFuel
  | S fuel =>
    if decide (heap ≠ [] ∧ size visitados < length (nodes g)) then
      match Heapq.heappop prim_lt heap with
      | None => Raise IndexError
      | Some ((peso, nodo_actual, nodo_anterior), heap) =>
        if decide (nodo_actual ∈ visitados) then
          prim_loop fuel g visitados mst_aristas peso_total heap
        else
          let visitados := {[nodo_actual]} ∪ visitados in
          let '(mst_aristas, peso_total) :=
            match nodo_anterior with
            | Some anterior =>
              (mst_aristas ++ [(anterior, nodo_actual, peso)],
               suma peso_total peso)
            | None => (mst_aristas, peso_total)
            end in
          vecinos ← neighbors g nodo_actual;
          heap ← prim_vecinos g nodo_actual visitados heap vecinos;
          prim_loop fuel g visitados mst_aristas peso_total heap
      end
    else Ok (mst_aristas, peso_total)
  end.

Definition algoritmo_prim (grafo : Graph W) (nodo_inicio : option node)
    : result (list (node * node * W) * W) :=
  if decide (length (nodes grafo) = 0) then Ok ([], cero)
  else
    nodo_inicio ←
      match nodo_inicio with
      | Some n => Ok n
      | None =>
        match nodes grafo with
        | primero :: _ => Ok primero
        | [] => Raise IndexError
        end
      end;
    prim_loop (fuel_of grafo) grafo ∅ [] cero [(cero, nodo_inicio, None)].

(** ** Dijkstra ([algoritmo_dijkstra], [reconstruir_camino]) *)

(** A value of the dictionary [distancias]: the [float('inf')] it is
    initialised with, or a number that the loop has stored. *)
Inductive dist : Type :=
| Fin (d : W)
| Inf.

(** [nueva_distancia < distancias[vecino]] *)
Definition dist_lt (a : W) (b : dist) : bool :=
  match b with
  | Fin b => menor a b
  | Inf => menor_inf a
  end.

Definition dijkstra_entry : Type := W * node.

(** [(dist, nodo) < (dist', nodo')] *)
Definition dijkstra_lt : dijkstra_entry → dijkstra_entry → bool :=
  lex_lt menor str_lt.

Record dijkstra_state : Type := mkDS {
  distancias : gmap node dist;
  predecesores : gmap node (option node);
  ds_heap : list dijkstra_entry
}.

(** The inner [for vecino in grafo.neighbors(nodo_actual)] loop. *)
Fixpoint dijkstra_vecinos (g : Graph W) (dist_actual : W) (nodo_actual : node)
    (visitados : gset node) (st : dijkstra_state) (vecinos : list node)
    : result dijkstra_state :=
  match vecinos with
  | [] => Ok st
  | vecino :: vecinos =>
    if decide (vecino ∉ visitados) then
      peso_arista ← weight g nodo_actual vecino;
      let nueva_distancia := suma dist_actual peso_arista in
      d ← getitem (distancias st) vecino;
      if dist_lt nueva_distancia d then
        dijkstra_vecinos g dist_actual nodo_actual visitados
          (mkDS (<[vecino:=Fin nueva_distancia]> (distancias st))
                (<[vecino:=Some nodo_actual]> (predecesores st))
                (Heapq.heappush dijkstra_lt (ds_heap st) (nueva_distancia, vecino)))
          vecinos
      else dijkstra_vecinos g dist_actual nodo_actual visitados st vecinos
    else dijkstra_vecinos g dist_actual nodo_actual visitados st vecinos
  end.

(** The [while heap] loop. *)
Fixpoint dijkstra_loop (fuel : nat) (g : Graph W) (visitados : gset node)
    (st : dijkstra_state)
    : result (gmap node dist * gmap node (option node)) :=
  match fuel with
  | 0 => OutOfFuel
  | S fuel =>
    if decide (ds_heap st ≠ []) then
      match Heapq.heappop dijkstra_lt (ds_heap st) with
      | None => Raise IndexError
      | Some ((dist_actual, nodo_actual), heap) =>
        let st := mkDS (distancias st) (predecesores st) heap in
        if decide (nodo_actual ∈ visitados) then
          dijkstra_loop fuel g visitados st
        else
          let visitados := {[nodo_actual]} ∪ visitados in
          vecinos ← neighbors g nodo_actual;
          st ← dijkstra_vecinos g dist_actual nodo_actual visitados st vecinos;
          dijkstra_loop fuel g visitados st
      end
    else Ok (distancias st, predecesores st)
  end.

Definition algoritmo_dijkstra (grafo : Graph W) (nodo_origen : node)
    : result (gmap node dist * gmap node (option node)) :=
  if decide (nodo_origen ∉ nodes grafo) then
    Raise (ValueError ("El nodo origen '" +:+ nodo_origen
                         +:+ "' no existe en el grafo"))
  else
    let distancias : gmap node dist :=
      list_to_map ((λ n, (n, Inf)) <$> nodes grafo) in
    let distancias := <[nodo_origen:=Fin cero]> distancias in
    let predecesores : gmap node (option node) :=
      list_to_map ((λ n, (n, None)) <$> nodes grafo) in
    dijkstra_loop (fuel_of grafo) grafo ∅
      (mkDS distancias predecesores [(cero, nodo_origen)]).

End algoritmos.

Arguments prim_entry W : clear implicits.
Arguments dist W : clear implicits.
Arguments dijkstra_entry W : clear implicits.
Arguments dijkstra_state W : clear implicits.
Arguments Fin {W} d%_Z.
Arguments Inf {W}.
Arguments dist_lt {W _} a%_Z b.
Arguments mkDS {W}.
Arguments distancias {W}.
Arguments predecesores {W}.
Arguments ds_heap {W}.

(** The [while nodo_actual is not None] loop of [reconstruir_camino]. *)
Fixpoint camino_loop (fuel : nat) (predecesores : gmap node (option node))
    (nodo_actual : option node) (camino : list node) : result (list node) :=
  match fuel with
  | 0 => OutOfFuel
  | S fuel =>
    match nodo_actual with
    | Some n =>
      siguiente ← getitem predecesores n;
      camino_loop fuel predecesores siguiente (camino ++ [n])
    | None => Ok camino
    end
  end.

(** The result is [Ok None] where the code returns [None]. *)
Definition reconstruir_camino (nodo_destino : node)
    (predecesores : gmap node (option node)) : result (option (list node)) :=
  p ← getitem predecesores nodo_destino;
  if decide (p = None ∧ nodo_destino ∈ dom predecesores) then Ok None
  else
    camino ← camino_loop (S (S (size predecesores))) predecesores
               (Some nodo_destino) [];
    let camino := reverse camino in
    match camino with
    | [c] =>
      p ← getitem predecesores c;
      if decide (p ≠ None) then Ok None else Ok (Some camino)
    | _ => Ok (Some camino)
    end.

(** [d.items()] for a dictionary whose keys were inserted in the order
    [claves]: [algoritmo_dijkstra] builds [predecesores] with one key per
    node, in the order of [grafo.nodes()], and later only overwrites
    values. *)
Definition dict_items {V} (claves : list node) (d : gmap node V)
    : list (node * V) :=
  omap (λ k, (λ v, (k, v)) <$> d !! k) claves.

(** [obtener_aristas_caminos], on the items of [predecesores]; the
    argument [nodo_origen] is not used by the code. *)
Definition obtener_aristas_caminos (predecesores : list (node * option node))
    (nodo_origen : node) : list (node * node) :=
  omap (λ '(nodo, predecesor),
          match predecesor with
          | Some p => Some (p, nodo)
          | None => None
          end) predecesores.

(** ** Huffman ([NodoHuffman], [construir_arbol_huffman], [generar_codigos]) *)

#[warnings="-register-all"]
Inductive NodoHuffman : Type :=
| Nodo (caracter : option ascii) (frecuencia : nat)
       (izquierdo derecho : option NodoHuffman).

Definition caracter (n : NodoHuffman) : option ascii :=
  let 'Nodo c _ _ _ := n in c.
Definition frecuencia (n : NodoHuffman) : nat :=
  let 'Nodo _ f _ _ := n in f.

(** [NodoHuffman.__lt__] *)
Definition nodo_lt (a b : NodoHuffman) : bool :=
  (frecuencia a <? frecuencia b)%nat.

(** [Counter(texto).items()]: the symbols in order of first occurrence. *)
Fixpoint counter_add (c : ascii) (l : list (ascii * nat)) : list (ascii * nat) :=
  match l with
  | [] => [(c, 1)]
  | (c', n) :: l =>
    if decide (c = c') then (c', S n) :: l else (c', n) :: counter_add c l
  end.

Definition Counter (texto : string) : list (ascii * nat) :=
  foldl (λ acc c, counter_add c acc) [] (String.list_ascii_of_string texto).

(** The [while len(heap) > 1] loop. *)
Fixpoint huffman_loop (fuel : nat) (heap : list NodoHuffman)
    : result (list NodoHuffman) :=
  match fuel with
  | 0 => OutOfFuel
  | S fuel =>
    if decide (1 < length heap) then
      match Heapq.heappop nodo_lt heap with
      | None => Raise IndexError
      | Some (izquierdo, heap) =>
        match Heapq.heappop nodo_lt heap with
        | None => Raise IndexError
        | Some (derecho, heap) =>
          let padre :=
            Nodo None (frecuencia izquierdo + frecuencia derecho)
                 (Some izquierdo) (Some derecho) in
          huffman_loop fuel (Heapq.heappush nodo_lt heap padre)
        end
      end
    else Ok heap
  end.

(** The result is [Ok None] where the code returns [None]. *)
Definition construir_arbol_huffman (texto : string)
    : result (option NodoHuffman) :=
  if decide (texto = "") then Ok None
  else
    let frecuencias := Counter texto in
    let heap :=
      foldl (λ heap cf, Heapq.heappush nodo_lt heap (Nodo (Some cf.1) cf.2 None None))
            [] frecuencias in
    heap ← huffman_loop (length heap) heap;
    match heap with
    | raiz :: _ => Ok (Some raiz)
    | [] => Raise IndexError
    end.

(** [generar_codigos] on a node; the dictionary [codigos] is threaded. *)
Fixpoint generar_codigos_nodo (nodo : NodoHuffman) (codigo_actual : string)
    (codigos : gmap ascii string) : gmap ascii string :=
  match nodo with
  | Nodo (Some c) _ _ _ =>
    <[c:=if decide (codigo_actual = "") then "0" else codigo_actual]> codigos
  | Nodo None _ izquierdo derecho =>
    let codigos :=
      match izquierdo with
      | Some i => generar_codigos_nodo i (codigo_actual +:+ "0") codigos
      | None => codigos
      end in
    match derecho with
    | Some d => generar_codigos_nodo d (codigo_actual +:+ "1") codigos
    | None => codigos
    end
  end.

(** [generar_codigos(nodo)] with the default arguments. *)
Definition generar_codigos (nodo : option NodoHuffman) : gmap ascii string :=
  match nodo with
  | None => ∅
  | Some n => generar_codigos_nodo n "" ∅
  end.

(** * Vocabulary of the specification and of the proofs *)

(** ** Union-Find: representatives, the forest invariant, sequences of calls *)

Definition registered (s : UnionFind) (x : node) : Prop := is_Some (padre s !! x).
Definition rank (s : UnionFind) (x : node) : nat := default 0 (rango s !! x).

(** [repn s x r n]: following [n] parent links from [x] ends in the
    self-loop [r]. *)
Inductive repn (s : UnionFind) : node → node → nat → Prop :=
| repn_root x : padre s !! x = Some x → repn s x x 0
| repn_step x p r n :
    padre s !! x = Some p → p ≠ x → repn s p r n → repn s x r (S n).

Definition rep (s : UnionFind) (x r : node) : Prop := ∃ n, repn s x r n.

Definition same_set (s : UnionFind) (a b : node) : Prop :=
  ∃ r, rep s a r ∧ rep s b r.

Record uf_inv (s : UnionFind) : Prop := mk_uf_inv {
  inv_dom : dom (rango s) = dom (padre s);
  inv_closed : ∀ x p, padre s !! x = Some p → registered s p;
  inv_rank : ∀ x p, padre s !! x = Some p → p ≠ x → rank s x < rank s p
}.

(** The parent map is a forest whose roots are self-loops. *)
Definition uf_forest (s : UnionFind) : Prop :=
  ∀ x, registered s x → ∃ r, rep s x r.

(** What a successful [encontrar] leaves behind. *)
Record find_post (s : UnionFind) (x : node) (s' : UnionFind) (r : node) : Prop := {
  fp_rep : rep s x r;
  fp_inv : uf_inv s';
  fp_rango : rango s' = rango s;
  fp_dom : dom (padre s') = dom (padre s);
  fp_reps : ∀ y ry, rep s' y ry ↔ rep s y ry
}.

(** The relation [unir x y] is expected to establish. *)
Definition merged (s : UnionFind) (x y a b : node) : Prop :=
  same_set s a b ∨ (same_set s a x ∧ same_set s y b)
  ∨ (same_set s a y ∧ same_set s x b).

Record unir_post (s : UnionFind) (x y : node) (s' : UnionFind) (b : bool) : Prop := {
  up_inv : uf_inv s';
  up_dom : dom (padre s') = dom (padre s);
  up_false : b = false ↔ same_set s x y;
  up_same : ∀ a c, same_set s' a c ↔
                   if b then merged s x y a c else same_set s a c;
  up_reps : b = false → ∀ a ra, rep s' a ra ↔ rep s a ra
}.

(** [linked ops a b]: [a] and [b] are connected by a chain of the pairs
    in [ops], taken in either direction. *)
Definition linked {A} (ops : list (A * A)) : relation A :=
  rtsc (λ x y, (x, y) ∈ ops).

(** The expression [uf.encontrar(a) == uf.encontrar(b)]. *)
Definition mismo_conjunto (a b : node) : UFm bool :=
  ra ← encontrar a;
  rb ← encontrar b;
  mret (bool_decide (ra = rb)).

(** The objects obtained from [UnionFind(elementos)] by the calls
    [unir(x, y)] for the pairs of [ops], in order. *)
Inductive uf_unions (elementos : list node) : list (node * node) → UnionFind → Prop :=
| uf_unions_init : uf_unions elementos [] (uf_init elementos)
| uf_unions_unir ops s x y s' b :
    uf_unions elementos ops s →
    x ∈ elementos → y ∈ elementos →
    unir x y s = (s', Ok b) →
    uf_unions elementos (ops ++ [(x, y)]) s'.

(** The objects obtained from [UnionFind(elementos)] by any calls of
    [encontrar] and [unir], on any arguments, failed calls included. *)
Inductive uf_reachable (elementos : list node) : UnionFind → Prop :=
| uf_reachable_init : uf_reachable elementos (uf_init elementos)
| uf_reachable_encontrar s x :
    uf_reachable elementos s → uf_reachable elementos (encontrar x s).1
| uf_reachable_unir s x y :
    uf_reachable elementos s → uf_reachable elementos (unir x y s).1.

(** What holds of an object after the unions [ops]. *)
Record unions_inv (elementos : list node) (ops : list (node * node))
    (s : UnionFind) : Prop := {
  ui_inv : uf_inv s;
  ui_reg : ∀ x, registered s x ↔ x ∈ elementos;
  ui_same : ∀ a b, a ∈ elementos → b ∈ elementos →
                   (same_set s a b ↔ linked ops a b)
}.

(** ** Classes of a relation, forests, lists of weights *)

(** [reps] holds exactly one element of every class of [R] on [V]. *)
Record is_reps {A} (R : relation A) (V reps : list A) : Prop := {
  reps_nodup : NoDup reps;
  reps_sub : ∀ r, r ∈ reps → r ∈ V;
  reps_sep : ∀ r1 r2, r1 ∈ reps → r2 ∈ reps → R r1 r2 → r1 = r2;
  reps_cover : ∀ v, v ∈ V → ∃ r, r ∈ reps ∧ R v r
}.

(** A list of pairs built by adding, one at a time, a pair of elements of
    [V] that the earlier pairs do not connect: a forest. *)
Inductive inc_forest {A} (V : list A) : list (A * A) → Prop :=
| inc_forest_nil : inc_forest V []
| inc_forest_snoc T u v :
    inc_forest V T → u ∈ V → v ∈ V → ¬ linked T u v →
    inc_forest V (T ++ [(u, v)]).

Definition count_le (t : Z) (l : list Z) : nat :=
  length (filter (λ w, (w ≤ t)%Z) l).

Definition sum_Z (l : list Z) : Z := foldr Z.add 0%Z l.

(** ** Strict weak orders *)

Class WeakOrder {A} (lt : A → A → bool) : Prop := {
  lt_asym : ∀ a b, lt a b = true → lt b a = false;
  lt_ntrans : ∀ a b c, lt b a = false → lt c b = false → lt c a = false
}.

(** ** Binary heaps *)

(** No item of the array is smaller than the item at its parent index. *)
Definition is_heap {A} (lt : A → A → bool) (h : list A) : Prop :=
  ∀ j x y, 0 < j → h !! j = Some y → h !! ((j - 1) / 2) = Some x →
           lt y x = false.

(** The array is a heap away from the hole at [pos]. *)
Definition heap_except {A} (lt : A → A → bool) (h : list A) (pos : nat) : Prop :=
  ∀ j x y, 0 < j → j ≠ pos → (j - 1) / 2 ≠ pos →
           h !! j = Some y → h !! ((j - 1) / 2) = Some x → lt y x = false.

(** No child of [pos] is smaller than [v]. *)
Definition children_ge {A} (lt : A → A → bool) (h : list A) (pos : nat) (v : A) : Prop :=
  ∀ c y, 0 < c → (c - 1) / 2 = pos → h !! c = Some y → lt y v = false.

Record bubble_inv {A} (lt : A → A → bool) (h : list A) (pos : nat) (x : A) : Prop := {
  bubble_pos : pos < length h;
  bubble_except : heap_except lt h pos;
  bubble_children : children_ge lt h pos x;
  bubble_grand : ∀ p, 0 < pos → h !! ((pos - 1) / 2) = Some p → children_ge lt h pos p
}.

(** The first phase of [_siftup]: the hole sinks to a leaf. *)
Record down_inv {A} (lt : A → A → bool) (h : list A) (pos : nat) : Prop := {
  down_pos : pos < length h;
  down_except : heap_except lt h pos;
  down_grand : ∀ p, 0 < pos → h !! ((pos - 1) / 2) = Some p → children_ge lt h pos p
}.

(** ** Graphs: edges, connectivity, walks *)

(** [edge g u v w]: [v] is a neighbour of [u], with weight [w]. *)
Definition edge {W} (g : Graph W) (u v : node) (w : W) : Prop :=
  alookup u (adj g) ≫= alookup v = Some w.

(** Connected by a chain of edges / of edges of weight at most [t]. *)
Definition conn {W} (g : Graph W) : relation node :=
  rtsc (λ u v, ∃ w, edge g u v w).
Definition conn_le (g : Graph Z) (t : Z) : relation node :=
  rtsc (λ u v, ∃ w, edge g u v w ∧ (w ≤ t)%Z).

Definition connected {W} (g : Graph W) : Prop :=
  nodes g ≠ [] ∧ ∀ u v, u ∈ nodes g → v ∈ nodes g → conn g u v.

(** [g] has [k] connected components. *)
Definition n_components {W} (g : Graph W) (k : nat) : Prop :=
  ∃ reps, is_reps (conn g) (nodes g) reps ∧ length reps = k.

(** A walk from [u] to [v] of total weight [d]. *)
Inductive path (g : Graph Z) (u : node) : node → Z → Prop :=
| path_nil : path g u u 0
| path_snoc v x w d : path g u v d → edge g v x w → path g u x (d + w).

Definition reachable (g : Graph Z) (u v : node) : Prop := ∃ d, path g u v d.

(** The projections of a list of weighted edges. *)
Definition pairs {W} (T : list (node * node * W)) : list (node * node) := T.*1.
Definition weights {W} (T : list (node * node * W)) : list W := T.*2.
Definition upto (t : Z) (T : list (node * node * Z)) : list (node * node * Z) :=
  filter (λ e, (e.2 ≤ t)%Z) T.

(** The adjacency entries of the nodes that are not visited yet. *)
Definition pend {W} (S : gset node) (p : node * list (node * W)) : nat :=
  if decide (p.1 ∈ S) then 0 else length p.2.
Definition pending {W} (g : Graph W) (S : gset node) : nat :=
  sum_list (pend S <$> adj g).

(** ** Spanning forests *)

(** What both spanning-tree builders return: a forest of edges of the
    graph, and the sum of its weights. *)
Record forest_of (g : Graph Z) (T : list (node * node * Z)) (total : Z) : Prop := {
  fo_forest : inc_forest (nodes g) (pairs T);
  fo_edges : ∀ u v w, (u, v, w) ∈ T → edge g u v w;
  fo_total : total = sum_Z (weights T)
}.

(** ** The loop of Prim *)

(** The state of the loop once the start node is visited. *)
Record prim_inv (g : Graph Z) (start : node) (S : gset node) (mst : list (node * node * Z))
    (total : Z) (H : list (prim_entry Z)) : Prop := {
  pi_start : start ∈ S;
  pi_sub : ∀ x, x ∈ S → x ∈ nodes g;
  pi_forest : forest_of g mst total;
  pi_size : size S = length mst + 1;
  pi_ends : ∀ u v w, (u, v, w) ∈ mst → u ∈ S ∧ v ∈ S;
  pi_span : ∀ t a b, a ∈ S → b ∈ S → conn_le g t a b →
                     linked (pairs (upto t mst)) a b;
  pi_conn : ∀ x, x ∈ S → conn g start x;
  pi_heap : is_heap prim_lt H;
  pi_valid : ∀ w b oa, (w, b, oa) ∈ H → ∃ a, oa = Some a ∧ a ∈ S ∧ edge g a b w;
  pi_cross : ∀ a b w, a ∈ S → b ∉ S → edge g a b w → (w, b, Some a) ∈ H
}.

(** What [algoritmo_prim] returns: a forest of edges of the graph on the
    component [S] of the start node, which connects, below every weight
    [t], the nodes of [S] that the edges of weight at most [t] connect. *)
Record prim_final (g : Graph Z) (start : node) (S : gset node) (T : list (node * node * Z))
    (tot : Z) : Prop := {
  pf_forest : forest_of g T tot;
  pf_size : size S = length T + 1;
  pf_comp : ∀ x, x ∈ S ↔ conn g start x;
  pf_span : ∀ t a b, a ∈ S → b ∈ S → conn_le g t a b →
                     linked (pairs (upto t T)) a b
}.

(** ** The loops of Dijkstra *)

(** What the inner loop does to the state, for the popped entry
    [(d, u)] and the visited set [vis]. *)
Record vec_post (g : Graph Z) (d : Z) (u : node) (vis : gset node) (vec : list node)
    (st st' : dijkstra_state Z) : Prop := {
  vp_heap : is_heap dijkstra_lt (ds_heap st');
  vp_len : length (ds_heap st') ≤ length (ds_heap st) + length vec;
  vp_domD : ∀ v, is_Some (distancias st' !! v) ↔ is_Some (distancias st !! v);
  vp_domP : ∀ v, is_Some (predecesores st' !! v) ↔ is_Some (predecesores st !! v);
  vp_same : ∀ v, v ∉ vec ∨ v ∈ vis →
              distancias st' !! v = distancias st !! v
              ∧ predecesores st' !! v = predecesores st !! v;
  vp_upd : ∀ v w dv, v ∈ vec → v ∉ vis → edge g u v w →
              distancias st !! v = Some dv →
              if dist_lt (d + w) dv
              then distancias st' !! v = Some (Fin (d + w))
                   ∧ predecesores st' !! v = Some (Some u)
                   ∧ (d + w, v)%Z ∈ ds_heap st'
              else distancias st' !! v = Some dv
                   ∧ predecesores st' !! v = predecesores st !! v;
  vp_old : ∀ x, x ∈ ds_heap st → x ∈ ds_heap st';
  vp_new : ∀ x, x ∈ ds_heap st' → x ∈ ds_heap st ∨
              ∃ v w, x = ((d + w)%Z, v) ∧ v ∈ vec ∧ (v ∉ vis) ∧ edge g u v w
                     ∧ distancias st' !! v = Some (Fin (d + w))
}.

(** The state of the main loop. *)
Record dijkstra_inv (g : Graph Z) (src : node) (vis : gset node) (st : dijkstra_state Z) : Prop := {
  di_domD : ∀ v, is_Some (distancias st !! v) ↔ v ∈ nodes g;
  di_domP : ∀ v, is_Some (predecesores st !! v) ↔ v ∈ nodes g;
  di_src : distancias st !! src = Some (Fin 0);
  di_psrc : predecesores st !! src = Some None;
  di_sub : ∀ x, x ∈ vis → x ∈ nodes g;
  di_path : ∀ v d, distancias st !! v = Some (Fin d) → path g src v d;
  di_min : ∀ v, v ∈ vis →
    ∃ d, distancias st !! v = Some (Fin d) ∧ ∀ d', path g src v d' → (d ≤ d')%Z;
  di_relax : ∀ u v w du, u ∈ vis → edge g u v w →
    distancias st !! u = Some (Fin du) →
    ∃ dv, distancias st !! v = Some (Fin dv) ∧ (dv ≤ du + w)%Z;
  di_heap : is_heap dijkstra_lt (ds_heap st);
  di_entry : ∀ d v, (d, v) ∈ ds_heap st →
    ∃ dv, distancias st !! v = Some (Fin dv) ∧ (dv ≤ d)%Z;
  di_pend : ∀ v d, v ∉ vis → distancias st !! v = Some (Fin d) →
    (d, v) ∈ ds_heap st;
  di_mono : ∀ u du d v, u ∈ vis → distancias st !! u = Some (Fin du) →
    (d, v) ∈ ds_heap st → (du ≤ d)%Z;
  di_pred : ∀ v p, predecesores st !! v = Some (Some p) →
    ∃ d, distancias st !! v = Some (Fin d)
}.

(** ** Code tables *)

(** [w1] is a prefix of [w2]. *)
Definition is_prefix (w1 w2 : string) : Prop := ∃ s, w2 = w1 +:+ s.

(** No code of the table is a prefix of the code of another symbol. *)
Definition prefix_free (codigos : gmap ascii string) : Prop :=
  ∀ c1 c2 w1 w2,
    codigos !! c1 = Some w1 → codigos !! c2 = Some w2 → c1 ≠ c2 →
    ¬ is_prefix w1 w2.

(** [leaf_code n pre c w]: the traversal of [n] entered with the code
    [pre] writes the code [w] for the symbol [c]. *)
Inductive leaf_code : NodoHuffman → string → ascii → string → Prop :=
| leaf_code_leaf c f i d pre :
    leaf_code (Nodo (Some c) f i d) pre c
              (if decide (pre = "") then "0" else pre)
| leaf_code_left f i d pre c w :
    leaf_code i (pre +:+ "0") c w → leaf_code (Nodo None f (Some i) d) pre c w
| leaf_code_right f i d pre c w :
    leaf_code d (pre +:+ "1") c w → leaf_code (Nodo None f i (Some d)) pre c w.

(** ** The rows of the file *)

(** The weight of the last row that names [u] and [v], in either order. *)
Definition ultimo_peso {W} (filas : list (node * node * W)) (u v : node)
    : option W :=
  foldl (λ acc f,
           if decide ((u = f.1.1 ∧ v = f.1.2) ∨ (u = f.1.2 ∧ v = f.1.1))
           then Some f.2 else acc)
        None filas.

(** ** The tree of shortest paths *)

(** [camino_de g src l v d]: the list [l] of nodes is a walk of the graph
    from [src] to [v], of total weight [d]. *)
Inductive camino_de (g : Graph Z) (src : node) : list node → node → Z → Prop :=
| camino_src : camino_de g src [src] src 0
| camino_paso l u v w d :
    camino_de g src l u d → edge g u v w →
    camino_de g src (l ++ [v]) v (d + w).

(** The predecessors form a tree rooted at the source: [ord] lists the
    visited nodes in the order of their visits; a predecessor is visited
    before the node, and the distance of the node is that of the
    predecessor plus the weight of the edge between them. *)
Record pred_inv (g : Graph Z) (src : node) (vis : gset node) (ord : list node)
    (st : dijkstra_state Z) : Prop := {
  pt_nodup : NoDup ord;
  pt_vis : ∀ x, x ∈ ord ↔ x ∈ vis;
  pt_root : ∀ v d, distancias st !! v = Some (Fin d) →
                   predecesores st !! v = Some None → v = src;
  pt_edge : ∀ v u, predecesores st !! v = Some (Some u) →
    ∃ i w du, ord !! i = Some u ∧ (∀ j, ord !! j = Some v → i < j)
      ∧ edge g u v w ∧ distancias st !! u = Some (Fin du)
      ∧ distancias st !! v = Some (Fin (du + w))
}.

(** ** Union-Find: paths and ranks *)

(** [on_path s x y]: [y] is met when the parent links are followed from
    [x] up to the root, both ends included. *)
Inductive on_path (s : UnionFind) : node → node → Prop :=
| on_path_here x : on_path s x x
| on_path_step x p y :
    padre s !! x = Some p → p ≠ x → on_path s p y → on_path s x y.

(** Every root stands for at least [2 ^ rank] elements. *)
Definition rank_inv (s : UnionFind) : Prop :=
  ∀ r, padre s !! r = Some r →
    ∃ l, NoDup l ∧ (∀ x, x ∈ l → rep s x r) ∧ 2 ^ rank s r ≤ length l.

(** ** Huffman trees *)

(** The leaves of a tree, from left to right, with their frequencies. *)
Fixpoint hojas (n : NodoHuffman) : list (ascii * nat) :=
  match n with
  | Nodo (Some c) f _ _ => [(c, f)]
  | Nodo None _ i d =>
    match i with Some i => hojas i | None => [] end
    ++ match d with Some d => hojas d | None => [] end
  end.

(** The trees [construir_arbol_huffman] builds: a leaf has no child, an
    inner node has two and holds the sum of their frequencies. *)
Inductive arbol_ok : NodoHuffman → Prop :=
| arbol_hoja c f : arbol_ok (Nodo (Some c) f None None)
| arbol_interno i d :
    arbol_ok i → arbol_ok d →
    arbol_ok (Nodo None (frecuencia i + frecuencia d) (Some i) (Some d)).

(** The number of occurrences of [c] in [l]. *)
Definition veces (c : ascii) (l : list ascii) : nat :=
  length (filter (λ x, x = c) l).

(** The count that a frequency table holds for [c]. *)
Fixpoint cuenta (l : list (ascii * nat)) (c : ascii) : nat :=
  match l with
  | [] => 0
  | (c', n) :: l => if decide (c = c') then n else cuenta l c
  end.

(** A string of the characters 0 and 1. *)
Definition binario (w : string) : Prop :=
  ∀ b, b ∈ String.list_ascii_of_string w → b = "0"%char ∨ b = "1"%char.

Definition hoja_de (cf : ascii * nat) : NodoHuffman :=
  Nodo (Some cf.1) cf.2 None None.

(** ** Weighted path length *)

(** The leaves of a tree with their frequencies and their depths, the
    root being at depth [k]. *)
Fixpoint profundidades (n : NodoHuffman) (k : nat) : list (ascii * nat * nat) :=
  match n with
  | Nodo (Some c) f _ _ => [(c, f, k)]
  | Nodo None _ i d =>
    match i with Some i => profundidades i (S k) | None => [] end
    ++ match d with Some d => profundidades d (S k) | None => [] end
  end.

(** The weighted path length of a tree: the sum, over the leaves, of the
    frequency times the depth. *)
Definition costo (n : NodoHuffman) : nat :=
  sum_list_with (λ p, p.1.2 * p.2) (profundidades n 0).

(** The lists of leaf depths of the binary trees in which every inner
    node has two children: from the root alone, a leaf is split into two
    leaves one level below, any number of times. *)
Inductive valid_depths : list nat → Prop :=
| valid_root : valid_depths [0]
| valid_split d l : valid_depths (d :: l) → valid_depths (S d :: S d :: l)
| valid_perm l l' : l ≡ₚ l' → valid_depths l → valid_depths l'.

(** The cost of placing items of weight [w] at the depths [asg] gives. *)
Definition wsum {A} (w : A → nat) (asg : list (A * nat)) : nat :=
  sum_list_with (λ p, w p.1 * p.2) asg.

(** ** Floats: normal forms, a total order, ranks *)

(** The binary64 number of a positive integer of at most 53 bits, and of
    an integer. *)
Definition canon (s : bool) (c : positive) : spec_float :=
  S754_finite s (Pos.shiftl c (Z.to_N (53 - Zpos (Pos.size c))%Z))
              (Zpos (Pos.size c) - 53)%Z.

Definition zcanon (z : Z) : spec_float :=
  match z with
  | Z0 => S754_zero false
  | Zpos c => canon false c
  | Zneg c => canon true c
  end.

(** A total order on all floats that is the order [<] on those that are
    not NaN: first by sign and kind, then by exponent and mantissa. *)
Definition clave (x : float) : Z * Z * Z :=
  match x with
  | S754_nan => (-3, 0, 0)%Z
  | S754_infinity true => (-2, 0, 0)%Z
  | S754_finite true m e => (-1, - e, Zneg m)%Z
  | S754_zero _ => (0, 0, 0)%Z
  | S754_finite false m e => (1, e, Zpos m)%Z
  | S754_infinity false => (2, 0, 0)%Z
  end.

Definition orden (x y : float) : bool :=
  lex_lt (lex_lt Z.ltb Z.ltb) Z.ltb (clave x) (clave y).

(** The rank of [x] in a list: how many elements are below it. *)
Definition rango_en {A} (lt : A → A → bool) (l : list A) (x : A) : Z :=
  Z.of_nat (length (filter (λ y, lt y x = true) l)).

(** ** Graphs with other weights, sums of weights *)

(** The stack of runs of [merge_sort]: its elements satisfy [P]; the
    stack of their images. *)
Definition stack_ok {A} (P : A → Prop) (st : list (option (list A))) : Prop :=
  Forall (λ o, from_option (Forall P) True o) st.

Definition stack_map {A B} (F : A → B) (st : list (option (list A)))
    : list (option (list B)) :=
  (λ o : option (list A), (λ l : list A, F <$> l) <$> o) <$> st.

(** All the weights of the adjacency. *)
Definition pesos {W} (g : Graph W) : list W := (concat (adj g).*2).*2.

(** A triple of a result list, of the sorted list, of the heap of Prim,
    with its weight replaced. *)
Definition mapa_arista {W1 W2} (f : W1 → W2) (e : node * node * W1)
    : node * node * W2 := (e.1.1, e.1.2, f e.2).
Definition mapa_peso {W1 W2 X Y} (f : W1 → W2) (a : W1 * X * Y)
    : W2 * X * Y := (f a.1.1, a.1.2, a.2).

(** The sum the code accumulates: from the integer [0], in list order. *)
Definition suma_lista `{Numero W} (l : list W) : W := foldl suma cero l.

(** Two results with the same edges, the weights of the second being
    the images of those of the first; the totals are not compared. *)
Definition res_rel {A1 A2} (R : A1 → A2 → Prop)
    (r1 : result A1) (r2 : result A2) : Prop :=
  match r1, r2 with
  | Ok a1, Ok a2 => R a1 a2
  | Raise e1, Raise e2 => e1 = e2
  | OutOfFuel, OutOfFuel => True
  | _, _ => False
  end.

Definition res_sim {W1 W2} (f : W1 → W2)
    : result (list (node * node * W1) * W1) →
      result (list (node * node * W2) * W2) → Prop :=
  res_rel (λ r1 r2, r2.1 = mapa_arista f <$> r1.1).

(** A heap entry of Prim that names an edge of the graph. *)
Definition entry_ok {W} (g : Graph W) (e : prim_entry W) : Prop :=
  match e.2 with
  | Some a => edge g a e.1.2 e.1.1
  | None => True
  end.

(** ** Dijkstra, whatever the numbers *)

(** What holds of the tables once the source is visited. *)
Record dijkstra_gen {W} `{Numero W} (g : Graph W) (src : node)
    (st : dijkstra_state W) : Prop := {
  dg_domD : ∀ v, is_Some (distancias st !! v) ↔ v ∈ nodes g;
  dg_domP : ∀ v, is_Some (predecesores st !! v) ↔ v ∈ nodes g;
  dg_src : distancias st !! src = Some (Fin cero);
  dg_psrc : predecesores st !! src = Some None;
  dg_heap : ∀ d v, (d, v) ∈ ds_heap st → conn g src v;
  dg_lejos : ∀ v, v ∈ nodes g → ¬ conn g src v →
    distancias st !! v = Some Inf ∧ predecesores st !! v = Some None
}.

(** ** Weights that compare equal, bounded integer weights *)

(** The rank of a weight among [0.0] and the weights of the graph,
    counted from that of [0.0]. *)
Definition rango_peso (g : Graph float) (x : float) : Z :=
  (rango_en orden (cero :: pesos g) x
   - rango_en orden (cero :: pesos g) cero)%Z.

(** [x == y] on floats that are numbers. *)
Definition igual (x y : float) : Prop := fmenor x y = false ∧ fmenor y x = false.

(** [x <= y] on floats that are numbers. *)
Definition no_mayor (x y : float) : Prop := fmenor y x = false.

(** The same weights, counted with repetitions, up to [==]. *)
Definition mismos_pesos (l1 l2 : list float) : Prop :=
  ∃ l, l2 ≡ₚ l ∧ Forall2 igual l1 l.

(** The weights are integers of absolute value at most [M], and as many
    of them as the graph has nodes add up to less than 2^53. *)
Definition acotado (g : Graph Z) (M : Z) : Prop :=
  Forall (λ w, (Z.abs w ≤ M)%Z) (pesos g)
  ∧ (Z.of_nat (length (nodes g)) * M < 2 ^ 53)%Z.

(** ** Distances with other numbers *)

(** A distance and a state of the loop with their numbers replaced. *)
Definition dist_map {W1 W2} (f : W1 → W2) (d : dist W1) : dist W2 :=
  match d with
  | Fin x => Fin (f x)
  | Inf => Inf
  end.

Definition estado_map {W1 W2} (f : W1 → W2) (st : dijkstra_state W1)
    : dijkstra_state W2 :=
  mkDS (dist_map f <$> distancias st) (predecesores st)
       ((λ e : dijkstra_entry W1, (f e.1, e.2)) <$> ds_heap st).

(** Every number of the state lies between 0 and [K]. *)
Definition cota (K : Z) (st : dijkstra_state Z) : Prop :=
  Forall (λ e : dijkstra_entry Z, (0 ≤ e.1 ≤ K)%Z) (ds_heap st)
  ∧ ∀ v d, distancias st !! v = Some (Fin d) → (0 ≤ d ≤ K)%Z.

(** ** Example graphs *)

(** Two small graphs with integer weights: a triangle, and two separate
    edges, a graph that is not connected; the graphs [leer_grafo_csv]
    builds from them hold the floats of the weights. *)
Definition filas_triangulo : list (node * node * Z) :=
  [("A", "B", 1%Z); ("B", "C", 2%Z); ("A", "C", 3%Z)].
Definition filas_dos_aristas : list (node * node * Z) :=
  [("A", "B", 1%Z); ("C", "D", 1%Z)].

Definition triangulo_Z : Graph Z := grafo_de_filas filas_triangulo.
Definition dos_aristas_Z : Graph Z := grafo_de_filas filas_dos_aristas.
Definition grafo_triangulo : Graph float := graph_map entero triangulo_Z.
Definition grafo_dos_aristas : Graph float := graph_map entero dos_aristas_Z.

(** The rows D,C,0.3 / C,B,0.2 / B,A,0.1: a path whose weights are not
    integers. *)
Definition grafo_decimal : Graph float :=
  grafo_de_filas [("D", "C", flotante 5404319552844595 (-54));
                  ("C", "B", flotante 3602879701896397 (-54));
                  ("B", "A", flotante 3602879701896397 (-55))].



(** * Lemmas and theorems *)

(** ** Union-Find: representatives and the forest invariant *)

Lemma UFm_bind_eq {A B} (f : A → UFm B) (c : UFm A) s s' a :
  c s = (s', Ok a) → (c ≫= f) s = f a s'.
Proof. intros H. unfold mbind, UFm_bind. by rewrite H. Qed.

Lemma rep_root s x : padre s !! x = Some x → rep s x x.
Proof. exists 0. by constructor. Qed.

Lemma rep_step s x p r : padre s !! x = Some p → p ≠ x → rep s p r → rep s x r.
Proof. intros ?? [n ?]. exists (S n). by econstructor. Qed.

Lemma rep_ind' s (P : node → node → Prop) :
  (∀ x, padre s !! x = Some x → P x x) →
  (∀ x p r, padre s !! x = Some p → p ≠ x → rep s p r → P p r → P x r) →
  ∀ x r, rep s x r → P x r.
Proof.
  intros H0 HS x r [n H]. induction H; [by apply H0|].
  eapply HS; eauto. by exists n.
Qed.

Lemma repn_det s x r n : repn s x r n → ∀ r' n', repn s x r' n' → r = r' ∧ n = n'.
Proof.
  induction 1 as [x Hx|x p r n Hx Hne _ IH]; intros r' n' H'.
  - inversion H' as [|? p' ? m Hx' Hp' Hrest]; simplify_eq; done.
  - inversion H' as [|? p' ? m Hx' Hp' Hrest]; simplify_eq.
    destruct (IH _ _ Hrest) as [-> ->]. done.
Qed.

Lemma rep_det s x r r' : rep s x r → rep s x r' → r = r'.
Proof. intros [n H] [n' H']. by destruct (repn_det _ _ _ _ H _ _ H'). Qed.

Lemma rep_is_root s x r : rep s x r → padre s !! r = Some r.
Proof. revert x r. by apply rep_ind'. Qed.

Lemma rep_registered s x r : rep s x r → registered s x.
Proof. intros [n H]. destruct H; by eexists. Qed.

Lemma rep_root_eq s x r : padre s !! x = Some x → rep s x r → r = x.
Proof. intros Hx H. symmetry. eapply rep_det; [|done]. by apply rep_root. Qed.

Lemma rep_rank s x r : uf_inv s → rep s x r → rank s x ≤ rank s r.
Proof.
  intros Hinv. revert x r. apply rep_ind'; [done|].
  intros x p r Hx Hne _ IH. pose proof (inv_rank _ Hinv _ _ Hx Hne). lia.
Qed.

Lemma rep_rank_lt s x r : uf_inv s → rep s x r → x ≠ r → rank s x < rank s r.
Proof.
  intros Hinv [n H] Hne. destruct H as [|x p r n Hx Hp H]; [done|].
  pose proof (inv_rank _ Hinv _ _ Hx Hp).
  assert (rank s p ≤ rank s r) by (eapply rep_rank; [done|by exists n]). lia.
Qed.

(** Every registered element reaches a root in fewer steps than there
    are registered elements. *)
Lemma repn_exists_aux s :
  uf_inv s →
  ∀ k (seen : gset node) x,
    size (dom (padre s)) - size seen ≤ k →
    seen ⊆ dom (padre s) →
    (∀ y, y ∈ seen → rank s y < rank s x) →
    registered s x →
    ∃ r n, repn s x r n ∧ n + size seen < size (dom (padre s)).
Proof.
  intros Hinv k. induction k as [|k IH]; intros seen x Hk Hsub Hlt Hx.
  - assert (x ∉ seen) by (intros Hin; specialize (Hlt _ Hin); lia).
    assert ({[x]} ∪ seen ⊆ dom (padre s)).
    { apply union_subseteq. split; [|done]. apply singleton_subseteq_l.
      by apply elem_of_dom. }
    apply subseteq_size in H0. rewrite size_union, size_singleton in H0 by set_solver.
    lia.
  - assert (Hnin : x ∉ seen) by (intros Hin; specialize (Hlt _ Hin); lia).
    assert (Hsub' : {[x]} ∪ seen ⊆ dom (padre s)).
    { apply union_subseteq. split; [|done]. apply singleton_subseteq_l.
      by apply elem_of_dom. }
    assert (Hsz : size ({[x]} ∪ seen) = S (size seen)).
    { rewrite size_union, size_singleton by set_solver. done. }
    pose proof (subseteq_size _ _ Hsub') as Hle.
    destruct Hx as [p Hp]. destruct (decide (p = x)) as [->|Hne].
    + exists x, 0. split; [by constructor|]. lia.
    + destruct (IH ({[x]} ∪ seen) p) as (r & n & Hr & Hn); [lia|done| |by eapply inv_closed|].
      { intros y [->%elem_of_singleton|Hy]%elem_of_union.
        - by eapply inv_rank.
        - pose proof (inv_rank _ Hinv _ _ Hp Hne). specialize (Hlt _ Hy). lia. }
      exists r, (S n). split; [by econstructor|]. lia.
Qed.

Lemma repn_exists s x :
  uf_inv s → registered s x → ∃ r n, repn s x r n ∧ n < size (padre s).
Proof.
  intros Hinv Hx.
  destruct (repn_exists_aux s Hinv (size (dom (padre s))) ∅ x) as (r & n & Hr & Hn);
    [lia|set_solver|set_solver|done|].
  exists r, n. split; [done|]. rewrite size_dom in Hn. lia.
Qed.

Lemma uf_inv_forest s : uf_inv s → uf_forest s.
Proof.
  intros Hinv x Hx. destruct (repn_exists s x Hinv Hx) as (r & n & Hr & _).
  exists r. by exists n.
Qed.

(** Path compression: pointing [x] at its own root changes no
    representative. *)
Lemma rep_compress s x r :
  rep s x r → x ≠ r →
  ∀ y ry, rep (mkUF (<[x:=r]> (padre s)) (rango s)) y ry ↔ rep s y ry.
Proof.
  intros Hxr Hne y ry.
  assert (Hroot : padre s !! r = Some r) by by eapply rep_is_root.
  split.
  - revert y ry. apply rep_ind'; simpl.
    + intros y Hy. destruct (decide (x = y)) as [->|Hxy].
      * rewrite lookup_insert_eq in Hy. congruence.
      * rewrite lookup_insert_ne in Hy by done. by apply rep_root.
    + intros y p ry Hy Hp _ IH. destruct (decide (x = y)) as [->|Hxy].
      * rewrite lookup_insert_eq in Hy. simplify_eq.
        by rewrite (rep_root_eq _ _ _ Hroot IH).
      * rewrite lookup_insert_ne in Hy by done. by eapply rep_step.
  - revert y ry. apply rep_ind'.
    + intros y Hy. apply rep_root; simpl.
      rewrite lookup_insert_ne; [done|]. intros ->.
      apply Hne. symmetry. by eapply rep_root_eq.
    + intros y p ry Hy Hp Hpr IH. destruct (decide (x = y)) as [->|Hxy].
      * assert (ry = r) as ->.
        { eapply rep_det; [|done]. by eapply rep_step. }
        eapply rep_step; simpl; [by rewrite lookup_insert_eq|done|].
        apply rep_root; simpl. by rewrite lookup_insert_ne.
      * eapply rep_step; simpl; [by rewrite lookup_insert_ne|done|done].
Qed.

Lemma encontrar_rec_S fuel x s :
  encontrar_rec (S fuel) x s =
  match padre s !! x with
  | None => (s, Raise (KeyError x))
  | Some p =>
    if decide (p ≠ x) then
      match encontrar_rec fuel p s with
      | (s1, Ok r) => (mkUF (<[x:=r]> (padre s1)) (rango s1), Ok r)
      | (s1, Raise e) => (s1, Raise e)
      | (s1, OutOfFuel) => (s1, OutOfFuel)
      end
    else (s, Ok p)
  end.
Proof.
  cbn [encontrar_rec]. unfold mbind at 1. unfold UFm_bind at 1.
  unfold get_padre at 1. unfold getitem at 1.
  destruct (padre s !! x) as [p|] eqn:Hx; [|done].
  destruct (decide (p ≠ x)).
  - unfold mbind at 1. unfold UFm_bind at 1.
    destruct (encontrar_rec fuel p s) as [s1 [r| |]]; [|done..].
    unfold mbind, UFm_bind, set_padre, get_padre, getitem. simpl.
    by rewrite lookup_insert_eq.
  - unfold get_padre, getitem. by rewrite Hx.
Qed.

Lemma encontrar_rec_repn s x r n :
  uf_inv s → repn s x r n →
  ∀ fuel, n < fuel →
    ∃ s', encontrar_rec fuel x s = (s', Ok r) ∧ find_post s x s' r.
Proof.
  intros Hinv H. induction H as [x Hx|x p r n Hx Hne H IH]; intros fuel Hf.
  - destruct fuel as [|fuel]; [lia|]. exists s. split.
    + rewrite encontrar_rec_S, Hx. by rewrite decide_False by (intros ?; done).
    + split; try done. by apply rep_root.
  - destruct fuel as [|fuel]; [lia|].
    destruct (IH fuel) as (s1 & Hrun & Hpost); [lia|].
    destruct Hpost as [Hrep1 Hinv1 Hrango1 Hdom1 Hreps1].
    assert (Hxr : rep s x r) by (by eapply rep_step).
    assert (Hxne : x ≠ r).
    { intros ->. apply rep_is_root in Hxr. congruence. }
    exists (mkUF (<[x:=r]> (padre s1)) (rango s1)). split.
    + rewrite encontrar_rec_S, Hx. rewrite decide_True by done. by rewrite Hrun.
    + assert (Hrk : ∀ y, rank (mkUF (<[x:=r]> (padre s1)) (rango s1)) y = rank s y).
      { intros y. unfold rank. simpl. by rewrite Hrango1. }
      split; [done| |by simpl|..].
      * split; simpl.
        -- rewrite dom_insert_L, Hrango1, Hdom1, (inv_dom _ Hinv).
           assert (x ∈ dom (padre s)) by (apply elem_of_dom; by eexists).
           set_solver.
        -- intros y q Hy. unfold registered; simpl.
           destruct (decide (x = y)) as [->|Hxy].
           ++ rewrite lookup_insert_eq in Hy. simplify_eq.
              rewrite lookup_insert_ne by done.
              apply elem_of_dom. rewrite Hdom1. apply elem_of_dom.
              apply rep_is_root in Hxr. by eexists.
           ++ rewrite lookup_insert_ne in Hy by done.
              apply (inv_closed _ Hinv1) in Hy.
              destruct (decide (x = q)) as [->|?];
                [by rewrite lookup_insert_eq|by rewrite lookup_insert_ne].
        -- intros y q Hy Hq. rewrite !Hrk.
           destruct (decide (x = y)) as [->|Hxy].
           ++ rewrite lookup_insert_eq in Hy. simplify_eq.
              by apply rep_rank_lt.
           ++ rewrite lookup_insert_ne in Hy by done.
              pose proof (inv_rank _ Hinv1 _ _ Hy Hq) as Hlt.
              unfold rank in Hlt |- *. by rewrite Hrango1 in Hlt.
      * simpl. rewrite dom_insert_L, Hdom1.
        assert (x ∈ dom (padre s)) by (apply elem_of_dom; by eexists).
        set_solver.
      * intros y ry. rewrite rep_compress; [apply Hreps1| |done].
        by apply Hreps1.
Qed.

Lemma encontrar_ok s x :
  uf_inv s → registered s x →
  ∃ s' r, encontrar x s = (s', Ok r) ∧ find_post s x s' r.
Proof.
  intros Hinv Hx. destruct (repn_exists s x Hinv Hx) as (r & n & Hr & Hn).
  destruct (encontrar_rec_repn s x r n Hinv Hr (S (size (padre s)))) as (s' & ? & ?); [lia|].
  by exists s', r.
Qed.

(** On an element that was never registered, [encontrar] raises
    [KeyError] and leaves the object as it was. *)
Lemma encontrar_unregistered s x :
  padre s !! x = None → encontrar x s = (s, Raise (KeyError x)).
Proof.
  intros Hx. unfold encontrar. by rewrite encontrar_rec_S, Hx.
Qed.

Lemma rep_padre_ext s s' x r : padre s = padre s' → rep s x r → rep s' x r.
Proof.
  intros Heq. revert x r. apply rep_ind'.
  - intros x Hx. apply rep_root. by rewrite <-Heq.
  - intros x p r Hx Hp _ IH. eapply rep_step; [by rewrite <-Heq|done|done].
Qed.

(** Linking the root [c] below the root [p]. *)
Lemma rep_link s c p rg :
  padre s !! c = Some c → padre s !! p = Some p → c ≠ p →
  ∀ a ra', rep (mkUF (<[c:=p]> (padre s)) rg) a ra' ↔
           ∃ ra, rep s a ra ∧ ra' = (if decide (ra = c) then p else ra).
Proof.
  intros Hc Hp Hne a ra'. split.
  - revert a ra'. apply rep_ind'; simpl.
    + intros a Ha. destruct (decide (c = a)) as [->|Hca].
      * rewrite lookup_insert_eq in Ha. congruence.
      * rewrite lookup_insert_ne in Ha by done. exists a.
        split; [by apply rep_root|]. by rewrite decide_False.
    + intros a q ra' Ha Hq Hrep (rq & Hrq & ->).
      destruct (decide (c = a)) as [->|Hca].
      * rewrite lookup_insert_eq in Ha. simplify_eq.
        rewrite (rep_root_eq _ _ _ Hp Hrq). exists a.
        split; [by apply rep_root|]. rewrite (decide_True (P:=a = a)) by done.
        by destruct (decide (q = a)).
      * rewrite lookup_insert_ne in Ha by done. exists rq.
        split; [by eapply rep_step|done].
  - intros (ra & Hra & ->). revert a ra Hra. apply rep_ind'.
    + intros a Ha. destruct (decide (a = c)) as [->|Hac].
      * eapply rep_step; simpl; [by rewrite lookup_insert_eq|done|].
        apply rep_root; simpl. by rewrite lookup_insert_ne.
      * apply rep_root; simpl. by rewrite lookup_insert_ne.
    + intros a q ra Ha Hq _ IH.
      eapply rep_step; simpl; [|done|done].
      rewrite lookup_insert_ne; [done|]. intros ->. congruence.
Qed.

Lemma link_inv s c p rg :
  uf_inv s →
  padre s !! c = Some c → padre s !! p = Some p → c ≠ p →
  dom rg = dom (rango s) →
  (∀ y, y ≠ p → rg !! y = rango s !! y) →
  rank s p ≤ default 0 (rg !! p) →
  rank s c < default 0 (rg !! p) →
  uf_inv (mkUF (<[c:=p]> (padre s)) rg).
Proof.
  intros Hinv Hc Hp Hne Hdom Hsame Hle Hlt. split; simpl.
  - rewrite Hdom, (inv_dom _ Hinv), dom_insert_L.
    assert (c ∈ dom (padre s)) by (apply elem_of_dom; by eexists).
    set_solver.
  - intros y q Hy. unfold registered; simpl.
    assert (registered s q) as Hq.
    { destruct (decide (c = y)) as [->|Hcy].
      - rewrite lookup_insert_eq in Hy. simplify_eq. by eexists.
      - rewrite lookup_insert_ne in Hy by done. by eapply inv_closed. }
    destruct (decide (c = q)) as [->|?];
      [by rewrite lookup_insert_eq|by rewrite lookup_insert_ne].
  - intros y q Hy Hq. unfold rank; simpl.
    destruct (decide (c = y)) as [->|Hcy].
    + rewrite lookup_insert_eq in Hy. simplify_eq.
      rewrite (Hsame y) by done. done.
    + rewrite lookup_insert_ne in Hy by done.
      pose proof (inv_rank _ Hinv _ _ Hy Hq) as Hr. unfold rank in Hr.
      assert (y ≠ p) by (intros ->; congruence).
      rewrite (Hsame y) by done.
      destruct (decide (q = p)) as [->|Hqp].
      * unfold rank in Hle. lia.
      * by rewrite (Hsame q).
Qed.

Lemma same_set_link s c p rg x y :
  padre s !! c = Some c → padre s !! p = Some p → c ≠ p →
  (rep s x c ∧ rep s y p ∨ rep s x p ∧ rep s y c) →
  ∀ a b, same_set (mkUF (<[c:=p]> (padre s)) rg) a b ↔ merged s x y a b.
Proof.
  intros Hc Hp Hne Hxy a b. unfold same_set at 1. split.
  - intros (r & Ha & Hb).
    apply (rep_link s c p rg Hc Hp Hne) in Ha as (ra & Ha & Hra).
    apply (rep_link s c p rg Hc Hp Hne) in Hb as (rb & Hb & Hrb).
    unfold merged, same_set.
    repeat case_decide; subst; destruct Hxy as [[Hx Hy]|[Hx Hy]];
      first [ by left; eauto 10 | by right; left; eauto 10 | by right; right; eauto 10 ].
  - assert (Hcp : rep (mkUF (<[c:=p]> (padre s)) rg) c p).
    { apply rep_link; [done..|]. exists c. split; [by apply rep_root|].
      by rewrite decide_True. }
    assert (Hto : ∀ z rz, rep s z rz →
              rep (mkUF (<[c:=p]> (padre s)) rg) z (if decide (rz = c) then p else rz)).
    { intros z rz Hz. apply rep_link; [done..|]. eauto. }
    assert (Hsame : ∀ z z', same_set s z z' → ∃ r,
              rep (mkUF (<[c:=p]> (padre s)) rg) z r ∧
              rep (mkUF (<[c:=p]> (padre s)) rg) z' r).
    { intros z z' (r & Hz & Hz'). eauto. }
    assert (Hjoin : ∀ z z', (rep s z c ∧ rep s z' p) → 
              rep (mkUF (<[c:=p]> (padre s)) rg) z p ∧
              rep (mkUF (<[c:=p]> (padre s)) rg) z' p).
    { intros z z' [Hz Hz']. apply Hto in Hz, Hz'.
      rewrite decide_True in Hz by done. rewrite decide_False in Hz' by done. done. }
    assert (Hvia : ∀ z r, same_set s z x → rep s x r → rep s z r).
    { intros z r (r' & Hz & Hx) Hr. by rewrite (rep_det _ _ _ _ Hr Hx). }
    assert (Hvia' : ∀ z r, same_set s z y → rep s y r → rep s z r).
    { intros z r (r' & Hz & Hx) Hr. by rewrite (rep_det _ _ _ _ Hr Hx). }
    assert (Hsym : ∀ z z', same_set s z z' → same_set s z' z).
    { intros z z' (r & ? & ?). by exists r. }
    intros [Hab|[[Hax Hyb]|[Hay Hxb]]]; [by apply Hsame|..]; exists p.
    + destruct Hxy as [[Hx Hy]|[Hx Hy]].
      * apply Hjoin; eauto.
      * apply and_comm, Hjoin; eauto.
    + destruct Hxy as [[Hx Hy]|[Hx Hy]].
      * apply and_comm, Hjoin; eauto.
      * apply Hjoin; eauto.
Qed.

Lemma unir_ok s x y :
  uf_inv s → registered s x → registered s y →
  ∃ s' b, unir x y s = (s', Ok b) ∧ unir_post s x y s' b.
Proof.
  intros Hinv Hx Hy.
  destruct (encontrar_ok s x Hinv Hx) as (s1 & r1 & Hrun1 & [Hrep1 Hinv1 Hrg1 Hdom1 Hreps1]).
  assert (Hy1 : registered s1 y).
  { apply elem_of_dom. rewrite Hdom1. by apply elem_of_dom. }
  destruct (encontrar_ok s1 y Hinv1 Hy1) as (s2 & r2 & Hrun2 & [Hrep2 Hinv2 Hrg2 Hdom2 Hreps2]).
  assert (Hreps : ∀ a ra, rep s2 a ra ↔ rep s a ra).
  { intros a ra. by rewrite Hreps2, Hreps1. }
  assert (Hsames : ∀ a c, same_set s2 a c ↔ same_set s a c).
  { intros a c. unfold same_set. by setoid_rewrite Hreps. }
  apply Hreps1 in Hrep2.
  unfold unir. rewrite (UFm_bind_eq _ _ _ _ _ Hrun1), (UFm_bind_eq _ _ _ _ _ Hrun2).
  destruct (decide (r1 = r2)) as [->|Hne].
  { exists s2, false. split; [done|]. split; try done.
    - by rewrite Hdom2, Hdom1.
    - split; [|done]. intros _. by exists r2. }
  assert (Hnot : ¬ same_set s x y).
  { intros (r & Hxr & Hyr). apply Hne.
    by rewrite (rep_det _ _ _ _ Hrep1 Hxr), (rep_det _ _ _ _ Hrep2 Hyr). }
  assert (Hroot1 : padre s2 !! r1 = Some r1).
  { eapply rep_is_root. apply Hreps. done. }
  assert (Hroot2 : padre s2 !! r2 = Some r2).
  { eapply rep_is_root. apply Hreps. done. }
  assert (is_Some (rango s2 !! r1)) as [k1 Hk1].
  { apply elem_of_dom. rewrite (inv_dom _ Hinv2). apply elem_of_dom. by eexists. }
  assert (is_Some (rango s2 !! r2)) as [k2 Hk2].
  { apply elem_of_dom. rewrite (inv_dom _ Hinv2). apply elem_of_dom. by eexists. }
  assert (Hrk1 : rank s2 r1 = k1) by (unfold rank; by rewrite Hk1).
  assert (Hrk2 : rank s2 r2 = k2) by (unfold rank; by rewrite Hk2).
  assert (Hgen : ∀ c p rg,
    (c = r1 ∧ p = r2 ∨ c = r2 ∧ p = r1) →
    uf_inv (mkUF (<[c:=p]> (padre s2)) rg) →
    unir_post s x y (mkUF (<[c:=p]> (padre s2)) rg) true).
  { intros c p rg Hcp Hinv'. split; try done.
    - simpl. rewrite dom_insert_L, Hdom2, Hdom1.
      assert (c ∈ dom (padre s2)).
      { apply elem_of_dom. destruct Hcp as [[-> _]|[-> _]]; by eexists. }
      rewrite Hdom2, Hdom1 in H. set_solver.
    - intros a d. rewrite (same_set_link s2 c p rg x y).
      + unfold merged. by rewrite !Hsames.
      + destruct Hcp as [[-> _]|[-> _]]; done.
      + destruct Hcp as [[_ ->]|[_ ->]]; done.
      + destruct Hcp as [[-> ->]|[-> ->]]; done.
      + destruct Hcp as [[-> ->]|[-> ->]]; [left|right]; by rewrite !Hreps. }
  unfold mbind at 1. unfold UFm_bind at 1, get_rango at 1, getitem. rewrite Hk1.
  unfold mbind at 1. unfold UFm_bind at 1, get_rango at 1, getitem. rewrite Hk2.
  destruct (decide (k1 < k2)) as [Hlt|Hnlt]; [|destruct (decide (k2 < k1)) as [Hgt|Hngt]].
  - eexists _, true. split; [reflexivity|]. apply Hgen; [by left|].
    apply link_inv; try done; unfold rank in *; simpl; rewrite ?Hk1, ?Hk2; simpl; lia.
  - eexists _, true. split; [reflexivity|]. apply Hgen; [by right|].
    apply link_inv; try done; unfold rank in *; simpl; rewrite ?Hk1, ?Hk2; simpl; lia.
  - eexists _, true. split; [reflexivity|]. apply Hgen; [by right|].
    apply link_inv; try done; simpl.
    + rewrite dom_insert_L.
      assert (r1 ∈ dom (rango s2)) by (apply elem_of_dom; by eexists). set_solver.
    + intros z Hz. by rewrite lookup_insert_ne.
    + rewrite lookup_insert_eq. simpl. lia.
    + rewrite lookup_insert_eq. simpl. lia.
Qed.

(** ** Sequences of calls *)

Section linked.
Context {A : Type}.
Implicit Types ops : list (A * A).

Lemma linked_mono ops ops' a b :
  (∀ p, p ∈ ops → p ∈ ops') → linked ops a b → linked ops' a b.
Proof.
  intros Hsub. unfold linked, rtsc. apply rtc_subrel.
  intros x y [?|?]; [left|right]; by apply Hsub.
Qed.

Lemma linked_pair ops x y : (x, y) ∈ ops → linked ops x y.
Proof. intros. by apply rtsc_lr. Qed.

#[global] Instance linked_equiv ops : Equivalence (linked ops).
Proof. unfold linked. apply _. Qed.

Lemma linked_snoc ops x y a b :
  linked (ops ++ [(x, y)]) a b ↔
  linked ops a b ∨ (linked ops a x ∧ linked ops y b)
  ∨ (linked ops a y ∧ linked ops x b).
Proof.
  split.
  - intros H. unfold linked, rtsc in H.
    induction H as [a|a a' b Hstep _ IH]; [by left|].
    assert (Hcase : linked ops a a' ∨ (a = x ∧ a' = y) ∨ (a = y ∧ a' = x)).
    { destruct Hstep as [Hs|Hs]; apply elem_of_app in Hs as [Hs|Hs].
      - left. by apply rtsc_lr.
      - apply list_elem_of_singleton in Hs. simplify_eq. right. by left.
      - left. by apply rtsc_rl.
      - apply list_elem_of_singleton in Hs. simplify_eq. right. by right. }
    destruct Hcase as [Hl|[[-> ->]|[-> ->]]].
    + destruct IH as [IH|[[IH1 IH2]|[IH1 IH2]]].
      * left. by etrans.
      * right; left. split; [by etrans|done].
      * right; right. split; [by etrans|done].
    + destruct IH as [IH|[[IH1 IH2]|[IH1 IH2]]].
      * right; left. done.
      * left. by etrans; [symmetry|].
      * left. done.
    + destruct IH as [IH|[[IH1 IH2]|[IH1 IH2]]].
      * right; right. done.
      * left. done.
      * left. by etrans; [symmetry|].
  - assert (Hm : ∀ c d, linked ops c d → linked (ops ++ [(x, y)]) c d).
    { intros c d. apply linked_mono. intros p Hp. apply elem_of_app. by left. }
    assert (Hxy : linked (ops ++ [(x, y)]) x y).
    { apply linked_pair. apply elem_of_app. right. by apply list_elem_of_singleton. }
    intros [H|[[H1 H2]|[H1 H2]]].
    + by apply Hm.
    + etrans; [by apply Hm|]. etrans; [done|]. by apply Hm.
    + etrans; [by apply Hm|]. etrans; [by symmetry|]. by apply Hm.
Qed.

End linked.

Lemma uf_init_lookup elementos x p :
  padre (uf_init elementos) !! x = Some p ↔ x ∈ elementos ∧ p = x.
Proof.
  simpl. split.
  - intros H%elem_of_list_to_map_2. apply list_elem_of_fmap in H as (e & ? & ?).
    by simplify_eq.
  - intros [Hx ->]. induction elementos as [|e l IH]; [by apply elem_of_nil in Hx|].
    simpl. destruct (decide (x = e)) as [->|Hne].
    + by rewrite lookup_insert_eq.
    + rewrite lookup_insert_ne by done. apply IH.
      apply elem_of_cons in Hx as [?|?]; done.
Qed.

Lemma uf_init_dom_rango elementos :
  dom (rango (uf_init elementos)) = dom (padre (uf_init elementos)).
Proof.
  simpl. rewrite !dom_list_to_map_L, <-!list_fmap_compose.
  f_equal.
Qed.

Lemma uf_init_inv elementos : uf_inv (uf_init elementos).
Proof.
  split.
  - apply uf_init_dom_rango.
  - intros x p [Hx ->]%uf_init_lookup. exists x. by apply uf_init_lookup.
  - intros x p [Hx ->]%uf_init_lookup. done.
Qed.

Lemma uf_init_registered elementos x :
  registered (uf_init elementos) x ↔ x ∈ elementos.
Proof.
  split.
  - intros [p [? _]%uf_init_lookup]. done.
  - intros. exists x. by apply uf_init_lookup.
Qed.

Lemma uf_init_rep elementos x r :
  rep (uf_init elementos) x r ↔ x ∈ elementos ∧ r = x.
Proof.
  split.
  - intros [n H]. destruct H as [x Hx|x p r n Hx Hp _].
    + by apply uf_init_lookup in Hx as [? _].
    + apply uf_init_lookup in Hx as [? ->]. done.
  - intros [Hx ->]. apply rep_root. by apply uf_init_lookup.
Qed.

Lemma linked_nil {A} (a b : A) : linked [] a b ↔ a = b.
Proof.
  split; [|by intros ->].
  intros H. unfold linked, rtsc in H. induction H as [|a a' b [H|H]]; [done|..];
    by apply elem_of_nil in H.
Qed.

Lemma same_set_refl s x : uf_inv s → registered s x → same_set s x x.
Proof.
  intros Hinv Hx. destruct (uf_inv_forest s Hinv x Hx) as [r Hr]. by exists r.
Qed.

Lemma registered_dom s s' x :
  dom (padre s') = dom (padre s) → registered s' x ↔ registered s x.
Proof. intros Hdom. unfold registered. by rewrite <-!elem_of_dom, Hdom. Qed.

Lemma uf_unions_inv elementos ops s :
  uf_unions elementos ops s → unions_inv elementos ops s.
Proof.
  induction 1 as [|ops s x y s' b _ IH Hx Hy Hrun].
  - split.
    + apply uf_init_inv.
    + apply uf_init_registered.
    + intros a b Ha Hb. rewrite linked_nil. unfold same_set.
      setoid_rewrite uf_init_rep. naive_solver.
  - destruct IH as [Hinv Hreg Hsame].
    destruct (unir_ok s x y Hinv) as (s'' & b' & Hrun' & Hpost);
      [by apply Hreg..|].
    rewrite Hrun in Hrun'. simplify_eq. destruct Hpost as [Hinv' Hdom' Hf Hs' Hr'].
    split; [done| |].
    + intros z. rewrite <-Hreg. by apply registered_dom.
    + intros a c Ha Hc. rewrite Hs', linked_snoc.
      destruct b'.
      * unfold merged. by rewrite !Hsame.
      * rewrite Hsame by done. split; [by left|].
        assert (linked ops x y) as Hxy by (by apply Hsame, Hf).
        intros [H|[[H1 H2]|[H1 H2]]]; [done|..].
        -- etrans; [exact H1|]. etrans; [exact Hxy|exact H2].
        -- etrans; [exact H1|]. etrans; [symmetry; exact Hxy|exact H2].
Qed.

Lemma mismo_conjunto_ok s a b :
  uf_inv s → registered s a → registered s b →
  ∃ s' t, mismo_conjunto a b s = (s', Ok t) ∧ (t = true ↔ same_set s a b)
          ∧ uf_inv s' ∧ (∀ y ry, rep s' y ry ↔ rep s y ry).
Proof.
  intros Hinv Ha Hb.
  destruct (encontrar_ok s a Hinv Ha) as (s1 & r1 & Hrun1 & [Hrep1 Hinv1 Hrg1 Hdom1 Hreps1]).
  assert (Hb1 : registered s1 b) by (by apply (registered_dom s)).
  destruct (encontrar_ok s1 b Hinv1 Hb1) as (s2 & r2 & Hrun2 & [Hrep2 Hinv2 Hrg2 Hdom2 Hreps2]).
  exists s2, (bool_decide (r1 = r2)). split; [|split; [|split]].
  - unfold mismo_conjunto.
    by rewrite (UFm_bind_eq _ _ _ _ _ Hrun1), (UFm_bind_eq _ _ _ _ _ Hrun2).
  - rewrite bool_decide_eq_true. apply Hreps1 in Hrep2. split.
    + intros ->. by exists r2.
    + intros (r & Hra & Hrb).
      by rewrite (rep_det _ _ _ _ Hrep1 Hra), (rep_det _ _ _ _ Hrep2 Hrb).
  - done.
  - intros y ry. by rewrite Hreps2, Hreps1.
Qed.

Lemma encontrar_any_inv s x :
  uf_inv s →
  uf_inv (encontrar x s).1 ∧ dom (padre (encontrar x s).1) = dom (padre s).
Proof.
  intros Hinv. destruct (padre s !! x) as [p|] eqn:Hx.
  - destruct (encontrar_ok s x Hinv) as (s' & r & -> & Hpost); [by eexists|].
    simpl. split; [apply Hpost|apply Hpost].
  - by rewrite encontrar_unregistered.
Qed.

Lemma unir_any_inv s x y :
  uf_inv s →
  uf_inv (unir x y s).1 ∧ dom (padre (unir x y s).1) = dom (padre s).
Proof.
  intros Hinv. destruct (padre s !! x) as [p|] eqn:Hx.
  - destruct (encontrar_ok s x Hinv) as (s1 & r1 & Hrun1 & Hpost1); [by eexists|].
    destruct (padre s1 !! y) as [q|] eqn:Hy.
    + assert (registered s y).
      { apply (registered_dom s s1); [apply Hpost1|by eexists]. }
      destruct (unir_ok s x y Hinv) as (s' & b & -> & Hpost); [by eexists|done|].
      simpl. split; apply Hpost.
    + unfold unir. rewrite (UFm_bind_eq _ _ _ _ _ Hrun1).
      unfold mbind, UFm_bind. rewrite encontrar_unregistered by done. simpl.
      split; apply Hpost1.
  - unfold unir. unfold mbind, UFm_bind. by rewrite encontrar_unregistered.
Qed.

Lemma uf_reachable_inv elementos s :
  uf_reachable elementos s →
  uf_inv s ∧ ∀ x, registered s x ↔ x ∈ elementos.
Proof.
  induction 1 as [|s x _ [IH1 IH2]|s x y _ [IH1 IH2]].
  - split; [apply uf_init_inv|apply uf_init_registered].
  - destruct (encontrar_any_inv s x IH1) as [? Hdom]. split; [done|].
    intros z. rewrite <-IH2. by apply registered_dom.
  - destruct (unir_any_inv s x y IH1) as [? Hdom]. split; [done|].
    intros z. rewrite <-IH2. by apply registered_dom.
Qed.

(** Every sequence of [unir] calls on registered elements runs to the
    end. *)
Lemma uf_unions_total elementos ops :
  (∀ x y, (x, y) ∈ ops → x ∈ elementos ∧ y ∈ elementos) →
  ∃ s, uf_unions elementos ops s.
Proof.
  induction ops as [|[x y] ops IH] using rev_ind; intros Hops.
  - eexists. constructor.
  - destruct IH as [s Hs].
    { intros a b Hab. apply Hops. apply elem_of_app. by left. }
    destruct (Hops x y) as [Hx Hy].
    { apply elem_of_app. right. by apply list_elem_of_singleton. }
    pose proof (uf_unions_inv _ _ _ Hs) as [Hinv Hreg _].
    destruct (unir_ok s x y Hinv) as (s' & b & Hrun & _); [by apply Hreg..|].
    exists s'. by econstructor.
Qed.

(** C6 — Union-Find soundness.  After any sequence [ops] of [unir] calls
    on registered elements, [encontrar(a) == encontrar(b)] evaluates to
    [True] exactly when [a] and [b] are connected by a chain of the
    unions; a further [unir(x, y)] returns [False] exactly when [x] and
    [y] are already connected, and then changes the answer for no pair,
    and returns [True] exactly when they are not, and then joins the two
    sets and nothing else. *)
Theorem C6_union_find_soundness elementos ops s :
  uf_unions elementos ops s →
  (∀ a b, a ∈ elementos → b ∈ elementos →
     ∃ s' t, mismo_conjunto a b s = (s', Ok t) ∧ (t = true ↔ linked ops a b)) ∧
  (∀ x y, x ∈ elementos → y ∈ elementos →
     ∃ s' r, unir x y s = (s', Ok r) ∧
       (r = false ↔ linked ops x y) ∧
       (r = true ↔ ¬ linked ops x y) ∧
       (∀ a b, a ∈ elementos → b ∈ elementos →
          ∃ s1 t s1' t',
            mismo_conjunto a b s = (s1, Ok t) ∧
            mismo_conjunto a b s' = (s1', Ok t') ∧
            (r = false → t' = t) ∧
            (r = true →
               (t' = true ↔ t = true ∨ (linked ops a x ∧ linked ops y b)
                            ∨ (linked ops a y ∧ linked ops x b))))).
Proof.
  intros Hu. pose proof (uf_unions_inv _ _ _ Hu) as [Hinv Hreg Hsame].
  assert (Hfind : ∀ ops s, unions_inv elementos ops s →
            ∀ a b, a ∈ elementos → b ∈ elementos →
            ∃ s' t, mismo_conjunto a b s = (s', Ok t) ∧ (t = true ↔ linked ops a b)).
  { intros ops0 s0 [Hinv0 Hreg0 Hsame0] a b Ha Hb.
    destruct (mismo_conjunto_ok s0 a b Hinv0) as (s' & t & Hrun & Ht & _);
      [by apply Hreg0..|].
    exists s', t. split; [done|]. by rewrite Ht, Hsame0. }
  split; [by apply Hfind|].
  intros x y Hx Hy.
  destruct (unir_ok s x y Hinv) as (s' & r & Hrun & Hpost); [by apply Hreg..|].
  assert (Hu' : uf_unions elementos (ops ++ [(x, y)]) s') by (by econstructor).
  pose proof (uf_unions_inv _ _ _ Hu') as Hinv'.
  destruct Hpost as [_ _ Hf _ _].
  exists s', r. split; [done|]. rewrite Hsame in Hf by done.
  split; [done|]. split.
  { rewrite <-Hf. by destruct r. }
  intros a b Ha Hb.
  destruct (Hfind ops s (Build_unions_inv _ _ _ Hinv Hreg Hsame) a b Ha Hb)
    as (s1 & t & Hrun1 & Ht).
  destruct (Hfind _ s' Hinv' a b Ha Hb) as (s1' & t' & Hrun1' & Ht').
  exists s1, t, s1', t'. split; [done|]. split; [done|].
  rewrite linked_snoc in Ht'. split.
  - intros Hr. apply Hf in Hr. apply eq_true_iff_eq. rewrite Ht, Ht'.
    split; [|by left]. intros [H|[[H1 H2]|[H1 H2]]]; [done|..].
    + etrans; [exact H1|]. etrans; [exact Hr|exact H2].
    + etrans; [exact H1|]. etrans; [symmetry; exact Hr|exact H2].
  - intros _. by rewrite Ht', Ht.
Qed.

Lemma C6_union_find_soundness_witness :
  ∃ s, uf_unions ["A"; "B"; "C"] [("A", "B")] s ∧
  (∀ a b, a ∈ ["A"; "B"; "C"] → b ∈ ["A"; "B"; "C"] →
     ∃ s' t, mismo_conjunto a b s = (s', Ok t)
             ∧ (t = true ↔ linked [("A", "B")] a b)).
Proof.
  assert (H : ∃ s, uf_unions ["A"; "B"; "C"] [("A", "B")] s).
  { eexists. eapply (uf_unions_unir _ [] _ "A" "B" _ true).
    - constructor.
    - apply elem_of_cons. by left.
    - apply elem_of_cons. right. apply elem_of_cons. by left.
    - vm_compute. reflexivity. }
  destruct H as [s Hs]. exists s. split; [exact Hs|].
  exact (proj1 (C6_union_find_soundness _ _ _ Hs)).
Defined.

(** C10 — [encontrar] never changes the partition.  In every object
    reachable from [UnionFind(elementos)] the parent map is a forest whose
    roots are self-loops; [encontrar(x)] returns the root of a registered
    [x] (the recursion ends), raises [KeyError] on any other [x] and then
    changes nothing; afterwards the parent map is still such a forest and
    every registered [y] has the representative it had before, which is
    what [encontrar(y)] returns before as well as after the call. *)
Theorem C10_encontrar_preserves_partition elementos s x :
  uf_reachable elementos s →
  uf_forest s ∧
  ∃ s' o, encontrar x s = (s', o) ∧
    (x ∈ elementos → ∃ r, o = Ok r ∧ rep s x r) ∧
    (x ∉ elementos → o = Raise (KeyError x) ∧ s' = s) ∧
    uf_forest s' ∧
    (∀ y, y ∈ elementos →
       ∃ r s1 s2, rep s y r ∧ rep s' y r ∧
                  encontrar y s = (s1, Ok r) ∧ encontrar y s' = (s2, Ok r)).
Proof.
  intros Hr. destruct (uf_reachable_inv _ _ Hr) as [Hinv Hreg].
  split; [by apply uf_inv_forest|].
  pose proof (uf_reachable_encontrar _ _ x Hr) as Hr'.
  destruct (uf_reachable_inv _ _ Hr') as [Hinv' Hreg'].
  destruct (encontrar x s) as [s' o] eqn:Hrun. simpl in *.
  exists s', o. split; [done|].
  assert (Hreps : ∀ y ry, rep s' y ry ↔ rep s y ry).
  { destruct (decide (registered s x)) as [Hx|Hx].
    - destruct (encontrar_ok s x Hinv Hx) as (s'' & r & Hrun' & Hpost).
      rewrite Hrun in Hrun'. simplify_eq. apply Hpost.
    - rewrite encontrar_unregistered in Hrun; [by simplify_eq|].
      by apply eq_None_not_Some. }
  split; [|split; [|split]].
  - intros Hx. destruct (encontrar_ok s x Hinv) as (s'' & r & Hrun' & Hpost);
      [by apply Hreg|].
    rewrite Hrun in Hrun'. simplify_eq. exists r. split; [done|apply Hpost].
  - intros Hx. rewrite encontrar_unregistered in Hrun; [by simplify_eq|].
    apply eq_None_not_Some. by rewrite <-Hreg in Hx.
  - by apply uf_inv_forest.
  - intros y Hy.
    destruct (encontrar_ok s y Hinv) as (s1 & r & Hrun1 & Hpost1); [by apply Hreg|].
    destruct (encontrar_ok s' y Hinv') as (s2 & r' & Hrun2 & Hpost2); [by apply Hreg'|].
    assert (r' = r) as ->.
    { eapply rep_det; [apply Hpost2|]. apply Hreps, Hpost1. }
    exists r, s1, s2. split; [apply Hpost1|]. split; [apply Hpost2|done].
Qed.

Lemma C10_encontrar_preserves_partition_witness :
  uf_forest (unir "A" "B" (uf_init ["A"; "B"; "C"])).1 ∧
  ∃ s' o, encontrar "B" (unir "A" "B" (uf_init ["A"; "B"; "C"])).1 = (s', o) ∧
    uf_forest s'.
Proof.
  destruct (C10_encontrar_preserves_partition ["A"; "B"; "C"]
              (unir "A" "B" (uf_init ["A"; "B"; "C"])).1 "B")
    as (Hf & s' & o & Hrun & _ & _ & Hf' & _).
  - apply uf_reachable_unir. apply uf_reachable_init.
  - split; [exact Hf|]. exists s', o. split; [exact Hrun|exact Hf'].
Defined.

(** ** Classes of a relation on a finite list, and forests *)

Section reps.
Context {A : Type} `{EqDecision A}.
Implicit Types (R : relation A) (V reps : list A) (T : list (A * A)).

Lemma is_reps_ext R R' V reps :
  (∀ a b, a ∈ V → b ∈ V → (R a b ↔ R' a b)) →
  is_reps R V reps → is_reps R' V reps.
Proof.
  intros Hext [H1 H2 H3 H4]. split; [done|done|..].
  - intros r1 r2 Hr1 Hr2 HR. apply H3; [done..|]. apply Hext; auto.
  - intros v Hv. destruct (H4 v Hv) as (r & Hr & HR). exists r.
    split; [done|]. apply Hext; auto.
Qed.

Lemma reps_length_le R V reps1 reps2 :
  Symmetric R → Transitive R →
  NoDup reps1 →
  (∀ r1 r2, r1 ∈ reps1 → r2 ∈ reps1 → R r1 r2 → r1 = r2) →
  (∀ r, r ∈ reps1 → ∃ r', r' ∈ reps2 ∧ R r r') →
  length reps1 ≤ length reps2.
Proof.
  intros Hsym Htrans. revert reps2.
  induction reps1 as [|r reps1 IH]; intros reps2 Hnd Hsep Hcov; [simpl; lia|].
  apply NoDup_cons in Hnd as [Hnin Hnd].
  destruct (Hcov r) as (r' & Hr' & HR); [by left|].
  apply list_elem_of_split in Hr' as (l1 & l2 & ->).
  specialize (IH (l1 ++ l2)).
  rewrite !length_app in *. simpl.
  cut (length reps1 ≤ length l1 + length l2); [lia|].
  apply IH; [done|..].
  - intros r1 r2 ???. apply Hsep; [by right|by right|done].
  - intros x Hx. destruct (Hcov x) as (x' & Hx' & HRx); [by right|].
    exists x'. split; [|done].
    apply elem_of_app in Hx' as [?|[->|?]%elem_of_cons]; [set_solver| |set_solver].
    exfalso. apply Hnin.
    assert (r = x) as ->; [|done].
    apply Hsep; [by left|by right|]. etrans; [done|]. by symmetry.
Qed.

Lemma is_reps_length R V reps1 reps2 :
  Symmetric R → Transitive R →
  is_reps R V reps1 → is_reps R V reps2 → length reps1 = length reps2.
Proof.
  intros ?? [H1 H2 H3 H4] [H1' H2' H3' H4'].
  apply Nat.le_antisymm; eapply reps_length_le; eauto.
Qed.

Lemma is_reps_single R V r :
  Symmetric R → Transitive R →
  is_reps R V [r] → ∀ a b, a ∈ V → b ∈ V → R a b.
Proof.
  intros ?? [_ _ _ Hcov] a b Ha Hb.
  destruct (Hcov a Ha) as (ra & ->%list_elem_of_singleton & HRa).
  destruct (Hcov b Hb) as (rb & ->%list_elem_of_singleton & HRb).
  etrans; [done|]. by symmetry.
Qed.

(** The classes of the empty forest are the elements themselves. *)
Lemma is_reps_nil V : NoDup V → is_reps (linked (@nil (A * A))) V V.
Proof.
  intros Hnd. split; [done|done|..].
  - intros r1 r2 _ _. by rewrite linked_nil.
  - intros v Hv. by exists v.
Qed.

(** A forest on [V] with [m] edges has [length V - m] classes. *)
Lemma inc_forest_reps V T :
  NoDup V → inc_forest V T →
  ∃ reps, is_reps (linked T) V reps ∧ length reps + length T = length V.
Proof.
  intros Hnd. induction 1 as [|T u v _ IH Hu Hv Hnl].
  - exists V. split; [by apply is_reps_nil|simpl; lia].
  - destruct IH as (reps & [H1 H2 H3 H4] & Hlen).
    destruct (H4 v Hv) as (rv & Hrv & HRv).
    destruct (H4 u Hu) as (ru & Hru & HRu).
    apply list_elem_of_split in Hrv as (l1 & l2 & ->).
    assert (Hnin : rv ∉ l1 ++ l2).
    { apply NoDup_app in H1 as (? & Hd & [? ?]%NoDup_cons).
      intros [?|?]%elem_of_app; [|done]. eapply Hd; [done|by left]. }
    assert (Hin : ∀ x, x ∈ l1 ++ l2 → x ∈ l1 ++ rv :: l2) by set_solver.
    exists (l1 ++ l2). split.
    + split.
      * apply NoDup_app in H1 as (? & Hd & [? ?]%NoDup_cons).
        apply NoDup_app. split; [done|]. split; [|done].
        intros x Hx Hx'. eapply Hd; [done|by right].
      * intros r Hr. apply H2. by apply Hin.
      * intros r1 r2 Hr1 Hr2. rewrite linked_snoc.
        intros [H|[[Ha Hb]|[Ha Hb]]].
        -- apply H3; auto.
        -- exfalso. apply Hnin. assert (r2 = rv) as <-; [|done].
           apply H3; [by apply Hin|set_solver|]. etrans; [by symmetry|done].
        -- exfalso. apply Hnin. assert (r1 = rv) as <-; [|done].
           apply H3; [by apply Hin|set_solver|]. etrans; [done|done].
      * intros x Hx. destruct (H4 x Hx) as (rx & Hrx & HRx).
        destruct (decide (rx = rv)) as [->|Hne].
        -- exists ru. split.
           ++ assert (ru ≠ rv).
              { intros ->. apply Hnl. etrans; [done|by symmetry]. }
              set_solver.
           ++ apply linked_snoc. right; right. split; [|done].
              etrans; [done|by symmetry].
        -- exists rx. split; [set_solver|]. apply linked_snoc. by left.
    + rewrite !length_app in *. simpl in *. lia.
Qed.

Lemma inc_forest_elem V T u v : inc_forest V T → (u, v) ∈ T → u ∈ V ∧ v ∈ V.
Proof.
  induction 1 as [|T u' v' _ IH Hu Hv _]; [by intros ?%elem_of_nil|].
  intros [?|Heq%list_elem_of_singleton]%elem_of_app; [by apply IH|].
  by simplify_eq.
Qed.

Lemma linked_in_V V T a b :
  inc_forest V T → linked T a b → a = b ∨ (a ∈ V ∧ b ∈ V).
Proof.
  intros HT H. unfold linked, rtsc in H.
  induction H as [|a a' b Hstep _ IH]; [by left|]. right.
  assert (a ∈ V ∧ a' ∈ V) as [? ?].
  { destruct Hstep as [H|H]; apply (inc_forest_elem V T) in H; naive_solver. }
  destruct IH as [ <- | [? ?] ]; done.
Qed.

End reps.

(** A subsequence of a forest is a forest. *)
Lemma inc_forest_sublist {A} (V : list A) (T T' : list (A * A)) :
  T' `sublist_of` T → inc_forest V T → inc_forest V T'.
Proof.
  intros Hs HT. revert T' Hs.
  induction HT as [|T u v _ IH Hu Hv Hnl]; intros T' Hs.
  - apply sublist_nil_r in Hs as ->. constructor.
  - apply sublist_app_r in Hs as (l1 & l2 & -> & H1 & H2).
    apply sublist_cons_r in H2 as [H2|(l' & -> & H2)];
      apply sublist_nil_r in H2 as ->.
    + rewrite app_nil_r. by apply IH.
    + constructor; [by apply IH|done|done|]. intros Hl. apply Hnl.
      eapply linked_mono; [|done]. intros q Hq.
      by apply (sublist_subseteq _ _ H1).
Qed.

(** ** Lists of integers with the same counts below every threshold *)

Lemma count_le_cons t w l :
  count_le t (w :: l) = (if decide (w ≤ t)%Z then 1 else 0) + count_le t l.
Proof.
  unfold count_le. rewrite filter_cons. by destruct (decide (w ≤ t)%Z).
Qed.

Lemma count_le_length t l : count_le t l ≤ length l.
Proof. unfold count_le. apply length_filter. Qed.

Lemma count_le_mono t t' l : (t ≤ t')%Z → count_le t l ≤ count_le t' l.
Proof.
  intros Ht. induction l as [|w l IH]; [done|].
  rewrite !count_le_cons. repeat case_decide; lia.
Qed.

Lemma count_le_all t l : Forall (λ w, (w ≤ t)%Z) l → count_le t l = length l.
Proof.
  induction 1 as [|w l Hw _ IH]; [done|].
  rewrite count_le_cons, decide_True by done. simpl. lia.
Qed.

Lemma count_le_lt_length t l :
  count_le t l < length l → ∃ w, w ∈ l ∧ (t < w)%Z.
Proof.
  induction l as [|w l IH]; [simpl; lia|].
  rewrite count_le_cons. simpl. case_decide.
  - intros Hlt. destruct IH as (w' & ? & ?); [lia|]. exists w'. split; [by right|done].
  - intros _. exists w. split; [by left|lia].
Qed.

(** The largest element of a non-empty list. *)
Lemma list_max_exists (l : list Z) :
  l ≠ [] → ∃ m, m ∈ l ∧ Forall (λ w, (w ≤ m)%Z) l.
Proof.
  induction l as [|w l IH]; [done|]. intros _.
  destruct l as [|w' l'].
  - exists w. split; [by left|]. by repeat constructor.
  - destruct IH as (m & Hm & Hall); [done|].
    destruct (decide (w ≤ m)%Z).
    + exists m. split; [by right|]. by constructor.
    + exists w. split; [by left|]. constructor; [lia|].
      eapply Forall_impl; [done|]. simpl. intros. lia.
Qed.

Lemma count_le_delete t m l1 l2 :
  count_le t (l1 ++ m :: l2) =
  (if decide (m ≤ t)%Z then 1 else 0) + count_le t (l1 ++ l2).
Proof.
  unfold count_le. rewrite !filter_app, filter_cons, !length_app.
  case_decide; simpl; lia.
Qed.

Lemma count_le_perm l1 :
  ∀ l2, (∀ t, count_le t l1 = count_le t l2) → l1 ≡ₚ l2.
Proof.
  induction l1 as [l1 IH] using (induction_ltof1 _ (@length Z)).
  unfold ltof in IH. intros l2 Hc.
  destruct (decide (l1 = [])) as [->|Hne1].
  { destruct l2 as [|w l2]; [done|]. specialize (Hc w).
    rewrite count_le_cons, decide_True in Hc by lia. done. }
  destruct (list_max_exists l1 Hne1) as (m & Hm & Hall).
  assert (Hne2 : l2 ≠ []).
  { intros ->. specialize (Hc m). rewrite (count_le_all m l1) in Hc by done.
    destruct l1; done. }
  destruct (list_max_exists l2 Hne2) as (m' & Hm' & Hall').
  assert (Hlen : length l1 = length l2).
  { pose proof (Hc (Z.max m m')) as H.
    rewrite !count_le_all in H; [done|..];
      (eapply Forall_impl; [done|]; simpl; intros; lia). }
  assert (m' = m) as ->.
  { destruct (Z.lt_trichotomy m m') as [Hlt|[?|Hlt]]; [|done|].
    - pose proof (Hc m) as H. rewrite (count_le_all m l1) in H by done.
      assert (count_le m l2 < length l2); [|lia].
      apply list_elem_of_split in Hm' as (k1 & k2 & ->).
      rewrite count_le_delete, decide_False by lia.
      pose proof (count_le_length m (k1 ++ k2)).
      rewrite length_app in *. simpl. lia.
    - pose proof (Hc m') as H. rewrite (count_le_all m' l2) in H by done.
      assert (count_le m' l1 < length l1); [|lia].
      apply list_elem_of_split in Hm as (k1 & k2 & ->).
      rewrite count_le_delete, decide_False by lia.
      pose proof (count_le_length m' (k1 ++ k2)).
      rewrite length_app in *. simpl. lia. }
  apply list_elem_of_split in Hm as (a1 & a2 & ->).
  apply list_elem_of_split in Hm' as (b1 & b2 & ->).
  rewrite <-!Permutation_middle. constructor.
  apply IH.
  - rewrite !length_app. simpl. lia.
  - intros t. specialize (Hc t). rewrite !count_le_delete in Hc. lia.
Qed.

Lemma sum_Z_perm l1 l2 : l1 ≡ₚ l2 → sum_Z l1 = sum_Z l2.
Proof.
  induction 1; simpl; unfold sum_Z in *; simpl; lia.
Qed.

Lemma sum_Z_app l1 l2 : sum_Z (l1 ++ l2) = (sum_Z l1 + sum_Z l2)%Z.
Proof. induction l1 as [|w l1 IH]; unfold sum_Z in *; simpl; lia. Qed.

(** ** The comparisons are strict weak orders *)

Lemma lt_irrefl {A} (lt : A → A → bool) `{!WeakOrder lt} a : lt a a = false.
Proof. destruct (lt a a) eqn:H; [|done]. by rewrite (lt_asym _ _ H) in H. Qed.

Lemma lt_le_ntrans {A} (lt : A → A → bool) `{!WeakOrder lt} a b c :
  lt a b = true → lt c b = false → lt c a = false.
Proof. intros H. apply lt_ntrans. by apply lt_asym. Qed.

#[global] Instance Z_ltb_weak : WeakOrder Z.ltb.
Proof. split; intros; lia. Qed.

#[global] Instance nat_ltb_weak : WeakOrder Nat.ltb.
Proof.
  split.
  - intros a b ?%Nat.ltb_lt. apply Nat.ltb_ge. lia.
  - intros a b c ?%Nat.ltb_ge ?%Nat.ltb_ge. apply Nat.ltb_ge. lia.
Qed.

Lemma str_lt_le a b : str_lt b a = false ↔ String.le a b.
Proof.
  unfold str_lt, String.ltb, String.le, String.leb.
  rewrite (String.compare_antisym b a).
  destruct (String.compare a b); simpl; split; done.
Qed.

#[global] Instance str_lt_weak : WeakOrder str_lt.
Proof.
  split.
  - intros a b H. unfold str_lt, String.ltb in *.
    rewrite (String.compare_antisym b a).
    by destruct (String.compare a b).
  - intros a b c. rewrite !str_lt_le. intros. by etrans.
Qed.

Lemma str_lt_total a b : str_lt a b = false → str_lt b a = false → a = b.
Proof.
  rewrite !str_lt_le. intros. by apply (anti_symm String.le).
Qed.

#[global] Instance ostr_lt_weak : WeakOrder ostr_lt.
Proof.
  split.
  - intros [a|] [b|]; simpl; try done. apply lt_asym.
  - intros [a|] [b|] [c|]; simpl; try done. apply lt_ntrans.
Qed.

#[global] Instance lex_lt_weak {A B} (ltA : A → A → bool) (ltB : B → B → bool)
    `{!WeakOrder ltA, !WeakOrder ltB} : WeakOrder (lex_lt ltA ltB).
Proof.
  split.
  - intros [a1 a2] [b1 b2]. unfold lex_lt. simpl.
    destruct (ltA a1 b1) eqn:H1.
    + rewrite (lt_asym _ _ H1). done.
    + destruct (ltA b1 a1) eqn:H2; [done|]. apply lt_asym.
  - intros [a1 a2] [b1 b2] [c1 c2]. unfold lex_lt. simpl.
    destruct (ltA b1 a1) eqn:Hba; [done|].
    destruct (ltA c1 b1) eqn:Hcb; [by destruct (ltA a1 b1)|].
    rewrite (lt_ntrans _ _ _ Hba Hcb).
    destruct (ltA a1 b1) eqn:Hab.
    + intros _ _.
      destruct (ltA a1 c1) eqn:Hac; [done|].
      by rewrite (lt_ntrans _ _ _ Hcb Hac) in Hab.
    + destruct (ltA b1 c1) eqn:Hbc.
      * intros _ _. destruct (ltA a1 c1) eqn:Hac; [done|].
        by rewrite (lt_ntrans _ _ _ Hac Hba) in Hbc.
      * intros H1 H2. destruct (ltA a1 c1); [done|]. by eapply lt_ntrans.
Qed.

(** The operations on exact integers, by their names. *)
Ltac enteros :=
  change (@suma Z numero_Z) with Z.add in *;
  change (@menor Z numero_Z) with Z.ltb in *;
  change (@cero Z numero_Z) with 0%Z in *;
  repeat change (@menor_inf Z numero_Z ?x) with true in *.

#[global] Instance Z_menor_weak : WeakOrder (menor (W:=Z)).
Proof. exact Z_ltb_weak. Qed.

#[global] Instance arista_lt_weak `{Numero W} `{!WeakOrder (menor (W:=W))} :
  WeakOrder (arista_lt (W:=W)).
Proof. unfold arista_lt. apply _. Qed.
#[global] Instance prim_lt_weak `{Numero W} `{!WeakOrder (menor (W:=W))} :
  WeakOrder (prim_lt (W:=W)).
Proof. unfold prim_lt. apply _. Qed.
#[global] Instance dijkstra_lt_weak `{Numero W} `{!WeakOrder (menor (W:=W))} :
  WeakOrder (dijkstra_lt (W:=W)).
Proof. unfold dijkstra_lt. apply _. Qed.

#[global] Instance nodo_lt_weak : WeakOrder nodo_lt.
Proof.
  split; unfold nodo_lt.
  - intros a b. apply (lt_asym (lt:=Nat.ltb)).
  - intros a b c. apply (lt_ntrans (lt:=Nat.ltb)).
Qed.

(** The first component decides when it differs. *)
Lemma lex_lt_fst {A B} (ltA : A → A → bool) (ltB : B → B → bool) x y :
  lex_lt ltA ltB x y = false → ltA x.1 y.1 = false.
Proof. unfold lex_lt. by destruct (ltA x.1 y.1). Qed.

Lemma arista_le_weight (a b : Z * node * node) :
  arista_le a b → (a.1.1 ≤ b.1.1)%Z.
Proof.
  unfold arista_le, arista_lt. intros H%lex_lt_fst%lex_lt_fst. simpl in H. lia.
Qed.

Lemma prim_lt_weight (a b : prim_entry Z) :
  prim_lt b a = false → (a.1.1 ≤ b.1.1)%Z.
Proof. unfold prim_lt. intros H%lex_lt_fst%lex_lt_fst. simpl in H. lia. Qed.

Lemma dijkstra_lt_weight (a b : dijkstra_entry Z) :
  dijkstra_lt b a = false → (a.1 ≤ b.1)%Z.
Proof. unfold dijkstra_lt. intros H%lex_lt_fst. simpl in H. lia. Qed.

#[global] Instance arista_le_total `{Numero W} `{!WeakOrder (menor (W:=W))} :
  Total (arista_le (W:=W)).
Proof.
  intros a b. unfold arista_le. destruct (arista_lt b a) eqn:Hba; [|by left].
  right. by apply lt_asym.
Qed.

#[global] Instance arista_le_trans `{Numero W} `{!WeakOrder (menor (W:=W))} :
  Transitive (arista_le (W:=W)).
Proof. intros a b c. unfold arista_le. intros. by eapply lt_ntrans. Qed.

(** ** [heapq] keeps a binary heap *)

Lemma div2_bounds a : 2 * (a / 2) ≤ a < 2 * (a / 2) + 2.
Proof.
  pose proof (Nat.div_mod_eq a 2). pose proof (Nat.mod_upper_bound a 2). lia.
Qed.

Lemma parent_lt j : 0 < j → (j - 1) / 2 < j.
Proof. intros. pose proof (div2_bounds (j - 1)). lia. Qed.

Lemma parent_child c pos :
  0 < c → (c - 1) / 2 = pos → c = 2 * pos + 1 ∨ c = 2 * pos + 2.
Proof. intros. pose proof (div2_bounds (c - 1)). lia. Qed.

Lemma parent_left pos : (2 * pos + 1 - 1) / 2 = pos.
Proof. pose proof (div2_bounds (2 * pos + 1 - 1)). lia. Qed.

Lemma parent_right pos : (2 * pos + 1 + 1 - 1) / 2 = pos.
Proof. pose proof (div2_bounds (2 * pos + 1 + 1 - 1)). lia. Qed.

Section heap.
Context {A : Type} (lt : A → A → bool).
Implicit Types (h : list A) (x y v : A).

Lemma insert_kick h i x y : h !! i = Some x → y :: h ≡ₚ x :: <[i:=y]> h.
Proof.
  revert i. induction h as [|z h IH]; intros [|i]; simpl; try done.
  - intros; simplify_eq. apply Permutation_swap.
  - intros Hi. rewrite (Permutation_swap z y h), (IH _ Hi).
    apply Permutation_swap.
Qed.

(** The hole moves from [pos] to [q], the item at [q] takes its place. *)
Lemma hole_move h pos q x v :
  pos ≠ q → pos < length h → h !! q = Some v →
  <[q:=x]> (<[pos:=v]> h) ≡ₚ <[pos:=x]> h.
Proof.
  intros Hne Hpos Hq.
  destruct (lookup_lt_is_Some_2 h pos Hpos) as [h0 Hh0].
  assert (H1 : x :: <[pos:=v]> h ≡ₚ v :: <[q:=x]> (<[pos:=v]> h)).
  { apply insert_kick. by rewrite list_lookup_insert_ne. }
  pose proof (insert_kick h pos h0 v Hh0) as H2.
  pose proof (insert_kick h pos h0 x Hh0) as H3.
  apply (inj (cons h0)), (inj (cons v)).
  rewrite (Permutation_swap h0 v (<[q:=x]> _)), <-H1.
  rewrite (Permutation_swap x h0), <-H2, <-H3. apply Permutation_swap.
Qed.

Lemma siftdown_loop_length fuel h startpos pos x :
  length (Heapq.siftdown_loop lt fuel h startpos pos x) = length h.
Proof.
  revert h pos. induction fuel as [|fuel IH]; intros h pos;
    cbn [Heapq.siftdown_loop].
  - by rewrite length_insert.
  - repeat case_match; rewrite ?IH, ?length_insert; done.
Qed.

Lemma siftdown_loop_perm fuel h startpos pos x :
  pos < length h →
  Heapq.siftdown_loop lt fuel h startpos pos x ≡ₚ <[pos:=x]> h.
Proof.
  revert h pos. induction fuel as [|fuel IH]; intros h pos Hpos;
    cbn [Heapq.siftdown_loop]; [reflexivity|].
  case_decide as Hs; [|reflexivity].
  destruct (h !! ((pos - 1) / 2)) as [parent|] eqn:Hp; [|reflexivity].
  destruct (lt x parent); [|reflexivity].
  assert ((pos - 1) / 2 < pos) by (apply parent_lt; lia).
  rewrite IH by (rewrite length_insert; lia).
  apply hole_move; [lia|done|done].
Qed.

Context `{!WeakOrder lt}.

#[local] Abbreviation heap_except := (heap_except lt).
#[local] Abbreviation children_ge := (children_ge lt).
#[local] Abbreviation bubble_inv := (bubble_inv lt).
#[local] Abbreviation down_inv := (down_inv lt).

Lemma place_heap h pos x :
  bubble_inv h pos x →
  (pos = 0 ∨ ∃ p, h !! ((pos - 1) / 2) = Some p ∧ lt x p = false) →
  is_heap lt (<[pos:=x]> h).
Proof.
  intros [Hpos Hex Hch _] Hpar j a b Hj Hb Ha.
  destruct (decide (j = pos)) as [->|Hjp].
  - rewrite list_lookup_insert_eq in Hb by done. simplify_eq.
    rewrite list_lookup_insert_ne in Ha by (pose proof (parent_lt pos); lia).
    destruct Hpar as [->|(p & Hp & Hlt)]; [lia|]. by simplify_eq.
  - rewrite list_lookup_insert_ne in Hb by done.
    destruct (decide ((j - 1) / 2 = pos)) as [Hpj|Hpj].
    + rewrite Hpj, list_lookup_insert_eq in Ha by done. simplify_eq.
      by eapply Hch.
    + rewrite list_lookup_insert_ne in Ha by done. by eapply Hex.
Qed.

Lemma siftdown_loop_heap fuel h pos x :
  pos ≤ fuel → bubble_inv h pos x →
  is_heap lt (Heapq.siftdown_loop lt fuel h 0 pos x).
Proof.
  revert h pos. induction fuel as [|fuel IH]; intros h pos Hf Hinv;
    cbn [Heapq.siftdown_loop].
  - apply place_heap; [done|]. left. lia.
  - case_decide as Hs; [|apply place_heap; [done|left; lia]].
    pose proof (parent_lt pos Hs) as Hlt.
    destruct Hinv as [Hpos Hex Hch Hgr].
    destruct (lookup_lt_is_Some_2 h ((pos - 1) / 2)) as [parent Hp]; [lia|].
    rewrite Hp. destruct (lt x parent) eqn:Hxp.
    2:{ apply place_heap; [done|]. right. by exists parent. }
    apply IH; [lia|]. split.
    + rewrite length_insert. lia.
    + intros j a b Hj Hjp Hpj Hb Ha.
      destruct (decide (j = pos)) as [->|Hjpos]; [done|].
      rewrite list_lookup_insert_ne in Hb by done.
      destruct (decide ((j - 1) / 2 = pos)) as [Hpjpos|Hpjpos].
      * rewrite Hpjpos, list_lookup_insert_eq in Ha by done. simplify_eq.
        by eapply (Hgr a Hs Hp j).
      * rewrite list_lookup_insert_ne in Ha by done. by eapply Hex.
    + intros c b Hc Hpc Hb.
      destruct (decide (c = pos)) as [->|Hcpos].
      * rewrite list_lookup_insert_eq in Hb by done. simplify_eq.
        by apply lt_asym.
      * rewrite list_lookup_insert_ne in Hb by done.
        eapply (lt_le_ntrans lt); [done|].
        eapply (Hex c); [done|done|lia|done|by rewrite Hpc].
    + intros p Hpp Hp' c b Hc Hpc Hb.
      rewrite list_lookup_insert_ne in Hp'
        by (pose proof (parent_lt ((pos - 1) / 2)); lia).
      assert (Hpar : lt parent p = false).
      { eapply (Hex ((pos - 1) / 2)); [done|lia|..|done|done].
        pose proof (parent_lt ((pos - 1) / 2)). lia. }
      destruct (decide (c = pos)) as [->|Hcpos].
      * rewrite list_lookup_insert_eq in Hb by done. by simplify_eq.
      * rewrite list_lookup_insert_ne in Hb by done.
        eapply lt_ntrans; [exact Hpar|].
        eapply (Hex c); [done|done|lia|done|by rewrite Hpc].
Qed.

Lemma siftdown_heap h pos :
  (∃ x, h !! pos = Some x ∧ bubble_inv h pos x) →
  is_heap lt (Heapq.siftdown lt h 0 pos).
Proof.
  intros (x & Hx & Hinv). unfold Heapq.siftdown. rewrite Hx.
  by apply siftdown_loop_heap.
Qed.

Lemma siftdown_perm h startpos pos : Heapq.siftdown lt h startpos pos ≡ₚ h.
Proof.
  unfold Heapq.siftdown. destruct (h !! pos) as [x|] eqn:Hx; [|reflexivity].
  rewrite siftdown_loop_perm by (by eapply lookup_lt_Some).
  by rewrite list_insert_id.
Qed.

Lemma is_heap_nil : is_heap lt [].
Proof. intros j x y _ Hy. by rewrite lookup_nil in Hy. Qed.

(** [heappush] *)
Lemma heappush_perm h x : Heapq.heappush lt h x ≡ₚ x :: h.
Proof.
  unfold Heapq.heappush. rewrite siftdown_perm.
  by rewrite <-Permutation_cons_append.
Qed.

Lemma heappush_heap h x : is_heap lt h → is_heap lt (Heapq.heappush lt h x).
Proof.
  intros Hh. unfold Heapq.heappush. apply siftdown_heap. exists x.
  split; [by rewrite lookup_app_r, Nat.sub_diag by lia|].
  split.
  - rewrite length_app. simpl. lia.
  - intros j a b Hj Hjp Hpj Hb Ha.
    pose proof (lookup_lt_Some _ _ _ Hb) as Hlen.
    rewrite length_app in Hlen. simpl in Hlen.
    pose proof (parent_lt j Hj).
    rewrite lookup_app_l in Hb by lia. rewrite lookup_app_l in Ha by lia.
    by eapply Hh.
  - intros c b Hc Hpc Hb. pose proof (lookup_lt_Some _ _ _ Hb) as Hlen.
    rewrite length_app in Hlen. simpl in Hlen. pose proof (parent_lt c Hc). lia.
  - intros p _ _ c b Hc Hpc Hb. pose proof (lookup_lt_Some _ _ _ Hb) as Hlen.
    rewrite length_app in Hlen. simpl in Hlen. pose proof (parent_lt c Hc). lia.
Qed.

(** The root of a heap is a smallest item. *)
Lemma heap_root_min h m :
  is_heap lt h → h !! 0 = Some m → ∀ y, y ∈ h → lt y m = false.
Proof.
  intros Hh Hm y [j Hy]%list_elem_of_lookup. revert y Hy.
  induction j as [j IH] using lt_wf_ind. intros y Hy.
  destruct (decide (j = 0)) as [->|Hj].
  - simplify_eq. by apply lt_irrefl.
  - pose proof (parent_lt j) as Hlt.
    destruct (lookup_lt_is_Some_2 h ((j - 1) / 2)) as [x Hx].
    { apply lookup_lt_Some in Hy. lia. }
    eapply lt_ntrans; [apply (IH ((j - 1) / 2)); [lia|done]|].
    eapply Hh; [|done..]. lia.
Qed.

Lemma siftup_loop_spec fuel h pos :
  length h ≤ pos + fuel → down_inv h pos →
  ∃ h' p', Heapq.siftup_loop lt fuel h (length h) pos (2 * pos + 1) = (h', p')
    ∧ down_inv h' p' ∧ length h' = length h ∧ length h' ≤ 2 * p' + 1
    ∧ ∀ x, <[p':=x]> h' ≡ₚ <[pos:=x]> h.
Proof.
  revert h pos. induction fuel as [|fuel IH]; intros h pos Hf Hinv.
  { destruct Hinv as [Hpos _ _]. lia. }
  pose proof Hinv as [Hpos Hex Hgr].
  cbn [Heapq.siftup_loop]. case_decide as Hc.
  2:{ exists h, pos. split; [done|]. split; [done|]. split; [done|]. split; [lia|done]. }
  destruct (lookup_lt_is_Some_2 h (2 * pos + 1) Hc) as [cl Hcl].
  (* the chosen child [q] holds [cv], which is not greater than its sibling *)
  assert (∃ q cv,
    (if decide (2 * pos + 1 + 1 < length h) then
       match h !! (2 * pos + 1), h !! (2 * pos + 1 + 1) with
       | Some c, Some r => if negb (lt c r) then 2 * pos + 1 + 1 else 2 * pos + 1
       | _, _ => 2 * pos + 1
       end
     else 2 * pos + 1) = q
    ∧ h !! q = Some cv ∧ (q = 2 * pos + 1 ∨ q = 2 * pos + 2)
    ∧ children_ge h pos cv) as (q & cv & -> & Hq & Hqc & Hmin).
  { case_decide as Hr.
    - destruct (lookup_lt_is_Some_2 h (2 * pos + 1 + 1) Hr) as [cr Hcr].
      rewrite Hcl, Hcr. destruct (lt cl cr) eqn:Hlr; simpl.
      + exists (2 * pos + 1), cl. split; [done|]. split; [done|]. split; [by left|].
        intros c y Hc0 Hpc Hy. destruct (parent_child c pos Hc0 Hpc) as [->| ->].
        * simplify_eq. by apply lt_irrefl.
        * replace (2 * pos + 2) with (2 * pos + 1 + 1) in Hy by lia.
          simplify_eq. by apply lt_asym.
      + exists (2 * pos + 1 + 1), cr. split; [done|]. split; [done|].
        split; [right; lia|].
        intros c y Hc0 Hpc Hy. destruct (parent_child c pos Hc0 Hpc) as [->| ->].
        * by simplify_eq.
        * replace (2 * pos + 2) with (2 * pos + 1 + 1) in Hy by lia.
          simplify_eq. by apply lt_irrefl.
    - exists (2 * pos + 1), cl. split; [done|]. split; [done|]. split; [by left|].
      intros c y Hc0 Hpc Hy. destruct (parent_child c pos Hc0 Hpc) as [->| ->].
      + simplify_eq. by apply lt_irrefl.
      + apply lookup_lt_Some in Hy. lia. }
  rewrite Hq.
  assert (Hpq : (q - 1) / 2 = pos).
  { destruct Hqc as [->| ->]; [apply parent_left|].
    replace (2 * pos + 2) with (2 * pos + 1 + 1) by lia. apply parent_right. }
  assert (Hqpos : pos < q) by lia.
  pose proof (lookup_lt_Some _ _ _ Hq) as Hqlen.
  destruct (IH (<[pos:=cv]> h) q) as (h' & p' & Hrun & Hinv' & Hlen' & Hleaf & Hperm).
  { rewrite length_insert. lia. }
  { split.
    - rewrite length_insert. done.
    - intros j a b Hj Hjq Hpj Hb Ha.
      destruct (decide (j = pos)) as [Heq|Hjpos]; [subst j|].
      + rewrite list_lookup_insert_eq in Hb by done. injection Hb as <-.
        rewrite list_lookup_insert_ne in Ha by (pose proof (parent_lt pos); lia).
        eapply (Hgr a Hj Ha q); [lia|done|done].
      + rewrite list_lookup_insert_ne in Hb by done.
        destruct (decide ((j - 1) / 2 = pos)) as [Hpjpos|Hpjpos].
        * rewrite Hpjpos, list_lookup_insert_eq in Ha by done. injection Ha as <-.
          by eapply Hmin.
        * rewrite list_lookup_insert_ne in Ha by done. by eapply Hex.
    - intros p _ Hp c y Hc0 Hpc Hy. rewrite Hpq in Hp.
      rewrite list_lookup_insert_eq in Hp by done. injection Hp as <-.
      pose proof (parent_lt c Hc0) as Hcq.
      rewrite list_lookup_insert_ne in Hy by lia.
      eapply (Hex c); [done|lia|lia|done|]. by rewrite Hpc. }
  rewrite length_insert in Hrun.
  exists h', p'. split.
  { replace (2 * q + 1) with (2 * q + 1) by done. exact Hrun. }
  split; [done|]. rewrite length_insert in Hlen'. split; [done|]. split; [done|].
  intros x. rewrite Hperm. apply hole_move; [lia|done|done].
Qed.

Lemma siftup_spec h x :
  h !! 0 = Some x →
  heap_except h 0 →
  is_heap lt (Heapq.siftup lt h 0) ∧ Heapq.siftup lt h 0 ≡ₚ h.
Proof.
  intros Hx Hex. unfold Heapq.siftup. rewrite Hx.
  pose proof (lookup_lt_Some _ _ _ Hx) as Hlen.
  destruct (siftup_loop_spec (length h) h 0) as (h' & p' & Hrun & Hinv & Hlen' & Hleaf & Hperm).
  { lia. }
  { split; [done|done|]. intros; lia. }
  cbv zeta. rewrite Hrun. destruct Hinv as [Hp' Hex' Hgr'].
  split.
  - apply siftdown_heap. exists x. split; [by rewrite list_lookup_insert_eq|].
    split.
    + by rewrite length_insert.
    + intros j a b Hj Hjp Hpj Hb Ha.
      rewrite list_lookup_insert_ne in Hb by done.
      rewrite list_lookup_insert_ne in Ha by done. by eapply Hex'.
    + intros c y Hc0 Hpc Hy. apply lookup_lt_Some in Hy.
      rewrite length_insert in Hy. destruct (parent_child c p' Hc0 Hpc); lia.
    + intros p _ _ c y Hc0 Hpc Hy. apply lookup_lt_Some in Hy.
      rewrite length_insert in Hy. destruct (parent_child c p' Hc0 Hpc); lia.
  - rewrite siftdown_perm, Hperm. by rewrite list_insert_id.
Qed.

(** [heappop] *)
Lemma heappop_nil : Heapq.heappop lt [] = None.
Proof. done. Qed.

Lemma heappop_spec h :
  is_heap lt h → h ≠ [] →
  ∃ m h', Heapq.heappop lt h = Some (m, h') ∧ h ≡ₚ m :: h'
          ∧ is_heap lt h' ∧ ∀ y, y ∈ h → lt y m = false.
Proof.
  intros Hh Hne. unfold Heapq.heappop.
  destruct (last h) as [lastelt|] eqn:Hlast; [|by apply last_None in Hlast].
  apply last_Some in Hlast as [h0 ->].
  rewrite length_app. simpl.
  replace (length h0 + 1 - 1) with (length h0) by lia.
  rewrite take_app_length.
  destruct h0 as [|m rest].
  - exists lastelt, []. split; [done|]. split; [done|]. split; [apply is_heap_nil|].
    intros y ->%list_elem_of_singleton. by apply lt_irrefl.
  - exists m, (Heapq.siftup lt (<[0:=lastelt]> (m :: rest)) 0).
    split; [done|].
    destruct (siftup_spec (<[0:=lastelt]> (m :: rest)) lastelt) as [Hheap Hperm];
      [done| |].
    { intros j a b Hj Hj0 Hpj Hb Ha.
      change (<[0:=lastelt]> (m :: rest)) with (lastelt :: rest) in Hb, Ha.
      assert (Hlift : ∀ i c, 0 < i → (lastelt :: rest) !! i = Some c →
                ((m :: rest) ++ [lastelt]) !! i = Some c).
      { intros [|i] c Hi Hc; [lia|]. simpl in *. by apply lookup_app_l_Some. }
      apply (Hh j a b Hj); apply Hlift; [done|done|lia|done]. }
    split; [|split; [done|]].
    + rewrite Hperm. simpl. constructor. by rewrite <-Permutation_cons_append.
    + by apply (heap_root_min _ m Hh).
Qed.

End heap.

(** ** Graphs *)

(** ** Association lists *)

Lemma alookup_elem {V} k (v : V) l : alookup k l = Some v → (k, v) ∈ l.
Proof.
  induction l as [|[k' v'] l IH]; [done|]. simpl.
  case_decide; intros; simplify_eq; [by left|right; auto].
Qed.

Lemma alookup_NoDup {V} k (v : V) l :
  NoDup l.*1 → (k, v) ∈ l → alookup k l = Some v.
Proof.
  induction l as [|[k' v'] l IH]; [by intros _ ?%elem_of_nil|].
  simpl. intros [Hnin Hnd]%NoDup_cons [Heq|Hin]%elem_of_cons.
  - simplify_eq. by rewrite decide_True.
  - rewrite decide_False; [auto|]. intros ->. apply Hnin.
    apply list_elem_of_fmap. by exists (k', v).
Qed.

Lemma alookup_is_Some {V} k (l : list (node * V)) :
  is_Some (alookup k l) ↔ k ∈ l.*1.
Proof.
  induction l as [|[k' v'] l IH]; simpl.
  - split; [by intros [? ?]|by intros ?%elem_of_nil].
  - case_decide as Hk.
    + subst. split; [by left|by eexists].
    + rewrite IH. split; [by right|]. by intros [?|?]%elem_of_cons.
Qed.

Lemma alookup_None {V} k (l : list (node * V)) :
  alookup k l = None ↔ k ∉ l.*1.
Proof. rewrite <-alookup_is_Some, eq_None_not_Some. done. Qed.

(** An edge read off the adjacency. *)
Lemma edge_of_weight {W} (g : Graph W) u v w : weight g u v = Ok w → edge g u v w.
Proof.
  unfold weight, edge. destruct (alookup u (adj g)) as [nbrs|]; [|done]. simpl.
  destruct (alookup v nbrs); [|done]. by intros [= ->].
Qed.

(** ** Well-formed graphs *)

Section graph.
Context {W : Type} (g : Graph W) (Hwf : wf_graph g).

Lemma wf_nodup : NoDup (nodes g).
Proof. apply Hwf. Qed.

Lemma edge_lookup u v w :
  edge g u v w ↔ ∃ nbrs, alookup u (adj g) = Some nbrs ∧ alookup v nbrs = Some w.
Proof.
  unfold edge. destruct (alookup u (adj g)) as [nbrs|]; simpl.
  - split; [by exists nbrs|]. by intros (? & ? & ?); simplify_eq.
  - split; [done|]. by intros (? & ? & ?).
Qed.

Lemma edge_sym u v w : edge g u v w → edge g v u w.
Proof.
  intros (nbrs & Hu & Hv)%edge_lookup.
  destruct Hwf as [_ Hall]. rewrite Forall_forall in Hall.
  destruct (Hall (u, nbrs)) as [_ Hn]; [by apply alookup_elem|].
  rewrite Forall_forall in Hn. apply (Hn (v, w)). by apply alookup_elem.
Qed.

Lemma edge_node_l u v w : edge g u v w → u ∈ nodes g.
Proof.
  intros (nbrs & Hu & _)%edge_lookup. apply alookup_is_Some. by eexists.
Qed.

Lemma edge_node_r u v w : edge g u v w → v ∈ nodes g.
Proof. intros H%edge_sym. by eapply edge_node_l. Qed.

Lemma weight_edge u v w : weight g u v = Ok w ↔ edge g u v w.
Proof.
  rewrite edge_lookup. unfold weight.
  destruct (alookup u (adj g)) as [nbrs|]; [|naive_solver].
  destruct (alookup v nbrs) as [w'|] eqn:Hv; naive_solver.
Qed.

Lemma neighbors_ok u :
  u ∈ nodes g →
  ∃ nbrs, alookup u (adj g) = Some nbrs ∧ neighbors g u = Ok nbrs.*1
          ∧ NoDup nbrs.*1.
Proof.
  intros [nbrs Hu]%alookup_is_Some. exists nbrs. split; [done|].
  unfold neighbors. rewrite Hu. split; [done|].
  destruct Hwf as [_ Hall]. rewrite Forall_forall in Hall.
  destruct (Hall (u, nbrs)) as [? _]; [by apply alookup_elem|done].
Qed.

Lemma neighbor_edge u nbrs v :
  alookup u (adj g) = Some nbrs → NoDup nbrs.*1 →
  v ∈ nbrs.*1 → ∃ w, edge g u v w.
Proof.
  intros Hu Hnd [w Hv]%alookup_is_Some. exists w. apply edge_lookup. eauto.
Qed.

Lemma edge_neighbor u nbrs v w :
  alookup u (adj g) = Some nbrs → edge g u v w → v ∈ nbrs.*1.
Proof.
  intros Hu (nbrs' & Hu' & Hv)%edge_lookup. simplify_eq.
  apply alookup_is_Some. by eexists.
Qed.

(** Every edge is listed once by [edges], from one of its ends. *)
Lemma edges_from_elem seen (l : list (node * list (node * W))) a b w :
  (a, b, w) ∈ edges_from seen l ↔
  ∃ l1 nbrs l2, l = l1 ++ (a, nbrs) :: l2 ∧ (b, w) ∈ nbrs
                ∧ (b ∉ seen) ∧ (b ∉ l1.*1).
Proof.
  revert seen. induction l as [|[n nbrs] l IH]; intros seen; simpl.
  - split; [by intros ?%elem_of_nil|]. intros (l1 & ? & ? & Heq & _).
    by destruct l1.
  - rewrite elem_of_app, IH. split.
    + intros [Hin|(l1 & nb & l2 & -> & Hb & Hseen & Hl1)].
      * apply list_elem_of_fmap in Hin as ([b' w'] & Heq & Hin). simpl in Heq.
        simplify_eq. apply list_elem_of_filter in Hin as [Hns Hin]. simpl in Hns.
        exists [], nbrs, l. split; [done|]. split; [done|]. split; [done|].
        simpl. by intros ?%elem_of_nil.
      * exists ((n, nbrs) :: l1), nb, l2. split; [done|]. split; [done|].
        split; [set_solver|]. simpl. set_solver.
    + intros (l1 & nb & l2 & Heq & Hb & Hseen & Hl1).
      destruct l1 as [|[n' nb'] l1]; simpl in *; simplify_eq.
      * left. apply list_elem_of_fmap. exists (b, w). split; [done|].
        by apply list_elem_of_filter.
      * right. exists l1, nb, l2. split; [done|]. split; [done|].
        split; set_solver.
Qed.

Lemma edges_edge u v w : (u, v, w) ∈ edges g → edge g u v w.
Proof.
  unfold edges. rewrite edges_from_elem.
  intros (l1 & nbrs & l2 & Heq & Hv & _ & _).
  pose proof wf_nodup as Hnd. unfold nodes in Hnd.
  apply edge_lookup. exists nbrs. split.
  - apply alookup_NoDup; [done|]. rewrite Heq. set_solver.
  - apply alookup_NoDup; [|done].
    destruct Hwf as [_ Hall]. rewrite Forall_forall in Hall.
    destruct (Hall (u, nbrs)) as [? _]; [|done]. rewrite Heq. set_solver.
Qed.

Lemma edge_edges u v w :
  edge g u v w → (u, v, w) ∈ edges g ∨ (v, u, w) ∈ edges g.
Proof.
  intros He. pose proof (edge_sym _ _ _ He) as He'.
  apply edge_lookup in He as (nu & Hu & Hv).
  apply edge_lookup in He' as (nv & Hv' & Hu').
  pose proof wf_nodup as Hnd. unfold nodes in Hnd.
  pose proof (alookup_elem _ _ _ Hu) as Hin.
  apply list_elem_of_split in Hin as (l1 & l2 & Heq).
  unfold edges. rewrite !edges_from_elem.
  destruct (decide (v ∈ l1.*1)) as [Hvl|Hvl].
  - right. apply list_elem_of_fmap in Hvl as ([v' nv'] & ? & Hvl). simpl in *. subst v'.
    apply list_elem_of_split in Hvl as (l3 & l4 & ->).
    assert (nv' = nv) as ->.
    { assert (alookup v (adj g) = Some nv') as Hl; [|congruence].
      apply alookup_NoDup; [done|]. rewrite Heq. set_solver. }
    exists l3, nv, (l4 ++ (u, nu) :: l2). split.
    { rewrite Heq. by rewrite <-app_assoc. }
    split; [by apply alookup_elem|]. split; [set_solver|].
    rewrite Heq in Hnd. rewrite <-app_assoc in Hnd. rewrite fmap_app in Hnd.
    apply NoDup_app in Hnd as (_ & Hd & _). intros Hu3. apply (Hd u Hu3).
    simpl. right. rewrite fmap_app. apply elem_of_app. right. simpl. by left.
  - left. exists l1, nu, l2. split; [done|]. split; [by apply alookup_elem|].
    split; [set_solver|done].
Qed.

Lemma conn_nodes a b : conn g a b → a ∈ nodes g → b ∈ nodes g.
Proof.
  intros H. unfold conn, rtsc in H. induction H as [|a a' b Hs _ IH]; [done|].
  intros _. apply IH. destruct Hs as [[w ?]|[w ?]];
    [by eapply edge_node_r|by eapply edge_node_l].
Qed.

End graph.

Section graph_Z.
Context (g : Graph Z) (Hwf : wf_graph g).

Lemma conn_le_conn t a b : conn_le g t a b → conn g a b.
Proof.
  unfold conn_le, conn, rtsc. apply rtc_subrel.
  intros x y [(w & ? & _)|(w & ? & _)]; [left|right]; by exists w.
Qed.

Lemma conn_conn_le a b : conn g a b → ∃ t, conn_le g t a b.
Proof.
  intros H. unfold conn, rtsc in H. induction H as [a|a a' b Hs _ [t IH]].
  - by exists 0%Z.
  - assert (∃ w, edge g a a' w) as [w Hw].
    { destruct Hs as [[w ?]|[w ?]]; exists w; [done|by apply edge_sym]. }
    exists (Z.max t w). etrans.
    + apply rtsc_lr. exists w. split; [done|lia].
    + unfold conn_le, rtsc in *. eapply rtc_subrel; [|done].
      intros x y [(w' & ? & ?)|(w' & ? & ?)]; [left|right]; exists w';
        (split; [done|lia]).
Qed.

Lemma conn_le_mono t t' a b : (t ≤ t')%Z → conn_le g t a b → conn_le g t' a b.
Proof.
  intros Ht. unfold conn_le, rtsc. apply rtc_subrel.
  intros x y [(w & ? & ?)|(w & ? & ?)]; [left|right]; exists w; (split; [done|lia]).
Qed.

End graph_Z.

#[global] Instance conn_equiv {W} (g : Graph W) : Equivalence (conn g).
Proof. unfold conn. apply _. Qed.
#[global] Instance conn_le_equiv g t : Equivalence (conn_le g t).
Proof. unfold conn_le. apply _. Qed.

(** Connectivity through a list of weighted edges of the graph. *)
Lemma linked_upto_conn_le g T t a b :
  wf_graph g →
  (∀ u v w, (u, v, w) ∈ T → edge g u v w) →
  linked (pairs (upto t T)) a b → conn_le g t a b.
Proof.
  intros Hwf HT. unfold linked, conn_le, rtsc. apply rtc_subrel.
  assert (∀ x y, (x, y) ∈ pairs (upto t T) → ∃ w, edge g x y w ∧ (w ≤ t)%Z) as H.
  { intros x y Hin. apply list_elem_of_fmap in Hin as ([[x' y'] w] & Heq & Hin).
    simpl in Heq. simplify_eq. apply list_elem_of_filter in Hin as [Hw Hin].
    exists w. split; [by apply HT|done]. }
  intros x y [Hs|Hs]; [left|right]; by apply H.
Qed.

Lemma upto_all t T : Forall (λ e, (e.2 ≤ t)%Z) T → upto t T = T.
Proof.
  unfold upto. induction 1 as [|e T He _ IH]; [done|].
  rewrite filter_cons, decide_True by done. by rewrite IH.
Qed.

Lemma upto_app t T1 T2 : upto t (T1 ++ T2) = upto t T1 ++ upto t T2.
Proof. unfold upto. by rewrite filter_app. Qed.

Lemma pairs_app {W} (T1 T2 : list (node * node * W)) :
  pairs (T1 ++ T2) = pairs T1 ++ pairs T2.
Proof. unfold pairs. by rewrite fmap_app. Qed.

Lemma weights_app {W} (T1 T2 : list (node * node * W)) :
  weights (T1 ++ T2) = weights T1 ++ weights T2.
Proof. unfold weights. by rewrite fmap_app. Qed.

Lemma count_le_weights t T : count_le t (weights T) = length (upto t T).
Proof.
  unfold count_le, weights, upto. induction T as [|e T IH]; [done|].
  rewrite fmap_cons, !filter_cons. simpl.
  destruct (decide (e.2 ≤ t)%Z); simpl; by rewrite IH.
Qed.

(** ** Facts shared by the loops of Prim and Dijkstra *)

Lemma sum_pend_cons {W} S (x : node * list (node * W)) l :
  sum_list (pend S <$> x :: l) = pend S x + sum_list (pend S <$> l).
Proof. done. Qed.

Lemma pending_empty {W} (g : Graph W) : S (S (pending g ∅)) = fuel_of g.
Proof.
  unfold fuel_of, pending. do 2 f_equal.
  induction (adj g) as [|[n nbrs] l IH]; [done|].
  rewrite sum_pend_cons, !fmap_cons, IH. simpl. rewrite length_app.
  unfold pend. simpl. by rewrite decide_False by set_solver.
Qed.

Lemma pending_visit_aux {W} (l : list (node * list (node * W))) (S : gset node) u nbrs :
  NoDup l.*1 → (u, nbrs) ∈ l → u ∉ S →
  sum_list (pend ({[u]} ∪ S) <$> l) + length nbrs = sum_list (pend S <$> l).
Proof.
  intros Hnd Hin Hu. induction l as [|[n nb] l IH]; [by apply elem_of_nil in Hin|].
  rewrite fmap_cons in Hnd. apply NoDup_cons in Hnd as [Hnin Hnd]. simpl in Hnin.
  rewrite !sum_pend_cons.
  apply elem_of_cons in Hin as [Heq|Hin].
  - injection Heq as <- <-. unfold pend at 1 3. simpl.
    rewrite decide_True by set_solver. rewrite decide_False by done.
    assert (sum_list (pend ({[u]} ∪ S) <$> l) = sum_list (pend S <$> l)) as ->; [|lia].
    f_equal. apply list_fmap_ext. intros i p Hp%list_elem_of_lookup_2.
    assert (p.1 ≠ u).
    { intros <-. apply Hnin. apply list_elem_of_fmap. by exists p. }
    unfold pend. destruct (decide (p.1 ∈ S)).
    + by rewrite decide_True by set_solver.
    + by rewrite decide_False by set_solver.
  - specialize (IH Hnd Hin).
    assert (n ≠ u).
    { intros ->. apply Hnin. apply list_elem_of_fmap. by exists (u, nbrs). }
    unfold pend at 1 3. simpl. destruct (decide (n ∈ S)).
    + rewrite decide_True by set_solver. lia.
    + rewrite decide_False by set_solver. lia.
Qed.

Lemma pending_visit {W} (g : Graph W) (S : gset node) u nbrs :
  wf_graph g → alookup u (adj g) = Some nbrs → u ∉ S →
  pending g ({[u]} ∪ S) + length nbrs = pending g S.
Proof.
  intros Hwf Hu Hn. apply pending_visit_aux; [apply Hwf|by apply alookup_elem|done].
Qed.

(** A set of nodes that no edge leaves contains the component of each
    of its members. *)
Lemma closed_conn {W} (g : Graph W) (S : gset node) :
  wf_graph g →
  (∀ a b w, a ∈ S → edge g a b w → b ∈ S) →
  ∀ x y, conn g x y → x ∈ S → y ∈ S.
Proof.
  intros Hwf Hcl x y H. unfold conn, rtsc in H.
  induction H as [|x x' y Hs _ IH]; [done|]. intros Hx. apply IH.
  destruct Hs as [[w Hw]|[w Hw]]; [by eapply Hcl|].
  eapply Hcl; [done|]. by apply edge_sym.
Qed.

(** A chain of edges that leaves a set of nodes crosses its border. *)
Lemma crossing_edge g t (S : gset node) x y :
  wf_graph g → conn_le g t x y → x ∈ S → y ∉ S →
  ∃ a b w, a ∈ S ∧ (b ∉ S) ∧ edge g a b w ∧ (w ≤ t)%Z.
Proof.
  intros Hwf H. unfold conn_le, rtsc in H.
  induction H as [|x x' y Hs _ IH]; [done|]. intros Hx Hy.
  destruct (decide (x' ∈ S)) as [Hx'|Hx']; [by apply IH|].
  assert (∃ w, edge g x x' w ∧ (w ≤ t)%Z) as (w & Hw & Hwt).
  { destruct Hs as [(w & ? & ?)|(w & ? & ?)]; exists w; split; try done.
    by apply edge_sym. }
  by exists x, x', w.
Qed.

(** A set of nodes as large as the node list holds every node. *)
Lemma full_set {W} (g : Graph W) (S : gset node) :
  wf_graph g → (∀ x, x ∈ S → x ∈ nodes g) → length (nodes g) ≤ size S →
  ∀ x, x ∈ nodes g → x ∈ S.
Proof.
  intros Hwf Hsub Hsz x Hx.
  assert (S = list_to_set (nodes g)) as ->; [|by apply elem_of_list_to_set].
  apply set_subseteq_size_eq.
  - intros y Hy. apply elem_of_list_to_set. by apply Hsub.
  - rewrite size_list_to_set; [done|]. by apply wf_nodup.
Qed.

Lemma full_set_size {W} (g : Graph W) (S : gset node) :
  wf_graph g → (∀ x, x ∈ S ↔ x ∈ nodes g) → size S = length (nodes g).
Proof.
  intros Hwf HS.
  assert (S = list_to_set (nodes g)) as ->.
  { apply set_eq. intros x. rewrite elem_of_list_to_set. apply HS. }
  apply size_list_to_set. by apply wf_nodup.
Qed.

(** ** The graphs [leer_grafo_csv] builds are well-formed *)

Lemma alookup_app {V} k (l1 l2 : list (node * V)) :
  alookup k (l1 ++ l2)
  = match alookup k l1 with Some v => Some v | None => alookup k l2 end.
Proof.
  induction l1 as [|[k' v'] l1 IH]; simpl; [done|]. by case_decide.
Qed.

Lemma alookup_aupdate {V} k k' (v : V) l :
  alookup k (aupdate k' v l) = if decide (k = k') then Some v else alookup k l.
Proof.
  induction l as [|[k1 v1] l IH]; simpl.
  - by repeat case_decide.
  - repeat (case_decide; simpl; simplify_eq); done.
Qed.

Lemma aupdate_keys {V} k (v : V) l :
  k ∈ l.*1 → (aupdate k v l).*1 = l.*1.
Proof.
  induction l as [|[k1 v1] l IH]; simpl; [by intros ?%elem_of_nil|].
  case_decide; simplify_eq; [done|]. intros [?|?]%elem_of_cons; [done|].
  simpl. f_equal. auto.
Qed.

Lemma aupdate_NoDup {V} k (v : V) l :
  NoDup l.*1 → NoDup (aupdate k v l).*1.
Proof.
  intros Hnd. destruct (decide (k ∈ l.*1)) as [Hk|Hk].
  - by rewrite aupdate_keys.
  - assert ((aupdate k v l).*1 = l.*1 ++ [k]) as ->.
    { clear Hnd. induction l as [|[k1 v1] l IH]; simpl in *; [done|].
      case_decide; simplify_eq; [by destruct Hk; left|].
      simpl. f_equal. apply IH. intros ?. apply Hk. by right. }
    apply NoDup_app. split; [done|]. split; [|apply NoDup_singleton].
    intros x Hx ->%list_elem_of_singleton. done.
Qed.

Section build.
Context {W : Type}.
Implicit Types (g : Graph W) (w c : W).

Lemma wf_graph_lookup g :
  wf_graph g ↔
  NoDup (nodes g)
  ∧ (∀ n nbrs, alookup n (adj g) = Some nbrs → NoDup nbrs.*1)
  ∧ (∀ u v w, edge g u v w → edge g v u w).
Proof.
  unfold wf_graph. split.
  - intros Hwf. split; [apply Hwf|]. split.
    + intros n nbrs Hn. destruct Hwf as [_ Hall]. rewrite Forall_forall in Hall.
      by destruct (Hall (n, nbrs)) as [? _]; [by apply alookup_elem|].
    + intros u v w. by apply edge_sym.
  - intros (Hnd & Hnb & Hsym). split; [done|]. apply Forall_forall.
    intros [n nbrs] Hin. apply (alookup_NoDup _ _ _ Hnd) in Hin. simpl.
    split; [by eapply Hnb|]. apply Forall_forall. intros [m w] Hm. simpl.
    apply (alookup_NoDup _ _ _ (Hnb _ _ Hin)) in Hm.
    apply (Hsym n m w). unfold edge. by rewrite Hin.
Qed.

Lemma add_node_lookup n (a : list (node * list (node * W))) k :
  alookup k (add_node n a)
  = match alookup k a with
    | Some nbrs => Some nbrs
    | None => if decide (k = n) then Some [] else None
    end.
Proof.
  unfold add_node. destruct (alookup n a) as [nbrs|] eqn:Hn.
  - destruct (alookup k a) eqn:Hk; [done|]. case_decide; [|done].
    simplify_eq.
  - rewrite alookup_app. simpl. destruct (alookup k a); [done|].
    by case_decide.
Qed.

Lemma add_node_NoDup n (a : list (node * list (node * W))) : NoDup a.*1 → NoDup (add_node n a).*1.
Proof.
  intros Hnd. unfold add_node. destruct (alookup n a) eqn:Hn; [done|].
  rewrite fmap_app. apply NoDup_app. split; [done|].
  split; [|apply NoDup_singleton].
  intros x Hx ->%list_elem_of_singleton. by apply alookup_None in Hn.
Qed.

Lemma set_adj_lookup u v w (a : list (node * list (node * W))) k :
  alookup k (set_adj u v w a)
  = match alookup u a with
    | Some nbrs => if decide (k = u) then Some (aupdate v w nbrs) else alookup k a
    | None => alookup k a
    end.
Proof.
  unfold set_adj. destruct (alookup u a); [|done]. apply alookup_aupdate.
Qed.

Lemma set_adj_NoDup u v w (a : list (node * list (node * W))) : NoDup a.*1 → NoDup (set_adj u v w a).*1.
Proof.
  intros Hnd. unfold set_adj. destruct (alookup u a); [|done].
  by apply aupdate_NoDup.
Qed.

(** The adjacency after [add_edge]: the weight of the new edge is set in
    both directions and nothing else changes. *)
Lemma add_edge_edge g u v w a b c :
  edge (add_edge g u v w) a b c ↔
  if decide ((a = u ∧ b = v) ∨ (a = v ∧ b = u)) then c = w else edge g a b c.
Proof.
  unfold edge, add_edge. simpl.
  set (a1 := add_node v (add_node u (adj g))).
  assert (Hu : is_Some (alookup u a1)).
  { unfold a1. rewrite !add_node_lookup.
    destruct (alookup u (adj g)); [by eexists|]. rewrite decide_True by done.
    by eexists. }
  assert (Hv : is_Some (alookup v a1)).
  { unfold a1. rewrite !add_node_lookup.
    destruct (alookup v (adj g)); [by eexists|]. case_decide; [by eexists|].
    rewrite decide_True by done. by eexists. }
  assert (H1 : ∀ x y, alookup x a1 ≫= alookup y = alookup x (adj g) ≫= alookup y).
  { intros x y. unfold a1. rewrite !add_node_lookup.
    destruct (alookup x (adj g)); [done|]. by repeat case_decide. }
  destruct Hu as [nu Hu]. rewrite !set_adj_lookup, Hu.
  assert (Hv2 : ∃ nv, (if decide (v = u) then Some (aupdate v w nu)
                       else alookup v a1) = Some nv).
  { case_decide; [by eexists|]. destruct Hv as [nv Hv]. by exists nv. }
  destruct Hv2 as [nv Hv2]. rewrite Hv2.
  destruct (decide (a = v)) as [->|Hav].
  - simpl. rewrite alookup_aupdate. destruct (decide (b = u)) as [->|Hbu].
    + rewrite decide_True by auto. split; congruence.
    + destruct (decide (v = u)) as [->|Hvu].
      * simplify_eq. rewrite alookup_aupdate. rewrite decide_False by done.
        rewrite decide_False by naive_solver. rewrite <-H1, Hu. done.
      * rewrite decide_False by naive_solver. rewrite <-H1, Hv2. done.
  - destruct (decide (a = u)) as [->|Hau].
    + simpl. rewrite alookup_aupdate. destruct (decide (b = v)) as [->|Hbv].
      * rewrite decide_True by auto. split; congruence.
      * rewrite decide_False by naive_solver. rewrite <-H1, Hu. done.
    + rewrite decide_False by naive_solver. by rewrite H1.
Qed.

Lemma add_edge_wf g u v w : wf_graph g → wf_graph (add_edge g u v w).
Proof.
  rewrite !wf_graph_lookup. intros (Hnd & Hnb & Hsym). split; [|split].
  - unfold nodes, add_edge. simpl.
    by apply set_adj_NoDup, set_adj_NoDup, add_node_NoDup, add_node_NoDup.
  - assert (Hn1 : ∀ n nbrs,
      alookup n (add_node v (add_node u (adj g))) = Some nbrs → NoDup nbrs.*1).
    { intros n nbrs. rewrite !add_node_lookup.
      destruct (alookup n (adj g)) eqn:Hn.
      - intros [= <-]. by eapply Hnb.
      - repeat case_decide; intros [= <-]; apply NoDup_nil_2. }
    assert (Hn2 : ∀ n nbrs,
      alookup n (set_adj u v w (add_node v (add_node u (adj g)))) = Some nbrs →
      NoDup nbrs.*1).
    { intros n nbrs. rewrite set_adj_lookup.
      destruct (alookup u _) as [nu|] eqn:Hu; [|by apply Hn1].
      case_decide; [|by apply Hn1]. intros [= <-].
      apply aupdate_NoDup. by eapply Hn1. }
    intros n nbrs. unfold add_edge. simpl. rewrite set_adj_lookup.
    destruct (alookup v _) as [nv|] eqn:Hv; [|by apply Hn2].
    case_decide; [|by apply Hn2]. intros [= <-].
    apply aupdate_NoDup. by eapply Hn2.
  - intros a b c. rewrite !add_edge_edge.
    repeat case_decide; try done; try naive_solver.
Qed.

Lemma wf_graph_empty : wf_graph (W:=W) (mkGraph []).
Proof. split; [apply NoDup_nil_2|apply Forall_nil_2]. Qed.

Lemma grafo_de_filas_wf (filas : list (node * node * W)) :
  wf_graph (grafo_de_filas filas).
Proof.
  unfold grafo_de_filas. generalize wf_graph_empty.
  generalize (mkGraph (W:=W) []). induction filas as [|f filas IH]; intros g Hg; [done|].
  simpl. apply IH. by apply add_edge_wf.
Qed.

End build.

(** ** Kruskal *)

(** One call of [unir] on an object that tracks the classes of [ops]. *)
Lemma unions_inv_step elementos ops s x y :
  unions_inv elementos ops s → x ∈ elementos → y ∈ elementos →
  ∃ s' b, unir x y s = (s', Ok b)
    ∧ (b = false ↔ linked ops x y)
    ∧ unions_inv elementos (if b then ops ++ [(x, y)] else ops) s'.
Proof.
  intros [Hinv Hreg Hsame] Hx Hy.
  destruct (unir_ok s x y Hinv) as (s' & b & Hrun & [Hinv' Hdom' Hf Hs' _]);
    [by apply Hreg..|].
  exists s', b. split; [done|]. rewrite Hsame in Hf by done. split; [done|].
  split; [done| |].
  - intros z. rewrite <-Hreg. by apply registered_dom.
  - intros a c Ha Hc. rewrite Hs'. destruct b.
    + rewrite linked_snoc. unfold merged. by rewrite !Hsame.
    + by apply Hsame.
Qed.

Lemma upto_mono_linked t t' T a b :
  (t ≤ t')%Z → linked (pairs (upto t T)) a b → linked (pairs (upto t' T)) a b.
Proof.
  intros Ht. apply linked_mono. intros p Hin.
  apply list_elem_of_fmap in Hin as ([[x y] w] & -> & Hin).
  apply list_elem_of_filter in Hin as [Hw Hin]. simpl in Hw.
  apply list_elem_of_fmap. exists (x, y, w). split; [done|].
  apply list_elem_of_filter. split; [simpl; lia|done].
Qed.

Lemma upto_linked t T a b :
  linked (pairs (upto t T)) a b → linked (pairs T) a b.
Proof.
  apply linked_mono. intros p Hin.
  apply list_elem_of_fmap in Hin as ([[x y] w] & -> & Hin).
  apply list_elem_of_filter in Hin as [_ Hin].
  apply list_elem_of_fmap. by exists (x, y, w).
Qed.

Lemma linked_upto_pair t T u v w :
  (u, v, w) ∈ T → (w ≤ t)%Z → linked (pairs (upto t T)) u v.
Proof.
  intros Hin Hw. apply linked_pair. apply list_elem_of_fmap.
  exists (u, v, w). split; [done|]. by apply list_elem_of_filter.
Qed.

Section kruskal.
Context (g : Graph Z) (Hwf : wf_graph g).

Lemma kruskal_loop_ok rest :
  ∀ uf mst total,
    unions_inv (nodes g) (pairs mst) uf →
    forest_of g mst total →
    (∀ w u v, (w, u, v) ∈ rest → edge g u v w) →
    StronglySorted arista_le rest →
    (∀ e a, e ∈ mst → a ∈ rest → (e.2 ≤ a.1.1)%Z) →
    ∃ T tot, kruskal_loop (length (nodes g)) rest uf mst total = Ok (T, tot)
      ∧ forest_of g T tot
      ∧ (∃ ext, T = mst ++ ext)
      ∧ (∀ w u v, (w, u, v) ∈ rest → linked (pairs (upto w T)) u v).
Proof.
  induction rest as [|[[w u] v] rest IH]; intros uf mst total Hui Hfo Hed Hso Hle.
  { exists mst, total. split; [done|]. split; [done|]. split.
    - exists []. by rewrite app_nil_r.
    - by intros ??? ?%elem_of_nil. }
  assert (Huv : edge g u v w) by (apply Hed; by left).
  assert (Hu : u ∈ nodes g) by (by eapply edge_node_l).
  assert (Hv : v ∈ nodes g) by (by eapply edge_node_r).
  destruct (unions_inv_step _ _ _ u v Hui Hu Hv) as (uf' & b & Hrun & Hb & Hui').
  apply StronglySorted_inv in Hso as [Hso Hhd].
  rewrite Forall_forall in Hhd.
  cbn [kruskal_loop]. rewrite Hrun. destruct b.
  - (* the edge is accepted *)
    assert (Hnl : ¬ linked (pairs mst) u v).
    { intros Hl. apply Hb in Hl. done. }
    assert (Hfo' : forest_of g (mst ++ [(u, v, w)]) (total + w)).
    { destruct Hfo as [Hf He Ht]. split.
      - rewrite pairs_app. simpl. by constructor.
      - intros x y z [?|Heq%list_elem_of_singleton]%elem_of_app; [by apply He|].
        by simplify_eq.
      - rewrite weights_app, sum_Z_app, Ht. unfold sum_Z. simpl. lia. }
    assert (Hle' : ∀ e a, e ∈ mst ++ [(u, v, w)] → a ∈ rest → (e.2 ≤ a.1.1)%Z).
    { intros e a [?|Heq%list_elem_of_singleton]%elem_of_app Ha.
      - apply Hle; [done|by right].
      - subst e. simpl. by apply (arista_le_weight (w, u, v) a), Hhd. }
    case_decide as Hlen.
    + (* |V| - 1 edges: the loop is left *)
      exists (mst ++ [(u, v, w)]), (total + w)%Z.
      split; [done|]. split; [done|]. split; [by eexists|].
      destruct (inc_forest_reps (nodes g) (pairs (mst ++ [(u, v, w)])))
        as (reps & Hreps & Hcount); [by apply wf_nodup|apply Hfo'|].
      unfold pairs in Hcount. rewrite length_fmap in Hcount.
      rewrite length_app in Hlen, Hcount. simpl in Hlen, Hcount.
      destruct reps as [|r [|r' reps]]; simpl in Hcount; [lia| |lia].
      assert (Hall : ∀ a c, a ∈ nodes g → c ∈ nodes g →
                linked (pairs (mst ++ [(u, v, w)])) a c).
      { eapply is_reps_single; [apply _..|done]. }
      intros w' u' v' Hin.
      assert (Hw' : (w ≤ w')%Z).
      { apply elem_of_cons in Hin as [Heq|Hin]; [simplify_eq; lia|].
        by apply (arista_le_weight (w, u, v) (w', u', v')), Hhd. }
      rewrite upto_all.
      * pose proof (Hed _ _ _ Hin) as He'.
        apply Hall; [by eapply edge_node_l|by eapply edge_node_r].
      * apply Forall_forall. intros e [He|Heq%list_elem_of_singleton]%elem_of_app.
        -- etrans; [apply (Hle e (w, u, v)); [done|by left]|]. simpl. lia.
        -- subst e. simpl. lia.
    + destruct (IH uf' (mst ++ [(u, v, w)]) (total + w)%Z) as (T & tot & Hrun' & HfoT & [ext ->] & Hth).
      { by rewrite pairs_app. }
      { done. }
      { intros ????. apply Hed. by right. }
      { done. }
      { done. }
      exists ((mst ++ [(u, v, w)]) ++ ext), tot. split; [done|]. split; [done|].
      split; [exists ([(u, v, w)] ++ ext); by rewrite <-!app_assoc|].
      intros w' u' v' [Heq|Hin]%elem_of_cons; [|by apply Hth].
      simplify_eq. eapply linked_upto_pair;
        [apply elem_of_app; left; apply elem_of_app; right; by left|lia].
  - (* the edge closes a cycle *)
    assert (Hl : linked (pairs mst) u v) by (by apply Hb).
    destruct (IH uf' mst total) as (T & tot & Hrun' & HfoT & [ext ->] & Hth).
    { done. }
    { done. }
    { intros ????. apply Hed. by right. }
    { done. }
    { intros e a He Ha. apply Hle; [done|by right]. }
    exists (mst ++ ext), tot. split; [done|]. split; [done|].
    split; [by eexists|].
    intros w' u' v' [Heq|Hin]%elem_of_cons; [|by apply Hth].
    simplify_eq. rewrite upto_app, pairs_app.
    eapply linked_mono; [|exact Hl]. intros p Hp. apply elem_of_app. left.
    rewrite upto_all; [done|]. apply Forall_forall. intros e He.
    apply (Hle e (w, u, v)); [done|by left].
Qed.

(** [algoritmo_kruskal] returns, for every graph, a forest of edges of
    the graph that connects, below every weight [t], whatever the edges
    of weight at most [t] connect. *)
Lemma kruskal_ok :
  ∃ T tot, algoritmo_kruskal g = Ok (T, tot)
    ∧ forest_of g T tot
    ∧ (∀ t a b, conn_le g t a b → linked (pairs (upto t T)) a b).
Proof.
  unfold algoritmo_kruskal. case_decide as Hn.
  { exists [], 0%Z. split; [done|]. split.
    - split; [constructor|by intros ??? ?%elem_of_nil|done].
    - intros t a b H. unfold conn_le, rtsc in H.
      induction H as [|a a' b Hs _ IH]; [done|]. exfalso.
      assert (∃ x, x ∈ nodes g) as [x Hx].
      { destruct Hs as [(w & ? & _)|(w & ? & _)]; eexists; by eapply edge_node_l. }
      destruct (nodes g); [by apply elem_of_nil in Hx|done]. }
  set (aristas := merge_sort arista_le ((λ e, (e.2, e.1.1, e.1.2)) <$> edges g)).
  assert (Hin : ∀ w u v, (w, u, v) ∈ aristas ↔ (u, v, w) ∈ edges g).
  { intros w u v. unfold aristas. rewrite merge_sort_Permutation.
    rewrite list_elem_of_fmap. split.
    - intros ([[u' v'] w'] & Heq & ?). simpl in Heq. by simplify_eq.
    - intros. by exists (u, v, w). }
  destruct (kruskal_loop_ok aristas (uf_init (nodes g)) [] 0%Z)
    as (T & tot & Hrun & Hfo & _ & Hth).
  { apply uf_unions_inv. constructor. }
  { split; [constructor|by intros ??? ?%elem_of_nil|done]. }
  { intros w u v ?%Hin. by apply edges_edge. }
  { apply StronglySorted_merge_sort; apply _. }
  { by intros ?? ?%elem_of_nil. }
  exists T, tot. split; [done|]. split; [done|].
  intros t a b H. unfold conn_le, rtsc in H.
  induction H as [|a a' b Hs _ IH]; [done|]. etrans; [|exact IH].
  assert (∃ w, edge g a a' w ∧ (w ≤ t)%Z) as (w & Hw & Hwt).
  { destruct Hs as [(w & ? & ?)|(w & ? & ?)]; exists w; split; try done.
    by apply edge_sym. }
  apply (upto_mono_linked w t); [done|].
  destruct (edge_edges g Hwf _ _ _ Hw) as [He|He]; apply Hin, Hth in He; [done|].
  by symmetry.
Qed.

End kruskal.

(** A forest of edges of the graph connects only what the graph connects. *)
Lemma forest_linked_conn g T tot a b :
  wf_graph g → forest_of g T tot → linked (pairs T) a b → conn g a b.
Proof.
  intros Hwf [_ He _]. unfold linked, conn, rtsc. apply rtc_subrel.
  assert (∀ x y, (x, y) ∈ pairs T → ∃ w, edge g x y w) as H.
  { intros x y Hin. apply list_elem_of_fmap in Hin as ([[x' y'] w] & Heq & Hin).
    simpl in Heq. simplify_eq. exists w. by apply He. }
  intros x y [Hs|Hs]; [left|right]; by apply H.
Qed.

(** A forest that connects what the graph connects has as many edges as
    the nodes minus the components. *)
Lemma spanning_forest_count g T tot k :
  wf_graph g → forest_of g T tot →
  (∀ a b, conn g a b → linked (pairs T) a b) →
  n_components g k → length T + k = length (nodes g).
Proof.
  intros Hwf Hfo Hspan (reps & Hreps & <-).
  destruct (inc_forest_reps (nodes g) (pairs T)) as (reps' & Hreps' & Hcount);
    [by apply wf_nodup|apply Hfo|].
  unfold pairs in Hcount. rewrite length_fmap in Hcount.
  assert (length reps' = length reps); [|lia].
  eapply (is_reps_length (conn g)); [apply _..| |done].
  eapply is_reps_ext; [|done]. intros a b _ _. split.
  - by eapply forest_linked_conn.
  - apply Hspan.
Qed.

Lemma kruskal_count g k :
  wf_graph g → n_components g k →
  ∃ T tot, algoritmo_kruskal g = Ok (T, tot) ∧ length T + k = length (nodes g).
Proof.
  intros Hwf Hk. destruct (kruskal_ok g Hwf) as (T & tot & Hrun & Hfo & Hth).
  exists T, tot. split; [done|]. eapply spanning_forest_count; [done..| |done].
  intros a b [t Ht]%conn_conn_le; [|done]. eapply upto_linked. by apply Hth.
Qed.

(** ** Prim *)

Section prim.
Context (g : Graph Z) (Hwf : wf_graph g).

(** The inner loop pushes one entry per unvisited neighbour. *)
Lemma prim_vecinos_ok u nbrs (S : gset node) vec :
  alookup u (adj g) = Some nbrs →
  (∀ v, v ∈ vec → v ∈ nbrs.*1) →
  ∀ H, is_heap prim_lt H →
  ∃ H', prim_vecinos g u S H vec = Ok H'
    ∧ is_heap prim_lt H'
    ∧ length H' ≤ length H + length vec
    ∧ ∀ x, x ∈ H' ↔ x ∈ H ∨
             ∃ v w, x = (w, v, Some u) ∧ v ∈ vec ∧ (v ∉ S) ∧ edge g u v w.
Proof.
  intros Hu. induction vec as [|v vec IH]; intros Hsub H Hh.
  { exists H. split; [done|]. split; [done|]. split; [simpl; lia|].
    intros x. split; [by left|]. intros [?|(v & w & _ & ?%elem_of_nil & _)]; done. }
  cbn [prim_vecinos].
  assert (Hsub' : ∀ v', v' ∈ vec → v' ∈ nbrs.*1) by (intros; apply Hsub; by right).
  case_decide as Hv.
  - assert (is_Some (alookup v nbrs)) as [w Hw].
    { apply alookup_is_Some, Hsub. by left. }
    assert (Hwe : weight g u v = Ok w).
    { unfold weight. by rewrite Hu, Hw. }
    rewrite Hwe. simpl.
    destruct (IH Hsub' (Heapq.heappush prim_lt H (w, v, Some u)))
      as (H' & Hrun & Hh' & Hlen & Hel); [by apply (heappush_heap prim_lt)|].
    exists H'. split; [done|]. split; [done|].
    pose proof (heappush_perm prim_lt H (w, v, Some u)) as Hperm.
    split.
    + rewrite Hperm in Hlen. simpl in *. lia.
    + intros x. rewrite Hel, Hperm, elem_of_cons. split.
      * intros [[->|?]|(v' & w' & ? & ? & ? & ?)].
        -- right. exists v, w. split; [done|]. split; [by left|]. split; [done|].
           by apply weight_edge.
        -- by left.
        -- right. exists v', w'. split; [done|]. split; [by right|done].
      * intros [?|(v' & w' & -> & [->|?]%elem_of_cons & ? & Hed)].
        -- left. by right.
        -- left. left. apply (weight_edge g) in Hed. congruence.
        -- right. by exists v', w'.
  - destruct (IH Hsub' H Hh) as (H' & Hrun & Hh' & Hlen & Hel).
    exists H'. split; [done|]. split; [done|]. split; [simpl; lia|].
    intros x. rewrite Hel. split.
    + intros [?|(v' & w' & ? & ? & ? & ?)]; [by left|].
      right. exists v', w'. split; [done|]. split; [by right|done].
    + intros [?|(v' & w' & -> & [->|?]%elem_of_cons & Hn & Hed)]; [by left| |].
      * done.
      * right. by exists v', w'.
Qed.

#[local] Abbreviation prim_inv := (prim_inv g).
#[local] Abbreviation prim_final := (prim_final g).

Lemma linked_ends (S : gset node) (mst : list (node * node * Z)) a b :
  (∀ u v w, (u, v, w) ∈ mst → u ∈ S ∧ v ∈ S) →
  linked (pairs mst) a b → a = b ∨ (a ∈ S ∧ b ∈ S).
Proof.
  intros Hends H. unfold linked, rtsc in H.
  induction H as [|a a' b Hs _ IH]; [by left|]. right.
  assert (a ∈ S ∧ a' ∈ S) as [Ha Ha'].
  { assert (∀ x y, (x, y) ∈ pairs mst → x ∈ S ∧ y ∈ S) as Hp.
    { intros x y Hin. apply list_elem_of_fmap in Hin as ([[x' y'] w] & Heq & Hin).
      simpl in Heq. simplify_eq. by eapply Hends. }
    destruct Hs as [Hs|Hs]; apply Hp in Hs; tauto. }
  destruct IH as [<-|[_ ?]]; done.
Qed.

Lemma prim_final_of start S mst total H :
  prim_inv start S mst total H →
  ¬ (H ≠ [] ∧ size S < length (nodes g)) →
  prim_final start S mst total.
Proof.
  intros [Hst Hsub Hfo Hsz Hends Hspan Hconn Hh Hval Hcr] Hstop.
  split; [done|done| |done].
  intros x. split; [apply Hconn|]. intros Hx.
  destruct (decide (H = [])) as [->|Hne].
  - eapply (closed_conn g S Hwf); [|done|done].
    intros a b w Ha Hab. destruct (decide (b ∈ S)) as [|Hb]; [done|].
    by apply (Hcr a b w Ha Hb), elem_of_nil in Hab.
  - apply (full_set g S Hwf Hsub).
    + destruct (decide (size S < length (nodes g))); [|lia]. exfalso. by apply Hstop.
    + eapply conn_nodes; [done..|]. by apply Hsub.
Qed.

Lemma prim_loop_ok start fuel :
  ∀ S mst total H,
    prim_inv start S mst total H →
    length H + pending g S < fuel →
    ∃ T tot S', prim_loop fuel g S mst total H = Ok (T, tot)
                ∧ prim_final start S' T tot.
Proof.
  induction fuel as [|fuel IH]; intros S mst total H Hinv Hfuel; [lia|].
  cbn [prim_loop]. case_decide as Hcond.
  2:{ exists mst, total, S. split; [done|]. by eapply prim_final_of. }
  destruct Hcond as [Hne Hlt].
  pose proof Hinv as [Hst Hsub Hfo Hsz Hends Hspan Hconn Hh Hval Hcr].
  destruct (heappop_spec prim_lt H Hh Hne) as ([[w v] oa] & H1 & Hpop & Hperm & Hh1 & Hmin).
  rewrite Hpop.
  assert (Hlen1 : length H = length H1 + 1) by (rewrite Hperm; simpl; lia).
  assert (HinH : ∀ x, x ∈ H ↔ x = (w, v, oa) ∨ x ∈ H1).
  { intros x. by rewrite Hperm, elem_of_cons. }
  destruct (Hval w v oa) as (p & -> & Hp & Hpv); [apply HinH; by left|].
  case_decide as Hv.
  - (* a stale entry *)
    apply IH; [|lia]. split; try done.
    + intros w' b oa' Hin. apply Hval, HinH. by right.
    + intros a b w' Ha Hb Hab. pose proof (Hcr a b w' Ha Hb Hab) as Hc.
      apply HinH in Hc as [Heq|?]; [|done]. by simplify_eq.
  - (* a new node *)
    assert (Hvn : v ∈ nodes g) by (by eapply edge_node_r).
    destruct (neighbors_ok g Hwf v Hvn) as (nbrs & Hnb & Hnbrs & Hnd).
    rewrite Hnbrs. simpl.
    destruct (prim_vecinos_ok v nbrs ({[v]} ∪ S) nbrs.*1 Hnb) with (H := H1)
      as (H2 & Hrun & Hh2 & Hlen2 & Hel2); [done|done|].
    rewrite Hrun. simpl.
    apply IH.
    2:{ pose proof (pending_visit g S v nbrs Hwf Hnb Hv).
        rewrite length_fmap in Hlen2. lia. }
    assert (Hmst : ∀ t a b, linked (pairs (upto t mst)) a b →
              linked (pairs (upto t (mst ++ [(p, v, w)]))) a b).
    { intros t a b. apply linked_mono. intros q Hq.
      rewrite upto_app, pairs_app. apply elem_of_app. by left. }
    assert (Hnew : ∀ t a, a ∈ S → conn_le g t a v →
              linked (pairs (upto t (mst ++ [(p, v, w)]))) a v).
    { intros t a Ha Hav.
      destruct (crossing_edge g t S a v Hwf Hav Ha Hv) as (a' & b' & w' & Ha' & Hb' & He' & Hw').
      assert (Hww : (w ≤ w')%Z).
      { apply (prim_lt_weight (w, v, Some p) (w', b', Some a')), Hmin. by apply Hcr. }
      etrans.
      - apply Hmst, Hspan; [done|exact Hp|]. etrans; [exact Hav|].
        apply rtsc_rl. exists w. split; [done|lia].
      - eapply linked_upto_pair; [|etrans; [exact Hww|exact Hw']].
        apply elem_of_app. right. by left. }
    split.
    + set_solver.
    + intros x [->%elem_of_singleton|?]%elem_of_union; [done|by apply Hsub].
    + destruct Hfo as [Hf He Ht]. split.
      * rewrite pairs_app. simpl. constructor; [done|by apply Hsub|done|].
        intros Hl. apply (linked_ends S) in Hl as [->|[_ ?]]; done.
      * intros x y z [?|Heq%list_elem_of_singleton]%elem_of_app; [by apply He|].
        by simplify_eq.
      * rewrite weights_app, sum_Z_app, Ht. unfold sum_Z. simpl. lia.
    + rewrite size_union, size_singleton, length_app by set_solver. simpl. lia.
    + intros x y z [Hin|Heq%list_elem_of_singleton]%elem_of_app.
      * apply Hends in Hin. set_solver.
      * simplify_eq. set_solver.
    + intros t a b [->%elem_of_singleton|Ha]%elem_of_union
                   [->%elem_of_singleton|Hb]%elem_of_union Hab.
      * done.
      * symmetry. apply Hnew; [done|by symmetry].
      * by apply Hnew.
      * by apply Hmst, Hspan.
    + intros x [->%elem_of_singleton|?]%elem_of_union; [|by apply Hconn].
      etrans; [by apply Hconn|]. apply rtsc_lr. by exists w.
    + done.
    + intros w' b oa Hin. apply Hel2 in Hin as [Hin|(b' & w'' & Heq & _ & _ & He)].
      * destruct (Hval w' b oa) as (a & -> & Ha & Hab); [apply HinH; by right|].
        exists a. split; [done|]. split; [set_solver|done].
      * simplify_eq. exists v. split; [done|]. split; [set_solver|done].
    + intros a b w' Ha Hb Hab. apply Hel2.
      apply elem_of_union in Ha as [->%elem_of_singleton|Ha].
      * right. exists b, w'. split; [done|]. split; [|done].
        by eapply edge_neighbor.
      * left. assert (b ∉ S) as HbS by set_solver.
        pose proof (Hcr a b w' Ha HbS Hab) as Hc.
        apply HinH in Hc as [Heq|?]; [|done]. simplify_eq.
        set_solver.
Qed.

(** [algoritmo_prim] from a node of the graph. *)
Lemma prim_ok start :
  start ∈ nodes g →
  ∃ T tot S, algoritmo_prim g (Some start) = Ok (T, tot)
             ∧ prim_final start S T tot.
Proof.
  intros Hstart. unfold algoritmo_prim.
  rewrite decide_False by (destruct (nodes g); [by apply elem_of_nil in Hstart|done]).
  rewrite <-pending_empty. remember (Datatypes.S (pending g ∅)) as f eqn:Hf.
  cbn [mbind result_mbind result_bind prim_loop].
  rewrite decide_True.
  2:{ split; [done|]. rewrite size_empty.
      destruct (nodes g); [by apply elem_of_nil in Hstart|simpl; lia]. }
  change (Heapq.heappop prim_lt [(cero, start, None)])
    with (Some ((0%Z, start, @None node), @nil (prim_entry Z))).
  cbv beta iota. rewrite decide_False by set_solver.
  destruct (neighbors_ok g Hwf start Hstart) as (nbrs & Hnb & Hnbrs & Hnd).
  rewrite Hnbrs. cbn [mbind result_mbind result_bind].
  destruct (prim_vecinos_ok start nbrs ({[start]} ∪ ∅) nbrs.*1 Hnb) with (H := @nil (prim_entry Z))
    as (H2 & Hrun & Hh2 & Hlen2 & Hel2); [done|apply is_heap_nil|].
  rewrite Hrun. cbn [mbind result_mbind result_bind].
  apply prim_loop_ok.
  2:{ assert (start ∉ (∅ : gset node)) as Hne by set_solver.
      pose proof (pending_visit g ∅ start nbrs Hwf Hnb Hne).
      rewrite length_fmap in Hlen2. simpl in Hlen2. lia. }
  split.
  - set_solver.
  - intros x Hx. assert (x = start) as -> by set_solver. done.
  - split; [constructor|by intros ??? ?%elem_of_nil|done].
  - rewrite size_union, size_singleton, size_empty by set_solver. done.
  - by intros ??? ?%elem_of_nil.
  - intros t a b Ha Hb _. assert (a = start) as -> by set_solver.
    assert (b = start) as -> by set_solver. done.
  - intros x Hx. assert (x = start) as -> by set_solver. done.
  - done.
  - intros w b oa Hin. apply Hel2 in Hin as [?%elem_of_nil|(b' & w' & Heq & _ & _ & He)]; [done|].
    simplify_eq. exists start. split; [done|]. split; [set_solver|done].
  - intros a b w Ha Hb Hab. assert (a = start) as -> by set_solver.
    apply Hel2. right. exists b, w. split; [done|]. split; [|done].
    by eapply edge_neighbor.
Qed.

(** Without a start node, the first node of the graph is taken. *)
Lemma prim_default primero resto :
  nodes g = primero :: resto →
  algoritmo_prim g None = algoritmo_prim g (Some primero).
Proof.
  intros Hn. unfold algoritmo_prim. rewrite Hn. done.
Qed.

End prim.

(** ** Dijkstra *)

Lemma nonneg_edge g u v w : nonneg_weights g → edge g u v w → (0 ≤ w)%Z.
Proof.
  intros Hnn (nbrs & Hu & Hv)%edge_lookup. unfold nonneg_weights in Hnn.
  rewrite Forall_forall in Hnn. specialize (Hnn (u, nbrs) (alookup_elem _ _ _ Hu)).
  simpl in Hnn. rewrite Forall_forall in Hnn.
  apply (Hnn (v, w)). by apply alookup_elem.
Qed.

Lemma edge_fun {W} (g : Graph W) u v w w' : edge g u v w → edge g u v w' → w = w'.
Proof. unfold edge. congruence. Qed.

Lemma path_nonneg g u v d : nonneg_weights g → path g u v d → (0 ≤ d)%Z.
Proof.
  intros Hnn. induction 1 as [|v x w d _ IH He]; [done|].
  pose proof (nonneg_edge _ _ _ _ Hnn He). lia.
Qed.

Section dijkstra.
Context (g : Graph Z) (Hwf : wf_graph g) (Hnn : nonneg_weights g).

#[local] Abbreviation vec_post := (vec_post g).

Lemma dijkstra_vecinos_ok d u (vis : gset node) nbrs :
  alookup u (adj g) = Some nbrs →
  ∀ vec, NoDup vec → (∀ v, v ∈ vec → v ∈ nbrs.*1) →
  ∀ st,
    (∀ v, v ∈ vec → is_Some (distancias st !! v)) →
    (∀ v, v ∈ vec → is_Some (predecesores st !! v)) →
    is_heap dijkstra_lt (ds_heap st) →
    ∃ st', dijkstra_vecinos g d u vis st vec = Ok st' ∧ vec_post d u vis vec st st'.
Proof.
  intros Hu. induction vec as [|v vec IH]; intros Hnd Hsub st HD HP Hh.
  { exists st. split; [done|]. split; try done.
    - simpl. lia.
    - by intros v w dv ?%elem_of_nil.
    - by left. }
  apply NoDup_cons in Hnd as [Hv Hnd].
  assert (Hsub' : ∀ v', v' ∈ vec → v' ∈ nbrs.*1) by (intros; apply Hsub; by right).
  cbn [dijkstra_vecinos]. enteros. case_decide as Hvis.
  2:{ assert (Hvin : v ∈ vis) by (destruct (decide (v ∈ vis)); [done|by exfalso]).
      destruct (IH Hnd Hsub' st) as (st' & Hrun & Hpost).
      { intros; apply HD; by right. }
      { intros; apply HP; by right. }
      { done. }
      exists st'. split; [done|]. destruct Hpost. split; try done.
      - simpl. lia.
      - intros x [Hx|Hx]; apply vp_same0; [|by right]. left.
        intros ?. apply Hx. by right.
      - intros x w dv [->|Hx]%elem_of_cons Hxv; [done|]. by apply vp_upd0.
      - intros x Hx. apply vp_new0 in Hx as [?|(x' & w & ? & ? & ?)]; [by left|].
        right. exists x', w. split; [done|]. split; [by right|done]. }
  assert (is_Some (alookup v nbrs)) as [w Hw].
  { apply alookup_is_Some, Hsub. by left. }
  assert (Hwe : weight g u v = Ok w) by (unfold weight; by rewrite Hu, Hw).
  assert (Hed : edge g u v w) by (by apply weight_edge).
  rewrite Hwe. cbn [mbind result_mbind result_bind].
  destruct (HD v) as [dv Hdv]; [by left|].
  unfold getitem at 1. rewrite Hdv. cbn [mbind result_mbind result_bind].
  destruct (dist_lt (d + w) dv) eqn:Hlt.
  - set (st1 := mkDS (<[v:=Fin (d + w)]> (distancias st))
                     (<[v:=Some u]> (predecesores st))
                     (Heapq.heappush dijkstra_lt (ds_heap st) ((d + w)%Z, v))).
    pose proof (heappush_perm dijkstra_lt (ds_heap st) ((d + w)%Z, v)) as Hperm.
    destruct (IH Hnd Hsub' st1) as (st' & Hrun & Hpost).
    { intros x Hx. simpl. rewrite lookup_insert_is_Some'. right. apply HD. by right. }
    { intros x Hx. simpl. rewrite lookup_insert_is_Some'. right. apply HP. by right. }
    { simpl. by apply (heappush_heap dijkstra_lt). }
    exists st'. split; [done|]. destruct Hpost.
    assert (Hv1 : distancias st' !! v = Some (Fin (d + w))
                  ∧ predecesores st' !! v = Some (Some u)).
    { destruct (vp_same0 v) as [-> ->]; [by left|]. simpl.
      by rewrite !lookup_insert_eq. }
    split; try done.
    + simpl in vp_len0. rewrite Hperm in vp_len0. simpl in *. lia.
    + intros x. rewrite vp_domD0. simpl. rewrite lookup_insert_is_Some'.
      split; [|by right]. intros [->|?]; [by eexists|done].
    + intros x. rewrite vp_domP0. simpl. rewrite lookup_insert_is_Some'.
      split; [|by right]. intros [->|?]; [by apply HP; left|done].
    + intros x Hx.
      assert (x ≠ v ∨ x ∈ vis) as Hx'.
      { destruct Hx as [Hx|?]; [left|by right]. intros ->. apply Hx. by left. }
      assert (x ≠ v) as Hxv by (destruct Hx'; [done|by intros ->]).
      destruct (vp_same0 x) as [-> ->].
      { destruct Hx as [Hx|?]; [left|by right]. intros ?. apply Hx. by right. }
      simpl. by rewrite !lookup_insert_ne.
    + intros x w' dx [->|Hx]%elem_of_cons Hxv Hxe Hdx.
      * rewrite (edge_fun _ _ _ _ _ Hxe Hed). simplify_eq. rewrite Hlt.
        destruct Hv1. split; [done|]. split; [done|].
        apply vp_old0. simpl. rewrite Hperm. by left.
      * assert (x ≠ v) by (by intros ->).
        specialize (vp_upd0 x w' dx Hx Hxv Hxe). simpl in vp_upd0.
        rewrite !lookup_insert_ne in vp_upd0 by done. by apply vp_upd0.
    + intros x Hx. apply vp_old0. simpl. rewrite Hperm. by right.
    + intros x Hx. apply vp_new0 in Hx as [Hx|(x' & w' & ? & ? & ?)].
      * simpl in Hx. rewrite Hperm in Hx. apply elem_of_cons in Hx as [->|?]; [|by left].
        right. exists v, w. split; [done|]. split; [by left|]. split; [done|].
        split; [done|apply Hv1].
      * right. exists x', w'. split; [done|]. split; [by right|done].
  - destruct (IH Hnd Hsub' st) as (st' & Hrun & Hpost).
    { intros; apply HD; by right. }
    { intros; apply HP; by right. }
    { done. }
    exists st'. split; [done|]. destruct Hpost. split; try done.
    + simpl. lia.
    + intros x [Hx|Hx]; apply vp_same0; [|by right]. left.
      intros ?. apply Hx. by right.
    + intros x w' dx [->|Hx]%elem_of_cons Hxv Hxe Hdx; [|by apply vp_upd0].
      rewrite (edge_fun _ _ _ _ _ Hxe Hed). simplify_eq. rewrite Hlt.
      destruct (vp_same0 v) as [-> ->]; [by left|done].
    + intros x Hx. apply vp_new0 in Hx as [?|(x' & w' & ? & ? & ?)]; [by left|].
      right. exists x', w'. split; [done|]. split; [by right|done].
Qed.

#[local] Abbreviation dijkstra_inv := (dijkstra_inv g).

(** No walk from the source is shorter than the recorded distance of
    the first unvisited node it meets. *)
Lemma lower_bound src vis st :
  dijkstra_inv src vis st →
  ∀ y d', path g src y d' →
    (y ∈ vis → ∃ dy, distancias st !! y = Some (Fin dy) ∧ (dy ≤ d')%Z) ∧
    (y ∉ vis → ∃ b db, (b ∉ vis) ∧ distancias st !! b = Some (Fin db) ∧ (db ≤ d')%Z).
Proof.
  intros Hinv y d' Hp. induction Hp as [|a y w d1 Hp IH He].
  - split.
    + intros _. exists 0%Z. split; [apply Hinv|done].
    + intros Hs. exists src, 0%Z. split; [done|]. split; [apply Hinv|done].
  - pose proof (nonneg_edge _ _ _ _ Hnn He) as Hw.
    split.
    + intros Hy. destruct (di_min _ _ _ _ Hinv y Hy) as (dy & Hdy & Hmin).
      exists dy. split; [done|]. apply Hmin. by econstructor.
    + intros Hy. destruct (decide (a ∈ vis)) as [Ha|Ha].
      * destruct IH as [IH _]. destruct (IH Ha) as (da & Hda & Hle).
        destruct (di_relax _ _ _ _ Hinv a y w da Ha He Hda) as (dv & Hdv & Hle').
        exists y, dv. split; [done|]. split; [done|lia].
      * destruct IH as [_ IH]. destruct (IH Ha) as (b & db & Hb & Hdb & Hle).
        exists b, db. split; [done|]. split; [done|lia].
Qed.

(** What popping the least entry [(d, u)] gives. *)
Lemma dijkstra_pop src vis st :
  dijkstra_inv src vis st → ds_heap st ≠ [] →
  ∃ d u H1, Heapq.heappop dijkstra_lt (ds_heap st) = Some ((d, u), H1)
    ∧ length (ds_heap st) = length H1 + 1
    ∧ is_heap dijkstra_lt H1
    ∧ (∀ x, x ∈ ds_heap st ↔ x = (d, u) ∨ x ∈ H1)
    ∧ (∀ e v, (e, v) ∈ ds_heap st → (d ≤ e)%Z).
Proof.
  intros Hinv Hne.
  destruct (heappop_spec dijkstra_lt (ds_heap st) (di_heap _ _ _ _ Hinv) Hne)
    as ([d u] & H1 & Hpop & Hperm & Hh1 & Hmn).
  exists d, u, H1. split; [done|]. split; [rewrite Hperm; simpl; lia|].
  split; [done|]. split.
  - intros x. by rewrite Hperm, elem_of_cons.
  - intros e v Hin. by apply (dijkstra_lt_weight (d, u) (e, v)), Hmn.
Qed.

(** A stale entry is dropped. *)
Lemma dijkstra_stale_inv src vis st d u H1 :
  dijkstra_inv src vis st →
  (∀ x, x ∈ ds_heap st ↔ x = (d, u) ∨ x ∈ H1) →
  is_heap dijkstra_lt H1 → u ∈ vis →
  dijkstra_inv src vis (mkDS (distancias st) (predecesores st) H1).
Proof.
  intros Hinv HinH Hh1 Hu.
  pose proof Hinv as [HdomD HdomP Hsrc Hpsrc Hsub Hpath Hmin Hrelax Hh Hentry Hpend Hmono Hpred].
  split; simpl; try done.
  + intros e v Hin. apply Hentry, HinH. by right.
  + intros v e Hv Hd. pose proof (Hpend v e Hv Hd) as Hin.
    apply HinH in Hin as [Heq|?]; [|done]. by simplify_eq.
  + intros a da e v Ha Hda Hin. eapply Hmono; [done..|]. apply HinH. by right.
Qed.

(** The popped node [u] is finalized with distance [d] and its
    neighbours are relaxed: every entry of the two dictionaries is as
    before, or belongs to a node not visited yet that is reached through
    [u] along an edge of weight [w], with distance [d + w] and
    predecessor [u]. *)
Lemma dijkstra_visit_ok src vis st d u H1 :
  dijkstra_inv src vis st →
  (∀ x, x ∈ ds_heap st ↔ x = (d, u) ∨ x ∈ H1) →
  (∀ e v, (e, v) ∈ ds_heap st → (d ≤ e)%Z) →
  is_heap dijkstra_lt H1 → u ∉ vis →
  ∃ nbrs st',
    alookup u (adj g) = Some nbrs ∧ neighbors g u = Ok nbrs.*1
    ∧ dijkstra_vecinos g d u ({[u]} ∪ vis)
        (mkDS (distancias st) (predecesores st) H1) nbrs.*1 = Ok st'
    ∧ length (ds_heap st') ≤ length H1 + length nbrs
    ∧ dijkstra_inv src ({[u]} ∪ vis) st'
    ∧ distancias st !! u = Some (Fin d)
    ∧ ∀ v, (distancias st' !! v = distancias st !! v
            ∧ predecesores st' !! v = predecesores st !! v)
           ∨ ((v ∉ {[u]} ∪ vis) ∧ ∃ w, edge g u v w
                ∧ distancias st' !! v = Some (Fin (d + w))
                ∧ predecesores st' !! v = Some (Some u)).
Proof.
  intros Hinv HinH Hge Hh1 Hu.
  pose proof Hinv as [HdomD HdomP Hsrc Hpsrc Hsub Hpath Hmin Hrelax Hh Hentry Hpend Hmono Hpred].
  destruct (Hentry d u) as (du & Hdu & Hdule); [apply HinH; by left|].
  assert (du = d) as ->.
  { pose proof (Hge du u (Hpend u du Hu Hdu)). lia. }
  assert (Hun : u ∈ nodes g) by (apply HdomD; by eexists).
  assert (Hd0 : (0 ≤ d)%Z) by (eapply path_nonneg; [done|by apply Hpath]).
  assert (Humin : ∀ d', path g src u d' → (d ≤ d')%Z).
  { intros d' Hp. destruct (lower_bound src vis st Hinv u d' Hp) as [_ Hlb].
    destruct (Hlb Hu) as (b & db & Hb & Hdb & Hle).
    pose proof (Hge db b (Hpend b db Hb Hdb)). lia. }
  destruct (neighbors_ok g Hwf u Hun) as (nbrs & Hnb & Hnbrs & Hnd).
  destruct (dijkstra_vecinos_ok d u ({[u]} ∪ vis) nbrs Hnb nbrs.*1 Hnd)
    with (st := mkDS (distancias st) (predecesores st) H1)
    as (st' & Hrun & [Hh' Hlen' HdD' HdP' Hsame Hupd Hold Hnew]); simpl.
  { done. }
  { intros v Hv. apply HdomD. destruct (neighbor_edge g u nbrs v Hnb Hnd Hv) as [w ?].
    by eapply edge_node_r. }
  { intros v Hv. apply HdomP. destruct (neighbor_edge g u nbrs v Hnb Hnd Hv) as [w ?].
    by eapply edge_node_r. }
  { done. }
  simpl in *. exists nbrs, st'. split; [done|]. split; [done|]. split; [done|].
  split; [by rewrite length_fmap in Hlen'|].
  (* how the tables changed *)
  assert (Hcase : ∀ v, 
    (distancias st' !! v = distancias st !! v
     ∧ predecesores st' !! v = predecesores st !! v
     ∧ (v ∈ {[u]} ∪ vis ∨
        ∀ w dv, edge g u v w → distancias st !! v = Some dv →
                dist_lt (d + w) dv = false))
    ∨ ((v ∉ {[u]} ∪ vis) ∧ ∃ w dv, edge g u v w
         ∧ distancias st !! v = Some dv ∧ dist_lt (d + w) dv = true
         ∧ distancias st' !! v = Some (Fin (d + w))
         ∧ predecesores st' !! v = Some (Some u)
         ∧ (d + w, v)%Z ∈ ds_heap st')).
  { intros v. destruct (decide (v ∈ {[u]} ∪ vis)) as [Hv|Hv].
    { left. destruct (Hsame v) as [? ?]; [by right|]. split; [done|]. split; [done|by left]. }
    destruct (decide (v ∈ nbrs.*1)) as [Hvn|Hvn].
    2:{ left. destruct (Hsame v) as [? ?]; [by left|]. split; [done|]. split; [done|].
        right. intros w dv He. exfalso. apply Hvn. by eapply edge_neighbor. }
    destruct (neighbor_edge g u nbrs v Hnb Hnd Hvn) as [w He].
    destruct (proj2 (HdomD v)) as [dv Hdv]; [by eapply edge_node_r|].
    specialize (Hupd v w dv Hvn Hv He Hdv).
    destruct (dist_lt (d + w) dv) eqn:Hlt.
    - right. split; [done|]. exists w, dv. naive_solver.
    - left. destruct Hupd as [? ?]. split; [congruence|]. split; [done|].
      right. intros w' dv' He' Hdv'. rewrite (edge_fun _ _ _ _ _ He' He).
      by simplify_eq. }
  assert (Hdec : ∀ v dv, distancias st !! v = Some (Fin dv) →
            ∃ dv', distancias st' !! v = Some (Fin dv') ∧ (dv' ≤ dv)%Z).
  { intros v dv Hdv. destruct (Hcase v) as [(HD & _ & _)|(_ & w & dv0 & _ & Hdv0 & Hlt & HD' & _)].
    - exists dv. split; [congruence|lia].
    - exists (d + w)%Z. split; [done|]. simplify_eq. simpl in Hlt. lia. }
  assert (Hkeep : ∀ v, v ∈ {[u]} ∪ vis →
            distancias st' !! v = distancias st !! v).
  { intros v Hv. by destruct (Hsame v) as [? _]; [by right|]. }
  split; [split; simpl|split; [done|]].
  + intros v. by rewrite HdD'.
  + intros v. by rewrite HdP'.
  + destruct (Hcase src) as [(-> & _)|(_ & w & dv & He & Hdv & Hlt & _)]; [done|].
    pose proof (nonneg_edge _ _ _ _ Hnn He). simplify_eq. simpl in Hlt. lia.
  + destruct (Hcase src) as [(_ & -> & _)|(_ & w & dv & He & Hdv & Hlt & _)]; [done|].
    pose proof (nonneg_edge _ _ _ _ Hnn He). simplify_eq. simpl in Hlt. lia.
  + intros x [->%elem_of_singleton|?]%elem_of_union; [done|by apply Hsub].
  + intros v dv Hdv. destruct (Hcase v) as [(HD & _)|(_ & w & dv0 & He & _ & _ & HD' & _)].
    * apply Hpath. congruence.
    * rewrite HD' in Hdv. simplify_eq. econstructor; [|done]. by apply Hpath.
  + intros v Hv. rewrite (Hkeep v Hv).
    apply elem_of_union in Hv as [->%elem_of_singleton|Hv]; [|by apply Hmin].
    by exists d.
  + intros a v w da Ha He Hda. rewrite (Hkeep a Ha) in Hda.
    apply elem_of_union in Ha as [->%elem_of_singleton|Ha].
    * assert (da = d) as -> by congruence.
      pose proof (nonneg_edge _ _ _ _ Hnn He) as Hw.
      destruct (Hcase v) as [(HD & _ & [Hv|Hno])|(_ & w' & dv0 & He' & _ & _ & HD' & _)].
      -- apply elem_of_union in Hv as [->%elem_of_singleton|Hv].
         ++ exists d. split; [congruence|lia].
         ++ destruct (Hmin v Hv) as (dv & Hdv & _). exists dv. split; [congruence|].
            assert ((d, u) ∈ ds_heap st) as Hin by (apply HinH; by left).
            pose proof (Hmono v dv d u Hv Hdv Hin). lia.
      -- destruct (proj2 (HdomD v)) as [dv Hdv]; [by eapply edge_node_r|].
         specialize (Hno w dv He Hdv). destruct dv as [dv|]; [|done].
         exists dv. split; [congruence|]. simpl in Hno. lia.
      -- rewrite (edge_fun _ _ _ _ _ He He'). exists (d + w')%Z. split; [done|lia].
    * destruct (Hrelax a v w da Ha He Hda) as (dv & Hdv & Hle).
      destruct (Hdec v dv Hdv) as (dv' & Hdv' & Hle'). exists dv'. split; [done|lia].
  + done.
  + intros e v Hin. apply Hnew in Hin as [Hin|(v' & w & Heq & _ & _ & _ & HD')].
    * destruct (Hentry e v) as (dv & Hdv & Hle); [apply HinH; by right|].
      destruct (Hdec v dv Hdv) as (dv' & Hdv' & Hle'). exists dv'. split; [done|lia].
    * simplify_eq. eexists. split; [done|lia].
  + intros v e Hv Hd. destruct (Hcase v) as [(HD & _)|(_ & w & dv0 & _ & _ & _ & HD' & _ & Hin)].
    * apply Hold. rewrite HD in Hd.
      assert (v ∉ vis) as Hv' by set_solver.
      pose proof (Hpend v e Hv' Hd) as Hin. apply HinH in Hin as [Heq|?]; [|done].
      simplify_eq. set_solver.
    * rewrite HD' in Hd. by simplify_eq.
  + intros a da e v Ha Hda Hin. rewrite (Hkeep a Ha) in Hda.
    assert (Hda_le : (da ≤ d)%Z).
    { apply elem_of_union in Ha as [->%elem_of_singleton|Ha];
        [assert (da = d) as -> by congruence; lia|].
      eapply (Hmono a da d u); [done..|]. apply HinH. by left. }
    apply Hnew in Hin as [Hin|(v' & w & Heq & _ & _ & He & _)].
    * assert ((d ≤ e)%Z); [|lia]. eapply Hge. apply HinH. by right.
    * simplify_eq. pose proof (nonneg_edge _ _ _ _ Hnn He). lia.
  + intros v p Hp. destruct (Hcase v) as [(HD & HP & _)|(_ & w & dv0 & _ & _ & _ & HD' & _)].
    * rewrite HD. eapply Hpred. by rewrite <-HP.
    * by eexists.
  + intros v.
    destruct (Hcase v) as [(HD & HP & _)|(Hv & w & dv0 & He & _ & _ & HD' & HP' & _)];
      [by left|].
    right. split; [done|]. by exists w.
Qed.


End dijkstra.

Lemma lookup_const_map {V} (c : V) (l : list node) v :
  (list_to_map ((λ n, (n, c)) <$> l) : gmap node V) !! v
  = if decide (v ∈ l) then Some c else None.
Proof.
  induction l as [|n l IH].
  - simpl. by rewrite lookup_empty.
  - rewrite fmap_cons. cbn [list_to_map]. destruct (decide (n = v)) as [->|Hne].
    + simpl. rewrite lookup_insert_eq. by rewrite decide_True by (by left).
    + simpl. rewrite lookup_insert_ne, IH by done.
      destruct (decide (v ∈ l)).
      * by rewrite decide_True by (by right).
      * rewrite decide_False; [done|]. by intros [?|?]%elem_of_cons.
Qed.

Lemma is_heap_singleton {A} (lt : A → A → bool) x : is_heap lt [x].
Proof. intros [|j] a b Hj Hb; [lia|done]. Qed.

(** The state before the first turn of the loop. *)
Lemma dijkstra_init_inv g src :
  src ∈ nodes g →
  dijkstra_inv g src ∅
    (mkDS (<[src:=Fin 0]> (list_to_map ((λ n, (n, Inf)) <$> nodes g)))
          (list_to_map ((λ n, (n, None)) <$> nodes g))
          [(0%Z, src)]).
Proof.
  intros Hsrc.
  split; simpl.
  - intros v. rewrite lookup_insert_is_Some', lookup_const_map.
    destruct (decide (v ∈ nodes g)) as [Hv|Hv].
    + split; [done|]. intros _. right. by eexists.
    + split; [|done]. intros [->|[? ?]]; done.
  - intros v. rewrite lookup_const_map. destruct (decide (v ∈ nodes g)).
    + split; [done|by eexists].
    + split; [by intros [? ?]|done].
  - by rewrite lookup_insert_eq.
  - rewrite lookup_const_map. by rewrite decide_True.
  - set_solver.
  - intros v d. destruct (decide (src = v)) as [->|Hne].
    + rewrite lookup_insert_eq. intros; simplify_eq. constructor.
    + rewrite lookup_insert_ne, lookup_const_map by done. by case_decide.
  - set_solver.
  - set_solver.
  - apply is_heap_singleton.
  - intros d v Hin%list_elem_of_singleton. simplify_eq. exists 0%Z.
    by rewrite lookup_insert_eq.
  - intros v d _. destruct (decide (src = v)) as [->|Hne].
    + rewrite lookup_insert_eq. intros; simplify_eq. by left.
    + rewrite lookup_insert_ne, lookup_const_map by done. by case_decide.
  - set_solver.
  - intros v p. rewrite lookup_const_map. by case_decide.
Qed.


(** A target whose recorded predecessor is [None] gets [None]. *)
Lemma reconstruir_camino_none v (P : gmap node (option node)) :
  P !! v = Some None → reconstruir_camino v P = Ok None.
Proof.
  intros Hv. unfold reconstruir_camino, getitem. rewrite Hv.
  cbn [mbind result_mbind result_bind]. rewrite decide_True; [done|].
  split; [done|]. apply elem_of_dom. by eexists.
Qed.


(** ** Huffman *)

(** Induction on trees whose children are optional. *)
Lemma NodoHuffman_ind' (P : NodoHuffman → Prop) :
  (∀ c f i d, from_option P True i → from_option P True d → P (Nodo c f i d)) →
  ∀ n, P n.
Proof.
  intros H. fix IH 1. intros [c f i d]. apply H.
  - destruct i as [x|]; simpl; [apply IH|exact I].
  - destruct d as [x|]; simpl; [apply IH|exact I].
Qed.

Lemma str_app_assoc (a b c : string) : (a +:+ b) +:+ c = a +:+ (b +:+ c).
Proof.
  induction a as [|x a IH]; [done|].
  change (String x ((a +:+ b) +:+ c) = String x (a +:+ (b +:+ c))).
  by rewrite IH.
Qed.

Lemma str_app_nil_r (a : string) : a +:+ "" = a.
Proof.
  induction a as [|x a IH]; [done|].
  change (String x (a +:+ "") = String x a). by rewrite IH.
Qed.

Lemma str_app_not_nil (a b : string) : b ≠ "" → a +:+ b ≠ "".
Proof.
  destruct a as [|x a]; intros Hb H; [by apply Hb|].
  change (String x (a +:+ b) = "") in H. discriminate H.
Qed.

Lemma generar_codigos_nodo_lookup n :
  ∀ pre acc c w,
    generar_codigos_nodo n pre acc !! c = Some w →
    acc !! c = Some w ∨ leaf_code n pre c w.
Proof.
  induction n as [[c'|] f i d IHi IHd] using NodoHuffman_ind'; intros pre acc c w.
  - cbn [generar_codigos_nodo]. destruct (decide (c' = c)) as [->|Hne].
    + rewrite lookup_insert_eq. intros; simplify_eq. right. constructor.
    + rewrite lookup_insert_ne by done. by left.
  - cbn [generar_codigos_nodo]. intros Hl.
    destruct d as [d|]; simpl in IHd.
    + apply IHd in Hl as [Hl|Hl]; [|right; by constructor].
      destruct i as [i|]; simpl in IHi; [|by left].
      apply IHi in Hl as [Hl|Hl]; [by left|right; by constructor].
    + destruct i as [i|]; simpl in IHi; [|by left].
      apply IHi in Hl as [Hl|Hl]; [by left|right; by constructor].
Qed.

Lemma leaf_code_prefix n pre c w :
  leaf_code n pre c w → pre ≠ "" → is_prefix pre w.
Proof.
  induction 1 as [c f i d pre|f i d pre c w _ IH|f i d pre c w _ IH]; intros Hpre.
  - rewrite decide_False by done. exists "". by rewrite str_app_nil_r.
  - destruct IH as [s ->]; [by apply str_app_not_nil|].
    exists ("0" +:+ s). by rewrite str_app_assoc.
  - destruct IH as [s ->]; [by apply str_app_not_nil|].
    exists ("1" +:+ s). by rewrite str_app_assoc.
Qed.

Lemma branch_not_prefix pre s1 s2 :
  ¬ is_prefix ((pre +:+ "0") +:+ s1) ((pre +:+ "1") +:+ s2) ∧
  ¬ is_prefix ((pre +:+ "1") +:+ s1) ((pre +:+ "0") +:+ s2).
Proof.
  split; intros [s Hs]; rewrite !str_app_assoc in Hs;
    apply (inj (String.app pre)) in Hs; discriminate Hs.
Qed.

(** Two codes written by one traversal, one a prefix of the other,
    belong to the same symbol. *)
Lemma leaf_code_prefix_same n pre c1 w1 :
  leaf_code n pre c1 w1 →
  ∀ c2 w2, leaf_code n pre c2 w2 → is_prefix w1 w2 → c1 = c2.
Proof.
  induction 1 as [c f i d pre|f i d pre c w H1 IH|f i d pre c w H1 IH];
    intros c2 w2 H2 Hp.
  - by inversion H2.
  - inversion H2 as [|? ? ? ? ? ? H2'|? ? ? ? ? ? H2']; subst.
    + by eapply IH.
    + exfalso.
      destruct (leaf_code_prefix _ _ _ _ H1) as [s1 ->]; [by apply str_app_not_nil|].
      destruct (leaf_code_prefix _ _ _ _ H2') as [s2 ->]; [by apply str_app_not_nil|].
      by apply (branch_not_prefix pre s1 s2) in Hp.
  - inversion H2 as [|? ? ? ? ? ? H2'|? ? ? ? ? ? H2']; subst.
    + exfalso.
      destruct (leaf_code_prefix _ _ _ _ H1) as [s1 ->]; [by apply str_app_not_nil|].
      destruct (leaf_code_prefix _ _ _ _ H2') as [s2 ->]; [by apply str_app_not_nil|].
      by apply (branch_not_prefix pre s1 s2) in Hp.
    + by eapply IH.
Qed.

(** The table [generar_codigos] derives from any tree is prefix-free. *)
Lemma generar_codigos_prefix_free raiz : prefix_free (generar_codigos raiz).
Proof.
  destruct raiz as [n|]; simpl.
  2:{ intros c1 c2 w1 w2 H1. by rewrite lookup_empty in H1. }
  intros c1 c2 w1 w2 H1 H2 Hne Hp. apply Hne.
  apply generar_codigos_nodo_lookup in H1 as [H1|H1]; [by rewrite lookup_empty in H1|].
  apply generar_codigos_nodo_lookup in H2 as [H2|H2]; [by rewrite lookup_empty in H2|].
  by eapply leaf_code_prefix_same.
Qed.

(** The frequency table of a non-empty text is not empty. *)
Lemma counter_add_not_nil c l : counter_add c l ≠ [].
Proof. destruct l as [|[c' n] l]; simpl; [done|]. by case_decide. Qed.

Lemma Counter_not_nil texto : texto ≠ "" → Counter texto ≠ [].
Proof.
  intros Hne. unfold Counter. destruct texto as [|x texto]; [done|]. simpl.
  assert (∀ l acc, acc ≠ [] → foldl (λ acc c, counter_add c acc) acc l ≠ []) as H.
  { induction l as [|y l IH]; intros acc Hacc; [done|]. simpl.
    apply IH, counter_add_not_nil. }
  by apply H.
Qed.

Lemma push_all_heap {A} (f : A → NodoHuffman) (l : list A) :
  ∀ heap, is_heap nodo_lt heap →
    is_heap nodo_lt (foldl (λ heap x, Heapq.heappush nodo_lt heap (f x)) heap l)
    ∧ length (foldl (λ heap x, Heapq.heappush nodo_lt heap (f x)) heap l)
      = length heap + length l.
Proof.
  induction l as [|x l IH]; intros heap Hh; simpl; [split; [done|lia]|].
  destruct (IH (Heapq.heappush nodo_lt heap (f x))) as [Hh' Hlen].
  { by apply (heappush_heap nodo_lt). }
  split; [done|]. rewrite Hlen, (heappush_perm nodo_lt heap (f x)). simpl. lia.
Qed.

(** The loop ends with one tree in the heap. *)
Lemma huffman_loop_ok fuel :
  ∀ heap, is_heap nodo_lt heap → 1 ≤ length heap ≤ fuel →
          ∃ raiz, huffman_loop fuel heap = Ok [raiz].
Proof.
  induction fuel as [|fuel IH]; intros heap Hh Hlen; [lia|].
  cbn [huffman_loop]. case_decide as Hgt.
  - destruct (heappop_spec nodo_lt heap Hh) as (a & h1 & Hpop1 & Hperm1 & Hh1 & _).
    { intros ->. simpl in Hgt. lia. }
    rewrite Hpop1.
    assert (Hl1 : length heap = length h1 + 1) by (rewrite Hperm1; simpl; lia).
    destruct (heappop_spec nodo_lt h1 Hh1) as (b & h2 & Hpop2 & Hperm2 & Hh2 & _).
    { intros ->. simpl in Hl1. lia. }
    rewrite Hpop2.
    assert (Hl2 : length h1 = length h2 + 1) by (rewrite Hperm2; simpl; lia).
    apply IH.
    + by apply (heappush_heap nodo_lt).
    + rewrite (heappush_perm nodo_lt). simpl. lia.
  - destruct heap as [|r [|r' heap]]; simpl in *; [lia| |lia]. by exists r.
Qed.

(** On a non-empty text [construir_arbol_huffman] returns a tree. *)
Lemma construir_arbol_huffman_ok texto :
  texto ≠ "" → ∃ raiz, construir_arbol_huffman texto = Ok (Some raiz).
Proof.
  intros Hne. unfold construir_arbol_huffman. rewrite decide_False by done.
  cbv zeta.
  destruct (push_all_heap (λ cf : ascii * nat, Nodo (Some cf.1) cf.2 None None)
              (Counter texto) []) as [Hh Hlen]; [apply is_heap_nil|].
  destruct (huffman_loop_ok
    (length (foldl (λ heap cf, Heapq.heappush nodo_lt heap
                                 (Nodo (Some cf.1) cf.2 None None)) [] (Counter texto)))
    (foldl (λ heap cf, Heapq.heappush nodo_lt heap
                         (Nodo (Some cf.1) cf.2 None None)) [] (Counter texto)))
    as [raiz Hrun]; [done| |].
  { rewrite Hlen. simpl. pose proof (Counter_not_nil texto Hne).
    destruct (Counter texto); [done|simpl; lia]. }
  rewrite Hrun. by exists raiz.
Qed.

(** C7 — Huffman prefix-freedom.  For every non-empty text
    [construir_arbol_huffman] returns a tree, and in the table that
    [generar_codigos] derives from it no code is a prefix of the code of
    another symbol. *)
Theorem C7_huffman_prefix_free texto :
  texto ≠ "" →
  ∃ raiz, construir_arbol_huffman texto = Ok (Some raiz)
          ∧ prefix_free (generar_codigos (Some raiz)).
Proof.
  intros Hne. destruct (construir_arbol_huffman_ok texto Hne) as [raiz Hrun].
  exists raiz. split; [done|]. apply generar_codigos_prefix_free.
Qed.

Lemma C7_huffman_prefix_free_witness :
  ∃ raiz, construir_arbol_huffman "abracadabra" = Ok (Some raiz)
          ∧ prefix_free (generar_codigos (Some raiz)).
Proof. apply C7_huffman_prefix_free. discriminate. Defined.

(** The frequency table of a text made of one symbol. *)
Lemma Counter_single c l :
  (∀ x, x ∈ l → x = c) →
  ∀ k, foldl (λ acc c, counter_add c acc) [(c, k)] l = [(c, k + length l)].
Proof.
  induction l as [|y l IH]; intros Hall k; simpl.
  - by rewrite Nat.add_0_r.
  - rewrite (Hall y) by (by left). rewrite decide_True by done.
    rewrite IH by (intros; apply Hall; by right). do 2 f_equal. lia.
Qed.

Lemma length_list_ascii_of_string s :
  length (String.list_ascii_of_string s) = String.length s.
Proof. induction s as [|x s IH]; simpl; [done|]. by rewrite IH. Qed.

(** C9 — one distinct symbol.  For a non-empty text made of the single
    symbol [c], [construir_arbol_huffman] returns the single leaf that
    holds [c] and its number of occurrences; [generar_codigos] gives that
    leaf the table with the one entry [c ↦ "0"], so the code of [c] is not
    empty: its length is at least 1. *)
Theorem C9_huffman_single_symbol texto c :
  texto ≠ "" →
  (∀ x, x ∈ String.list_ascii_of_string texto → x = c) →
  ∃ hoja, construir_arbol_huffman texto = Ok (Some hoja)
    ∧ hoja = Nodo (Some c) (String.length texto) None None
    ∧ generar_codigos (Some hoja) = {[c := "0"]}
    ∧ ∀ w, generar_codigos (Some hoja) !! c = Some w → 1 ≤ String.length w.
Proof.
  intros Hne Hall. eexists. split; [|split; [reflexivity|]].
  - unfold construir_arbol_huffman. rewrite decide_False by done. cbv zeta.
    assert (Counter texto = [(c, String.length texto)]) as ->.
    { unfold Counter. rewrite <-length_list_ascii_of_string.
      destruct texto as [|x texto]; [done|]. simpl in *.
      rewrite (Hall x) by (by left). rewrite Counter_single; [done|].
      intros; apply Hall; by right. }
    done.
  - assert (Hg : generar_codigos
                   (Some (Nodo (Some c) (String.length texto) None None))
                 = {[c := "0"]}).
    { simpl. by rewrite insert_empty. }
    split; [done|]. intros w. rewrite Hg, lookup_singleton_eq.
    intros [= <-]. simpl. lia.
Qed.

Lemma C9_huffman_single_symbol_witness :
  ∃ hoja, construir_arbol_huffman "xxx" = Ok (Some hoja)
    ∧ hoja = Nodo (Some "x"%char) 3 None None
    ∧ generar_codigos (Some hoja) = {["x"%char := "0"]}
    ∧ ∀ w, generar_codigos (Some hoja) !! "x"%char = Some w
           → 1 ≤ String.length w.
Proof.
  apply (C9_huffman_single_symbol "xxx" "x"%char).
  - discriminate.
  - intros x Hx. simpl in Hx. set_solver.
Defined.

(** C1, as the code behaves — empty input.  For the empty text
    [construir_arbol_huffman] raises nothing: it returns [None] at once,
    and [generar_codigos] turns that [None] into the empty table. *)
Theorem C1_huffman_empty_returns_none :
  construir_arbol_huffman "" = Ok None ∧ generar_codigos None = ∅.
Proof. split; reflexivity. Qed.

(** The empty text is not rejected with an error. *)
Lemma C1_huffman_empty_not_rejected :
  ¬ ∃ e, construir_arbol_huffman "" = Raise e.
Proof. intros [e He]. discriminate He. Qed.

(** ** The spanning-tree builders compared *)

Lemma connected_components_1 {W} (g : Graph W) :
  connected g → n_components g 1.
Proof.
  intros [Hne Hconn].
  assert (∃ r, r ∈ nodes g) as [r Hr].
  { destruct (nodes g) as [|r l]; [done|]. exists r. by left. }
  exists [r]. split; [|done]. split.
  - apply NoDup_singleton.
  - by intros x ->%list_elem_of_singleton.
  - by intros r1 r2 ->%list_elem_of_singleton ->%list_elem_of_singleton.
  - intros v Hv. exists r. split; [by left|]. by apply Hconn.
Qed.

Lemma forest_upto g T tot t :
  forest_of g T tot → inc_forest (nodes g) (pairs (upto t T)).
Proof.
  intros [Hf _ _]. eapply inc_forest_sublist; [|done].
  unfold pairs, upto. apply fmap_sublist, sublist_filter.
Qed.

(** Two forests of edges of the graph that connect, below every weight,
    what the edges below that weight connect, have the same weights. *)
Lemma spanning_forests_perm g T1 tot1 T2 tot2 :
  wf_graph g →
  forest_of g T1 tot1 → forest_of g T2 tot2 →
  (∀ t a b, a ∈ nodes g → b ∈ nodes g → conn_le g t a b →
            linked (pairs (upto t T1)) a b) →
  (∀ t a b, a ∈ nodes g → b ∈ nodes g → conn_le g t a b →
            linked (pairs (upto t T2)) a b) →
  weights T1 ≡ₚ weights T2.
Proof.
  intros Hwf Hfo1 Hfo2 Hsp1 Hsp2.
  apply count_le_perm. intros t. rewrite !count_le_weights.
  assert (Hcount : ∀ T tot, forest_of g T tot →
    (∀ t a b, a ∈ nodes g → b ∈ nodes g → conn_le g t a b →
              linked (pairs (upto t T)) a b) →
    ∃ reps, is_reps (conn_le g t) (nodes g) reps
            ∧ length reps + length (upto t T) = length (nodes g)).
  { intros T tot Hfo Hsp.
    destruct (inc_forest_reps (nodes g) (pairs (upto t T))) as (reps & Hreps & Hlen);
      [by apply wf_nodup|by eapply forest_upto|].
    exists reps. split.
    - eapply is_reps_ext; [|done]. intros a b Ha Hb. split.
      + apply linked_upto_conn_le; [done|apply Hfo].
      + by apply Hsp.
    - unfold pairs in Hlen. by rewrite length_fmap in Hlen. }
  destruct (Hcount T1 tot1 Hfo1 Hsp1) as (r1 & Hr1 & Hl1).
  destruct (Hcount T2 tot2 Hfo2 Hsp2) as (r2 & Hr2 & Hl2).
  pose proof (is_reps_length (conn_le g t) (nodes g) r1 r2 _ _ Hr1 Hr2). lia.
Qed.

(** Two forests of edges of the graph that connect, below every weight,
    what the edges below that weight connect, weigh the same. *)
Lemma spanning_forests_weight g T1 tot1 T2 tot2 :
  wf_graph g →
  forest_of g T1 tot1 → forest_of g T2 tot2 →
  (∀ t a b, a ∈ nodes g → b ∈ nodes g → conn_le g t a b →
            linked (pairs (upto t T1)) a b) →
  (∀ t a b, a ∈ nodes g → b ∈ nodes g → conn_le g t a b →
            linked (pairs (upto t T2)) a b) →
  tot1 = tot2.
Proof.
  intros Hwf Hfo1 Hfo2 Hsp1 Hsp2.
  rewrite (fo_total _ _ _ Hfo1), (fo_total _ _ _ Hfo2).
  by apply sum_Z_perm, (spanning_forests_perm g T1 tot1 T2 tot2).
Qed.

(** On a connected graph Prim visits every node. *)
Lemma prim_final_connected g start S T tot :
  wf_graph g → connected g → start ∈ nodes g →
  prim_final g start S T tot → ∀ x, x ∈ S ↔ x ∈ nodes g.
Proof.
  intros Hwf [_ Hconn] Hstart [_ _ Hcomp _] x. rewrite Hcomp. split.
  - intros Hx. by eapply conn_nodes.
  - intros Hx. by apply Hconn.
Qed.

(** With exact integers, on every connected well-formed graph the total
    weight that [algoritmo_prim] returns, from any start node of the graph
    and from the default one, is the total weight that [algoritmo_kruskal]
    returns. *)
Lemma prim_kruskal_same_weight_Z (g : Graph Z) :
  wf_graph g → connected g →
  ∃ T2 tot, algoritmo_kruskal g = Ok (T2, tot) ∧
    (∀ start, start ∈ nodes g →
       ∃ T1, algoritmo_prim g (Some start) = Ok (T1, tot)) ∧
    (∃ T1, algoritmo_prim g None = Ok (T1, tot)).
Proof.
  intros Hwf Hconn.
  destruct (kruskal_ok g Hwf) as (T2 & tot2 & Hrun2 & Hfo2 & Hsp2).
  exists T2, tot2. split; [done|].
  assert (Hprim : ∀ start, start ∈ nodes g →
            ∃ T1, algoritmo_prim g (Some start) = Ok (T1, tot2)).
  { intros start Hstart.
    destruct (prim_ok g Hwf start Hstart) as (T1 & tot1 & S & Hrun1 & Hfin).
    pose proof (prim_final_connected g start S T1 tot1 Hwf Hconn Hstart Hfin) as HS.
    destruct Hfin as [Hfo1 _ _ Hsp1].
    exists T1. rewrite Hrun1. do 2 f_equal.
    eapply (spanning_forests_weight g T1 tot1 T2 tot2); [done..| |].
    - intros t a b Ha Hb. apply Hsp1; by apply HS.
    - intros t a b _ _. apply Hsp2. }
  split; [done|].
  destruct Hconn as [Hne _]. destruct (nodes g) as [|primero resto] eqn:Hn; [done|].
  rewrite (prim_default g primero resto Hn). apply Hprim. by left.
Qed.

(** With exact integers: on every well-formed graph of V nodes,
    [algoritmo_kruskal] returns V-k edges when the graph has k connected
    components; [algoritmo_prim] from a start node of the graph returns
    one edge less than there are nodes in the component of the start
    node; on a connected graph both return V-1 edges. *)
Lemma mst_edge_count_Z (g : Graph Z) :
  wf_graph g →
  (∀ k, n_components g k →
     ∃ T tot, algoritmo_kruskal g = Ok (T, tot)
              ∧ length T + k = length (nodes g)) ∧
  (∀ start, start ∈ nodes g →
     ∃ T tot comp, algoritmo_prim g (Some start) = Ok (T, tot)
       ∧ NoDup comp ∧ (∀ x, x ∈ comp ↔ conn g start x)
       ∧ length T + 1 = length comp) ∧
  (connected g →
     (∃ T tot, algoritmo_kruskal g = Ok (T, tot)
               ∧ length T + 1 = length (nodes g)) ∧
     (∀ start, start ∈ nodes g →
        ∃ T tot, algoritmo_prim g (Some start) = Ok (T, tot)
                 ∧ length T + 1 = length (nodes g))).
Proof.
  intros Hwf.
  assert (Hprim : ∀ start, start ∈ nodes g →
     ∃ T tot comp, algoritmo_prim g (Some start) = Ok (T, tot)
       ∧ NoDup comp ∧ (∀ x, x ∈ comp ↔ conn g start x)
       ∧ length T + 1 = length comp).
  { intros start Hstart.
    destruct (prim_ok g Hwf start Hstart) as (T & tot & S & Hrun & [_ Hsz Hcomp _]).
    exists T, tot, (elements S). split; [done|]. split; [apply NoDup_elements|].
    split.
    - intros x. by rewrite elem_of_elements.
    - by rewrite <-Hsz. }
  split; [intros k; by apply kruskal_count|]. split; [done|].
  intros Hconn. split.
  - by apply kruskal_count, connected_components_1.
  - intros start Hstart.
    destruct (Hprim start Hstart) as (T & tot & comp & Hrun & Hnd & Hcomp & Hlen).
    exists T, tot. split; [done|]. rewrite Hlen.
    apply Permutation_length, NoDup_Permutation; [done|by apply wf_nodup|].
    intros x. rewrite Hcomp. destruct Hconn as [_ Hc]. split.
    + intros Hx. by eapply conn_nodes.
    + intros Hx. by apply Hc.
Qed.

(** ** The graph built from the rows of the file *)

Lemma add_edge_nodes {W} (g : Graph W) u v w x :
  x ∈ nodes (add_edge g u v w) ↔ x ∈ nodes g ∨ x = u ∨ x = v.
Proof.
  unfold nodes. rewrite <-!alookup_is_Some. unfold add_edge. simpl.
  set (a1 := add_node v (add_node u (adj g))).
  assert (H1 : is_Some (alookup x a1) ↔ is_Some (alookup x (adj g)) ∨ x = u ∨ x = v).
  { unfold a1. rewrite !add_node_lookup.
    destruct (alookup x (adj g)); [naive_solver|].
    repeat case_decide; split; naive_solver. }
  assert (H2 : ∀ a b c (d : list (node * list (node * W))),
            is_Some (alookup x (set_adj a b c d)) ↔ is_Some (alookup x d)).
  { intros a b c d. rewrite set_adj_lookup.
    destruct (alookup a d) as [n|] eqn:Ha; [|done].
    case_decide as Hx; [|done]. subst. rewrite Ha. split; by eexists. }
  by rewrite !H2.
Qed.

(** X14 — the graph of [leer_grafo_csv].  Whatever the rows, the
    [add_edge] calls build an adjacency in which every node and every
    neighbour appears once and every edge is recorded at both ends with
    the same weight; the nodes are the endpoints named by the rows, and
    two nodes are joined with the weight of the last row that names them
    both, in either order. *)
Theorem grafo_de_filas_edges (filas : list (node * node * float)) :
  wf_graph (grafo_de_filas filas)
  ∧ (∀ x, x ∈ nodes (grafo_de_filas filas) ↔
          ∃ f, f ∈ filas ∧ (x = f.1.1 ∨ x = f.1.2))
  ∧ (∀ u v w, edge (grafo_de_filas filas) u v w ↔ ultimo_peso filas u v = Some w).
Proof.
  split; [apply grafo_de_filas_wf|].
  unfold grafo_de_filas, ultimo_peso.
  induction filas as [|[[a b] c] filas [IHn IHe]] using rev_ind.
  { split.
    - intros x. split; [by intros ?%elem_of_nil|]. by intros (f & ?%elem_of_nil & _).
    - intros u v w. done. }
  rewrite !foldl_snoc. split.
  - intros x. rewrite add_edge_nodes, IHn. simpl. split.
    + intros [(f & Hf & Hx)|Hx].
      * exists f. split; [|done]. apply elem_of_app. by left.
      * exists (a, b, c). split; [|done]. apply elem_of_app. right.
        by apply list_elem_of_singleton.
    + intros (f & [Hf| ->%list_elem_of_singleton]%elem_of_app & Hx); [|by right].
      left. by exists f.
  - intros u v w. rewrite add_edge_edge, foldl_snoc. simpl.
    case_decide; [|apply IHe]. split; congruence.
Qed.

(** ** Minimum spanning forests *)

(** A list that has, below every threshold, at least as many items as
    another list of the same length, sums to no more. *)
Lemma sum_Z_dominated n :
  ∀ l1 l2, length l1 = n → length l2 = n →
    (∀ t, count_le t l2 ≤ count_le t l1) → (sum_Z l1 ≤ sum_Z l2)%Z.
Proof.
  induction n as [|n IH]; intros l1 l2 Hl1 Hl2 Hc.
  { destruct l1, l2; simplify_eq/=. done. }
  destruct (list_max_exists l1) as (m1 & Hm1 & Hall1); [by destruct l1|].
  destruct (list_max_exists l2) as (m2 & Hm2 & Hall2); [by destruct l2|].
  apply list_elem_of_split in Hm1 as (a1 & b1 & ->).
  apply list_elem_of_split in Hm2 as (a2 & b2 & ->).
  rewrite length_app in Hl1, Hl2. simpl in Hl1, Hl2.
  assert (Hrest1 : Forall (λ w, (w ≤ m1)%Z) (a1 ++ b1)).
  { apply Forall_app in Hall1 as [? [_ ?]%Forall_cons]. by apply Forall_app. }
  assert (Hle : (m1 ≤ m2)%Z).
  { destruct (decide (m1 ≤ m2)%Z) as [|Hgt]; [done|]. exfalso.
    specialize (Hc m2). rewrite (count_le_all m2 (a2 ++ m2 :: b2)) in Hc by done.
    rewrite count_le_delete, decide_False in Hc by done.
    pose proof (count_le_length m2 (a1 ++ b1)).
    rewrite !length_app in *. simpl in *. lia. }
  rewrite !sum_Z_app. cbn [sum_Z foldr].
  assert (sum_Z (a1 ++ b1) ≤ sum_Z (a2 ++ b2))%Z as Hs.
  { apply IH; [rewrite length_app; lia..|]. intros t. specialize (Hc t).
    rewrite !count_le_delete in Hc.
    destruct (decide (m2 ≤ t)%Z) as [H2|H2].
    - rewrite decide_True in Hc by lia. lia.
    - destruct (decide (m1 ≤ t)%Z) as [H1|H1]; [|lia].
      rewrite (count_le_all t (a1 ++ b1)).
      + pose proof (count_le_length t (a2 ++ b2)). rewrite !length_app in *. lia.
      + eapply Forall_impl; [exact Hrest1|]. intros w ?. simpl in *. lia. }
  rewrite !sum_Z_app in Hs. fold (sum_Z b1) (sum_Z b2). lia.
Qed.

Lemma conn_cases {W} (g : Graph W) a b :
  wf_graph g → conn g a b → a = b ∨ (a ∈ nodes g ∧ b ∈ nodes g).
Proof.
  intros Hwf H. unfold conn, rtsc in H. destruct H as [|a a' b Hs Hr]; [by left|].
  right. assert (a ∈ nodes g) as Ha.
  { destruct Hs as [[w ?]|[w ?]]; [by eapply edge_node_l|by eapply edge_node_r]. }
  split; [done|]. eapply (conn_nodes g Hwf a b); [|done].
  by eapply rtc_l.
Qed.

(** No forest of edges of the graph has, below a threshold, more edges
    than one that connects what the edges below the threshold connect. *)
Lemma forest_count_le g t T tot T' tot' :
  wf_graph g → forest_of g T tot → forest_of g T' tot' →
  (∀ a b, a ∈ nodes g → b ∈ nodes g → conn_le g t a b →
          linked (pairs (upto t T)) a b) →
  length (upto t T') ≤ length (upto t T).
Proof.
  intros Hwf Hfo Hfo' Hsp.
  destruct (inc_forest_reps (nodes g) (pairs (upto t T))) as (reps & Hreps & Hlen);
    [by apply wf_nodup|by eapply forest_upto|].
  destruct (inc_forest_reps (nodes g) (pairs (upto t T'))) as (reps' & Hreps' & Hlen');
    [by apply wf_nodup|by eapply forest_upto|].
  unfold pairs in Hlen, Hlen'. rewrite length_fmap in Hlen, Hlen'.
  assert (length reps ≤ length reps'); [|lia].
  destruct Hreps as [Hnd Hsub Hsep _]. destruct Hreps' as [_ Hsub' _ Hcov'].
  eapply (reps_length_le (linked (pairs (upto t T))) (nodes g)); [apply _..|done|done|].
  intros r Hr. destruct (Hcov' r (Hsub r Hr)) as (r' & Hr' & Hl). exists r'.
  split; [done|]. apply Hsp; [by apply Hsub|by apply Hsub'|].
  eapply linked_upto_conn_le; [done|apply Hfo'|done].
Qed.

(** A forest that connects, below every threshold, what the edges below
    the threshold connect, weighs no more than any spanning forest. *)
Lemma threshold_forest_minimum g T tot :
  wf_graph g → forest_of g T tot →
  (∀ t a b, a ∈ nodes g → b ∈ nodes g → conn_le g t a b →
            linked (pairs (upto t T)) a b) →
  ∀ T' tot', forest_of g T' tot' →
    (∀ a b, conn g a b → linked (pairs T') a b) → (tot ≤ tot')%Z.
Proof.
  intros Hwf Hfo Hth T' tot' Hfo' Hsp'.
  assert (Hsp : ∀ a b, conn g a b → linked (pairs T) a b).
  { intros a b Hc. destruct (conn_cases g a b Hwf Hc) as [->|[Ha Hb]]; [done|].
    destruct (conn_conn_le g Hwf a b Hc) as [t Ht].
    eapply upto_linked. by apply Hth. }
  assert (Hk : ∃ k, n_components g k).
  { destruct (inc_forest_reps (nodes g) (pairs T)) as (reps & Hreps & _);
      [by apply wf_nodup|apply Hfo|].
    exists (length reps), reps. split; [|done].
    eapply is_reps_ext; [|done]. intros a b _ _. split; [|by apply Hsp].
    by eapply forest_linked_conn. }
  destruct Hk as [k Hk].
  pose proof (spanning_forest_count g T tot k Hwf Hfo Hsp Hk) as Hn.
  pose proof (spanning_forest_count g T' tot' k Hwf Hfo' Hsp' Hk) as Hn'.
  rewrite (fo_total _ _ _ Hfo), (fo_total _ _ _ Hfo').
  apply (sum_Z_dominated (length T)).
  - unfold weights. by rewrite length_fmap.
  - unfold weights. rewrite length_fmap. lia.
  - intros t. rewrite !count_le_weights.
    eapply forest_count_le; [done|exact Hfo|exact Hfo'|apply Hth].
Qed.

(** The accepted edges keep the order of the sorted edges. *)
Lemma kruskal_loop_sorted n rest :
  ∀ uf mst total T tot,
    kruskal_loop n rest uf mst total = Ok (T, tot) →
    StronglySorted arista_le rest →
    StronglySorted Z.le (weights mst) →
    (∀ e a, e ∈ mst → a ∈ rest → (e.2 ≤ a.1.1)%Z) →
    StronglySorted Z.le (weights T).
Proof.
  induction rest as [|[[w u] v] rest IH]; intros uf mst total T tot Hrun Hso Hmst Hle.
  { simpl in Hrun. by simplify_eq. }
  cbn [kruskal_loop] in Hrun. apply StronglySorted_inv in Hso as [Hso Hhd].
  assert (Hmst' : StronglySorted Z.le (weights (mst ++ [(u, v, w)]))).
  { unfold weights. rewrite fmap_app. apply StronglySorted_app_2; [|done|].
    - intros x y Hx ->%list_elem_of_singleton.
      apply list_elem_of_fmap in Hx as (e & -> & He).
      apply (Hle e (w, u, v)); [done|by left].
    - simpl. repeat constructor. }
  assert (Hle' : ∀ e a, e ∈ mst ++ [(u, v, w)] → a ∈ rest → (e.2 ≤ a.1.1)%Z).
  { intros e a [He| ->%list_elem_of_singleton]%elem_of_app Ha.
    - apply Hle; [done|by right].
    - simpl. rewrite Forall_forall in Hhd. by apply (arista_le_weight (w, u, v) a), Hhd. }
  destruct (unir u v uf) as [uf' [[|]| |]] eqn:Hu; try done.
  - case_decide; [by simplify_eq|]. by eapply IH.
  - eapply IH; [done..|]. intros e a He Ha. apply Hle; [done|by right].
Qed.

(** With exact integers: Kruskal returns a spanning forest.  On every well-formed graph
    [algoritmo_kruskal] returns edges of the graph, with their weights,
    that close no cycle and connect exactly the nodes that the graph
    connects, together with the sum of their weights. *)
Lemma kruskal_spanning_forest_Z (g : Graph Z) :
  wf_graph g →
  ∃ T tot, algoritmo_kruskal g = Ok (T, tot)
    ∧ (∀ u v w, (u, v, w) ∈ T → edge g u v w)
    ∧ inc_forest (nodes g) (pairs T)
    ∧ tot = sum_Z (weights T)
    ∧ (∀ a b, linked (pairs T) a b ↔ conn g a b).
Proof.
  intros Hwf. destruct (kruskal_ok g Hwf) as (T & tot & Hrun & Hfo & Hth).
  exists T, tot. split; [done|]. pose proof Hfo as [Hf He Ht].
  split; [done|]. split; [done|]. split; [done|]. intros a b. split.
  - by eapply forest_linked_conn.
  - intros [t Hc]%conn_conn_le; [|done]. eapply upto_linked. by apply Hth.
Qed.

(** With exact integers: Kruskal returns a minimum spanning forest.  The total weight
    that [algoritmo_kruskal] returns is at most the total weight of any
    cycle-free list of edges of the graph that connects what the graph
    connects. *)
Lemma kruskal_minimum_Z (g : Graph Z) :
  wf_graph g →
  ∃ T tot, algoritmo_kruskal g = Ok (T, tot)
    ∧ ∀ T' tot', forest_of g T' tot' →
        (∀ a b, conn g a b → linked (pairs T') a b) → (tot ≤ tot')%Z.
Proof.
  intros Hwf. destruct (kruskal_ok g Hwf) as (T & tot & Hrun & Hfo & Hth).
  exists T, tot. split; [done|]. apply (threshold_forest_minimum g T); [done..|].
  intros t a b _ _. apply Hth.
Qed.

(** With exact integers: Kruskal lists the edges in the order it accepted them, which is
    by weight: the weights of the returned list never decrease. *)
Lemma kruskal_sorted_Z (g : Graph Z) :
  wf_graph g →
  ∃ T tot, algoritmo_kruskal g = Ok (T, tot)
    ∧ StronglySorted Z.le (weights T).
Proof.
  intros Hwf. destruct (kruskal_ok g Hwf) as (T & tot & Hrun & _).
  exists T, tot. split; [done|].
  unfold algoritmo_kruskal in Hrun. case_decide.
  { simplify_eq. constructor. }
  eapply kruskal_loop_sorted; [exact Hrun| | |].
  - apply StronglySorted_merge_sort; apply _.
  - constructor.
  - by intros ?? ?%elem_of_nil.
Qed.

(** With exact integers: Prim returns a spanning tree of the component of its start
    node.  From a start node of a well-formed graph [algoritmo_prim]
    returns edges of the graph, with their weights, that close no cycle
    and connect the start node to every node the graph connects it to,
    together with the sum of their weights. *)
Lemma prim_spanning_tree_Z (g : Graph Z) start :
  wf_graph g → start ∈ nodes g →
  ∃ T tot, algoritmo_prim g (Some start) = Ok (T, tot)
    ∧ (∀ u v w, (u, v, w) ∈ T → edge g u v w)
    ∧ inc_forest (nodes g) (pairs T)
    ∧ tot = sum_Z (weights T)
    ∧ (∀ x, conn g start x → linked (pairs T) start x).
Proof.
  intros Hwf Hstart.
  destruct (prim_ok g Hwf start Hstart) as (T & tot & S & Hrun & [Hfo _ Hcomp Hsp]).
  exists T, tot. split; [done|]. pose proof Hfo as [Hf He Ht].
  split; [done|]. split; [done|]. split; [done|]. intros x Hx.
  destruct (conn_conn_le g Hwf start x Hx) as [t Hc].
  eapply upto_linked. apply Hsp; [|by apply Hcomp|done]. by apply Hcomp.
Qed.

(** With exact integers: Prim returns a minimum spanning tree.  On a connected
    well-formed graph the total weight that [algoritmo_prim] returns,
    from any start node of the graph and from the default one, is at most
    the total weight of any cycle-free list of edges of the graph that
    connects all its nodes. *)
Lemma prim_minimum_Z (g : Graph Z) :
  wf_graph g → connected g →
  (∀ start, start ∈ nodes g →
     ∃ T tot, algoritmo_prim g (Some start) = Ok (T, tot)
       ∧ ∀ T' tot', forest_of g T' tot' →
           (∀ a b, conn g a b → linked (pairs T') a b) → (tot ≤ tot')%Z)
  ∧ (∃ T tot, algoritmo_prim g None = Ok (T, tot)
       ∧ ∀ T' tot', forest_of g T' tot' →
           (∀ a b, conn g a b → linked (pairs T') a b) → (tot ≤ tot')%Z).
Proof.
  intros Hwf Hconn.
  assert (H : ∀ start, start ∈ nodes g →
     ∃ T tot, algoritmo_prim g (Some start) = Ok (T, tot)
       ∧ ∀ T' tot', forest_of g T' tot' →
           (∀ a b, conn g a b → linked (pairs T') a b) → (tot ≤ tot')%Z).
  { intros start Hstart.
    destruct (prim_ok g Hwf start Hstart) as (T & tot & S & Hrun & Hfin).
    exists T, tot. split; [done|].
    pose proof (prim_final_connected g start S T tot Hwf Hconn Hstart Hfin) as HS.
    destruct Hfin as [Hfo _ _ Hsp].
    apply (threshold_forest_minimum g T); [done..|].
    intros t a b Ha Hb. apply Hsp; by apply HS. }
  split; [done|]. destruct Hconn as [Hne _].
  destruct (nodes g) as [|primero resto] eqn:Hn; [done|].
  rewrite (prim_default g primero resto Hn). apply H. by left.
Qed.

(** Prim does not check its start node: on a graph that has nodes, a
    start node that is not one of them is popped and marked visited, and
    the call [grafo.neighbors] then raises [NetworkXError]. *)
Lemma prim_start_raises `{Numero W} (g : Graph W) z :
  nodes g ≠ [] → z ∉ nodes g →
  algoritmo_prim g (Some z) = Raise (NetworkXError z).
Proof.
  intros Hne Hz. unfold algoritmo_prim.
  rewrite decide_False by (by destruct (nodes g)).
  rewrite <-pending_empty. remember (Datatypes.S (pending g ∅)) as f eqn:Hf.
  cbn [mbind result_mbind result_bind prim_loop].
  rewrite decide_True.
  2:{ split; [done|]. rewrite size_empty. destruct (nodes g); [done|simpl; lia]. }
  change (Heapq.heappop prim_lt [(cero, z, None)])
    with (Some ((cero, z, @None node), @nil (prim_entry W))).
  cbv beta iota. rewrite decide_False by set_solver.
  unfold neighbors. apply alookup_None in Hz. by rewrite Hz.
Qed.

(** Every list of edges contains a forest that connects the same nodes. *)
Lemma sub_forest (g : Graph Z) T' :
  wf_graph g →
  (∀ u v w, (u, v, w) ∈ T' → edge g u v w) →
  ∃ F, F `sublist_of` T' ∧ inc_forest (nodes g) (pairs F)
       ∧ ∀ a b, linked (pairs T') a b ↔ linked (pairs F) a b.
Proof.
  intros Hwf. induction T' as [|[[u v] w] T' IH] using rev_ind; intros He.
  { exists []. split; [done|]. split; [constructor|done]. }
  destruct IH as (F & Hsub & Hf & Heq).
  { intros u' v' w' Hin. apply He, elem_of_app. by left. }
  assert (Huv : edge g u v w).
  { apply He, elem_of_app. right. by apply list_elem_of_singleton. }
  destruct (inc_forest_reps (nodes g) (pairs F)) as (reps & [_ _ Hsep Hcov] & _);
    [by apply wf_nodup|done|].
  destruct (Hcov u) as (ru & Hru & Hlu); [by eapply edge_node_l|].
  destruct (Hcov v) as (rv & Hrv & Hlv); [by eapply edge_node_r|].
  assert (Hsn : ∀ ops a b,
    linked (pairs (ops ++ [(u, v, w)])) a b ↔
    linked (pairs ops) a b ∨ (linked (pairs ops) a u ∧ linked (pairs ops) v b)
    ∨ (linked (pairs ops) a v ∧ linked (pairs ops) u b)).
  { intros ops a b. rewrite pairs_app. apply linked_snoc. }
  destruct (decide (ru = rv)) as [->|Hne].
  - assert (Hl : linked (pairs F) u v) by (etrans; [exact Hlu|by symmetry]).
    exists F. split; [by apply sublist_inserts_r|]. split; [done|].
    intros a b. rewrite Hsn, !Heq. split; [|by left].
    intros [?|[[H1 H2]|[H1 H2]]]; [done|..].
    + etrans; [exact H1|]. etrans; [exact Hl|exact H2].
    + etrans; [exact H1|]. etrans; [symmetry; exact Hl|exact H2].
  - exists (F ++ [(u, v, w)]). split; [by apply sublist_app|]. split.
    + rewrite pairs_app. constructor; [done|by eapply edge_node_l|by eapply edge_node_r|].
      intros Hl. apply Hne, Hsep; [done..|].
      etrans; [symmetry; exact Hlu|]. etrans; [exact Hl|exact Hlv].
    + intros a b. rewrite !Hsn, !Heq. done.
Qed.

Lemma sum_Z_sublist l1 l2 :
  l1 `sublist_of` l2 → Forall (λ w, (0 ≤ w)%Z) l2 → (sum_Z l1 ≤ sum_Z l2)%Z.
Proof.
  induction 1 as [|x l1 l2 _ IH|x l1 l2 _ IH]; intros Hall; [done|..];
    apply Forall_cons in Hall as [Hx Hall]; specialize (IH Hall);
    cbn [sum_Z foldr]; fold (sum_Z l1) (sum_Z l2); lia.
Qed.

(** With exact integers: with non-negative weights no connecting set of edges is lighter
    than Kruskal's result.  The total weight that [algoritmo_kruskal]
    returns is at most the sum of the weights of any list of edges of the
    graph that connects what the graph connects. *)
Lemma kruskal_minimum_connecting_Z (g : Graph Z) :
  wf_graph g → nonneg_weights g →
  ∃ T tot, algoritmo_kruskal g = Ok (T, tot)
    ∧ ∀ T', (∀ u v w, (u, v, w) ∈ T' → edge g u v w) →
        (∀ a b, conn g a b → linked (pairs T') a b) →
        (tot ≤ sum_Z (weights T'))%Z.
Proof.
  intros Hwf Hnn. destruct (kruskal_ok g Hwf) as (T & tot & Hrun & Hfo & Hth).
  exists T, tot. split; [done|]. intros T' He Hsp.
  destruct (sub_forest g T' Hwf He) as (F & Hsub & Hf & Heq).
  etrans.
  - apply (threshold_forest_minimum g T tot Hwf Hfo) with (T' := F) (tot' := sum_Z (weights F)).
    + intros t a b _ _. apply Hth.
    + split; [done| |done]. intros u v w Hin. apply He.
      by eapply elem_of_sublist.
    + intros a b Hc. by apply Heq, Hsp.
  - apply sum_Z_sublist; [by apply fmap_sublist|].
    apply Forall_forall. intros w Hw.
    apply list_elem_of_fmap in Hw as ([[u v] w'] & -> & Hin).
    eapply nonneg_edge; [done|]. by apply He.
Qed.

(** With exact integers: Prim and Kruskal pick edges of the same weights.  On a
    connected well-formed graph the weights of the edges that
    [algoritmo_prim] returns are, counted with repetitions, the weights
    of the edges that [algoritmo_kruskal] returns; when no two edges of
    the graph have the same weight, the two return the same edges, each
    possibly with its ends in the other order. *)
Lemma prim_kruskal_same_edges_Z (g : Graph Z) :
  wf_graph g → connected g →
  ∃ T2 tot2, algoritmo_kruskal g = Ok (T2, tot2)
    ∧ ∀ start, start ∈ nodes g →
        ∃ T1 tot1, algoritmo_prim g (Some start) = Ok (T1, tot1)
          ∧ weights T1 ≡ₚ weights T2
          ∧ ((∀ u v w u' v', edge g u v w → edge g u' v' w →
                (u = u' ∧ v = v') ∨ (u = v' ∧ v = u')) →
             ∀ u v w, (u, v, w) ∈ T1 → (u, v, w) ∈ T2 ∨ (v, u, w) ∈ T2).
Proof.
  intros Hwf Hconn.
  destruct (kruskal_ok g Hwf) as (T2 & tot2 & Hrun2 & Hfo2 & Hsp2).
  exists T2, tot2. split; [done|]. intros start Hstart.
  destruct (prim_ok g Hwf start Hstart) as (T1 & tot1 & S & Hrun1 & Hfin).
  pose proof (prim_final_connected g start S T1 tot1 Hwf Hconn Hstart Hfin) as HS.
  destruct Hfin as [Hfo1 _ _ Hsp1].
  exists T1, tot1. split; [done|].
  assert (Hperm : weights T1 ≡ₚ weights T2).
  { eapply (spanning_forests_perm g T1 tot1 T2 tot2); [done..| |].
    - intros t a b Ha Hb. apply Hsp1; by apply HS.
    - intros t a b _ _. apply Hsp2. }
  split; [done|]. intros Hinj u v w Hin.
  assert (w ∈ weights T2) as Hw.
  { rewrite <-Hperm. apply list_elem_of_fmap. by exists (u, v, w). }
  apply list_elem_of_fmap in Hw as ([[u' v'] w'] & Heq & Hin'). simpl in Heq. subst w'.
  pose proof (fo_edges _ _ _ Hfo1 _ _ _ Hin) as He.
  pose proof (fo_edges _ _ _ Hfo2 _ _ _ Hin') as He'.
  destruct (Hinj u v w u' v' He He') as [[-> ->]|[-> ->]]; [by left|by right].
Qed.

(** ** The tree of shortest paths *)

Section tree.
Context (g : Graph Z) (Hwf : wf_graph g) (Hnn : nonneg_weights g).

Lemma dijkstra_loop_tree src fuel :
  ∀ vis ord st,
    dijkstra_inv g src vis st → pred_inv g src vis ord st →
    length (ds_heap st) + pending g vis < fuel →
    ∃ D P vis' ord', dijkstra_loop fuel g vis st = Ok (D, P)
      ∧ dijkstra_inv g src vis' (mkDS D P [])
      ∧ pred_inv g src vis' ord' (mkDS D P []).
Proof.
  induction fuel as [|fuel IH]; intros vis ord st Hinv Hpt Hfuel; [lia|].
  cbn [dijkstra_loop]. case_decide as Hne.
  2:{ exists (distancias st), (predecesores st), vis, ord. split; [done|].
      assert (ds_heap st = []) as Hnil by (destruct (ds_heap st); [done|by exfalso]).
      destruct st as [D P H]. simpl in *. by subst H. }
  destruct (dijkstra_pop g src vis st Hinv Hne)
    as (d & u & H1 & Hpop & Hlen1 & Hh1 & HinH & Hge).
  rewrite Hpop. cbv zeta. case_decide as Hu.
  - apply (IH vis ord); [by eapply dijkstra_stale_inv| |simpl; lia].
    destruct Hpt as [? ? ? ?]. by split.
  - destruct (dijkstra_visit_ok g Hwf Hnn src vis st d u H1 Hinv HinH Hge Hh1 Hu)
      as (nbrs & st' & Hnb & Hnbrs & Hrun & Hlen' & Hinv' & Hdu & Hcase).
    rewrite Hnbrs. cbn [mbind result_mbind result_bind].
    rewrite Hrun. cbn [mbind result_mbind result_bind].
    apply (IH _ (ord ++ [u])); [done| |].
    2:{ pose proof (pending_visit g vis u nbrs Hwf Hnb Hu). lia. }
    destruct Hpt as [Hnd Hvis Hroot Hedge].
    assert (Hkeep : ∀ v, v ∈ {[u]} ∪ vis →
              distancias st' !! v = distancias st !! v).
    { intros v Hv. destruct (Hcase v) as [[? _]|[Hv' _]]; [done|]. by destruct Hv'. }
    split.
    + apply NoDup_app. split; [done|]. split; [|apply NoDup_singleton].
      intros x Hx ->%list_elem_of_singleton. by apply Hu, Hvis.
    + intros x. rewrite elem_of_app, list_elem_of_singleton, Hvis. set_solver.
    + intros v dv HD HP. destruct (Hcase v) as [[HD' HP']|(_ & w & _ & _ & HP')].
      * eapply Hroot; by rewrite <-?HD', <-?HP'.
      * congruence.
    + intros v p HP. destruct (Hcase v) as [[HD' HP']|(Hv & w & He & HD' & HP')].
      * rewrite HP' in HP. destruct (Hedge v p HP) as (i & w & dp & Hi & Hj & He & Hdp & Hdv).
        exists i, w, dp. split; [by apply lookup_app_l_Some|]. split.
        { intros j Hjv. apply lookup_app_Some in Hjv as [Hjv|[Hlen Hjv]]; [by apply Hj|].
          apply lookup_lt_Some in Hi. lia. }
        split; [done|]. split; [|congruence].
        rewrite Hkeep; [done|]. apply elem_of_union_r, Hvis.
        by eapply list_elem_of_lookup_2.
      * assert (p = u) as -> by congruence.
        exists (length ord), w, d. split.
        { rewrite lookup_app_r by lia. by rewrite Nat.sub_diag. }
        split.
        { intros j Hjv. exfalso. apply Hv.
          apply list_elem_of_lookup_2, elem_of_app in Hjv as [Hjv|Hjv].
          - apply elem_of_union_r. by apply Hvis.
          - apply elem_of_union_l. apply list_elem_of_singleton in Hjv. set_solver. }
        split; [done|]. split; [|done].
        rewrite Hkeep; [done|]. set_solver.
Qed.

Lemma dijkstra_tree src :
  src ∈ nodes g →
  ∃ D P vis ord, algoritmo_dijkstra g src = Ok (D, P)
    ∧ dijkstra_inv g src vis (mkDS D P [])
    ∧ pred_inv g src vis ord (mkDS D P []).
Proof.
  intros Hsrc. unfold algoritmo_dijkstra. rewrite decide_False by (by intros ?).
  destruct (dijkstra_loop_tree src (fuel_of g) ∅ []
              (mkDS (<[src:=Fin 0]> (list_to_map ((λ n, (n, Inf)) <$> nodes g)))
                    (list_to_map ((λ n, (n, None)) <$> nodes g))
                    [(0%Z, src)]))
    as (D & P & vis & ord & Hrun & H).
  - by apply dijkstra_init_inv.
  - split; simpl.
    + constructor.
    + set_solver.
    + intros v d. destruct (decide (src = v)) as [->|Hne]; [done|].
      rewrite lookup_insert_ne, lookup_const_map by done. by case_decide.
    + intros v u. rewrite lookup_const_map. by case_decide.
  - simpl. rewrite <-pending_empty. lia.
  - by exists D, P, vis, ord.
Qed.

End tree.

Lemma camino_de_length g src l v d : camino_de g src l v d → 1 ≤ length l.
Proof. destruct 1; [simpl; lia|rewrite length_app; simpl; lia]. Qed.

Lemma camino_de_path g src l v d : camino_de g src l v d → path g src v d.
Proof. induction 1; [constructor|by econstructor]. Qed.

Lemma camino_de_ends g src l v d :
  camino_de g src l v d → head l = Some src ∧ last l = Some v.
Proof.
  induction 1 as [|l u v w d H [IH1 IH2] He]; [done|]. split.
  - destruct l; [done|]. done.
  - by rewrite last_snoc.
Qed.

(** When the loop of [algoritmo_dijkstra] has ended: the nodes with a
    finite distance are the visited ones, and every node a walk reaches
    has the least weight of such a walk. *)
Lemma dijkstra_final g src vis D P :
  dijkstra_inv g src vis (mkDS D P []) →
  (∀ v d, D !! v = Some (Fin d) → v ∈ vis)
  ∧ (∀ v, reachable g src v →
       ∃ d, D !! v = Some (Fin d) ∧ ∀ d', path g src v d' → (d ≤ d')%Z).
Proof.
  intros [HdomD HdomP Hs Hps Hsub Hpath Hmin Hrelax Hh Hentry Hpend Hmono Hpred].
  simpl in *.
  assert (Hfin : ∀ v d, D !! v = Some (Fin d) → v ∈ vis).
  { intros v d Hd. destruct (decide (v ∈ vis)) as [|Hv]; [done|].
    by apply (Hpend v d Hv), elem_of_nil in Hd. }
  split; [done|]. intros v [d' Hp].
  assert (v ∈ vis) as Hv.
  { induction Hp as [|a y w d1 _ IH He]; [by eapply Hfin|].
    destruct (Hmin a IH) as (da & Hda & _).
    destruct (Hrelax a y w da IH He Hda) as (dv & Hdv & _). by eapply Hfin. }
  by apply Hmin.
Qed.

(** Walking the predecessors from a visited node ends at the source
    within the fuel, and the nodes met, read backwards, are a walk of the
    recorded distance. *)
Lemma camino_loop_chain g src vis ord D P :
  dijkstra_inv g src vis (mkDS D P []) →
  pred_inv g src vis ord (mkDS D P []) →
  ∀ j v d fuel acc,
    ord !! j = Some v → D !! v = Some (Fin d) → j + 2 ≤ fuel →
    ∃ l, camino_loop fuel P (Some v) acc = Ok (acc ++ l)
         ∧ camino_de g src (reverse l) v d
         ∧ (v ≠ src → 2 ≤ length l).
Proof.
  intros Hinv [Hnd Hvis Hroot Hedge]. simpl in *.
  induction j as [j IH] using lt_wf_ind. intros v d fuel acc Hj Hd Hfuel.
  destruct fuel as [|fuel]; [lia|]. cbn [camino_loop].
  assert (is_Some (P !! v)) as [p Hp].
  { apply (di_domP _ _ _ _ Hinv), (di_domD _ _ _ _ Hinv). by eexists. }
  unfold getitem. rewrite Hp. cbn [mbind result_mbind result_bind].
  destruct p as [p|].
  - destruct (Hedge v p Hp) as (i & w & dp & Hi & Hlt & He & Hdp & Hdv).
    specialize (Hlt j Hj).
    destruct (IH i Hlt p dp fuel (acc ++ [v]) Hi Hdp) as (l & Hrun & Hcam & _); [lia|].
    exists (v :: l). split; [by rewrite Hrun, <-app_assoc|]. split.
    + rewrite reverse_cons. assert (d = (dp + w)%Z) as -> by congruence.
      by econstructor.
    + intros _. apply camino_de_length in Hcam. rewrite length_reverse in Hcam.
      simpl. lia.
  - assert (v = src) as -> by (by eapply Hroot).
    destruct fuel as [|fuel]; [lia|]. cbn [camino_loop].
    exists [src]. split; [done|]. split; [|done].
    pose proof (di_src _ _ _ _ Hinv) as Hs. simpl in Hs.
    assert (d = 0%Z) as -> by congruence. constructor.
Qed.

Lemma NoDup_length_size (l : list node) {V} (m : gmap node V) :
  NoDup l → (∀ x, x ∈ l → is_Some (m !! x)) → length l ≤ size m.
Proof.
  intros Hnd Hsub. rewrite <-(size_list_to_set (C:=gset node) l Hnd).
  rewrite <-(size_dom (D:=gset node) m). apply subseteq_size.
  intros x Hx. apply elem_of_dom, Hsub. by apply elem_of_list_to_set in Hx.
Qed.

(** With exact integers: [reconstruir_camino] returns a shortest path.  After
    [algoritmo_dijkstra] from a source of a well-formed graph with
    non-negative weights, for every node other than the source that a
    walk from the source reaches, [reconstruir_camino] returns a list of
    nodes that is a walk of the graph from the source to that node, whose
    total weight is the recorded distance, the least weight of any walk
    between the two. *)
Lemma reconstruir_camino_shortest_Z (g : Graph Z) src :
  wf_graph g → nonneg_weights g → src ∈ nodes g →
  ∃ D P, algoritmo_dijkstra g src = Ok (D, P)
    ∧ ∀ v, reachable g src v → v ≠ src →
        ∃ camino d, reconstruir_camino v P = Ok (Some camino)
          ∧ D !! v = Some (Fin d)
          ∧ camino_de g src camino v d
          ∧ head camino = Some src ∧ last camino = Some v
          ∧ ∀ d', path g src v d' → (d ≤ d')%Z.
Proof.
  intros Hwf Hnn Hsrc.
  destruct (dijkstra_tree g Hwf Hnn src Hsrc) as (D & P & vis & ord & Hrun & Hinv & Hpt).
  exists D, P. split; [done|]. intros v Hreach Hne.
  destruct (dijkstra_final g src vis D P Hinv) as [Hfin Hmin].
  destruct (Hmin v Hreach) as (d & Hd & Hle).
  assert (v ∈ ord) as Hv by (by eapply (pt_vis _ _ _ _ _ Hpt), Hfin).
  apply list_elem_of_lookup in Hv as [j Hj].
  assert (Hlen : length ord ≤ size P).
  { apply NoDup_length_size; [apply Hpt|]. intros x Hx.
    apply (di_domP _ _ _ _ Hinv), (di_sub _ _ _ _ Hinv), (pt_vis _ _ _ _ _ Hpt), Hx. }
  destruct (camino_loop_chain g src vis ord D P Hinv Hpt j v d
              (S (S (size P))) [] Hj Hd) as (l & Hloop & Hcam & Hlen2).
  { apply lookup_lt_Some in Hj. lia. }
  specialize (Hlen2 Hne).
  exists (reverse l), d.
  assert (Hrec : reconstruir_camino v P = Ok (Some (reverse l))).
  { unfold reconstruir_camino, getitem.
    assert (is_Some (P !! v)) as [p Hp].
    { apply (di_domP _ _ _ _ Hinv), (di_domD _ _ _ _ Hinv). by eexists. }
    rewrite Hp. cbn [mbind result_mbind result_bind].
    destruct p as [p|]; [|by destruct Hne; eapply (pt_root _ _ _ _ _ Hpt)].
    rewrite decide_False by (by intros [? _]).
    rewrite Hloop. cbn [mbind result_mbind result_bind app].
    pose proof (length_reverse l) as Hr.
    destruct (reverse l) as [|a [|b r]]; simpl in Hr; [lia..|done]. }
  split; [done|]. split; [done|]. split; [done|].
  destruct (camino_de_ends _ _ _ _ _ Hcam) as [? ?]. done.
Qed.

Lemma dict_items_elem {V} (claves : list node) (d : gmap node V) k v :
  (k, v) ∈ dict_items claves d ↔ k ∈ claves ∧ d !! k = Some v.
Proof.
  unfold dict_items. rewrite list_elem_of_omap. split.
  - intros (k' & Hk & Heq). destruct (d !! k') as [v'|] eqn:Hd; [|done].
    simpl in Heq. by simplify_eq.
  - intros [Hk Hd]. exists k. split; [done|]. by rewrite Hd.
Qed.

Lemma obtener_aristas_caminos_elem items origen p v :
  (p, v) ∈ obtener_aristas_caminos items origen ↔ (v, Some p) ∈ items.
Proof.
  unfold obtener_aristas_caminos. rewrite list_elem_of_omap. split.
  - intros ([n [q|]] & Hin & Heq); [|done]. by simplify_eq.
  - intros Hin. by exists (v, Some p).
Qed.

Lemma obtener_aristas_caminos_NoDup items origen :
  NoDup items.*1 → NoDup (obtener_aristas_caminos items origen).*2.
Proof.
  unfold obtener_aristas_caminos.
  induction items as [|[n [q|]] items IH]; intros Hnd; simpl; [constructor|..];
    apply NoDup_cons in Hnd as [Hn Hnd]; [|by apply IH].
  simpl. apply NoDup_cons. split; [|by apply IH].
  intros Hin. apply Hn. apply list_elem_of_fmap in Hin as ([p v] & -> & Hin).
  apply (obtener_aristas_caminos_elem items origen p v) in Hin.
  apply list_elem_of_fmap. by exists (v, Some p).
Qed.

Lemma dict_items_keys {V} (claves : list node) (d : gmap node V) :
  NoDup claves → NoDup (dict_items claves d).*1.
Proof.
  unfold dict_items. induction claves as [|k claves IH]; intros Hnd; [constructor|].
  apply NoDup_cons in Hnd as [Hk Hnd]. simpl.
  destruct (d !! k) as [v|] eqn:Hd; simpl; [|by apply IH].
  apply NoDup_cons. split; [|by apply IH].
  intros Hin. apply Hk. apply list_elem_of_fmap in Hin as ([k' v'] & -> & Hin).
  by apply dict_items_elem in Hin as [? _].
Qed.

(** With exact integers: [obtener_aristas_caminos] returns the tree of shortest paths.
    On the predecessors that [algoritmo_dijkstra] returns, it lists one
    pair (predecessor, node) for every node other than the source that a
    walk from the source reaches, and no other pair; every pair is an
    edge of the graph along which the distance of the node is the
    distance of the predecessor plus the weight of the edge. *)
Lemma obtener_aristas_caminos_tree_Z (g : Graph Z) src :
  wf_graph g → nonneg_weights g → src ∈ nodes g →
  ∃ D P, algoritmo_dijkstra g src = Ok (D, P)
    ∧ let aristas := obtener_aristas_caminos (dict_items (nodes g) P) src in
      NoDup aristas.*2
      ∧ (∀ v, v ∈ aristas.*2 ↔ reachable g src v ∧ v ≠ src)
      ∧ (∀ p v, (p, v) ∈ aristas →
           ∃ w dp, edge g p v w ∧ D !! p = Some (Fin dp)
                   ∧ D !! v = Some (Fin (dp + w))).
Proof.
  intros Hwf Hnn Hsrc.
  destruct (dijkstra_tree g Hwf Hnn src Hsrc) as (D & P & vis & ord & Hrun & Hinv & Hpt).
  exists D, P. split; [done|]. cbv zeta.
  destruct (dijkstra_final g src vis D P Hinv) as [Hfin Hmin].
  assert (Hel : ∀ p v, (p, v) ∈ obtener_aristas_caminos (dict_items (nodes g) P) src
                       ↔ P !! v = Some (Some p)).
  { intros p v. rewrite obtener_aristas_caminos_elem, dict_items_elem. split; [by intros [_ ?]|].
    intros Hp. split; [|done]. apply (di_domP _ _ _ _ Hinv). by eexists. }
  split; [|split].
  - apply obtener_aristas_caminos_NoDup, dict_items_keys. by apply wf_nodup.
  - intros v. rewrite list_elem_of_fmap. split.
    + intros ([p v'] & -> & Hin). simpl. apply Hel in Hin.
      destruct (di_pred _ _ _ _ Hinv v' p Hin) as [d Hd]. simpl in Hd. split.
      * exists d. by apply (di_path _ _ _ _ Hinv).
      * intros ->. pose proof (di_psrc _ _ _ _ Hinv) as Hps. simpl in *. congruence.
    + intros [Hreach Hne]. destruct (Hmin v Hreach) as (d & Hd & _).
      assert (is_Some (P !! v)) as [[p|] Hp].
      { apply (di_domP _ _ _ _ Hinv), (di_domD _ _ _ _ Hinv). by eexists. }
      * exists (p, v). split; [done|]. by apply Hel.
      * destruct Hne. by eapply (pt_root _ _ _ _ _ Hpt).
  - intros p v Hin%Hel.
    destruct (pt_edge _ _ _ _ _ Hpt v p Hin) as (i & w & dp & _ & _ & He & Hdp & Hdv).
    by exists w, dp.
Qed.

(** With exact integers: the two dictionaries of [algoritmo_dijkstra].  Both have one
    entry per node of the graph and no other key; the distance is
    infinite exactly at the nodes no walk from the source reaches; the
    predecessor is [None] exactly at the source and at those nodes, and
    is otherwise a node with a finite distance. *)
Lemma dijkstra_tables_Z (g : Graph Z) src :
  wf_graph g → nonneg_weights g → src ∈ nodes g →
  ∃ D P, algoritmo_dijkstra g src = Ok (D, P)
    ∧ (∀ v, is_Some (D !! v) ↔ v ∈ nodes g)
    ∧ (∀ v, is_Some (P !! v) ↔ v ∈ nodes g)
    ∧ (∀ v, D !! v = Some Inf ↔ v ∈ nodes g ∧ ¬ reachable g src v)
    ∧ (∀ v, P !! v = Some None ↔
            v ∈ nodes g ∧ (v = src ∨ ¬ reachable g src v))
    ∧ (∀ v p, P !! v = Some (Some p) → ∃ dp, D !! p = Some (Fin dp)).
Proof.
  intros Hwf Hnn Hsrc.
  destruct (dijkstra_tree g Hwf Hnn src Hsrc) as (D & P & vis & ord & Hrun & Hinv & Hpt).
  exists D, P. split; [done|].
  destruct (dijkstra_final g src vis D P Hinv) as [Hfin Hmin].
  pose proof Hinv as [HdomD HdomP Hs Hps Hsub Hpath _ _ _ _ _ _ Hpred]. simpl in *.
  assert (Hinf : ∀ v, D !! v = Some Inf ↔ v ∈ nodes g ∧ ¬ reachable g src v).
  { intros v. split.
    - intros Hv. split; [apply HdomD; by eexists|].
      intros Hr. destruct (Hmin v Hr) as (d & Hd & _). congruence.
    - intros [Hv Hnr]. destruct (proj2 (HdomD v) Hv) as [[d|] Hd]; [|done].
      destruct Hnr. exists d. by apply Hpath. }
  split; [done|]. split; [done|]. split; [done|]. split.
  - intros v. split.
    + intros Hp. assert (v ∈ nodes g) as Hv by (apply HdomP; by eexists).
      split; [done|]. destruct (proj2 (HdomD v) Hv) as [[d|] Hd].
      * left. by eapply (pt_root _ _ _ _ _ Hpt).
      * right. by apply Hinf.
    + intros [Hv [->|Hnr]]; [done|].
      destruct (proj2 (HdomP v) Hv) as [[p|] Hp]; [|done].
      destruct (Hpred v p Hp) as [d Hd]. destruct Hnr. exists d. by apply Hpath.
  - intros v p Hp.
    destruct (pt_edge _ _ _ _ _ Hpt v p Hp) as (_ & _ & dp & _ & _ & _ & Hdp & _).
    by exists dp.
Qed.

(** ** Union-Find: path compression, failed calls, ranks *)

Lemma on_path_root s x y : padre s !! x = Some x → on_path s x y → y = x.
Proof. intros Hx. destruct 1 as [|x p y Hp Hne _]; [done|]. congruence. Qed.

Lemma on_path_inv s x p y :
  padre s !! x = Some p → on_path s x y → y = x ∨ on_path s p y.
Proof.
  intros Hx. destruct 1 as [|x p' y Hp Hne H]; [by left|].
  right. congruence.
Qed.

(** [encontrar] points every element of the path at the root and touches
    nothing else. *)
Lemma encontrar_rec_compress s x r n :
  repn s x r n →
  ∀ fuel, n < fuel →
    ∃ s', encontrar_rec fuel x s = (s', Ok r)
      ∧ rango s' = rango s
      ∧ (∀ y, on_path s x y → padre s' !! y = Some r)
      ∧ (∀ y, ¬ on_path s x y → padre s' !! y = padre s !! y).
Proof.
  induction 1 as [x Hx|x p r n Hx Hne H IH]; intros fuel Hf.
  - destruct fuel as [|fuel]; [lia|]. exists s. split.
    + rewrite encontrar_rec_S, Hx. by rewrite decide_False by (intros ?; done).
    + split; [done|]. split; [|done].
      intros y Hy. by rewrite (on_path_root s x y Hx Hy).
  - destruct fuel as [|fuel]; [lia|].
    destruct (IH fuel) as (s1 & Hrun & Hrg & Hon & Hoff); [lia|].
    exists (mkUF (<[x:=r]> (padre s1)) (rango s1)). split.
    + rewrite encontrar_rec_S, Hx. rewrite decide_True by done. by rewrite Hrun.
    + split; [done|]. simpl. split.
      * intros y Hy. destruct (decide (x = y)) as [->|Hxy].
        { by rewrite lookup_insert_eq. }
        rewrite lookup_insert_ne by done.
        apply (on_path_inv s x p y Hx) in Hy as [->|Hy]; [done|]. by apply Hon.
      * intros y Hy. destruct (decide (x = y)) as [->|Hxy].
        { destruct Hy. constructor. }
        rewrite lookup_insert_ne by done. apply Hoff.
        intros Hp. apply Hy. by econstructor.
Qed.

(** X10 — path compression.  In every object reachable from
    [UnionFind(elementos)], [encontrar(x)] on a registered [x] returns
    the root of [x]; afterwards the parent of every element that was on
    the path from [x] to that root is the root itself, every other
    parent and every rank is as before. *)
Theorem encontrar_compresses elementos s x :
  uf_reachable elementos s → x ∈ elementos →
  ∃ s' r, encontrar x s = (s', Ok r)
    ∧ rep s x r
    ∧ rango s' = rango s
    ∧ (∀ y, on_path s x y → padre s' !! y = Some r)
    ∧ (∀ y, ¬ on_path s x y → padre s' !! y = padre s !! y).
Proof.
  intros Hs Hx. destruct (uf_reachable_inv _ _ Hs) as [Hinv Hreg].
  destruct (repn_exists s x Hinv) as (r & n & Hr & Hn); [by apply Hreg|].
  destruct (encontrar_rec_compress s x r n Hr (S (size (padre s))))
    as (s' & Hrun & H); [lia|].
  exists s', r. split; [done|]. split; [by exists n|done].
Qed.

Lemma encontrar_compresses_witness :
  ∃ s' r, encontrar "B" (unir "B" "C" (unir "A" "B" (uf_init ["A"; "B"; "C"])).1).1
          = (s', Ok r)
    ∧ padre s' !! "B" = Some r.
Proof.
  destruct (encontrar_compresses ["A"; "B"; "C"]
              (unir "B" "C" (unir "A" "B" (uf_init ["A"; "B"; "C"])).1).1 "B")
    as (s' & r & Hrun & _ & _ & Hon & _).
  - apply uf_reachable_unir, uf_reachable_unir, uf_reachable_init.
  - set_solver.
  - exists s', r. split; [exact Hrun|]. apply Hon. constructor.
Defined.

(** X11 — [unir] on an element that was never registered.  The call
    raises [KeyError] for the first of its two arguments that is not
    registered; no set is merged: every element keeps its representative
    and every rank its value (the paths from a registered first argument
    may have been compressed before the error). *)
Theorem unir_unregistered elementos s x y :
  uf_reachable elementos s → x ∉ elementos ∨ y ∉ elementos →
  ∃ s', unir x y s
        = (s', Raise (KeyError (if decide (x ∈ elementos) then y else x)))
    ∧ rango s' = rango s
    ∧ (x ∉ elementos → s' = s)
    ∧ ∀ a r, rep s' a r ↔ rep s a r.
Proof.
  intros Hs Hxy. destruct (uf_reachable_inv _ _ Hs) as [Hinv Hreg].
  destruct (decide (x ∈ elementos)) as [Hx|Hx].
  - destruct Hxy as [?|Hy]; [done|].
    destruct (encontrar_ok s x Hinv) as (s1 & r1 & Hrun1 & [_ _ Hrg Hdom Hreps]);
      [by apply Hreg|].
    assert (padre s1 !! y = None) as Hy1.
    { apply not_elem_of_dom. rewrite Hdom. apply not_elem_of_dom.
      apply eq_None_not_Some. intros Hr. by apply Hy, Hreg. }
    exists s1. split; [|done].
    unfold unir. rewrite (UFm_bind_eq _ _ _ _ _ Hrun1).
    unfold mbind, UFm_bind. by rewrite encontrar_unregistered.
  - assert (padre s !! x = None) as Hx0.
    { apply eq_None_not_Some. intros Hr. by apply Hx, Hreg. }
    exists s. split; [|done].
    unfold unir, mbind, UFm_bind. by rewrite encontrar_unregistered.
Qed.

Lemma unir_unregistered_witness :
  ∃ s', unir "A" "Z" (uf_init ["A"; "B"]) = (s', Raise (KeyError "Z")).
Proof.
  destruct (unir_unregistered ["A"; "B"] (uf_init ["A"; "B"]) "A" "Z")
    as (s' & Hrun & _).
  - apply uf_reachable_init.
  - right. set_solver.
  - exists s'. rewrite Hrun. by rewrite decide_True by set_solver.
Defined.

Lemma rank_inv_ext s s' :
  (∀ a r, rep s' a r ↔ rep s a r) → rango s' = rango s →
  rank_inv s → rank_inv s'.
Proof.
  intros Hreps Hrg Hri r Hr.
  assert (padre s !! r = Some r) as Hr0.
  { eapply rep_is_root. apply Hreps. by apply rep_root. }
  destruct (Hri r Hr0) as (l & Hnd & Hl & Hlen). exists l.
  split; [done|]. split; [intros x Hx; by apply Hreps, Hl|].
  unfold rank in *. by rewrite Hrg.
Qed.

Lemma rank_inv_link s c p rg :
  rank_inv s →
  padre s !! c = Some c → padre s !! p = Some p → c ≠ p →
  (∀ y, y ≠ p → rg !! y = rango s !! y) →
  2 ^ default 0 (rg !! p) ≤ 2 ^ rank s p + 2 ^ rank s c →
  rank_inv (mkUF (<[c:=p]> (padre s)) rg).
Proof.
  intros Hri Hc Hp Hne Hrg Hpow r Hr. simpl in Hr.
  assert (r ≠ c) as Hrc.
  { intros ->. rewrite lookup_insert_eq in Hr. congruence. }
  rewrite lookup_insert_ne in Hr by done.
  destruct (Hri r Hr) as (l & Hnd & Hl & Hlen).
  assert (Hin : ∀ x, x ∈ l → rep (mkUF (<[c:=p]> (padre s)) rg) x r).
  { intros x Hx. apply (rep_link s c p rg Hc Hp Hne). exists r.
    split; [by apply Hl|]. by rewrite decide_False. }
  destruct (decide (r = p)) as [->|Hrp].
  - destruct (Hri c Hc) as (lc & Hndc & Hlc & Hlenc).
    exists (l ++ lc). split; [|split].
    + apply NoDup_app. split; [done|]. split; [|done].
      intros x Hx Hxc. apply Hne.
      by rewrite (rep_det _ _ _ _ (Hlc x Hxc) (Hl x Hx)).
    + intros x [Hx|Hx]%elem_of_app; [by apply Hin|].
      apply (rep_link s c p rg Hc Hp Hne). exists c.
      split; [by apply Hlc|]. by rewrite decide_True.
    + rewrite length_app. unfold rank at 1. simpl. lia.
  - exists l. split; [done|]. split; [done|].
    unfold rank in *. simpl. by rewrite Hrg.
Qed.

(** What [unir] does to the object: both paths are compressed, then the
    root of lower rank is put under the other one; on a tie the second
    root goes under the first, whose rank grows by one. *)
Lemma unir_shape s x y :
  uf_inv s → registered s x → registered s y →
  ∃ s2 r1 r2,
    (∀ a ra, rep s2 a ra ↔ rep s a ra) ∧ rango s2 = rango s
    ∧ padre s2 !! r1 = Some r1 ∧ padre s2 !! r2 = Some r2
    ∧ unir x y s =
      if decide (r1 = r2) then (s2, Ok false)
      else if decide (rank s r1 < rank s r2)
      then (mkUF (<[r1:=r2]> (padre s2)) (rango s2), Ok true)
      else if decide (rank s r2 < rank s r1)
      then (mkUF (<[r2:=r1]> (padre s2)) (rango s2), Ok true)
      else (mkUF (<[r2:=r1]> (padre s2))
                 (<[r1:=rank s r1 + 1]> (rango s2)), Ok true).
Proof.
  intros Hinv Hx Hy.
  destruct (encontrar_ok s x Hinv Hx) as (s1 & r1 & Hrun1 & [Hrep1 Hinv1 Hrg1 Hdom1 Hreps1]).
  assert (Hy1 : registered s1 y).
  { apply elem_of_dom. rewrite Hdom1. by apply elem_of_dom. }
  destruct (encontrar_ok s1 y Hinv1 Hy1) as (s2 & r2 & Hrun2 & [Hrep2 Hinv2 Hrg2 Hdom2 Hreps2]).
  assert (Hreps : ∀ a ra, rep s2 a ra ↔ rep s a ra).
  { intros a ra. by rewrite Hreps2, Hreps1. }
  assert (Hroot1 : padre s2 !! r1 = Some r1).
  { eapply rep_is_root. apply Hreps. done. }
  assert (Hroot2 : padre s2 !! r2 = Some r2).
  { eapply rep_is_root. apply Hreps2. done. }
  assert (Hrg : rango s2 = rango s) by congruence.
  exists s2, r1, r2. split; [done|]. split; [done|]. split; [done|]. split; [done|].
  unfold unir. rewrite (UFm_bind_eq _ _ _ _ _ Hrun1), (UFm_bind_eq _ _ _ _ _ Hrun2).
  destruct (decide (r1 = r2)) as [->|Hne]; [done|].
  assert (is_Some (rango s2 !! r1)) as [k1 Hk1].
  { apply elem_of_dom. rewrite (inv_dom _ Hinv2). apply elem_of_dom. by eexists. }
  assert (is_Some (rango s2 !! r2)) as [k2 Hk2].
  { apply elem_of_dom. rewrite (inv_dom _ Hinv2). apply elem_of_dom. by eexists. }
  assert (Hrk1 : rank s r1 = k1) by (unfold rank; by rewrite <-Hrg, Hk1).
  assert (Hrk2 : rank s r2 = k2) by (unfold rank; by rewrite <-Hrg, Hk2).
  rewrite Hrk1, Hrk2.
  unfold mbind at 1. unfold UFm_bind at 1, get_rango at 1, getitem. rewrite Hk1.
  unfold mbind at 1. unfold UFm_bind at 1, get_rango at 1, getitem. rewrite Hk2.
  destruct (decide (k1 < k2)); [done|]. destruct (decide (k2 < k1)); done.
Qed.

Lemma rank_inv_encontrar s x : uf_inv s → rank_inv s → rank_inv (encontrar x s).1.
Proof.
  intros Hinv Hri. destruct (padre s !! x) as [p|] eqn:Hx.
  - destruct (encontrar_ok s x Hinv) as (s' & r & -> & [_ _ Hrg _ Hreps]); [by eexists|].
    simpl. by eapply rank_inv_ext.
  - by rewrite encontrar_unregistered.
Qed.

Lemma rank_inv_unir s x y : uf_inv s → rank_inv s → rank_inv (unir x y s).1.
Proof.
  intros Hinv Hri. destruct (padre s !! x) as [p|] eqn:Hx.
  2:{ unfold unir, mbind, UFm_bind. by rewrite encontrar_unregistered. }
  destruct (encontrar_ok s x Hinv) as (s1 & r1' & Hrun1 & [_ _ Hrg1 Hdom1 Hreps1]);
    [by eexists|].
  destruct (padre s1 !! y) as [q|] eqn:Hy.
  2:{ unfold unir. rewrite (UFm_bind_eq _ _ _ _ _ Hrun1).
      unfold mbind, UFm_bind. rewrite encontrar_unregistered by done. simpl.
      by eapply rank_inv_ext. }
  assert (registered s y) as Hy0.
  { apply (registered_dom s s1); [done|by eexists]. }
  destruct (unir_shape s x y Hinv) as (s2 & r1 & r2 & Hreps & Hrg & Hr1 & Hr2 & ->);
    [by eexists|done|].
  assert (Hri2 : rank_inv s2) by (by eapply rank_inv_ext).
  assert (Hrk : ∀ z, rank s2 z = rank s z) by (intros z; unfold rank; by rewrite Hrg).
  destruct (decide (r1 = r2)) as [|Hne]; [done|].
  destruct (decide (rank s r1 < rank s r2)); [|destruct (decide (rank s r2 < rank s r1))];
    simpl; apply rank_inv_link; try done.
  - rewrite !Hrk. fold (rank s2 r2). rewrite Hrk. lia.
  - rewrite !Hrk. fold (rank s2 r1). rewrite Hrk. lia.
  - intros z Hz. by rewrite lookup_insert_ne.
  - rewrite lookup_insert_eq, !Hrk. simpl.
    assert (rank s r1 = rank s r2) as -> by lia.
    rewrite Nat.add_1_r, Nat.pow_succ_r'. lia.
Qed.

Lemma uf_reachable_rank_inv elementos s :
  uf_reachable elementos s → rank_inv s.
Proof.
  induction 1 as [|s x Hs IH|s x y Hs IH].
  - intros r Hr. apply uf_init_lookup in Hr as [Hr _]. exists [r].
    split; [apply NoDup_singleton|]. split.
    + intros x ->%list_elem_of_singleton. by apply uf_init_rep.
    + unfold rank, uf_init. simpl.
      rewrite (lookup_const_map 0 elementos r), decide_True by done. simpl. lia.
  - apply rank_inv_encontrar; [|done]. by apply (uf_reachable_inv elementos).
  - apply rank_inv_unir; [|done]. by apply (uf_reachable_inv elementos).
Qed.

Lemma repn_rank s x r n : uf_inv s → repn s x r n → rank s x + n ≤ rank s r.
Proof.
  intros Hinv. induction 1 as [x Hx|x p r n Hx Hne H IH]; [lia|].
  pose proof (inv_rank _ Hinv _ _ Hx Hne). lia.
Qed.

(** X12 — union by rank keeps the trees shallow.  In every object
    reachable from [UnionFind(elementos)], a chain of [n] parent links
    from an element to its root exists only if the object holds at least
    [2 ^ n] elements: no chain is longer than the binary logarithm of the
    number of elements. *)
Theorem rank_logarithmic elementos s x r n :
  uf_reachable elementos s → repn s x r n → 2 ^ n ≤ size (padre s).
Proof.
  intros Hs Hr. destruct (uf_reachable_inv _ _ Hs) as [Hinv Hreg].
  pose proof (uf_reachable_rank_inv _ _ Hs) as Hri.
  assert (padre s !! r = Some r) as Hroot by (eapply rep_is_root; by exists n).
  destruct (Hri r Hroot) as (l & Hnd & Hl & Hlen).
  pose proof (repn_rank s x r n Hinv Hr) as Hn.
  assert (2 ^ n ≤ 2 ^ rank s r) by (apply Nat.pow_le_mono_r; lia).
  assert (length l ≤ size (padre s)); [|lia].
  apply NoDup_length_size; [done|]. intros y Hy.
  by eapply rep_registered, Hl.
Qed.

Lemma rank_logarithmic_witness :
  ∃ n, repn (unir "A" "B" (uf_init ["A"; "B"; "C"])).1 "B" "A" n
       ∧ 2 ^ n ≤ size (padre (unir "A" "B" (uf_init ["A"; "B"; "C"])).1).
Proof.
  assert (H : repn (unir "A" "B" (uf_init ["A"; "B"; "C"])).1 "B" "A" 1).
  { eapply repn_step; [by vm_compute|done|]. apply repn_root. by vm_compute. }
  exists 1. split; [exact H|].
  apply (rank_logarithmic ["A"; "B"; "C"] _ "B" "A" 1); [|exact H].
  apply uf_reachable_unir, uf_reachable_init.
Defined.

(** ** The Huffman tree and its table of codes *)

Lemma frecuencia_hojas n : arbol_ok n → frecuencia n = sum_list (hojas n).*2.
Proof.
  induction 1 as [c f|i d _ IHi _ IHd]; simpl; [lia|].
  rewrite fmap_app, sum_list_with_app. lia.
Qed.

Lemma hojas_not_nil n : arbol_ok n → hojas n ≠ [].
Proof.
  induction 1 as [c f|i d _ IHi _ IHd]; simpl; [done|].
  destruct (hojas i); [done|]. done.
Qed.

(** *** The frequency table *)

Lemma counter_add_keys c l x :
  x ∈ (counter_add c l).*1 ↔ x = c ∨ x ∈ l.*1.
Proof.
  induction l as [|[c' n] l IH]; simpl.
  - rewrite list_elem_of_singleton. split; [by left|]. intros [?|?%elem_of_nil]; done.
  - case_decide; simpl; rewrite !elem_of_cons; [naive_solver|].
    rewrite IH. naive_solver.
Qed.

Lemma counter_add_NoDup c l : NoDup l.*1 → NoDup (counter_add c l).*1.
Proof.
  induction l as [|[c' n] l IH]; simpl; intros Hnd.
  - apply NoDup_singleton.
  - apply NoDup_cons in Hnd as [Hc' Hnd]. case_decide; simpl.
    + by apply NoDup_cons.
    + apply NoDup_cons. split; [|by apply IH].
      rewrite counter_add_keys. intros [?|?]; done.
Qed.

Lemma counter_add_cuenta c l x :
  cuenta (counter_add c l) x = cuenta l x + (if decide (x = c) then 1 else 0).
Proof.
  induction l as [|[c' n] l IH]; simpl.
  - by case_decide.
  - repeat (case_decide; simpl; simplify_eq); lia.
Qed.

Lemma counter_add_sum c l :
  sum_list (counter_add c l).*2 = S (sum_list l.*2).
Proof.
  induction l as [|[c' n] l IH]; csimpl; [done|].
  case_decide; csimpl; [lia|]. rewrite IH. lia.
Qed.

Lemma cuenta_elem l c n : NoDup l.*1 → (c, n) ∈ l → cuenta l c = n.
Proof.
  induction l as [|[c' n'] l IH]; simpl; [by intros _ ?%elem_of_nil|].
  intros [Hc' Hnd]%NoDup_cons [Heq|Hin]%elem_of_cons.
  - simplify_eq. by rewrite decide_True.
  - rewrite decide_False; [by apply IH|]. intros ->. apply Hc'.
    apply list_elem_of_fmap. by exists (c', n).
Qed.

Lemma Counter_fold l :
  ∀ acc, NoDup acc.*1 →
    let r := foldl (λ acc c, counter_add c acc) acc l in
    NoDup r.*1
    ∧ (∀ x, x ∈ r.*1 ↔ x ∈ acc.*1 ∨ x ∈ l)
    ∧ (∀ x, cuenta r x = cuenta acc x + veces x l)
    ∧ sum_list r.*2 = sum_list acc.*2 + length l.
Proof.
  induction l as [|c l IH]; intros acc Hnd; simpl.
  { split; [done|]. split; [|split; [|lia]].
    - intros x. split; [by left|]. by intros [?|?%elem_of_nil].
    - intros x. unfold veces. simpl. lia. }
  destruct (IH (counter_add c acc)) as (H1 & H2 & H3 & H4);
    [by apply counter_add_NoDup|].
  split; [done|]. split; [|split].
  - intros x. rewrite H2, counter_add_keys, elem_of_cons. naive_solver.
  - intros x. rewrite H3, counter_add_cuenta. unfold veces.
    rewrite filter_cons. repeat case_decide; simplify_eq; simpl; lia.
  - rewrite H4, counter_add_sum. lia.
Qed.

Lemma Counter_spec texto :
  NoDup (Counter texto).*1
  ∧ (∀ x, x ∈ (Counter texto).*1 ↔ x ∈ String.list_ascii_of_string texto)
  ∧ (∀ x, cuenta (Counter texto) x = veces x (String.list_ascii_of_string texto))
  ∧ sum_list (Counter texto).*2 = String.length texto.
Proof.
  destruct (Counter_fold (String.list_ascii_of_string texto) []) as (H1 & H2 & H3 & H4);
    [constructor|].
  split; [done|]. split; [|split].
  - intros x. rewrite H2. split; [by intros [?%elem_of_nil|?]|by right].
  - intros x. by rewrite H3.
  - unfold Counter. rewrite H4. simpl. apply length_list_ascii_of_string.
Qed.

(** *** The loop keeps the leaves *)

Lemma push_all_perm {A} (f : A → NodoHuffman) (l : list A) :
  ∀ heap, foldl (λ heap x, Heapq.heappush nodo_lt heap (f x)) heap l
          ≡ₚ heap ++ (f <$> l).
Proof.
  induction l as [|x l IH]; intros heap; [simpl; by rewrite app_nil_r|].
  cbn [foldl]. rewrite IH, (heappush_perm nodo_lt heap (f x)), fmap_cons.
  apply Permutation_middle.
Qed.

Lemma huffman_loop_hojas fuel :
  ∀ heap, is_heap nodo_lt heap → 1 ≤ length heap ≤ fuel →
    Forall arbol_ok heap →
    ∃ raiz, huffman_loop fuel heap = Ok [raiz] ∧ arbol_ok raiz
            ∧ hojas raiz ≡ₚ concat (hojas <$> heap).
Proof.
  induction fuel as [|fuel IH]; intros heap Hh Hlen Hok; [lia|].
  cbn [huffman_loop]. case_decide as Hgt.
  - destruct (heappop_spec nodo_lt heap Hh) as (a & h1 & Hpop1 & Hperm1 & Hh1 & _).
    { intros ->. simpl in Hgt. lia. }
    rewrite Hpop1.
    assert (Hl1 : length heap = length h1 + 1) by (rewrite Hperm1; simpl; lia).
    destruct (heappop_spec nodo_lt h1 Hh1) as (b & h2 & Hpop2 & Hperm2 & Hh2 & _).
    { intros ->. simpl in Hl1. lia. }
    rewrite Hpop2.
    assert (Hl2 : length h1 = length h2 + 1) by (rewrite Hperm2; simpl; lia).
    rewrite Hperm1, Hperm2 in Hok.
    apply Forall_cons in Hok as [Ha Hok]. apply Forall_cons in Hok as [Hb Hok].
    destruct (IH (Heapq.heappush nodo_lt h2
                    (Nodo None (frecuencia a + frecuencia b) (Some a) (Some b))))
      as (raiz & Hrun & Hraiz & Hperm).
    + by apply (heappush_heap nodo_lt).
    + rewrite (heappush_perm nodo_lt). simpl. lia.
    + rewrite (heappush_perm nodo_lt). apply Forall_cons. split; [by constructor|done].
    + exists raiz. split; [done|]. split; [done|].
      rewrite Hperm, (heappush_perm nodo_lt), Hperm1, Hperm2. simpl.
      by rewrite app_assoc.
  - destruct heap as [|r [|r' heap]]; simpl in *; [lia| |lia]. exists r.
    apply Forall_cons in Hok as [Hr _]. split; [done|]. split; [done|].
    by rewrite app_nil_r.
Qed.

(** On a non-empty text [construir_arbol_huffman] returns a tree whose
    leaves are the entries of the frequency table. *)
Lemma construir_arbol_huffman_hojas texto :
  texto ≠ "" →
  ∃ raiz, construir_arbol_huffman texto = Ok (Some raiz)
          ∧ arbol_ok raiz ∧ hojas raiz ≡ₚ Counter texto.
Proof.
  intros Hne. unfold construir_arbol_huffman. rewrite decide_False by done.
  cbv zeta.
  change (foldl _ [] (Counter texto))
    with (foldl (λ heap x, Heapq.heappush nodo_lt heap (hoja_de x)) [] (Counter texto)).
  destruct (push_all_heap hoja_de (Counter texto) []) as [Hh Hlen]; [apply is_heap_nil|].
  pose proof (push_all_perm hoja_de (Counter texto) []) as Hp. simpl in Hp, Hlen.
  set (heap := foldl _ [] (Counter texto)) in *.
  destruct (huffman_loop_hojas (length heap) heap) as (raiz & Hrun & Hok & Hperm);
    [done| |..].
  { rewrite Hlen. simpl. pose proof (Counter_not_nil texto Hne).
    destruct (Counter texto); [done|simpl; lia]. }
  { rewrite Hp. apply Forall_fmap, Forall_forall. intros [c f] _. constructor. }
  rewrite Hrun. exists raiz. split; [done|]. split; [done|].
  rewrite Hperm, Hp. clear. induction (Counter texto) as [|[c f] l IH]; [done|].
  simpl. by rewrite IH.
Qed.

(** *** The table of codes *)

Lemma generar_codigos_nodo_dom n :
  arbol_ok n →
  ∀ pre acc c, is_Some (generar_codigos_nodo n pre acc !! c)
               ↔ is_Some (acc !! c) ∨ c ∈ (hojas n).*1.
Proof.
  induction 1 as [c' f|i d _ IHi _ IHd]; intros pre acc c.
  - cbn [generar_codigos_nodo hojas]. rewrite lookup_insert_is_Some'.
    rewrite fmap_cons, list_elem_of_singleton. simpl. naive_solver.
  - cbn [generar_codigos_nodo hojas]. rewrite IHd, IHi, fmap_app, elem_of_app.
    naive_solver.
Qed.

Lemma list_ascii_of_string_app a b :
  String.list_ascii_of_string (a +:+ b)
  = String.list_ascii_of_string a ++ String.list_ascii_of_string b.
Proof.
  induction a as [|x a IH]; [done|].
  change (x :: String.list_ascii_of_string (a +:+ b)
          = x :: (String.list_ascii_of_string a ++ String.list_ascii_of_string b)).
  by rewrite IH.
Qed.

Lemma binario_app a b : binario a → binario b → binario (a +:+ b).
Proof.
  intros Ha Hb x. rewrite list_ascii_of_string_app, elem_of_app.
  intros [?|?]; [by apply Ha|by apply Hb].
Qed.

Lemma leaf_code_binario n pre c w :
  leaf_code n pre c w → binario pre → binario w ∧ w ≠ "".
Proof.
  induction 1 as [c f i d pre|f i d pre c w _ IH|f i d pre c w _ IH]; intros Hpre.
  - case_decide; [|done]. split; [|done].
    intros b ->%list_elem_of_singleton. by left.
  - apply IH, binario_app; [done|]. intros b ->%list_elem_of_singleton. by left.
  - apply IH, binario_app; [done|]. intros b ->%list_elem_of_singleton. by right.
Qed.

(** X15 — the table has a code for every symbol of the text and for no
    other.  For a non-empty text, the keys of the table that
    [generar_codigos] derives from the tree of [construir_arbol_huffman]
    are exactly the characters that occur in the text. *)
Theorem huffman_table_keys texto :
  texto ≠ "" →
  ∃ raiz, construir_arbol_huffman texto = Ok (Some raiz)
    ∧ ∀ c, is_Some (generar_codigos (Some raiz) !! c)
           ↔ c ∈ String.list_ascii_of_string texto.
Proof.
  intros Hne.
  destruct (construir_arbol_huffman_hojas texto Hne) as (raiz & Hrun & Hok & Hperm).
  exists raiz. split; [done|]. intros c. cbn [generar_codigos].
  rewrite (generar_codigos_nodo_dom raiz Hok), lookup_empty, Hperm.
  destruct (Counter_spec texto) as (_ & Hkeys & _). rewrite Hkeys.
  split; [|by right]. by intros [[? ?]|?].
Qed.

Lemma huffman_table_keys_witness :
  ∃ raiz, construir_arbol_huffman "abracadabra" = Ok (Some raiz)
    ∧ ∀ c, is_Some (generar_codigos (Some raiz) !! c)
           ↔ c ∈ String.list_ascii_of_string "abracadabra".
Proof. apply huffman_table_keys. discriminate. Defined.

(** X16 — the tree holds the frequencies of the text.  For a non-empty
    text the tree of [construir_arbol_huffman] has one leaf per character
    that occurs in the text, holding its number of occurrences; every
    inner node has two children and holds the sum of their frequencies;
    the root holds the length of the text. *)
Theorem huffman_frequencies texto :
  texto ≠ "" →
  ∃ raiz, construir_arbol_huffman texto = Ok (Some raiz)
    ∧ arbol_ok raiz
    ∧ frecuencia raiz = String.length texto
    ∧ NoDup (hojas raiz).*1
    ∧ ∀ c n, (c, n) ∈ hojas raiz ↔
             c ∈ String.list_ascii_of_string texto
             ∧ n = veces c (String.list_ascii_of_string texto).
Proof.
  intros Hne.
  destruct (construir_arbol_huffman_hojas texto Hne) as (raiz & Hrun & Hok & Hperm).
  destruct (Counter_spec texto) as (Hnd & Hkeys & Hcount & Hsum).
  exists raiz. split; [done|]. split; [done|]. split; [|split].
  - by rewrite (frecuencia_hojas raiz Hok), Hperm.
  - by rewrite Hperm.
  - intros c n. rewrite Hperm. split.
    + intros Hin. split.
      * apply Hkeys, list_elem_of_fmap. by exists (c, n).
      * rewrite <-Hcount. symmetry. by apply cuenta_elem.
    + intros [Hc ->]. apply Hkeys, list_elem_of_fmap in Hc as ([c' n] & -> & Hin).
      simpl. rewrite <-Hcount. by rewrite (cuenta_elem _ _ _ Hnd Hin).
Qed.

Lemma huffman_frequencies_witness :
  ∃ raiz, construir_arbol_huffman "abracadabra" = Ok (Some raiz)
    ∧ frecuencia raiz = 11.
Proof.
  destruct (huffman_frequencies "abracadabra") as (raiz & Hrun & _ & Hf & _).
  - discriminate.
  - exists raiz. split; [exact Hrun|exact Hf].
Defined.

(** X17 — the codes are binary words.  For a non-empty text every code
    of the table is a non-empty string made of the characters 0 and 1. *)
Theorem huffman_codes_binary texto :
  texto ≠ "" →
  ∃ raiz, construir_arbol_huffman texto = Ok (Some raiz)
    ∧ ∀ c w, generar_codigos (Some raiz) !! c = Some w →
             w ≠ "" ∧ binario w.
Proof.
  intros Hne. destruct (construir_arbol_huffman_ok texto Hne) as [raiz Hrun].
  exists raiz. split; [done|]. intros c w Hw. cbn [generar_codigos] in Hw.
  apply generar_codigos_nodo_lookup in Hw as [Hw|Hw]; [by rewrite lookup_empty in Hw|].
  destruct (leaf_code_binario raiz "" c w Hw) as [? ?]; [|done].
  by intros b ?%elem_of_nil.
Qed.

Lemma huffman_codes_binary_witness :
  ∃ raiz, construir_arbol_huffman "abracadabra" = Ok (Some raiz)
    ∧ ∀ c w, generar_codigos (Some raiz) !! c = Some w →
             w ≠ "" ∧ binario w.
Proof. apply huffman_codes_binary. discriminate. Defined.

(** ** The Huffman tree is optimal *)

#[global] Instance valid_depths_proper : Proper ((≡ₚ) ==> iff) valid_depths.
Proof. intros l l' H. split; apply valid_perm; [done|by symmetry]. Qed.

(** *** Lists of depths *)

Lemma valid_join l1 l2 :
  valid_depths l1 → valid_depths l2 → valid_depths ((S <$> l1) ++ (S <$> l2)).
Proof.
  intros H1 H2. revert l1 H1.
  induction H2 as [|d l _ IH|l l' Hp _ IH]; intros l1 H1.
  - induction H1 as [|d l _ IH|l l' Hp _ IH].
    + simpl. apply valid_split. constructor.
    + rewrite !fmap_cons. simpl. apply valid_split. by rewrite fmap_cons in IH.
    + by rewrite <-Hp.
  - rewrite !fmap_cons.
    assert ((S <$> l1) ++ S (S d) :: S (S d) :: (S <$> l)
            ≡ₚ S (S d) :: S (S d) :: ((S <$> l1) ++ (S <$> l))) as ->.
    { by rewrite <-!Permutation_middle. }
    apply valid_split. specialize (IH l1 H1). rewrite fmap_cons in IH.
    by rewrite <-Permutation_middle in IH.
  - rewrite <-Hp. by apply IH.
Qed.

(** The deepest level of a valid list with two depths or more holds two
    leaves, which can be joined back. *)
Lemma valid_max l :
  valid_depths l → 2 ≤ length l →
  ∃ h l0, l ≡ₚ S h :: S h :: l0 ∧ valid_depths (h :: l0)
          ∧ Forall (λ d, d ≤ S h) l.
Proof.
  induction 1 as [|d l Hv IH|l l' Hp _ IH]; intros Hlen.
  - simpl in Hlen. lia.
  - destruct l as [|e l].
    { exists d, []. split; [done|]. split; [done|]. by repeat constructor. }
    destruct IH as (h & l0 & Hp & Hv0 & Hall); [simpl; lia|].
    destruct (decide (h ≤ d)) as [Hhd|Hhd].
    + exists d, (e :: l). split; [done|]. split; [done|].
      apply Forall_cons in Hall as [_ Hall].
      repeat (apply Forall_cons; split; [lia|]).
      eapply Forall_impl; [exact Hall|]. intros x ?. simpl in *. lia.
    + assert (d ∈ l0) as Hd.
      { assert (d ∈ S h :: S h :: l0) as Hin by (rewrite <-Hp; by left).
        apply elem_of_cons in Hin as [?|Hin]; [lia|].
        apply elem_of_cons in Hin as [?|Hin]; [lia|done]. }
      apply elem_of_Permutation in Hd as [l1 Hl1].
      assert (e :: l ≡ₚ S h :: S h :: l1) as Hel.
      { apply (Permutation_cons_inv (a:=d)). rewrite Hp, Hl1. symmetry.
        apply (Permutation_middle [S h; S h] l1 d). }
      exists h, (S d :: S d :: l1). split; [|split].
      * rewrite Hel. apply (Permutation_app_swap_app [S d; S d] [S h; S h] l1).
      * rewrite Hl1 in Hv0.
        rewrite (Permutation_middle [S d; S d] l1 h). simpl.
        apply valid_split. by rewrite (Permutation_swap h d).
      * apply Forall_cons in Hall as [_ Hall].
        repeat (apply Forall_cons; split; [lia|]). done.
  - destruct IH as (h & l0 & Hp' & Hv0 & Hall); [by rewrite Hp|].
    exists h, l0. split; [by rewrite <-Hp|]. split; [done|]. by rewrite <-Hp.
Qed.

(** *** Joining the two lightest items *)

Lemma fmap_perm_cons {A B} (f : A → B) (l : list A) x k :
  f <$> l ≡ₚ x :: k → ∃ y l', l ≡ₚ y :: l' ∧ f y = x ∧ f <$> l' ≡ₚ k.
Proof.
  intros Hp. assert (x ∈ f <$> l) as Hx by (rewrite Hp; by left).
  apply list_elem_of_fmap in Hx as (y & -> & Hy).
  apply elem_of_Permutation in Hy as [l' Hl']. exists y, l'.
  split; [done|]. split; [done|].
  rewrite Hl', fmap_cons in Hp. by apply (inj (cons (f y))) in Hp.
Qed.

Lemma wsum_cons {A} (w : A → nat) x d asg :
  wsum w ((x, d) :: asg) = w x * d + wsum w asg.
Proof. done. Qed.

#[global] Instance wsum_proper {A} (w : A → nat) : Proper ((≡ₚ) ==> (=)) (wsum w).
Proof. intros l l' H. unfold wsum. by rewrite H. Qed.

(** Among the placements of items at the leaves of a tree, one that puts
    two lightest items [a] and [b] side by side at the deepest level
    costs no more; joining the two into one item, one level up, leaves a
    placement of the other items and the joined one. *)
Lemma merge_step {A} (w : A → nat) a b rest (asg : list (A * nat)) :
  asg.*1 ≡ₚ a :: b :: rest → valid_depths asg.*2 →
  (∀ x, x ∈ rest → w a ≤ w x ∧ w b ≤ w x) →
  ∃ asg' d, asg'.*1 ≡ₚ rest ∧ valid_depths (d :: asg'.*2)
    ∧ (w a + w b) * S d + wsum w asg' ≤ wsum w asg.
Proof.
  intros Hp Hv Hmin.
  apply fmap_perm_cons in Hp as ([a' da] & l1 & Hl & Ha & Hp). simpl in Ha. subst a'.
  apply fmap_perm_cons in Hp as ([b' db] & R & Hl1 & Hb & HR). simpl in Hb. subst b'.
  assert (Hasg : asg ≡ₚ (a, da) :: (b, db) :: R) by (by rewrite Hl, Hl1).
  assert (wsum w asg = wsum w ((a, da) :: (b, db) :: R)) as -> by (by rewrite Hasg).
  rewrite Hasg in Hv. rewrite !fmap_cons in Hv. simpl in Hv.
  destruct (valid_max _ Hv) as (h & l0 & Hd & Hv0 & Hall); [simpl; lia|].
  apply Forall_cons in Hall as [Hda Hall]. apply Forall_cons in Hall as [Hdb Hall].
  assert (Hw : ∀ x, x ∈ R.*1 → w a ≤ w x ∧ w b ≤ w x).
  { intros x Hx. apply Hmin. by rewrite <-HR. }
  assert (Hget : ∀ (l : list (A * nat)), S h ∈ l.*2 →
            ∃ x l', l ≡ₚ (x, S h) :: l').
  { intros l Hin. apply list_elem_of_fmap in Hin as ([x e] & He & Hin).
    simpl in He. subst e. apply elem_of_Permutation in Hin as [l' ?]. by exists x, l'. }
  rewrite !wsum_cons.
  destruct (decide (da = S h)) as [->|Hna]; [|destruct (decide (db = S h)) as [->|Hnb]].
  - apply (inj (cons (S h))) in Hd.
    destruct (decide (db = S h)) as [->|Hnb].
    + apply (inj (cons (S h))) in Hd. exists R, h.
      split; [done|]. split; [by rewrite Hd|]. lia.
    + assert (S h ∈ R.*2) as Hin.
      { assert (S h ∈ db :: R.*2) as Hin by (rewrite Hd; by left).
        by apply elem_of_cons in Hin as [?|?]. }
      destruct (Hget R Hin) as (x & R' & HR').
      rewrite HR' in Hd. rewrite fmap_cons in Hd. simpl in Hd.
      rewrite (Permutation_swap (S h) db) in Hd. apply (inj (cons (S h))) in Hd.
      exists ((x, db) :: R'), h. split; [|split].
      * rewrite <-HR, HR'. done.
      * rewrite fmap_cons. simpl. by rewrite Hd.
      * rewrite HR', !wsum_cons. destruct (Hw x) as [_ ?]; [rewrite HR'; by left|].
        nia.
  - rewrite (Permutation_swap (S h) da) in Hd. apply (inj (cons (S h))) in Hd.
    assert (S h ∈ R.*2) as Hin.
    { assert (S h ∈ da :: R.*2) as Hin by (rewrite Hd; by left).
      by apply elem_of_cons in Hin as [?|?]. }
    destruct (Hget R Hin) as (x & R' & HR').
    rewrite HR' in Hd. rewrite fmap_cons in Hd. simpl in Hd.
    rewrite (Permutation_swap (S h) da) in Hd. apply (inj (cons (S h))) in Hd.
    exists ((x, da) :: R'), h. split; [|split].
    + rewrite <-HR, HR'. done.
    + rewrite fmap_cons. simpl. by rewrite Hd.
    + rewrite HR', !wsum_cons. destruct (Hw x) as [? _]; [rewrite HR'; by left|].
      nia.
  - assert (S h ∈ R.*2) as Hin.
    { assert (S h ∈ da :: db :: R.*2) as Hin by (rewrite Hd; by left).
      apply elem_of_cons in Hin as [?|Hin]; [done|].
      by apply elem_of_cons in Hin as [?|?]. }
    destruct (Hget R Hin) as (x & R1 & HR1).
    rewrite HR1 in Hd. rewrite fmap_cons in Hd. simpl in Hd.
    assert (da :: db :: R1.*2 ≡ₚ S h :: l0) as Hd1.
    { apply (inj (cons (S h))). rewrite <-Hd.
      apply (Permutation_middle [da; db] (R1.*2) (S h)). }
    assert (S h ∈ R1.*2) as Hin1.
    { assert (S h ∈ da :: db :: R1.*2) as Hin1 by (rewrite Hd1; by left).
      apply elem_of_cons in Hin1 as [?|Hin1]; [done|].
      by apply elem_of_cons in Hin1 as [?|?]. }
    destruct (Hget R1 Hin1) as (y & R2 & HR2).
    rewrite HR2 in Hd1. rewrite fmap_cons in Hd1. simpl in Hd1.
    assert (da :: db :: R2.*2 ≡ₚ l0) as Hd2.
    { apply (inj (cons (S h))). rewrite <-Hd1.
      apply (Permutation_middle [da; db] (R2.*2) (S h)). }
    exists ((x, da) :: (y, db) :: R2), h. split; [|split].
    + rewrite <-HR, HR1, fmap_cons, HR2. done.
    + rewrite !fmap_cons. simpl. by rewrite Hd2.
    + rewrite HR1, wsum_cons, HR2, !wsum_cons.
      destruct (Hw x) as [? _]; [rewrite HR1; by left|].
      destruct (Hw y) as [_ ?]; [rewrite HR1, fmap_cons, HR2; by right; left|].
      nia.
Qed.

(** *** Trees and their depths *)

Lemma profundidades_hojas n : arbol_ok n → ∀ k, (profundidades n k).*1 = hojas n.
Proof.
  induction 1 as [c f|i d _ IHi _ IHd]; intros k; [done|].
  cbn [profundidades hojas]. by rewrite fmap_app, IHi, IHd.
Qed.

Lemma profundidades_S n :
  arbol_ok n → ∀ k, (profundidades n (S k)).*2 = S <$> (profundidades n k).*2.
Proof.
  induction 1 as [c f|i d _ IHi _ IHd]; intros k; [done|].
  cbn [profundidades]. by rewrite !fmap_app, IHi, IHd.
Qed.

Lemma profundidades_valid n : arbol_ok n → valid_depths (profundidades n 0).*2.
Proof.
  induction 1 as [c f|i d Hi IHi Hd IHd]; [constructor|].
  cbn [profundidades]. rewrite fmap_app, !profundidades_S by done.
  by apply valid_join.
Qed.

Lemma costo_S n :
  arbol_ok n →
  ∀ k, sum_list_with (λ p, p.1.2 * p.2) (profundidades n (S k))
       = sum_list_with (λ p, p.1.2 * p.2) (profundidades n k) + frecuencia n.
Proof.
  induction 1 as [c f|i d _ IHi _ IHd]; intros k.
  - simpl. lia.
  - cbn [profundidades frecuencia]. rewrite !sum_list_with_app, IHi, IHd. lia.
Qed.

Lemma costo_interno i d :
  arbol_ok i → arbol_ok d →
  costo (Nodo None (frecuencia i + frecuencia d) (Some i) (Some d))
  = costo i + frecuencia i + costo d + frecuencia d.
Proof.
  intros Hi Hd. unfold costo. cbn [profundidades].
  rewrite sum_list_with_app, !costo_S by done. lia.
Qed.

(** *** The loop and any other tree *)

Lemma huffman_loop_opt fuel :
  ∀ heap asg,
    is_heap nodo_lt heap → 1 ≤ length heap ≤ fuel → Forall arbol_ok heap →
    asg.*1 ≡ₚ heap → valid_depths asg.*2 →
    ∃ raiz, huffman_loop fuel heap = Ok [raiz]
            ∧ costo raiz ≤ sum_list_with costo heap + wsum frecuencia asg.
Proof.
  induction fuel as [|fuel IH]; intros heap asg Hh Hlen Hok Hasg Hv; [lia|].
  cbn [huffman_loop]. case_decide as Hgt.
  - destruct (heappop_spec nodo_lt heap Hh) as (a & h1 & Hpop1 & Hperm1 & Hh1 & Hmin1).
    { intros ->. simpl in Hgt. lia. }
    rewrite Hpop1.
    assert (Hl1 : length heap = length h1 + 1) by (rewrite Hperm1; simpl; lia).
    destruct (heappop_spec nodo_lt h1 Hh1) as (b & h2 & Hpop2 & Hperm2 & Hh2 & Hmin2).
    { intros ->. simpl in Hl1. lia. }
    rewrite Hpop2.
    assert (Hl2 : length h1 = length h2 + 1) by (rewrite Hperm2; simpl; lia).
    assert (Hheap : heap ≡ₚ a :: b :: h2) by (by rewrite Hperm1, Hperm2).
    rewrite Hheap in Hok.
    apply Forall_cons in Hok as [Ha Hok]. apply Forall_cons in Hok as [Hb Hok].
    destruct (merge_step frecuencia a b h2 asg) as (asg' & d & Hasg' & Hv' & Hcost);
      [by rewrite Hasg|done| |].
    { intros x Hx. split.
      - assert (x ∈ heap) as Hin by (rewrite Hheap; by do 2 right).
        specialize (Hmin1 x Hin). unfold nodo_lt in Hmin1.
        by apply Nat.ltb_ge in Hmin1.
      - assert (x ∈ h1) as Hin by (rewrite Hperm2; by right).
        specialize (Hmin2 x Hin). unfold nodo_lt in Hmin2.
        by apply Nat.ltb_ge in Hmin2. }
    set (m := Nodo None (frecuencia a + frecuencia b) (Some a) (Some b)).
    destruct (IH (Heapq.heappush nodo_lt h2 m) ((m, d) :: asg'))
      as (raiz & Hrun & Hle).
    + by apply (heappush_heap nodo_lt).
    + rewrite (heappush_perm nodo_lt). simpl. lia.
    + rewrite (heappush_perm nodo_lt). apply Forall_cons. split; [by constructor|done].
    + rewrite (heappush_perm nodo_lt), fmap_cons, Hasg'. done.
    + by rewrite fmap_cons.
    + exists raiz. split; [done|].
      rewrite (heappush_perm nodo_lt), wsum_cons in Hle. cbn [sum_list_with] in Hle.
      unfold m in Hle at 1. rewrite (costo_interno a b Ha Hb) in Hle.
      rewrite Hheap. cbn [sum_list_with]. unfold m in Hle. cbn [frecuencia] in Hle.
      nia.
  - destruct heap as [|r [|r' heap]]; simpl in *; [lia| |lia]. exists r.
    split; [done|]. lia.
Qed.

(** X18 — the Huffman tree is optimal.  For a non-empty text, the tree
    of [construir_arbol_huffman] has the least weighted path length (the
    sum over the leaves of frequency times depth) among all the binary
    trees, with two children at every inner node, whose leaves hold the
    characters of the text with their numbers of occurrences. *)
Theorem huffman_optimal texto :
  texto ≠ "" →
  ∃ raiz, construir_arbol_huffman texto = Ok (Some raiz)
    ∧ arbol_ok raiz ∧ hojas raiz ≡ₚ Counter texto
    ∧ ∀ t, arbol_ok t → hojas t ≡ₚ Counter texto → costo raiz ≤ costo t.
Proof.
  intros Hne.
  destruct (construir_arbol_huffman_hojas texto Hne) as (raiz & Hrun & Hok & Hperm).
  exists raiz. split; [done|]. split; [done|]. split; [done|].
  intros t Ht Hpt. unfold construir_arbol_huffman in Hrun.
  rewrite decide_False in Hrun by done. cbv zeta in Hrun.
  change (foldl _ [] (Counter texto))
    with (foldl (λ heap x, Heapq.heappush nodo_lt heap (hoja_de x)) [] (Counter texto))
    in Hrun.
  destruct (push_all_heap hoja_de (Counter texto) []) as [Hh Hlen]; [apply is_heap_nil|].
  pose proof (push_all_perm hoja_de (Counter texto) []) as Hp. simpl in Hp, Hlen.
  set (heap := foldl _ [] (Counter texto)) in *.
  destruct (huffman_loop_opt (length heap) heap
              ((λ p, (hoja_de p.1, p.2)) <$> profundidades t 0))
    as (raiz' & Hrun' & Hle); [done| | | | |].
  { rewrite Hlen. pose proof (Counter_not_nil texto Hne).
    destruct (Counter texto); [done|simpl; lia]. }
  { rewrite Hp. apply Forall_fmap, Forall_forall. intros [c f] _. constructor. }
  { rewrite <-list_fmap_compose, Hp, <-Hpt, <-(profundidades_hojas t Ht 0).
    by rewrite <-list_fmap_compose. }
  { rewrite <-list_fmap_compose. exact (profundidades_valid t Ht). }
  rewrite Hrun' in Hrun. cbn [mbind result_mbind result_bind] in Hrun.
  assert (raiz' = raiz) as -> by congruence.
  assert (sum_list_with costo heap = 0) as Hz.
  { rewrite Hp. clear. induction (Counter texto) as [|[c f] l IH]; [done|].
    rewrite fmap_cons. cbn [sum_list_with]. rewrite IH. unfold costo. simpl. lia. }
  assert (wsum frecuencia ((λ p, (hoja_de p.1, p.2)) <$> profundidades t 0) = costo t)
    as Hw.
  { unfold wsum, costo. clear. induction (profundidades t 0) as [|[[c f] d] l IH]; [done|].
    rewrite fmap_cons. cbn [sum_list_with]. by rewrite IH. }
  lia.
Qed.

Lemma huffman_optimal_witness :
  ∃ raiz, construir_arbol_huffman "abracadabra" = Ok (Some raiz)
    ∧ arbol_ok raiz ∧ hojas raiz ≡ₚ Counter "abracadabra"
    ∧ ∀ t, arbol_ok t → hojas t ≡ₚ Counter "abracadabra" → costo raiz ≤ costo t.
Proof. apply huffman_optimal. discriminate. Defined.

(** *** The length of a code is the depth of its leaf *)

Lemma str_length_app (a b : string) :
  String.length (a +:+ b) = String.length a + String.length b.
Proof.
  induction a as [|x a IH]; [done|].
  change (S (String.length (a +:+ b)) = S (String.length a) + String.length b).
  by rewrite IH.
Qed.

Lemma leaf_code_hoja n pre c w : leaf_code n pre c w → c ∈ (hojas n).*1.
Proof.
  induction 1 as [c f i d pre|f i d pre c w _ IH|f i d pre c w _ IH];
    cbn [hojas].
  - by left.
  - rewrite fmap_app, elem_of_app. by left.
  - rewrite fmap_app, elem_of_app. by right.
Qed.

Lemma generar_codigos_nodo_other n :
  arbol_ok n →
  ∀ pre acc c, c ∉ (hojas n).*1 → generar_codigos_nodo n pre acc !! c = acc !! c.
Proof.
  induction 1 as [c' f|i d _ IHi _ IHd]; intros pre acc c Hc.
  - cbn [generar_codigos_nodo]. rewrite lookup_insert_ne; [done|].
    intros ->. apply Hc. by left.
  - cbn [generar_codigos_nodo hojas] in *. rewrite fmap_app, elem_of_app in Hc.
    rewrite IHd, IHi; [done|..]; intros ?; apply Hc; auto.
Qed.

Lemma leaf_code_lookup n :
  arbol_ok n → NoDup (hojas n).*1 →
  ∀ pre acc c w, leaf_code n pre c w →
                 generar_codigos_nodo n pre acc !! c = Some w.
Proof.
  induction 1 as [c' f|i d Hi IHi Hd IHd]; intros Hnd pre acc c w Hlc.
  - inversion Hlc; subst. cbn [generar_codigos_nodo]. by rewrite lookup_insert_eq.
  - cbn [hojas] in Hnd. rewrite fmap_app in Hnd.
    apply NoDup_app in Hnd as (Hndi & Hdis & Hndd).
    cbn [generar_codigos_nodo]. inversion Hlc as [|? ? ? ? ? ? Hl|? ? ? ? ? ? Hl]; subst.
    + rewrite generar_codigos_nodo_other; [by apply IHi|done|].
      apply Hdis. by eapply leaf_code_hoja.
    + by apply IHd.
Qed.

Lemma profundidades_ge n :
  arbol_ok n → ∀ k c f d, (c, f, d) ∈ profundidades n k → k ≤ d.
Proof.
  induction 1 as [c' f'|i d' _ IHi _ IHd]; intros k c f d Hin.
  - apply list_elem_of_singleton in Hin. injection Hin as -> -> ->. done.
  - cbn [profundidades] in Hin. apply elem_of_app in Hin as [Hin|Hin].
    + apply IHi in Hin. lia.
    + apply IHd in Hin. lia.
Qed.

Lemma profundidades_leaf_code n :
  arbol_ok n →
  ∀ pre k c f d, pre ≠ "" → (c, f, d) ∈ profundidades n k →
    ∃ w, leaf_code n pre c w
         ∧ String.length w + k = String.length pre + d.
Proof.
  induction 1 as [c' f'|i d' _ IHi _ IHd]; intros pre k c f d Hpre Hin.
  - apply list_elem_of_singleton in Hin. injection Hin as -> -> ->. exists pre.
    split; [|lia].
    pose proof (leaf_code_leaf c' f' None None pre) as H.
    by rewrite decide_False in H.
  - cbn [profundidades] in Hin. apply elem_of_app in Hin as [Hin|Hin].
    + destruct (IHi (pre +:+ "0") (S k) c f d) as (w & Hw & Hlen);
        [by apply str_app_not_nil|done|].
      exists w. split; [by constructor|]. rewrite str_length_app in Hlen.
      simpl in Hlen. lia.
    + destruct (IHd (pre +:+ "1") (S k) c f d) as (w & Hw & Hlen);
        [by apply str_app_not_nil|done|].
      exists w. split; [by constructor|]. rewrite str_length_app in Hlen.
      simpl in Hlen. lia.
Qed.

(** X19 — the length of a code is the depth of its leaf.  For a
    non-empty text, [generar_codigos] gives the character of every leaf
    of the tree of [construir_arbol_huffman] a code whose length is the
    depth of the leaf, and length 1 when the tree is a single leaf, whose
    depth is 0. *)
Theorem huffman_code_lengths texto :
  texto ≠ "" →
  ∃ raiz, construir_arbol_huffman texto = Ok (Some raiz)
    ∧ ∀ c f d, (c, f, d) ∈ profundidades raiz 0 →
        ∃ w, generar_codigos (Some raiz) !! c = Some w
             ∧ String.length w = d `max` 1.
Proof.
  intros Hne.
  destruct (construir_arbol_huffman_hojas texto Hne) as (raiz & Hrun & Hok & Hperm).
  exists raiz. split; [done|]. intros c f d Hin.
  assert (Hnd : NoDup (hojas raiz).*1).
  { rewrite Hperm. apply Counter_spec. }
  cbn [generar_codigos]. destruct Hok as [c' f'|i d' Hi Hd].
  - apply list_elem_of_singleton in Hin. injection Hin as -> -> ->.
    exists "0". split; [|done]. cbn [generar_codigos_nodo].
    by rewrite lookup_insert_eq.
  - assert (Hok : arbol_ok (Nodo None (frecuencia i + frecuencia d') (Some i) (Some d')))
      by (by constructor).
    cbn [profundidades] in Hin. apply elem_of_app in Hin as [Hin|Hin].
    + destruct (profundidades_leaf_code i Hi "0" 1 c f d) as (w & Hw & Hlen);
        [done|done|].
      pose proof (profundidades_ge i Hi 1 c f d Hin).
      exists w. split; [|simpl in Hlen; lia].
      apply (leaf_code_lookup _ Hok Hnd). by apply leaf_code_left.
    + destruct (profundidades_leaf_code d' Hd "1" 1 c f d) as (w & Hw & Hlen);
        [done|done|].
      pose proof (profundidades_ge d' Hd 1 c f d Hin).
      exists w. split; [|simpl in Hlen; lia].
      apply (leaf_code_lookup _ Hok Hnd). by apply leaf_code_right.
Qed.

Lemma huffman_code_lengths_witness :
  ∃ raiz, construir_arbol_huffman "abracadabra" = Ok (Some raiz)
    ∧ ∀ c f d, (c, f, d) ∈ profundidades raiz 0 →
        ∃ w, generar_codigos (Some raiz) !! c = Some w
             ∧ String.length w = d `max` 1.
Proof. apply huffman_code_lengths. discriminate. Defined.

(** ** Floats: the integers below 2^53 are added and compared exactly *)

Section flotantes.
#[local] Open Scope Z_scope.

Lemma digits2_size p : digits2_pos p = Pos.size p.
Proof. induction p; simpl; congruence. Qed.

Lemma shiftl_succ p k : Pos.shiftl p (N.succ k) = xO (Pos.shiftl p k).
Proof.
  destruct k as [|k]; simpl; [reflexivity|]. apply Pos.iter_succ.
Qed.

Lemma shiftl_Z p k : Zpos (Pos.shiftl p k) = Zpos p * 2 ^ Z.of_N k.
Proof.
  induction k as [|k IH] using N.peano_ind.
  - change (Z.of_N 0) with 0. rewrite Z.pow_0_r. change (Pos.shiftl p 0) with p. lia.
  - rewrite shiftl_succ, N2Z.inj_succ, Z.pow_succ_r by lia.
    rewrite Pos2Z.inj_xO, IH. lia.
Qed.

Lemma size_shiftl p k :
  Zpos (Pos.size (Pos.shiftl p k)) = Zpos (Pos.size p) + Z.of_N k.
Proof.
  induction k as [|k IH] using N.peano_ind.
  - change (Pos.shiftl p 0) with p. change (Z.of_N 0) with 0. lia.
  - rewrite shiftl_succ, N2Z.inj_succ. simpl Pos.size.
    rewrite Pos2Z.inj_succ, IH. lia.
Qed.

Lemma shiftl_shiftl p a b :
  Pos.shiftl (Pos.shiftl p a) b = Pos.shiftl p (a + b).
Proof.
  apply Pos2Z.inj. rewrite !shiftl_Z, N2Z.inj_add, Z.pow_add_r by lia. lia.
Qed.

Lemma size_bounds p :
  2 ^ (Zpos (Pos.size p) - 1) <= Zpos p < 2 ^ Zpos (Pos.size p).
Proof.
  split.
  - pose proof (Pos.size_le p) as H.
    apply Pos2Z.pos_le_pos in H. rewrite Pos2Z.inj_pow in H.
    replace (Zpos (Pos.size p)) with (Z.succ (Zpos (Pos.size p) - 1)) in H by lia.
    rewrite Z.pow_succ_r in H by lia. lia.
  - pose proof (Pos.size_gt p) as H.
    apply Pos2Z.pos_lt_pos in H. by rewrite Pos2Z.inj_pow in H.
Qed.

Lemma size_le_53 p : Zpos p < 2 ^ 53 -> Zpos (Pos.size p) <= 53.
Proof.
  intros H. pose proof (size_bounds p) as [H1 _].
  destruct (Z_le_gt_dec (Zpos (Pos.size p)) 53) as [|Hgt]; [assumption|].
  assert (2 ^ 53 <= 2 ^ (Zpos (Pos.size p) - 1)) by (apply Z.pow_le_mono_r; lia).
  lia.
Qed.

Lemma iter_shr_1 n m :
  iter_pos shr_1 n (Build_shr_record (Zpos (Pos.iter xO m n)) false false)
  = Build_shr_record (Zpos m) false false.
Proof.
  revert m. induction n as [n IH|n IH|]; intros m; simpl.
  - rewrite IH, IH. reflexivity.
  - rewrite IH, IH. reflexivity.
  - reflexivity.
Qed.

Lemma fexp_small d : 1 <= d <= 53 -> fexp 53 1024 d = d - 53.
Proof. unfold fexp, emin. lia. Qed.

(** Rounding a number that needs no rounding. *)
Lemma binary_round_shift s c k :
  Zpos (Pos.size c) <= 53 ->
  binary_round 53 1024 s (Pos.shiftl c k) (- Z.of_N k) = canon s c.
Proof.
  intros Hc. unfold binary_round, canon.
  set (d := Zpos (Pos.size c)) in *.
  assert (Hd : 1 <= d <= 53) by (unfold d; lia).
  rewrite digits2_size, size_shiftl. fold d.
  replace (d + Z.of_N k + - Z.of_N k) with d by lia.
  rewrite fexp_small by assumption.
  assert (Hfin : forall e : unit, binary_round_aux 53 1024 s
            (Zpos (Pos.shiftl c (Z.to_N (53 - d)))) (d - 53) loc_Exact
          = S754_finite s (Pos.shiftl c (Z.to_N (53 - d))) (d - 53)).
  { intros _. unfold binary_round_aux, shr_fexp. simpl Zdigits2.
    rewrite digits2_size, size_shiftl. fold d.
    rewrite Z2N.id by lia.
    replace (d + (53 - d) + (d - 53)) with d by lia.
    rewrite fexp_small by assumption.
    replace (d - 53 - (d - 53)) with 0 by lia. simpl.
    rewrite digits2_size, size_shiftl. fold d. rewrite Z2N.id by lia.
    replace (d + (53 - d) + (d - 53)) with d by lia.
    rewrite fexp_small by assumption.
    replace (d - 53 - (d - 53)) with 0 by lia. simpl.
    change (1024 - 53) with 971.
    destruct (d - 53 <=? 971) eqn:E; [reflexivity|]. lia. }
  unfold shl_align.
  destruct (d - 53 - - Z.of_N k) as [|n|n] eqn:Hn.
  - assert (k = Z.to_N (53 - d)) as -> by lia.
    replace (- Z.of_N (Z.to_N (53 - d))) with (d - 53) by lia. apply (Hfin tt).
  - (* the mantissa is too long: shift right *)
    unfold binary_round_aux, shr_fexp. simpl Zdigits2.
    rewrite digits2_size, size_shiftl. fold d.
    replace (d + Z.of_N k + - Z.of_N k) with d by lia.
    rewrite fexp_small by assumption. rewrite Hn. unfold shr.
    assert (Pos.shiftl c k = Pos.iter xO (Pos.shiftl c (Z.to_N (53 - d))) n) as ->.
    { change (Pos.iter xO ?p n) with (Pos.shiftl p (N.pos n)).
      rewrite shiftl_shiftl. f_equal. lia. }
    unfold shr_record_of_loc at 1 2 3. rewrite !iter_shr_1. simpl shr_m. simpl loc_of_shr_record.
    simpl round_nearest_even. simpl Zdigits2.
    rewrite digits2_size, size_shiftl. fold d. rewrite Z2N.id by lia.
    replace (d + (53 - d) + (- Z.of_N k + Zpos n)) with d by lia.
    rewrite fexp_small by assumption.
    replace (d - 53 - (- Z.of_N k + Zpos n)) with 0 by lia. simpl.
    replace (- Z.of_N k + Zpos n) with (d - 53) by lia.
    rewrite ?iter_shr_1. simpl.
    change (1024 - 53) with 971.
    destruct (d - 53 <=? 971) eqn:E; [reflexivity|]. lia.
  - (* the mantissa is too short: shift left *)
    change (Pos.iter xO ?p n) with (Pos.shiftl p (N.pos n)).
    rewrite shiftl_shiftl.
    replace (k + N.pos n)%N with (Z.to_N (53 - d)) by lia. apply (Hfin tt).
Qed.

Lemma entero_canon z : Z.abs z < 2 ^ 53 → entero z = zcanon z.
Proof.
  intros Hz. destruct z as [|c|c]; [done|..]; simpl;
    unfold entero, flotante, binary_normalize;
    apply (binary_round_shift _ c 0), size_le_53; lia.
Qed.

Lemma shl_align_canon c ez :
  Zpos (Pos.size c) ≤ 53 → ez ≤ Zpos (Pos.size c) - 53 →
  (shl_align (Pos.shiftl c (Z.to_N (53 - Zpos (Pos.size c))))
             (Zpos (Pos.size c) - 53) ez).1
  = Pos.shiftl c (Z.to_N (- ez)).
Proof.
  intros Hc He. unfold shl_align.
  destruct (ez - (Zpos (Pos.size c) - 53)) as [|n|n] eqn:Hn; simpl.
  - f_equal. lia.
  - lia.
  - change (Pos.iter xO ?p n) with (Pos.shiftl p (N.pos n)).
    rewrite shiftl_shiftl. f_equal. lia.
Qed.

Lemma cond_Zopp_shiftl s c k :
  cond_Zopp s (Zpos (Pos.shiftl c k)) = cond_Zopp s (Zpos c) * 2 ^ Z.of_N k.
Proof. rewrite shiftl_Z. destruct s; simpl; lia. Qed.

Lemma binary_normalize_shift z k :
  Z.abs z < 2 ^ 53 →
  binary_normalize 53 1024 (z * 2 ^ Z.of_N k) (- Z.of_N k) false = zcanon z.
Proof.
  intros Hz. destruct z as [|c|c]; simpl.
  - done.
  - replace (Zpos c * 2 ^ Z.of_N k) with (Zpos (Pos.shiftl c k))
      by (rewrite shiftl_Z; lia).
    simpl. apply binary_round_shift, size_le_53. lia.
  - replace (Zneg c * 2 ^ Z.of_N k) with (Zneg (Pos.shiftl c k)).
    2:{ rewrite <-!Pos2Z.opp_pos, shiftl_Z. lia. }
    simpl. apply binary_round_shift, size_le_53. lia.
Qed.

Lemma fsuma_canon sa a sb b :
  Zpos a < 2 ^ 53 → Zpos b < 2 ^ 53 →
  Z.abs (cond_Zopp sa (Zpos a) + cond_Zopp sb (Zpos b)) < 2 ^ 53 →
  fsuma (canon sa a) (canon sb b)
  = zcanon (cond_Zopp sa (Zpos a) + cond_Zopp sb (Zpos b)).
Proof.
  intros Ha Hb Hab. unfold fsuma, canon, SFadd.
  pose proof (size_le_53 a Ha) as Hda. pose proof (size_le_53 b Hb) as Hdb.
  set (ez := Z.min _ _).
  rewrite !shl_align_canon by (unfold ez; lia).
  rewrite !cond_Zopp_shiftl, <-Z.mul_add_distr_r.
  replace ez with (- Z.of_N (Z.to_N (- ez))) at 2 by (unfold ez; lia).
  by apply binary_normalize_shift.
Qed.

(** Additions of integers below 2^53 are exact. *)
Lemma fsuma_entero a b :
  Z.abs a < 2 ^ 53 → Z.abs b < 2 ^ 53 → Z.abs (a + b) < 2 ^ 53 →
  fsuma (entero a) (entero b) = entero (a + b).
Proof.
  intros Ha Hb Hab. rewrite !entero_canon by done.
  destruct a as [|a|a], b as [|b|b]; try done.
  - apply (fsuma_canon false a false b); simpl; lia.
  - apply (fsuma_canon false a true b); simpl in *; lia.
  - apply (fsuma_canon true a false b); simpl in *; lia.
  - apply (fsuma_canon true a true b); simpl in *; lia.
Qed.

Lemma canon_compare a b :
  match (Zpos (Pos.size a) - 53) ?= (Zpos (Pos.size b) - 53) with
  | Lt => Lt
  | Gt => Gt
  | Eq => Pos.compare_cont Eq
            (Pos.shiftl a (Z.to_N (53 - Zpos (Pos.size a))))
            (Pos.shiftl b (Z.to_N (53 - Zpos (Pos.size b))))
  end = (Zpos a ?= Zpos b).
Proof.
  pose proof (size_bounds a) as [Ha1 Ha2].
  pose proof (size_bounds b) as [Hb1 Hb2].
  destruct (Z.compare_spec (Zpos (Pos.size a) - 53) (Zpos (Pos.size b) - 53))
    as [He|He|He].
  - assert (Pos.size a = Pos.size b) as -> by lia.
    change (Pos.compare_cont Eq ?p ?q) with (Pos.compare p q).
    rewrite Pos2Z.inj_compare, !shiftl_Z.
    set (P := 2 ^ _).
    assert (0 < P) by (apply Z.pow_pos_nonneg; lia).
    destruct (Z.compare_spec (Zpos a) (Zpos b)) as [E|E|E].
    + rewrite E. apply Z.compare_refl.
    + apply Z.compare_lt_iff. nia.
    + apply Z.compare_gt_iff. nia.
  - symmetry. apply Z.compare_lt_iff.
    assert (2 ^ Zpos (Pos.size a) ≤ 2 ^ (Zpos (Pos.size b) - 1))
      by (apply Z.pow_le_mono_r; lia).
    lia.
  - symmetry. apply Z.compare_gt_iff.
    assert (2 ^ Zpos (Pos.size b) ≤ 2 ^ (Zpos (Pos.size a) - 1))
      by (apply Z.pow_le_mono_r; lia).
    lia.
Qed.

Lemma SFcompare_zcanon a b : SFcompare (zcanon a) (zcanon b) = Some (a ?= b).
Proof.
  destruct a as [|a|a], b as [|b|b]; try done; simpl; f_equal.
  - apply canon_compare.
  - rewrite (Pos2Z.inj_compare a b), <-(canon_compare a b).
    by destruct (Zpos (Pos.size a) - 53 ?= Zpos (Pos.size b) - 53).
Qed.

(** Comparisons of integers below 2^53 are those of the integers. *)
Lemma fmenor_entero a b :
  Z.abs a < 2 ^ 53 → Z.abs b < 2 ^ 53 →
  fmenor (entero a) (entero b) = (a <? b).
Proof.
  intros Ha Hb. rewrite !entero_canon by done.
  unfold fmenor, SFltb, Z.ltb. rewrite SFcompare_zcanon. done.
Qed.

Lemma fmenor_entero_inf a :
  Z.abs a < 2 ^ 53 → fmenor (entero a) (S754_infinity false) = true.
Proof.
  intros Ha. rewrite entero_canon by done. by destruct a.
Qed.

Lemma entero_inj a b :
  Z.abs a < 2 ^ 53 → Z.abs b < 2 ^ 53 → entero a = entero b → a = b.
Proof.
  intros Ha Hb Heq.
  pose proof (fmenor_entero a b Ha Hb) as H1.
  pose proof (fmenor_entero b a Hb Ha) as H2.
  rewrite Heq in H1, H2.
  assert (Hirr : ∀ x, Z.abs x < 2 ^ 53 → fmenor (entero x) (entero x) = false).
  { intros x Hx. rewrite fmenor_entero by done. lia. }
  rewrite Hirr in H1, H2 by done. lia.
Qed.

Lemma fmenor_irrefl x : fmenor x x = false.
Proof.
  unfold fmenor, SFltb. destruct x as [s|s| |s m e]; simpl; try done.
  - by destruct s.
  - rewrite Z.compare_refl, Pos.compare_cont_refl. by destruct s.
Qed.

(** *** Floats that are numbers are ordered *)

#[global] Instance orden_weak : WeakOrder orden.
Proof.
  split; unfold orden.
  - intros a b. apply lt_asym.
  - intros a b c. apply lt_ntrans.
Qed.

Lemma fmenor_orden x y :
  x ≠ S754_nan → y ≠ S754_nan → fmenor x y = orden x y.
Proof.
  intros Hx Hy. unfold fmenor, SFltb, orden, lex_lt.
  destruct x as [sx|sx| |sx mx ex], y as [sy|sy| |sy my ey]; try done;
    try (by destruct sx); try (by destruct sy); try (by destruct sx, sy).
  destruct sx, sy; simpl; try done.
  - rewrite Z.compare_antisym.
    destruct (Z.compare_spec ey ex) as [->|Hlt|Hgt]; simpl.
    + rewrite !Z.ltb_irrefl.
      change (Pos.compare_cont Eq mx my) with (Pos.compare mx my).
      rewrite Pos.compare_antisym.
      destruct (Pos.compare_spec my mx) as [->|Hm|Hm]; simpl; symmetry.
      * apply Z.ltb_irrefl.
      * apply Z.ltb_lt. lia.
      * apply Z.ltb_ge. lia.
    + replace (- ex <? - ey) with true by (symmetry; apply Z.ltb_lt; lia). done.
    + replace (- ex <? - ey) with false by (symmetry; apply Z.ltb_ge; lia).
      replace (- ey <? - ex) with true by (symmetry; apply Z.ltb_lt; lia). done.
  - destruct (Z.compare_spec ex ey) as [->|Hlt|Hgt]; simpl.
    + rewrite !Z.ltb_irrefl.
      change (Pos.compare_cont Eq mx my) with (Pos.compare mx my).
      destruct (Pos.compare_spec mx my) as [->|Hm|Hm]; simpl; symmetry.
      * apply Z.ltb_irrefl.
      * apply Z.ltb_lt. lia.
      * apply Z.ltb_ge. lia.
    + replace (ex <? ey) with true by (symmetry; apply Z.ltb_lt; lia). done.
    + replace (ex <? ey) with false by (symmetry; apply Z.ltb_ge; lia).
      replace (ey <? ex) with true by (symmetry; apply Z.ltb_lt; lia). done.
Qed.

End flotantes.

(** ** Ranks: a list ordered by a weak order is ordered by integers *)

Section rango.
Context {A : Type} (lt : A → A → bool) `{!WeakOrder lt}.

Lemma filter_length_le (P Q : A → Prop) `{∀ x, Decision (P x)}
    `{∀ x, Decision (Q x)} (l : list A) :
  (∀ x, x ∈ l → P x → Q x) → length (filter P l) ≤ length (filter Q l).
Proof.
  induction l as [|a l IH]; intros HPQ; [done|].
  rewrite !filter_cons.
  assert (IH' : length (filter P l) ≤ length (filter Q l)).
  { apply IH. intros x Hx. apply HPQ. by right. }
  destruct (decide (P a)) as [HP|HP].
  - rewrite decide_True by (apply HPQ; [by left|done]). simpl. lia.
  - destruct (decide (Q a)); simpl; lia.
Qed.

Lemma filter_length_lt (P Q : A → Prop) `{∀ x, Decision (P x)}
    `{∀ x, Decision (Q x)} (l : list A) a :
  (∀ x, x ∈ l → P x → Q x) → a ∈ l → ¬ P a → Q a →
  length (filter P l) < length (filter Q l).
Proof.
  induction l as [|b l IH]; intros HPQ Ha HnP HQ; [by apply elem_of_nil in Ha|].
  rewrite !filter_cons.
  assert (Hle : length (filter P l) ≤ length (filter Q l)).
  { apply filter_length_le. intros x Hx. apply HPQ. by right. }
  apply elem_of_cons in Ha as [->|Ha].
  - rewrite decide_False by done. rewrite decide_True by done. simpl. lia.
  - assert (IH' : length (filter P l) < length (filter Q l)).
    { apply IH; [|done..]. intros x Hx. apply HPQ. by right. }
    destruct (decide (P b)) as [HP|HP].
    + rewrite decide_True by (apply HPQ; [by left|done]). simpl. lia.
    + destruct (decide (Q b)); simpl; lia.
Qed.

Lemma rango_en_lt l x y :
  x ∈ l → (rango_en lt l x <? rango_en lt l y)%Z = lt x y.
Proof.
  intros Hx. unfold rango_en. destruct (lt x y) eqn:Hxy.
  - apply Z.ltb_lt, inj_lt. apply filter_length_lt with (a := x); [|done|..].
    + intros z _ Hz. destruct (lt z y) eqn:Hzy; [done|].
      by rewrite (lt_ntrans (lt:=lt) _ _ _ (lt_asym _ _ Hxy) Hzy) in Hz.
    + by rewrite lt_irrefl.
    + done.
  - apply Z.ltb_ge, inj_le. apply filter_length_le.
    intros z _ Hz. destruct (lt z x) eqn:Hzx; [done|].
    by rewrite (lt_ntrans (lt:=lt) _ _ _ Hxy Hzx) in Hz.
Qed.

End rango.

(** ** The same run on other numbers

    A run of an algorithm depends on the weights only through the
    comparisons it makes: a map [F] on the items that keeps the
    comparisons between the items at hand turns a run into a run. *)

Section heap_sim.
Context {A B : Type} (lt1 : A → A → bool) (lt2 : B → B → bool).
Context (F : A → B) (P : A → Prop).
Context (Hlt : ∀ a b, P a → P b → lt2 (F a) (F b) = lt1 a b).

Lemma siftdown_loop_Forall fuel :
  ∀ h startpos pos x, Forall P h → P x →
    Forall P (Heapq.siftdown_loop lt1 fuel h startpos pos x).
Proof.
  induction fuel as [|fuel IH]; intros h startpos pos x Hh Hx;
    cbn [Heapq.siftdown_loop].
  - by apply Forall_insert.
  - case_decide; [|by apply Forall_insert].
    destruct (h !! _) as [parent|] eqn:Hp; [|by apply Forall_insert].
    assert (P parent) by (by eapply Forall_lookup_1).
    destruct (lt1 x parent); [|by apply Forall_insert].
    apply IH; [|done]. by apply Forall_insert.
Qed.

Lemma siftdown_loop_sim fuel :
  ∀ h startpos pos x, Forall P h → P x →
    Heapq.siftdown_loop lt2 fuel (F <$> h) startpos pos (F x)
    = F <$> Heapq.siftdown_loop lt1 fuel h startpos pos x.
Proof.
  induction fuel as [|fuel IH]; intros h startpos pos x Hh Hx;
    cbn [Heapq.siftdown_loop].
  - by rewrite list_fmap_insert.
  - case_decide; [|by rewrite list_fmap_insert].
    rewrite list_lookup_fmap.
    destruct (h !! _) as [parent|] eqn:Hp; simpl; [|by rewrite list_fmap_insert].
    assert (P parent) by (by eapply Forall_lookup_1).
    rewrite Hlt by done. destruct (lt1 x parent); [|by rewrite list_fmap_insert].
    rewrite <-list_fmap_insert. apply IH; [|done]. by apply Forall_insert.
Qed.

Lemma siftdown_Forall h startpos pos :
  Forall P h → Forall P (Heapq.siftdown lt1 h startpos pos).
Proof.
  intros Hh. unfold Heapq.siftdown. destruct (h !! pos) as [x|] eqn:Hx; [|done].
  apply siftdown_loop_Forall; [done|]. by eapply Forall_lookup_1.
Qed.

Lemma siftdown_sim h startpos pos :
  Forall P h →
  Heapq.siftdown lt2 (F <$> h) startpos pos = F <$> Heapq.siftdown lt1 h startpos pos.
Proof.
  intros Hh. unfold Heapq.siftdown. rewrite list_lookup_fmap.
  destruct (h !! pos) as [x|] eqn:Hx; simpl; [|done].
  apply siftdown_loop_sim; [done|]. by eapply Forall_lookup_1.
Qed.

Lemma siftup_loop_Forall fuel :
  ∀ h endpos pos childpos, Forall P h →
    Forall P (Heapq.siftup_loop lt1 fuel h endpos pos childpos).1.
Proof.
  induction fuel as [|fuel IH]; intros h endpos pos childpos Hh;
    cbn [Heapq.siftup_loop]; [done|].
  case_decide; [|done].
  set (cp := if decide (childpos + 1 < endpos) then _ else _).
  destruct (h !! cp) as [c|] eqn:Hc; [|done].
  apply IH. apply Forall_insert; [done|]. by eapply Forall_lookup_1.
Qed.

Lemma siftup_loop_sim fuel :
  ∀ h endpos pos childpos, Forall P h →
    Heapq.siftup_loop lt2 fuel (F <$> h) endpos pos childpos
    = prod_map (fmap F) id (Heapq.siftup_loop lt1 fuel h endpos pos childpos).
Proof.
  induction fuel as [|fuel IH]; intros h endpos pos childpos Hh;
    cbn [Heapq.siftup_loop]; [done|].
  case_decide; [|done].
  assert (Hch :
    (if decide (childpos + 1 < endpos)
     then match (F <$> h) !! childpos, (F <$> h) !! (childpos + 1) with
          | Some c, Some r => if negb (lt2 c r) then childpos + 1 else childpos
          | _, _ => childpos
          end
     else childpos)
    = (if decide (childpos + 1 < endpos)
       then match h !! childpos, h !! (childpos + 1) with
            | Some c, Some r => if negb (lt1 c r) then childpos + 1 else childpos
            | _, _ => childpos
            end
       else childpos)).
  { case_decide; [|done]. rewrite !list_lookup_fmap.
    destruct (h !! childpos) as [c|] eqn:Hc; simpl; [|done].
    destruct (h !! (childpos + 1)) as [r|] eqn:Hr; simpl; [|done].
    rewrite Hlt; [done|by eapply Forall_lookup_1..]. }
  rewrite Hch. set (cp := if decide (childpos + 1 < endpos) then _ else _).
  rewrite list_lookup_fmap.
  destruct (h !! cp) as [c|] eqn:Hc; simpl; [|done].
  rewrite <-list_fmap_insert. apply IH.
  apply Forall_insert; [done|]. by eapply Forall_lookup_1.
Qed.

Lemma siftup_Forall h pos : Forall P h → Forall P (Heapq.siftup lt1 h pos).
Proof.
  intros Hh. unfold Heapq.siftup. destruct (h !! pos) as [x|] eqn:Hx; [|done].
  pose proof (siftup_loop_Forall (length h) h (length h) pos (2 * pos + 1) Hh) as H1.
  destruct (Heapq.siftup_loop _ _ _ _ _ _) as [h1 p]. simpl in H1.
  apply siftdown_Forall, Forall_insert; [done|].
  by eapply (Forall_lookup_1 _ h).
Qed.

Lemma siftup_sim h pos :
  Forall P h → Heapq.siftup lt2 (F <$> h) pos = F <$> Heapq.siftup lt1 h pos.
Proof.
  intros Hh. unfold Heapq.siftup. rewrite list_lookup_fmap.
  destruct (h !! pos) as [x|] eqn:Hx; simpl; [|done].
  rewrite length_fmap, siftup_loop_sim by done.
  pose proof (siftup_loop_Forall (length h) h (length h) pos (2 * pos + 1) Hh) as H1.
  destruct (Heapq.siftup_loop _ _ _ _ _ _) as [h1 p]. simpl in *.
  rewrite <-list_fmap_insert. apply siftdown_sim.
  apply Forall_insert; [done|]. by eapply (Forall_lookup_1 _ h).
Qed.

Lemma heappush_Forall h x :
  Forall P h → P x → Forall P (Heapq.heappush lt1 h x).
Proof.
  intros Hh Hx. unfold Heapq.heappush. apply siftdown_Forall.
  apply Forall_app. split; [done|]. by apply Forall_singleton.
Qed.

Lemma heappush_sim h x :
  Forall P h → P x →
  Heapq.heappush lt2 (F <$> h) (F x) = F <$> Heapq.heappush lt1 h x.
Proof.
  intros Hh Hx. unfold Heapq.heappush.
  rewrite length_fmap.
  change ((F <$> h) ++ [F x]) with ((F <$> h) ++ (F <$> [x])).
  rewrite <-fmap_app. apply siftdown_sim.
  apply Forall_app. split; [done|]. by apply Forall_singleton.
Qed.

Lemma heappop_Forall h x h' :
  Forall P h → Heapq.heappop lt1 h = Some (x, h') → P x ∧ Forall P h'.
Proof.
  intros Hh. unfold Heapq.heappop.
  destruct (last h) as [lastelt|] eqn:Hl; [|done].
  assert (P lastelt).
  { rewrite last_lookup in Hl. by eapply Forall_lookup_1. }
  assert (Hh' : Forall P (take (length h - 1) h)) by (by apply Forall_take).
  destruct (take (length h - 1) h) as [|r t] eqn:Ht.
  - intros [= <- <-]. done.
  - intros [= <- <-]. apply Forall_cons in Hh' as [? ?]. split; [done|].
    apply siftup_Forall. simpl. by apply Forall_cons.
Qed.

Lemma heappop_sim h :
  Forall P h →
  Heapq.heappop lt2 (F <$> h)
  = (λ r : A * list A, (F r.1, F <$> r.2)) <$> Heapq.heappop lt1 h.
Proof.
  intros Hh. unfold Heapq.heappop. rewrite fmap_last.
  destruct (last h) as [lastelt|] eqn:Hl; simpl; [|done].
  assert (P lastelt).
  { rewrite last_lookup in Hl. by eapply Forall_lookup_1. }
  rewrite length_fmap, <-fmap_take.
  assert (Hh' : Forall P (take (length h - 1) h)) by (by apply Forall_take).
  destruct (take (length h - 1) h) as [|r t] eqn:Ht; simpl; [done|].
  do 2 f_equal.
  apply (siftup_sim (lastelt :: t) 0).
  apply Forall_cons in Hh' as [? ?]. by apply Forall_cons.
Qed.

End heap_sim.

Section sort_sim.
Context {A B : Type} (R1 : relation A) (R2 : relation B).
Context `{∀ x y, Decision (R1 x y)} `{∀ x y, Decision (R2 x y)}.
Context (F : A → B) (P : A → Prop).
Context (HR : ∀ a b, P a → P b → (R2 (F a) (F b) ↔ R1 a b)).

#[local] Abbreviation stack_ok := (stack_ok P).
#[local] Abbreviation stack_map := (stack_map F).

Lemma list_merge_Forall l1 :
  ∀ l2, Forall P l1 → Forall P l2 → Forall P (list_merge R1 l1 l2).
Proof.
  induction l1 as [|x1 l1 IH1]; intros l2 H1 H2; [by destruct l2|].
  induction l2 as [|x2 l2 IH2]; [done|]. simpl.
  apply Forall_cons in H1 as [? ?]. pose proof H2 as H2'.
  apply Forall_cons in H2 as [? ?]. case_decide.
  - apply Forall_cons. split; [done|]. by apply IH1.
  - apply Forall_cons. split; [done|]. apply IH2; done.
Qed.

Lemma list_merge_sim l1 :
  ∀ l2, Forall P l1 → Forall P l2 →
    list_merge R2 (F <$> l1) (F <$> l2) = F <$> list_merge R1 l1 l2.
Proof.
  induction l1 as [|x1 l1 IH1]; intros l2 H1 H2; [by destruct l2|].
  induction l2 as [|x2 l2 IH2]; [done|]. rewrite !fmap_cons. simpl.
  apply Forall_cons in H1 as [? ?]. pose proof H2 as H2'.
  apply Forall_cons in H2 as [? ?].
  destruct (decide (R1 x1 x2)) as [Hr|Hr].
  - rewrite decide_True by (by apply HR). rewrite fmap_cons. f_equal.
    by apply (IH1 (x2 :: l2)).
  - rewrite decide_False by (by rewrite HR). rewrite fmap_cons. f_equal.
    apply IH2; done.
Qed.

Lemma merge_list_to_stack_ok st :
  ∀ l, stack_ok st → Forall P l → stack_ok (merge_list_to_stack R1 st l).
Proof.
  induction st as [|[l'|] st IH]; intros l Hst Hl; simpl.
  - by apply Forall_singleton.
  - apply Forall_cons in Hst as [? ?]. apply Forall_cons. split; [done|].
    apply IH; [done|]. by apply list_merge_Forall.
  - apply Forall_cons in Hst as [? ?]. by apply Forall_cons.
Qed.

Lemma merge_list_to_stack_sim st :
  ∀ l, stack_ok st → Forall P l →
    merge_list_to_stack R2 (stack_map st) (F <$> l)
    = stack_map (merge_list_to_stack R1 st l).
Proof.
  induction st as [|[l'|] st IH]; intros l Hst Hl; simpl; [done|..].
  - apply Forall_cons in Hst as [? ?]. f_equal.
    rewrite list_merge_sim by done. apply IH; [done|].
    by apply list_merge_Forall.
  - done.
Qed.

Lemma merge_stack_Forall st : stack_ok st → Forall P (merge_stack R1 st).
Proof.
  induction st as [|[l'|] st IH]; intros Hst; simpl; [done|..];
    apply Forall_cons in Hst as [? ?]; [|by apply IH].
  apply list_merge_Forall; [done|by apply IH].
Qed.

Lemma merge_stack_sim st :
  stack_ok st → merge_stack R2 (stack_map st) = F <$> merge_stack R1 st.
Proof.
  induction st as [|[l'|] st IH]; intros Hst; simpl; [done|..];
    apply Forall_cons in Hst as [? ?]; [|by apply IH].
  rewrite IH by done. apply list_merge_sim; [done|]. by apply merge_stack_Forall.
Qed.

Lemma merge_sort_aux_sim l :
  ∀ st, stack_ok st → Forall P l →
    merge_sort_aux R2 (stack_map st) (F <$> l) = F <$> merge_sort_aux R1 st l.
Proof.
  induction l as [|x l IH]; intros st Hst Hl; simpl.
  - by apply merge_stack_sim.
  - apply Forall_cons in Hl as [? ?].
    change [F x] with (F <$> [x]).
    rewrite merge_list_to_stack_sim; [|done|by apply Forall_singleton].
    apply IH; [|done]. apply merge_list_to_stack_ok; [done|].
    by apply Forall_singleton.
Qed.

(** Sorting commutes with a map that keeps the order of the items. *)
Lemma merge_sort_sim l :
  Forall P l → merge_sort R2 (F <$> l) = F <$> merge_sort R1 l.
Proof.
  intros Hl. unfold merge_sort.
  apply (merge_sort_aux_sim l []); [apply Forall_nil_2|done].
Qed.

End sort_sim.

(** ** A graph with other weights *)

Lemma alookup_fmap {U V} (h : U → V) k (l : list (node * U)) :
  alookup k ((λ p : node * U, (p.1, h p.2)) <$> l) = h <$> alookup k l.
Proof.
  induction l as [|[k' v] l IH]; [done|]. rewrite fmap_cons. simpl.
  by case_decide.
Qed.

Section graph_map.
Context {W1 W2 : Type} (f : W1 → W2) (g : Graph W1).

Lemma graph_map_nodes : nodes (graph_map f g) = nodes g.
Proof.
  unfold nodes, graph_map. simpl. rewrite <-list_fmap_compose.
  by apply list_fmap_ext.
Qed.

Lemma graph_map_lookup u :
  alookup u (adj (graph_map f g))
  = (λ nbrs : list (node * W1), (λ q : node * W1, (q.1, f q.2)) <$> nbrs)
      <$> alookup u (adj g).
Proof. unfold graph_map. simpl. apply alookup_fmap. Qed.

Lemma graph_map_neighbors u : neighbors (graph_map f g) u = neighbors g u.
Proof.
  unfold neighbors. rewrite graph_map_lookup.
  destruct (alookup u (adj g)) as [nbrs|]; simpl; [|done].
  f_equal. rewrite <-list_fmap_compose. by apply list_fmap_ext.
Qed.

Lemma graph_map_weight u v :
  weight (graph_map f g) u v
  = match weight g u v with
    | Ok w => Ok (f w)
    | Raise e => Raise e
    | OutOfFuel => OutOfFuel
    end.
Proof.
  unfold weight. rewrite graph_map_lookup.
  destruct (alookup u (adj g)) as [nbrs|]; simpl; [|done].
  rewrite (alookup_fmap f). by destruct (alookup v nbrs).
Qed.

Lemma graph_map_edge u v w' :
  edge (graph_map f g) u v w' ↔ ∃ w, edge g u v w ∧ w' = f w.
Proof.
  unfold edge. rewrite graph_map_lookup.
  destruct (alookup u (adj g)) as [nbrs|]; simpl.
  - rewrite (alookup_fmap f). destruct (alookup v nbrs) as [w|]; simpl.
    + split; [intros [= <-]; by exists w|]. by intros (? & [= <-] & ->).
    + split; [done|]. by intros (? & ? & _).
  - split; [done|]. by intros (? & ? & _).
Qed.

Lemma graph_map_conn a b : conn (graph_map f g) a b ↔ conn g a b.
Proof.
  unfold conn, rtsc. split; apply rtc_subrel; intros x y.
  - intros [[w Hw]|[w Hw]]; apply graph_map_edge in Hw as (w1 & ? & _);
      [left|right]; by exists w1.
  - intros [[w Hw]|[w Hw]]; [left|right]; exists (f w);
      apply graph_map_edge; by exists w.
Qed.

Lemma graph_map_connected : connected (graph_map f g) ↔ connected g.
Proof.
  unfold connected. rewrite graph_map_nodes.
  by setoid_rewrite graph_map_conn.
Qed.

Lemma graph_map_components k :
  n_components (graph_map f g) k ↔ n_components g k.
Proof.
  unfold n_components. rewrite graph_map_nodes.
  split; intros (reps & Hr & Hl); exists reps; (split; [|done]);
    (eapply is_reps_ext; [|exact Hr]); intros a b _ _;
    by rewrite graph_map_conn.
Qed.

Lemma graph_map_wf : wf_graph g → wf_graph (graph_map f g).
Proof.
  rewrite !wf_graph_lookup. intros (Hnd & Hnb & Hsym). split; [|split].
  - by rewrite graph_map_nodes.
  - intros n nbrs. rewrite graph_map_lookup.
    destruct (alookup n (adj g)) as [nb|] eqn:Hn; simpl; [|done].
    intros [= <-]. rewrite <-list_fmap_compose.
    assert (((fst ∘ λ q : node * W1, (q.1, f q.2)) <$> nb) = nb.*1) as ->
      by (by apply list_fmap_ext).
    by eapply Hnb.
  - intros u v w (w1 & ? & ->)%graph_map_edge. apply graph_map_edge.
    exists w1. split; [by apply Hsym|done].
Qed.

Lemma graph_map_fuel : fuel_of (graph_map f g) = fuel_of g.
Proof.
  unfold fuel_of, graph_map. simpl. do 2 f_equal.
  induction (adj g) as [|[n nbrs] l IH]; [done|].
  rewrite !fmap_cons. simpl. rewrite !length_app, length_fmap. by f_equal.
Qed.

Lemma edges_from_map seen (l : list (node * list (node * W1))) :
  edges_from seen ((λ p : node * list (node * W1),
                      (p.1, (λ q : node * W1, (q.1, f q.2)) <$> p.2)) <$> l)
  = mapa_arista f <$> edges_from seen l.
Proof.
  revert seen. induction l as [|[n nbrs] l IH]; intros seen; [done|].
  rewrite fmap_cons. simpl. rewrite fmap_app, IH. f_equal.
  clear IH. induction nbrs as [|[b w] nbrs IH]; [done|].
  rewrite fmap_cons, !filter_cons. simpl.
  destruct (decide (b ∉ seen)); [|exact IH].
  rewrite !fmap_cons. f_equal. exact IH.
Qed.

Lemma graph_map_edges : edges (graph_map f g) = mapa_arista f <$> edges g.
Proof. unfold edges, graph_map. simpl. apply edges_from_map. Qed.

End graph_map.

Lemma aupdate_fmap {U V} (h : U → V) k v (l : list (node * U)) :
  (λ p : node * U, (p.1, h p.2)) <$> aupdate k v l
  = aupdate k (h v) ((λ p : node * U, (p.1, h p.2)) <$> l).
Proof.
  induction l as [|[k' v'] l IH]; [done|]. rewrite fmap_cons. simpl.
  case_decide; [done|]. rewrite fmap_cons. by f_equal.
Qed.

Section graph_map_build.
Context {W1 W2 : Type} (f : W1 → W2).

#[local] Abbreviation adj_map :=
  (fmap (M:=list) (λ p : node * list (node * W1),
                     (p.1, (λ q : node * W1, (q.1, f q.2)) <$> p.2))).

Lemma add_node_map n (a : list (node * list (node * W1))) :
  adj_map (add_node n a) = add_node n (adj_map a).
Proof.
  unfold add_node.
  rewrite (alookup_fmap (λ nbrs : list (node * W1),
                           (λ q : node * W1, (q.1, f q.2)) <$> nbrs)).
  destruct (alookup n a); simpl; [done|]. by rewrite fmap_app.
Qed.

Lemma set_adj_map u v w (a : list (node * list (node * W1))) :
  adj_map (set_adj u v w a) = set_adj u v (f w) (adj_map a).
Proof.
  unfold set_adj.
  rewrite (alookup_fmap (λ nbrs : list (node * W1),
                           (λ q : node * W1, (q.1, f q.2)) <$> nbrs)).
  destruct (alookup u a) as [nbrs|]; simpl; [|done].
  rewrite (aupdate_fmap (λ nbrs : list (node * W1),
                           (λ q : node * W1, (q.1, f q.2)) <$> nbrs)).
  by rewrite (aupdate_fmap f).
Qed.

Lemma graph_map_add_edge (g : Graph W1) u v w :
  graph_map f (add_edge g u v w) = add_edge (graph_map f g) u v (f w).
Proof.
  unfold graph_map, add_edge. simpl. f_equal.
  by rewrite !set_adj_map, !add_node_map.
Qed.

(** The graph built from rows with mapped weights. *)
Lemma graph_map_filas (filas : list (node * node * W1)) :
  graph_map f (grafo_de_filas filas) = grafo_de_filas (mapa_arista f <$> filas).
Proof.
  unfold grafo_de_filas.
  change (mkGraph (W:=W2) []) with (graph_map f (mkGraph [])).
  generalize (mkGraph (W:=W1) []).
  induction filas as [|[[u v] w] filas IH]; intros g; [done|].
  rewrite fmap_cons. cbn [foldl]. rewrite IH. f_equal.
  apply graph_map_add_edge.
Qed.

End graph_map_build.

Lemma elem_of_concat {A} (x : A) (ls : list (list A)) :
  x ∈ concat ls ↔ ∃ l, x ∈ l ∧ l ∈ ls.
Proof.
  induction ls as [|l ls IH]; simpl.
  - split; [by intros ?%elem_of_nil|]. by intros (? & _ & ?%elem_of_nil).
  - rewrite elem_of_app, IH. split.
    + intros [?|(l' & ? & ?)]; [exists l; split; [done|by left]|].
      exists l'. split; [done|by right].
    + intros (l' & ? & [->|?]%elem_of_cons); [by left|]. right. by exists l'.
Qed.

Lemma edge_pesos {W} (g : Graph W) u v w : edge g u v w → w ∈ pesos g.
Proof.
  intros (nbrs & Hu & Hv)%edge_lookup. unfold pesos.
  apply list_elem_of_fmap. exists (v, w). split; [done|].
  apply elem_of_concat. exists nbrs. split; [by apply alookup_elem|].
  apply list_elem_of_fmap. exists (u, nbrs). split; [done|]. by apply alookup_elem.
Qed.

Lemma pesos_edge {W} (g : Graph W) w :
  wf_graph g → w ∈ pesos g → ∃ u v, edge g u v w.
Proof.
  intros Hwf. unfold pesos.
  intros ([v w'] & -> & Hin)%list_elem_of_fmap.
  apply elem_of_concat in Hin as (nbrs & Hin & Hn).
  apply list_elem_of_fmap in Hn as ([u nbrs'] & Heq & Hu). simpl in *.
  subst nbrs'. exists u, v. apply edge_lookup. exists nbrs.
  destruct Hwf as [Hnd Hall]. split; [by apply alookup_NoDup|].
  rewrite Forall_forall in Hall. destruct (Hall _ Hu) as [Hnd' _].
  by apply alookup_NoDup.
Qed.

Lemma edges_pesos {W} (g : Graph W) e :
  wf_graph g → e ∈ edges g → e.2 ∈ pesos g.
Proof.
  intros Hwf. destruct e as [[a b] w]. unfold edges.
  rewrite (edges_from_elem g Hwf).
  intros (l1 & nbrs & l2 & Heq & Hb & _ & _). unfold pesos. simpl.
  apply list_elem_of_fmap. exists (b, w). split; [done|].
  apply elem_of_concat. exists nbrs. split; [done|].
  apply list_elem_of_fmap. exists (a, nbrs). split; [done|].
  rewrite Heq. apply elem_of_app. right. by left.
Qed.

(** ** The spanning-tree builders on other weights *)

Lemma res_rel_bind {A1 A2 B1 B2} (R : A1 → A2 → Prop) (S : B1 → B2 → Prop)
    (r1 : result A1) (r2 : result A2) (k1 : A1 → result B1)
    (k2 : A2 → result B2) :
  res_rel R r1 r2 → (∀ a1 a2, R a1 a2 → res_rel S (k1 a1) (k2 a2)) →
  res_rel S (r1 ≫= k1) (r2 ≫= k2).
Proof.
  intros Hr Hk. destruct r1, r2; try done. simpl in *. by apply Hk.
Qed.

Section totals.
Context `{Numero W}.

Lemma kruskal_loop_total n aristas :
  ∀ uf mst t T tot,
    kruskal_loop n aristas uf mst t = Ok (T, tot) →
    ∃ added, T = mst ++ added ∧ tot = foldl suma t (weights added)
             ∧ ∀ e, e ∈ added → (e.2, e.1.1, e.1.2) ∈ aristas.
Proof.
  induction aristas as [|[[w u] v] aristas IH]; intros uf mst t T tot Hrun.
  { simpl in Hrun. simplify_eq. exists []. rewrite app_nil_r.
    split; [done|]. split; [done|]. by intros ? ?%elem_of_nil. }
  cbn [kruskal_loop] in Hrun.
  destruct (unir u v uf) as [uf' [[|]| |]]; try done.
  - case_decide.
    + simplify_eq. exists [(u, v, w)]. split; [done|]. split; [done|].
      intros e ->%list_elem_of_singleton. by left.
    + apply IH in Hrun as (added & -> & -> & Hin).
      exists ((u, v, w) :: added). rewrite <-app_assoc. split; [done|].
      split; [done|]. intros e [->|?]%elem_of_cons; [by left|].
      right. by apply Hin.
  - apply IH in Hrun as (added & -> & -> & Hin). exists added.
    split; [done|]. split; [done|]. intros e ?. right. by apply Hin.
Qed.

(** The edges Kruskal returns are edges [grafo.edges] lists, and the
    total is their sum in the order of the list. *)
Lemma kruskal_result (g : Graph W) T tot :
  wf_graph g → algoritmo_kruskal g = Ok (T, tot) →
  (∀ u v w, (u, v, w) ∈ T → edge g u v w) ∧ tot = suma_lista (weights T).
Proof.
  intros Hwf. unfold algoritmo_kruskal. case_decide.
  { intros [= <- <-]. split; [|done]. by intros ??? ?%elem_of_nil. }
  intros (added & -> & -> & Hin)%kruskal_loop_total. split; [|done].
  intros u v w Hi. apply Hin in Hi. simpl in Hi.
  rewrite merge_sort_Permutation in Hi.
  apply list_elem_of_fmap in Hi as ([[u' v'] w'] & [= -> -> ->] & Hi).
  by apply edges_edge.
Qed.

Lemma prim_vecinos_entries (g : Graph W) u vis vec :
  ∀ h h', prim_vecinos g u vis h vec = Ok h' →
    Forall (entry_ok g) h → Forall (entry_ok g) h'.
Proof.
  induction vec as [|v vec IH]; intros h h' Hrun Hh; simpl in Hrun.
  { by simplify_eq. }
  case_decide; [|by eapply IH].
  destruct (weight g u v) as [w| |] eqn:Hw; try done.
  cbn [mbind result_mbind result_bind] in Hrun.
  eapply IH; [done|]. apply heappush_Forall; [done|].
  unfold entry_ok. simpl. by apply edge_of_weight.
Qed.

Lemma prim_loop_result (g : Graph W) fuel :
  ∀ vis mst t h T tot,
    prim_loop fuel g vis mst t h = Ok (T, tot) →
    Forall (entry_ok g) h →
    ∃ added, T = mst ++ added ∧ tot = foldl suma t (weights added)
             ∧ ∀ u v w, (u, v, w) ∈ added → edge g u v w.
Proof.
  induction fuel as [|fuel IH]; intros vis mst t h T tot Hrun Hh; [done|].
  cbn [prim_loop] in Hrun. case_decide.
  2:{ simplify_eq. exists []. rewrite app_nil_r. split; [done|]. split; [done|].
      by intros ??? ?%elem_of_nil. }
  destruct (Heapq.heappop prim_lt h) as [[[[peso nodo] ant] h1]|] eqn:Hpop;
    [|done].
  apply (heappop_Forall prim_lt (entry_ok g)) in Hpop as [He Hh1]; [|done].
  case_decide; [by eapply IH|].
  destruct (neighbors g nodo) as [vecinos| |] eqn:Hn; [|by destruct ant..].
  destruct ant as [a|]; cbn [mbind result_mbind result_bind] in Hrun.
  - destruct (prim_vecinos _ _ _ _ _) as [h2| |] eqn:Hv; try done.
    cbn [mbind result_mbind result_bind] in Hrun.
    apply IH in Hrun as (added & -> & -> & Hin);
      [|by eapply prim_vecinos_entries].
    exists ((a, nodo, peso) :: added). rewrite <-app_assoc.
    split; [done|]. split; [done|].
    intros u v w [[= -> -> ->]|?]%elem_of_cons; [exact He|by apply Hin].
  - destruct (prim_vecinos _ _ _ _ _) as [h2| |] eqn:Hv; try done.
    cbn [mbind result_mbind result_bind] in Hrun.
    apply IH in Hrun as (added & -> & -> & Hin);
      [|by eapply prim_vecinos_entries].
    by exists added.
Qed.

(** The edges Prim returns are edges of the graph, and the total is
    their sum in the order of the list. *)
Lemma prim_result (g : Graph W) inicio T tot :
  algoritmo_prim g inicio = Ok (T, tot) →
  (∀ u v w, (u, v, w) ∈ T → edge g u v w) ∧ tot = suma_lista (weights T).
Proof.
  unfold algoritmo_prim. case_decide.
  { intros [= <- <-]. split; [|done]. by intros ??? ?%elem_of_nil. }
  destruct (match inicio with Some n => Ok n | None => _ end) as [s| |];
    try done.
  cbn [mbind result_mbind result_bind].
  intros (added & -> & -> & Hin)%prim_loop_result; [done|].
  by apply Forall_singleton.
Qed.

End totals.

Section mst_sim.
Context `{Numero W1} `{Numero W2} (f : W1 → W2) (g : Graph W1).
Context (Hwf : wf_graph g) (Hcero : f cero = cero).
Context (Hf : ∀ a b, a ∈ cero :: pesos g → b ∈ cero :: pesos g →
                     menor (f a) (f b) = menor a b).

#[local] Abbreviation conocido := (λ w : W1, w ∈ cero :: pesos g).

Lemma arista_lt_sim (a b : W1 * node * node) :
  conocido a.1.1 → conocido b.1.1 →
  arista_lt (mapa_peso f a) (mapa_peso f b) = arista_lt a b.
Proof.
  intros Ha Hb. destruct a as [[wa ua] va], b as [[wb ub] vb].
  unfold arista_lt, mapa_peso, lex_lt. simpl in *. by rewrite !Hf.
Qed.

Lemma prim_lt_sim (a b : prim_entry W1) :
  conocido a.1.1 → conocido b.1.1 →
  prim_lt (mapa_peso f a) (mapa_peso f b) = prim_lt a b.
Proof.
  intros Ha Hb. destruct a as [[wa ua] va], b as [[wb ub] vb].
  unfold prim_lt, mapa_peso, lex_lt. simpl in *. by rewrite !Hf.
Qed.

Lemma kruskal_loop_sim n aristas :
  ∀ uf mst t1 t2,
    res_sim f (kruskal_loop n aristas uf mst t1)
              (kruskal_loop n (mapa_peso f <$> aristas) uf
                 (mapa_arista f <$> mst) t2).
Proof.
  induction aristas as [|[[w u] v] aristas IH]; intros uf mst t1 t2; [done|].
  rewrite fmap_cons. cbn [kruskal_loop mapa_peso fst snd].
  destruct (unir u v uf) as [uf' [[|]| |]]; [|apply IH|done..].
  change ((mapa_arista f <$> mst) ++ [(u, v, f w)])
    with ((mapa_arista f <$> mst) ++ (mapa_arista f <$> [(u, v, w)])).
  rewrite <-fmap_app, length_fmap. case_decide; [done|]. apply IH.
Qed.

Lemma algoritmo_kruskal_sim :
  res_sim f (algoritmo_kruskal g) (algoritmo_kruskal (graph_map f g)).
Proof.
  unfold algoritmo_kruskal. rewrite graph_map_nodes, graph_map_edges.
  case_decide; [done|].
  assert (((λ e : node * node * W2, (e.2, e.1.1, e.1.2))
             <$> (mapa_arista f <$> edges g))
          = mapa_peso f <$> ((λ e : node * node * W1, (e.2, e.1.1, e.1.2))
                               <$> edges g)) as ->.
  { rewrite <-!list_fmap_compose. by apply list_fmap_ext. }
  rewrite (merge_sort_sim arista_le arista_le (mapa_peso f)
             (λ a, conocido a.1.1)).
  - apply (kruskal_loop_sim _ _ _ []).
  - intros a b Ha Hb. unfold arista_le. by rewrite arista_lt_sim.
  - apply Forall_forall. intros a ([[u v] w] & -> & He)%list_elem_of_fmap.
    simpl. right. by apply (edges_pesos g (u, v, w)).
Qed.

Lemma prim_vecinos_sim u vis vec :
  ∀ h, Forall (λ e : prim_entry W1, conocido e.1.1) h →
    res_rel (λ h1 h2, h2 = mapa_peso f <$> h1
                      ∧ Forall (λ e : prim_entry W1, conocido e.1.1) h1)
      (prim_vecinos g u vis h vec)
      (prim_vecinos (graph_map f g) u vis (mapa_peso f <$> h) vec).
Proof.
  induction vec as [|v vec IH]; intros h Hh; [done|].
  cbn [prim_vecinos]. case_decide; [|by apply IH].
  rewrite graph_map_weight.
  destruct (weight g u v) as [w| |] eqn:Hw; [|done..].
  cbn [mbind result_mbind result_bind].
  assert (conocido w).
  { right. eapply edge_pesos. by apply edge_of_weight. }
  change (f w, v, Some u) with (mapa_peso f (w, v, Some u)).
  rewrite (heappush_sim prim_lt prim_lt (mapa_peso f)
             (λ e : prim_entry W1, conocido e.1.1)); [|by apply prim_lt_sim|done..].
  apply IH. by apply heappush_Forall.
Qed.

Lemma prim_loop_sim fuel :
  ∀ vis mst t1 t2 h, Forall (λ e : prim_entry W1, conocido e.1.1) h →
    res_sim f (prim_loop fuel g vis mst t1 h)
              (prim_loop fuel (graph_map f g) vis (mapa_arista f <$> mst) t2
                 (mapa_peso f <$> h)).
Proof.
  induction fuel as [|fuel IH]; intros vis mst t1 t2 h Hh; [done|].
  cbn [prim_loop]. rewrite graph_map_nodes.
  destruct (decide (h ≠ [] ∧ size vis < length (nodes g))) as [Hc|Hc].
  2:{ rewrite decide_False; [done|]. intros [Hne ?]. apply Hc. split; [|done].
      intros ->. by apply Hne. }
  rewrite decide_True.
  2:{ destruct Hc as [Hne ?]. split; [|done]. by destruct h. }
  rewrite (heappop_sim prim_lt prim_lt (mapa_peso f)
             (λ e : prim_entry W1, conocido e.1.1)); [|by apply prim_lt_sim|done].
  destruct (Heapq.heappop prim_lt h) as [[[[peso nodo] ant] h1]|] eqn:Hpop;
    [|done].
  apply (heappop_Forall prim_lt (λ e : prim_entry W1, conocido e.1.1))
    in Hpop as [He Hh1]; [|done].
  cbn [fmap option_fmap option_map mapa_peso fst snd].
  case_decide; [by apply IH|].
  rewrite graph_map_neighbors.
  destruct (neighbors g nodo) as [vecinos| |] eqn:Hn; [|by destruct ant..].
  destruct ant as [a|]; cbn [mbind result_mbind result_bind].
  - eapply res_rel_bind; [by apply prim_vecinos_sim|].
    intros h2 ? [-> Hh2]. cbv beta.
    change ((mapa_arista f <$> mst) ++ [(a, nodo, f peso)])
      with ((mapa_arista f <$> mst) ++ (mapa_arista f <$> [(a, nodo, peso)])).
    rewrite <-fmap_app. by apply IH.
  - eapply res_rel_bind; [by apply prim_vecinos_sim|].
    intros h2 ? [-> Hh2]. by apply IH.
Qed.

Lemma algoritmo_prim_sim inicio :
  res_sim f (algoritmo_prim g inicio) (algoritmo_prim (graph_map f g) inicio).
Proof.
  unfold algoritmo_prim. rewrite graph_map_nodes, graph_map_fuel.
  case_decide; [done|].
  destruct (match inicio with Some n => Ok n | None => _ end) as [s| |];
    try done.
  cbn [mbind result_mbind result_bind].
  rewrite <-Hcero.
  apply (prim_loop_sim _ ∅ [] cero (f cero) [(cero, s, None)]).
  apply Forall_singleton. by left.
Qed.

End mst_sim.

(** ** Dijkstra, whatever the numbers

    What [algoritmo_dijkstra] does with the source and with the nodes
    that no chain of edges joins to the source does not depend on the
    weights, nor on the order in which the heap hands out its entries. *)

(** [heappop] returns one of the entries and keeps the others, for any
    comparison. *)
Section heap_perm.
Context {A : Type} (lt : A → A → bool).

Lemma siftup_loop_perm fuel :
  ∀ h pos, pos < length h →
    ∃ h' p', Heapq.siftup_loop lt fuel h (length h) pos (2 * pos + 1) = (h', p')
      ∧ length h' = length h ∧ p' < length h
      ∧ ∀ x, <[p':=x]> h' ≡ₚ <[pos:=x]> h.
Proof.
  induction fuel as [|fuel IH]; intros h pos Hpos.
  { by exists h, pos. }
  cbn [Heapq.siftup_loop]. case_decide as Hc; [|by exists h, pos].
  set (q := if decide (2 * pos + 1 + 1 < length h) then _ else _).
  assert (Hq : (q = 2 * pos + 1 ∨ q = 2 * pos + 1 + 1) ∧ q < length h).
  { unfold q. case_decide as Hr; [|split; [by left|done]].
    destruct (h !! (2 * pos + 1)) as [c|]; [|split; [by left|done]].
    destruct (h !! (2 * pos + 1 + 1)) as [r|]; [|split; [by left|done]].
    destruct (negb (lt c r)); split; try done; [by right|by left]. }
  destruct Hq as [Hq Hql].
  destruct (lookup_lt_is_Some_2 h q Hql) as [c Hc'].
  rewrite Hc'.
  destruct (IH (<[pos:=c]> h) q) as (h' & p' & Hrun & Hlen & Hp' & Hperm).
  { by rewrite length_insert. }
  rewrite length_insert in Hrun, Hlen, Hp'.
  exists h', p'. split; [done|]. split; [done|]. split; [done|].
  intros x. rewrite Hperm. apply hole_move; [lia|done|done].
Qed.

Lemma siftup_perm h x : h !! 0 = Some x → Heapq.siftup lt h 0 ≡ₚ h.
Proof.
  intros Hx. unfold Heapq.siftup. rewrite Hx.
  pose proof (lookup_lt_Some _ _ _ Hx) as Hlen.
  destruct (siftup_loop_perm (length h) h 0 Hlen)
    as (h' & p' & Hrun & Hlen' & Hp' & Hperm).
  cbv zeta. rewrite Hrun. rewrite siftdown_perm, Hperm.
  by rewrite list_insert_id.
Qed.

Lemma heappop_perm h :
  h ≠ [] → ∃ m h', Heapq.heappop lt h = Some (m, h') ∧ h ≡ₚ m :: h'.
Proof.
  intros Hne. unfold Heapq.heappop.
  destruct (last h) as [lastelt|] eqn:Hlast; [|by apply last_None in Hlast].
  apply last_Some in Hlast as [h0 ->].
  rewrite length_app. simpl.
  replace (length h0 + 1 - 1) with (length h0) by lia.
  rewrite take_app_length.
  destruct h0 as [|m rest].
  - by exists lastelt, [].
  - exists m, (Heapq.siftup lt (<[0:=lastelt]> (m :: rest)) 0).
    split; [done|]. rewrite (siftup_perm _ lastelt) by done.
    simpl. constructor. by rewrite <-Permutation_cons_append.
Qed.

End heap_perm.

Section dijkstra_general.
Context {W : Type} `{Numero W} (g : Graph W) (Hwf : wf_graph g).

Lemma dijkstra_vecinos_gen src d u (vis : gset node) nbrs :
  alookup u (adj g) = Some nbrs → src ∈ vis → conn g src u →
  ∀ vec st, (∀ v, v ∈ vec → v ∈ nbrs.*1) → dijkstra_gen g src st →
    ∃ st', dijkstra_vecinos g d u vis st vec = Ok st'
      ∧ dijkstra_gen g src st'
      ∧ length (ds_heap st') ≤ length (ds_heap st) + length vec.
Proof.
  intros Hu Hsrc Hcu. induction vec as [|v vec IH]; intros st Hsub Hinv.
  { exists st. split; [done|]. split; [done|]. simpl. lia. }
  assert (Hsub' : ∀ v', v' ∈ vec → v' ∈ nbrs.*1) by (intros; apply Hsub; by right).
  cbn [dijkstra_vecinos]. case_decide as Hv.
  2:{ destruct (IH st Hsub' Hinv) as (st' & Hrun & Hinv' & Hlen).
      exists st'. split; [done|]. split; [done|]. simpl. lia. }
  assert (is_Some (alookup v nbrs)) as [w Hw].
  { apply alookup_is_Some, Hsub. by left. }
  assert (Hwe : weight g u v = Ok w) by (unfold weight; by rewrite Hu, Hw).
  assert (Hed : edge g u v w) by (by apply weight_edge).
  assert (Hvn : v ∈ nodes g) by (by eapply edge_node_r).
  assert (Hcv : conn g src v).
  { etrans; [exact Hcu|]. apply rtsc_lr. by exists w. }
  rewrite Hwe. cbn [mbind result_mbind result_bind].
  pose proof Hinv as [HdD HdP Hds Hps Hh Hl].
  destruct (proj2 (HdD v) Hvn) as [dv Hdv].
  unfold getitem. rewrite Hdv. cbn [mbind result_mbind result_bind].
  destruct (dist_lt (suma d w) dv).
  2:{ destruct (IH st Hsub' Hinv) as (st' & Hrun & Hinv' & Hlen).
      exists st'. split; [done|]. split; [done|]. simpl. lia. }
  assert (Hne : v ≠ src) by (intros ->; done).
  destruct (IH (mkDS (<[v:=Fin (suma d w)]> (distancias st))
                     (<[v:=Some u]> (predecesores st))
                     (Heapq.heappush dijkstra_lt (ds_heap st) (suma d w, v)))
              Hsub') as (st' & Hrun & Hinv' & Hlen).
  { split; simpl.
    - intros x. rewrite lookup_insert_is_Some', HdD.
      split; [by intros [->|?]|by right].
    - intros x. rewrite lookup_insert_is_Some', HdP.
      split; [by intros [->|?]|by right].
    - by rewrite lookup_insert_ne.
    - by rewrite lookup_insert_ne.
    - intros d' x. rewrite heappush_perm.
      intros [Heq|Hin]%elem_of_cons; [by simplify_eq|by eapply Hh].
    - intros x Hx Hnc. assert (x ≠ v) by (by intros ->).
      rewrite !lookup_insert_ne by done. by apply Hl. }
  exists st'. split; [done|]. split; [done|].
  simpl in Hlen. rewrite heappush_perm in Hlen. simpl in *. lia.
Qed.

Lemma dijkstra_loop_gen src fuel :
  ∀ (vis : gset node) st,
    src ∈ vis → dijkstra_gen g src st →
    length (ds_heap st) + pending g vis < fuel →
    ∃ D P, dijkstra_loop fuel g vis st = Ok (D, P)
           ∧ dijkstra_gen g src (mkDS D P []).
Proof.
  induction fuel as [|fuel IH]; intros vis st Hsrc Hinv Hfuel; [lia|].
  pose proof Hinv as [HdD HdP Hds Hps Hh Hl].
  assert (Hsn : src ∈ nodes g).
  { apply HdD. by eexists. }
  cbn [dijkstra_loop]. case_decide as Hne.
  2:{ exists (distancias st), (predecesores st). split; [done|].
      split; try done. by intros ?? ?%elem_of_nil. }
  destruct (heappop_perm dijkstra_lt _ Hne) as ([d u] & H1 & Hpop & Hperm).
  rewrite Hpop.
  assert (Hlen1 : length (ds_heap st) = length H1 + 1)
    by (rewrite Hperm; simpl; lia).
  assert (Hinv1 : dijkstra_gen g src (mkDS (distancias st) (predecesores st) H1)).
  { split; try done. simpl. intros d' x Hin. apply (Hh d' x).
    rewrite Hperm. by right. }
  case_decide as Hu.
  { apply IH; [done|done|simpl; lia]. }
  assert (Hcu : conn g src u).
  { apply (Hh d u). rewrite Hperm. by left. }
  assert (Hun : u ∈ nodes g) by (by eapply conn_nodes).
  destruct (neighbors_ok g Hwf u Hun) as (nbrs & Hnb & Hnbrs & Hnd).
  rewrite Hnbrs. cbn [mbind result_mbind result_bind].
  destruct (dijkstra_vecinos_gen src d u ({[u]} ∪ vis) nbrs Hnb) with
    (vec := nbrs.*1) (st := mkDS (distancias st) (predecesores st) H1)
    as (st' & Hrun & Hinv' & Hlen'); [set_solver|done|done|done|].
  rewrite Hrun. cbn [mbind result_mbind result_bind].
  apply IH; [set_solver|done|].
  pose proof (pending_visit g vis u nbrs Hwf Hnb Hu).
  rewrite length_fmap in Hlen'. simpl in Hlen'. lia.
Qed.

(** [algoritmo_dijkstra] from a node of the graph returns, with the
    entries of the source as they were initialised, and with the nodes
    that no chain of edges joins to the source left at infinity. *)
Lemma dijkstra_gen_ok src :
  src ∈ nodes g →
  ∃ D P, algoritmo_dijkstra g src = Ok (D, P)
         ∧ dijkstra_gen g src (mkDS D P []).
Proof.
  intros Hsrc. unfold algoritmo_dijkstra.
  rewrite decide_False by (by intros ?).
  rewrite <-pending_empty. remember (S (pending g ∅)) as f eqn:Hf.
  cbn [dijkstra_loop ds_heap distancias predecesores].
  rewrite decide_True by done.
  change (Heapq.heappop dijkstra_lt [(cero, src)])
    with (Some ((cero, src), @nil (dijkstra_entry W))).
  cbv beta iota. rewrite decide_False by set_solver.
  destruct (neighbors_ok g Hwf src Hsrc) as (nbrs & Hnb & Hnbrs & Hnd).
  rewrite Hnbrs. cbn [mbind result_mbind result_bind].
  set (st0 := mkDS _ _ _).
  assert (Hinv0 : dijkstra_gen g src st0).
  { split; simpl.
    - intros v. rewrite lookup_insert_is_Some', lookup_const_map.
      destruct (decide (v ∈ nodes g)) as [Hv|Hv].
      + split; [done|]. intros _. right. by eexists.
      + split; [|done]. intros [->|[? ?]]; done.
    - intros v. rewrite lookup_const_map. destruct (decide (v ∈ nodes g)).
      + split; [done|by eexists].
      + split; [by intros [? ?]|done].
    - by rewrite lookup_insert_eq.
    - rewrite lookup_const_map. by rewrite decide_True.
    - by intros ?? ?%elem_of_nil.
    - intros v Hv Hnc. assert (src ≠ v) by (by intros ->).
      rewrite lookup_insert_ne, !lookup_const_map by done.
      by rewrite !decide_True by done. }
  destruct (dijkstra_vecinos_gen src cero src ({[src]} ∪ ∅) nbrs Hnb) with
    (vec := nbrs.*1) (st := st0)
    as (st' & Hrun & Hinv' & Hlen'); [set_solver|done|done|done|].
  rewrite Hrun. cbn [mbind result_mbind result_bind].
  apply dijkstra_loop_gen; [set_solver|done|].
  assert (Hn0 : src ∉ (∅ : gset node)) by set_solver.
  pose proof (pending_visit g ∅ src nbrs Hwf Hnb Hn0).
  rewrite length_fmap in Hlen'. simpl in Hlen'. subst f. lia.
Qed.

(** From the source itself [reconstruir_camino] gives [None], whatever
    the graph and its weights: the source never gets a predecessor. *)
Lemma reconstruir_camino_source src :
  src ∈ nodes g →
  ∃ D P, algoritmo_dijkstra g src = Ok (D, P)
         ∧ reconstruir_camino src P = Ok None.
Proof.
  intros Hsrc. destruct (dijkstra_gen_ok src Hsrc) as (D & P & Hrun & Hinv).
  exists D, P. split; [done|]. apply reconstruir_camino_none.
  apply (dg_psrc _ _ _ Hinv).
Qed.

End dijkstra_general.

(** ** Float weights that are numbers: the runs are those of their ranks *)

Lemma sin_nan_pesos g w : sin_nan g → w ∈ pesos g → w ≠ S754_nan.
Proof.
  unfold sin_nan, pesos. intros Hnn ([v w'] & -> & Hin)%list_elem_of_fmap.
  apply elem_of_concat in Hin as (nbrs & Hin & Hn).
  apply list_elem_of_fmap in Hn as ([u nbrs'] & Heq & Hu). simpl in *. subst nbrs'.
  rewrite Forall_forall in Hnn. specialize (Hnn _ Hu). simpl in Hnn.
  rewrite Forall_forall in Hnn. by apply (Hnn (v, w')).
Qed.

Lemma rango_cero g : rango_peso g cero = 0%Z.
Proof. unfold rango_peso. lia. Qed.

Lemma rango_menor g a b :
  sin_nan g → a ∈ cero :: pesos g → b ∈ cero :: pesos g →
  menor (rango_peso g a) (rango_peso g b) = menor a b.
Proof.
  intros Hnn Ha Hb.
  assert (Hn : ∀ x, x ∈ cero :: pesos g → x ≠ S754_nan).
  { intros x [->|Hx]%elem_of_cons; [done|]. by eapply sin_nan_pesos. }
  change (menor a b) with (fmenor a b).
  rewrite fmenor_orden by auto.
  rewrite <-(rango_en_lt orden (cero :: pesos g) a b) by done.
  unfold rango_peso. simpl.
  generalize (rango_en orden (cero :: pesos g) a)
             (rango_en orden (cero :: pesos g) b)
             (rango_en orden (cero :: pesos g) cero).
  intros x y c. destruct (Z.ltb_spec (x - c) (y - c)), (Z.ltb_spec x y); lia.
Qed.

Lemma pairs_mapa {W1 W2} (f : W1 → W2) (T : list (node * node * W1)) :
  pairs (mapa_arista f <$> T) = pairs T.
Proof.
  unfold pairs. rewrite <-list_fmap_compose. apply list_fmap_ext.
  by intros i [[u v] w] _.
Qed.

Lemma weights_mapa {W1 W2} (f : W1 → W2) (T : list (node * node * W1)) :
  weights (mapa_arista f <$> T) = f <$> weights T.
Proof.
  unfold weights. rewrite <-!list_fmap_compose. apply list_fmap_ext.
  by intros i [[u v] w] _.
Qed.

Section rangos.
Context (g : Graph float) (Hwf : wf_graph g) (Hnn : sin_nan g).

#[local] Abbreviation gz := (graph_map (rango_peso g) g).

Lemma rango_wf : wf_graph gz.
Proof. by apply graph_map_wf. Qed.

(** Kruskal on the graph and on the graph of the ranks. *)
Lemma kruskal_rango :
  ∃ T tot totz, algoritmo_kruskal g = Ok (T, tot)
    ∧ algoritmo_kruskal gz = Ok (mapa_arista (rango_peso g) <$> T, totz)
    ∧ (∀ u v w, (u, v, w) ∈ T → edge g u v w)
    ∧ tot = suma_lista (weights T).
Proof.
  destruct (kruskal_ok gz rango_wf) as (Tz & totz & Hrunz & _).
  pose proof (algoritmo_kruskal_sim (rango_peso g) g Hwf
                (λ a b, rango_menor g a b Hnn)) as Hsim.
  rewrite Hrunz in Hsim.
  destruct (algoritmo_kruskal g) as [[T tot]| |] eqn:Hrun; [|done..].
  exists T, tot, totz. split; [done|].
  unfold res_sim, res_rel in Hsim. simpl in Hsim. rewrite <-Hsim.
  split; [done|]. by apply kruskal_result.
Qed.

(** Prim on the graph and on the graph of the ranks. *)
Lemma prim_rango start :
  start ∈ nodes g →
  ∃ T tot totz, algoritmo_prim g (Some start) = Ok (T, tot)
    ∧ algoritmo_prim gz (Some start)
      = Ok (mapa_arista (rango_peso g) <$> T, totz)
    ∧ (∀ u v w, (u, v, w) ∈ T → edge g u v w)
    ∧ tot = suma_lista (weights T).
Proof.
  intros Hstart.
  assert (Hstart' : start ∈ nodes gz) by (by rewrite graph_map_nodes).
  destruct (prim_ok gz rango_wf start Hstart') as (Tz & totz & S & Hrunz & _).
  pose proof (algoritmo_prim_sim (rango_peso g) g (rango_cero g)
                (λ a b, rango_menor g a b Hnn) (Some start)) as Hsim.
  rewrite Hrunz in Hsim.
  destruct (algoritmo_prim g (Some start)) as [[T tot]| |] eqn:Hrun; [|done..].
  exists T, tot, totz. split; [done|].
  unfold res_sim, res_rel in Hsim. simpl in Hsim. rewrite <-Hsim.
  split; [done|]. by eapply prim_result.
Qed.

Lemma rango_edge u v w : edge g u v w → edge gz u v (rango_peso g w).
Proof. intros He. apply graph_map_edge. by exists w. Qed.

Lemma rango_igual a b :
  a ∈ pesos g → b ∈ pesos g → rango_peso g a = rango_peso g b → igual a b.
Proof.
  intros Ha Hb Heq.
  pose proof (rango_menor g a b Hnn) as H1.
  pose proof (rango_menor g b a Hnn) as H2.
  rewrite Heq in H1, H2. simpl in H1, H2. rewrite Z.ltb_irrefl in H1, H2.
  split; symmetry; [apply H1|apply H2]; by right.
Qed.

End rangos.

(** X1 — Kruskal returns a spanning forest.  On every well-formed graph
    whose weights are numbers, [algoritmo_kruskal] returns edges of the
    graph, with their weights, that close no cycle and connect exactly
    the nodes that the graph connects, together with the sum of their
    weights, added in the order of the list. *)
Theorem kruskal_spanning_forest (g : Graph float) :
  wf_graph g → sin_nan g →
  ∃ T tot, algoritmo_kruskal g = Ok (T, tot)
    ∧ (∀ u v w, (u, v, w) ∈ T → edge g u v w)
    ∧ inc_forest (nodes g) (pairs T)
    ∧ tot = suma_lista (weights T)
    ∧ (∀ a b, linked (pairs T) a b ↔ conn g a b).
Proof.
  intros Hwf Hnn.
  destruct (kruskal_rango g Hwf Hnn) as (T & tot & totz & Hrun & Hrunz & He & Ht).
  destruct (kruskal_spanning_forest_Z _ (rango_wf g Hwf))
    as (Tz & totz' & Hrunz' & _ & Hf & _ & Hl).
  rewrite Hrunz in Hrunz'. injection Hrunz' as <- <-.
  rewrite pairs_mapa, graph_map_nodes in Hf.
  exists T, tot. split; [done|]. split; [done|]. split; [done|].
  split; [done|]. intros a b.
  by rewrite <-(graph_map_conn (rango_peso g) g), <-Hl, pairs_mapa.
Qed.

Lemma StronglySorted_fmap_inv {A B} (R1 : relation A) (R2 : relation B)
    (f : A → B) (l : list A) :
  (∀ a b, a ∈ l → b ∈ l → R2 (f a) (f b) → R1 a b) →
  StronglySorted R2 (f <$> l) → StronglySorted R1 l.
Proof.
  induction l as [|x l IH]; intros HR Hs; [constructor|].
  rewrite fmap_cons in Hs. apply StronglySorted_inv in Hs as [Hs Hx].
  constructor.
  - apply IH; [|done]. intros a b Ha Hb. apply HR; by right.
  - apply Forall_forall. intros y Hy. apply HR; [by left|by right|].
    rewrite Forall_forall in Hx. apply Hx. apply list_elem_of_fmap. by exists y.
Qed.

Lemma weights_pesos {W} (g : Graph W) (T : list (node * node * W)) w :
  (∀ u v w, (u, v, w) ∈ T → edge g u v w) → w ∈ weights T → w ∈ pesos g.
Proof.
  intros He ([[u v] w'] & -> & Hin)%list_elem_of_fmap. simpl.
  eapply edge_pesos. by apply He.
Qed.

(** X3 — Kruskal lists the edges in the order it accepted them, which is
    by weight: on a well-formed graph whose weights are numbers, the
    weights of the returned list never decrease. *)
Theorem kruskal_sorted (g : Graph float) :
  wf_graph g → sin_nan g →
  ∃ T tot, algoritmo_kruskal g = Ok (T, tot)
    ∧ StronglySorted no_mayor (weights T).
Proof.
  intros Hwf Hnn.
  destruct (kruskal_rango g Hwf Hnn) as (T & tot & totz & Hrun & Hrunz & He & Ht).
  destruct (kruskal_sorted_Z _ (rango_wf g Hwf)) as (Tz & totz' & Hrunz' & Hs).
  rewrite Hrunz in Hrunz'. injection Hrunz' as <- <-.
  exists T, tot. split; [done|]. rewrite weights_mapa in Hs.
  eapply StronglySorted_fmap_inv; [|exact Hs].
  intros a b Ha Hb Hle. unfold no_mayor.
  change (fmenor b a) with (menor b a).
  rewrite <-(rango_menor g b a Hnn) by (right; by apply (weights_pesos g T)).
  simpl. apply Z.ltb_ge. done.
Qed.

(** X4 — Prim returns a spanning tree of the component of its start
    node.  From a start node of a well-formed graph whose weights are
    numbers, [algoritmo_prim] returns edges of the graph, with their
    weights, that close no cycle and connect the start node to every node
    the graph connects it to, together with the sum of their weights,
    added in the order of the list. *)
Theorem prim_spanning_tree (g : Graph float) start :
  wf_graph g → sin_nan g → start ∈ nodes g →
  ∃ T tot, algoritmo_prim g (Some start) = Ok (T, tot)
    ∧ (∀ u v w, (u, v, w) ∈ T → edge g u v w)
    ∧ inc_forest (nodes g) (pairs T)
    ∧ tot = suma_lista (weights T)
    ∧ (∀ x, conn g start x → linked (pairs T) start x).
Proof.
  intros Hwf Hnn Hstart.
  destruct (prim_rango g Hwf Hnn start Hstart)
    as (T & tot & totz & Hrun & Hrunz & He & Ht).
  destruct (prim_spanning_tree_Z _ start (rango_wf g Hwf))
    as (Tz & totz' & Hrunz' & _ & Hf & _ & Hl).
  { by rewrite graph_map_nodes. }
  rewrite Hrunz in Hrunz'. injection Hrunz' as <- <-.
  rewrite pairs_mapa, graph_map_nodes in Hf.
  exists T, tot. split; [done|]. split; [done|]. split; [done|].
  split; [done|]. intros x Hx. rewrite <-(pairs_mapa (rango_peso g)).
  apply Hl. by apply graph_map_conn.
Qed.

(** X6 — Prim does not check its start node.  On a graph that has nodes,
    a start node that is not one of them is popped and marked visited,
    and the call [grafo.neighbors] then raises [NetworkXError]. *)
Theorem prim_unknown_start (g : Graph float) z :
  nodes g ≠ [] → z ∉ nodes g →
  algoritmo_prim g (Some z) = Raise (NetworkXError z).
Proof. apply prim_start_raises. Qed.

(** C3, as the code behaves — MST edge count.  On every well-formed
    graph of V nodes whose weights are numbers, [algoritmo_kruskal]
    returns V-k edges when the graph has k connected components;
    [algoritmo_prim] from a start node of the graph returns one edge less
    than there are nodes in the component of the start node; on a
    connected graph both return V-1 edges. *)
Theorem C3_mst_edge_count (g : Graph float) :
  wf_graph g → sin_nan g →
  (∀ k, n_components g k →
     ∃ T tot, algoritmo_kruskal g = Ok (T, tot)
              ∧ length T + k = length (nodes g)) ∧
  (∀ start, start ∈ nodes g →
     ∃ T tot comp, algoritmo_prim g (Some start) = Ok (T, tot)
       ∧ NoDup comp ∧ (∀ x, x ∈ comp ↔ conn g start x)
       ∧ length T + 1 = length comp) ∧
  (connected g →
     (∃ T tot, algoritmo_kruskal g = Ok (T, tot)
               ∧ length T + 1 = length (nodes g)) ∧
     (∀ start, start ∈ nodes g →
        ∃ T tot, algoritmo_prim g (Some start) = Ok (T, tot)
                 ∧ length T + 1 = length (nodes g))).
Proof.
  intros Hwf Hnn.
  destruct (mst_edge_count_Z _ (rango_wf g Hwf)) as (Hk & Hp & Hc).
  destruct (kruskal_rango g Hwf Hnn) as (T & tot & totz & Hrun & Hrunz & _).
  split; [|split].
  - intros k Hcomp. destruct (Hk k) as (Tz & totz' & Hrunz' & Hlen).
    { by apply graph_map_components. }
    rewrite Hrunz in Hrunz'. injection Hrunz' as <- <-.
    exists T, tot. split; [done|].
    by rewrite length_fmap, graph_map_nodes in Hlen.
  - intros start Hstart.
    destruct (prim_rango g Hwf Hnn start Hstart)
      as (T1 & tot1 & totz1 & Hrun1 & Hrunz1 & _).
    destruct (Hp start) as (Tz & totz' & comp & Hrunz' & Hnd & Hcomp & Hlen).
    { by rewrite graph_map_nodes. }
    rewrite Hrunz1 in Hrunz'. injection Hrunz' as <- <-.
    exists T1, tot1, comp. split; [done|]. split; [done|]. split.
    + intros x. by rewrite Hcomp, graph_map_conn.
    + by rewrite length_fmap in Hlen.
  - intros Hconn. destruct Hc as [Hck Hcp]; [by apply graph_map_connected|].
    split.
    + destruct Hck as (Tz & totz' & Hrunz' & Hlen).
      rewrite Hrunz in Hrunz'. injection Hrunz' as <- <-.
      exists T, tot. split; [done|].
      by rewrite length_fmap, graph_map_nodes in Hlen.
    + intros start Hstart.
      destruct (prim_rango g Hwf Hnn start Hstart)
        as (T1 & tot1 & totz1 & Hrun1 & Hrunz1 & _).
      destruct (Hcp start) as (Tz & totz' & Hrunz' & Hlen).
      { by rewrite graph_map_nodes. }
      rewrite Hrunz1 in Hrunz'. injection Hrunz' as <- <-.
      exists T1, tot1. split; [done|].
      by rewrite length_fmap, graph_map_nodes in Hlen.
Qed.

(** X20 — Prim and Kruskal pick edges of the same weights.  On a
    connected well-formed graph whose weights are numbers, the weights
    of the edges that [algoritmo_prim] returns are, counted with
    repetitions, the weights of the edges that [algoritmo_kruskal]
    returns; when no two edges of the graph have the same weight, the two
    return the same edges, each possibly with its ends in the other
    order. *)
Theorem prim_kruskal_same_edges (g : Graph float) :
  wf_graph g → sin_nan g → connected g →
  ∃ T2 tot2, algoritmo_kruskal g = Ok (T2, tot2)
    ∧ ∀ start, start ∈ nodes g →
        ∃ T1 tot1, algoritmo_prim g (Some start) = Ok (T1, tot1)
          ∧ mismos_pesos (weights T1) (weights T2)
          ∧ ((∀ u v w u' v' w', edge g u v w → edge g u' v' w' → igual w w' →
                (u = u' ∧ v = v') ∨ (u = v' ∧ v = u')) →
             ∀ u v w, (u, v, w) ∈ T1 → (u, v, w) ∈ T2 ∨ (v, u, w) ∈ T2).
Proof.
  intros Hwf Hnn Hconn.
  destruct (kruskal_rango g Hwf Hnn) as (T2 & tot2 & totz2 & Hrun2 & Hrunz2 & He2 & _).
  destruct (prim_kruskal_same_edges_Z _ (rango_wf g Hwf))
    as (Tz2 & totz2' & Hrunz2' & HZ); [by apply graph_map_connected|].
  rewrite Hrunz2 in Hrunz2'. injection Hrunz2' as <- <-.
  exists T2, tot2. split; [done|]. intros start Hstart.
  destruct (prim_rango g Hwf Hnn start Hstart)
    as (T1 & tot1 & totz1 & Hrun1 & Hrunz1 & He1 & _).
  destruct (HZ start) as (Tz1 & totz1' & Hrunz1' & Hperm & Hsame).
  { by rewrite graph_map_nodes. }
  rewrite Hrunz1 in Hrunz1'. injection Hrunz1' as <- <-.
  exists T1, tot1. split; [done|]. rewrite !weights_mapa in Hperm. split.
  - apply Permutation_map_inv in Hperm as (l & Heq & Hl).
    exists l. split; [done|].
    assert (Hin : ∀ x, x ∈ l → x ∈ pesos g).
    { intros x Hx. rewrite <-Hl in Hx. by apply (weights_pesos g T2). }
    assert (Hin1 : ∀ x, x ∈ weights T1 → x ∈ pesos g).
    { intros x Hx. by apply (weights_pesos g T1). }
    clear Hl. revert l Heq Hin Hin1.
    induction (weights T1) as [|a l1 IH]; intros [|b l] Heq Hin Hin1;
      try done; try (by constructor).
    injection Heq as Hab Heq. constructor.
    + apply (rango_igual g Hnn); [apply Hin1; by left|apply Hin; by left|done].
    + apply IH; [done|intros; apply Hin; by right|intros; apply Hin1; by right].
  - intros Hinj u v w Hin.
    assert (Hz : ∀ u v w u' v', edge (graph_map (rango_peso g) g) u v w →
              edge (graph_map (rango_peso g) g) u' v' w →
              (u = u' ∧ v = v') ∨ (u = v' ∧ v = u')).
    { intros a b c a' b' (w1 & Hw1 & ->)%graph_map_edge (w2 & Hw2 & Heq)%graph_map_edge.
      apply (Hinj a b w1 a' b' w2 Hw1 Hw2).
      apply (rango_igual g Hnn); [by eapply edge_pesos..|done]. }
    assert (∀ a b, (a, b, rango_peso g w) ∈ mapa_arista (rango_peso g) <$> T2 →
                   edge g a b w → (a, b, w) ∈ T2) as Hback.
    { intros a b ([[a' b'] w'] & [= -> -> Hr] & Hin')%list_elem_of_fmap Hed.
      by rewrite (edge_fun g a' b' w w' Hed (He2 _ _ _ Hin')). }
    destruct (Hsame Hz u v (rango_peso g w)) as [H2|H2].
    + apply list_elem_of_fmap. by exists (u, v, w).
    + left. apply Hback; [done|]. by apply He1.
    + right. apply Hback; [done|]. apply edge_sym; [done|]. by apply He1.
Qed.

(** ** Integer weights: the sums are exact *)

#[global] Instance acotado_dec g M : Decision (acotado g M).
Proof. unfold acotado. apply _. Defined.

Lemma foldl_suma_entero M (l : list Z) :
  ∀ a, Forall (λ w, (Z.abs w ≤ M)%Z) l →
    (Z.abs a + Z.of_nat (length l) * M < 2 ^ 53)%Z →
    foldl suma (entero a) (entero <$> l) = entero (a + sum_Z l).
Proof.
  induction l as [|w l IH]; intros a Hl Ha.
  { simpl. f_equal. unfold sum_Z. simpl. lia. }
  apply Forall_cons in Hl as [Hw Hl]. rewrite fmap_cons. cbn [foldl].
  rewrite length_cons, Nat2Z.inj_succ, Z.mul_succ_l in Ha.
  assert (0 ≤ Z.of_nat (length l) * M)%Z by nia.
  change (suma (entero a) (entero w)) with (fsuma (entero a) (entero w)).
  rewrite fsuma_entero by lia. rewrite IH; [|done|lia].
  f_equal. unfold sum_Z. simpl. lia.
Qed.

Lemma suma_lista_entero M (l : list Z) :
  Forall (λ w, (Z.abs w ≤ M)%Z) l →
  (Z.of_nat (length l) * M < 2 ^ 53)%Z →
  suma_lista (entero <$> l) = entero (sum_Z l).
Proof.
  intros Hl Hb. unfold suma_lista.
  change (cero (W:=float)) with (entero 0).
  by rewrite (foldl_suma_entero M) by (simpl; done || lia).
Qed.

Section enteros.
Context (g : Graph Z) (M : Z) (Hwf : wf_graph g) (Hac : acotado g M).

#[local] Abbreviation gf := (graph_map entero g).

Lemma acotado_peso w : w ∈ pesos g → (Z.abs w < 2 ^ 53)%Z.
Proof.
  intros Hw. destruct Hac as [Hall Hb]. rewrite Forall_forall in Hall.
  pose proof (Hall w Hw).
  destruct (pesos_edge g w Hwf Hw) as (u & v & He).
  pose proof (edge_node_l g u v w He) as Hu.
  destruct (nodes g) as [|n l]; [by apply elem_of_nil in Hu|].
  rewrite length_cons, Nat2Z.inj_succ in Hb. nia.
Qed.

Lemma entero_menor a b :
  a ∈ cero :: pesos g → b ∈ cero :: pesos g →
  menor (entero a) (entero b) = menor a b.
Proof.
  intros Ha Hb.
  assert (Hn : ∀ x, x ∈ cero :: pesos g → (Z.abs x < 2 ^ 53)%Z).
  { intros x [->|Hx]%elem_of_cons; [done|]. by apply acotado_peso. }
  apply fmenor_entero; by apply Hn.
Qed.

Lemma forest_suma T tot :
  forest_of g T tot →
  suma_lista (entero <$> weights T) = entero tot.
Proof.
  intros [Hf He ->]. destruct Hac as [Hall Hb].
  destruct (inc_forest_reps (nodes g) (pairs T)) as (reps & _ & Hlen);
    [by apply wf_nodup|done|].
  unfold pairs in Hlen. rewrite length_fmap in Hlen.
  apply (suma_lista_entero M).
  - apply Forall_forall. intros w Hw. rewrite Forall_forall in Hall.
    apply Hall. by apply (weights_pesos g T).
  - unfold weights. rewrite length_fmap.
    destruct T as [|[[u v] w] T]; [simpl; lia|].
    assert (Z.abs w ≤ M)%Z.
    { rewrite Forall_forall in Hall. apply Hall.
      eapply edge_pesos, He. by left. }
    nia.
Qed.

(** Kruskal on integer weights, run on their floats. *)
Lemma kruskal_entero :
  ∃ T tot, algoritmo_kruskal g = Ok (T, tot)
    ∧ algoritmo_kruskal gf = Ok (mapa_arista entero <$> T, entero tot)
    ∧ forest_of g T tot
    ∧ (∀ t a b, conn_le g t a b → linked (pairs (upto t T)) a b).
Proof.
  destruct (kruskal_ok g Hwf) as (T & tot & Hrun & Hfo & Hth).
  exists T, tot. split; [done|]. split; [|done].
  pose proof (algoritmo_kruskal_sim entero g Hwf entero_menor) as Hsim.
  rewrite Hrun in Hsim.
  destruct (algoritmo_kruskal gf) as [[Tf totf]| |] eqn:Hrunf; [|done..].
  unfold res_sim, res_rel in Hsim. simpl in Hsim. subst Tf.
  destruct (kruskal_result gf _ _ (graph_map_wf entero g Hwf) Hrunf) as [_ ->].
  rewrite weights_mapa. by rewrite (forest_suma T tot).
Qed.

(** Prim on integer weights, run on their floats. *)
Lemma prim_entero start :
  start ∈ nodes g →
  ∃ T tot S, algoritmo_prim g (Some start) = Ok (T, tot)
    ∧ algoritmo_prim gf (Some start)
      = Ok (mapa_arista entero <$> T, entero tot)
    ∧ prim_final g start S T tot.
Proof.
  intros Hstart.
  destruct (prim_ok g Hwf start Hstart) as (T & tot & S & Hrun & Hfin).
  exists T, tot, S. split; [done|]. split; [|done].
  pose proof (algoritmo_prim_sim entero g eq_refl entero_menor (Some start))
    as Hsim.
  rewrite Hrun in Hsim.
  destruct (algoritmo_prim gf (Some start)) as [[Tf totf]| |] eqn:Hrunf;
    [|done..].
  unfold res_sim, res_rel in Hsim. simpl in Hsim. subst Tf.
  destruct (prim_result gf _ _ _ Hrunf) as [_ ->].
  rewrite weights_mapa. rewrite (forest_suma T tot); [done|apply Hfin].
Qed.

End enteros.

(** Without a start node, the first node of the graph is taken. *)
Lemma prim_primero `{Numero W} (g : Graph W) primero resto :
  nodes g = primero :: resto →
  algoritmo_prim g None = algoritmo_prim g (Some primero).
Proof. intros Hn. unfold algoritmo_prim. by rewrite Hn. Qed.

(** X2 — Kruskal returns a minimum spanning forest when the sums are
    exact.  On a well-formed graph whose weights are integers, few and
    small enough for their sums to stay below 2^53, [algoritmo_kruskal]
    run on the floats of the weights returns the float of an integer
    total that is at most the total weight of any cycle-free list of
    edges of the graph that connects what the graph connects. *)
Theorem kruskal_minimum (g : Graph Z) M :
  wf_graph g → acotado g M →
  ∃ T tot, algoritmo_kruskal (graph_map entero g)
           = Ok (mapa_arista entero <$> T, entero tot)
    ∧ tot = sum_Z (weights T)
    ∧ ∀ T' tot', forest_of g T' tot' →
        (∀ a b, conn g a b → linked (pairs T') a b) → (tot ≤ tot')%Z.
Proof.
  intros Hwf Hac.
  destruct (kruskal_entero g M Hwf Hac) as (T & tot & Hrun & Hrunf & Hfo & Hth).
  exists T, tot. split; [done|]. split; [apply Hfo|].
  apply (threshold_forest_minimum g T); [done..|].
  intros t a b _ _. apply Hth.
Qed.

(** X7 — with non-negative integer weights and exact sums, no connecting
    set of edges is lighter than Kruskal's result: the total that
    [algoritmo_kruskal] returns on the floats of the weights is the float
    of an integer that is at most the sum of the weights of any list of
    edges of the graph that connects what the graph connects. *)
Theorem kruskal_minimum_connecting (g : Graph Z) M :
  wf_graph g → acotado g M → nonneg_weights g →
  ∃ T tot, algoritmo_kruskal (graph_map entero g)
           = Ok (mapa_arista entero <$> T, entero tot)
    ∧ ∀ T', (∀ u v w, (u, v, w) ∈ T' → edge g u v w) →
        (∀ a b, conn g a b → linked (pairs T') a b) →
        (tot ≤ sum_Z (weights T'))%Z.
Proof.
  intros Hwf Hac Hnn.
  destruct (kruskal_entero g M Hwf Hac) as (T & tot & Hrun & Hrunf & _).
  destruct (kruskal_minimum_connecting_Z g Hwf Hnn) as (T' & tot' & Hrun' & Hmin).
  rewrite Hrun in Hrun'. injection Hrun' as <- <-.
  by exists T, tot.
Qed.


(** C5, as the code behaves — MST weight equivalence.  On a connected
    well-formed graph whose weights are numbers, the edges that
    [algoritmo_prim] returns, from a start node of the graph or from the
    default one, have the weights of the edges that [algoritmo_kruskal]
    returns, counted with repetitions; each total is the float sum of the
    weights in the order of its own list; the two totals are equal when
    the weights are the floats of integers, few and small enough for
    their sums to stay below 2^53. *)
Theorem C5_prim_kruskal_same_weight (g : Graph float) :
  wf_graph g → sin_nan g → connected g →
  ∃ T2 tot2, algoritmo_kruskal g = Ok (T2, tot2)
    ∧ tot2 = suma_lista (weights T2)
    ∧ ∀ inicio, inicio = None ∨ (∃ s, inicio = Some s ∧ s ∈ nodes g) →
        ∃ T1 tot1, algoritmo_prim g inicio = Ok (T1, tot1)
          ∧ tot1 = suma_lista (weights T1)
          ∧ mismos_pesos (weights T1) (weights T2)
          ∧ (∀ gz M, wf_graph gz → acotado gz M → g = graph_map entero gz →
               tot1 = tot2).
Proof.
  intros Hwf Hnn Hconn.
  destruct (prim_kruskal_same_edges g Hwf Hnn Hconn) as (T2 & tot2 & Hrun2 & HP).
  exists T2, tot2. split; [done|].
  split; [by apply (kruskal_result g T2 tot2 Hwf)|].
  assert (H : ∀ s, s ∈ nodes g →
    ∃ T1 tot1, algoritmo_prim g (Some s) = Ok (T1, tot1)
      ∧ tot1 = suma_lista (weights T1)
      ∧ mismos_pesos (weights T1) (weights T2)
      ∧ (∀ gz M, wf_graph gz → acotado gz M → g = graph_map entero gz →
           tot1 = tot2)).
  { intros s Hs. destruct (HP s Hs) as (T1 & tot1 & Hrun1 & Hm & _).
    exists T1, tot1. split; [done|].
    split; [by apply (prim_result g (Some s) T1 tot1)|]. split; [done|].
    intros gz M Hwfz Hac ->.
    rewrite graph_map_nodes in Hs. apply graph_map_connected in Hconn.
    destruct (kruskal_entero gz M Hwfz Hac) as (Tz2 & totz2 & Hz2 & Hf2 & _).
    destruct (prim_entero gz M Hwfz Hac s Hs) as (Tz1 & totz1 & S & Hz1 & Hf1 & _).
    destruct (prim_kruskal_same_weight_Z gz Hwfz Hconn)
      as (Tz2' & totz & Hz2' & Hz1' & _).
    destruct (Hz1' s Hs) as (Tz1' & Hz1'').
    rewrite Hf2 in Hrun2. rewrite Hf1 in Hrun1.
    injection Hrun2 as _ <-. injection Hrun1 as _ <-.
    congruence. }
  intros inicio [->|(s & -> & Hs)]; [|by apply H].
  destruct Hconn as [Hne _].
  destruct (nodes g) as [|primero resto] eqn:Hn; [done|].
  rewrite (prim_primero g primero resto Hn). apply H. by left.
Qed.

(** ** Dijkstra on integer weights: the sums are exact *)

Lemma cota_mono K K' st : (K ≤ K')%Z → cota K st → cota K' st.
Proof.
  intros HK [Hh Hd]. split.
  - eapply Forall_impl; [exact Hh|]. intros e ?. simpl in *. lia.
  - intros v d Hv. specialize (Hd v d Hv). lia.
Qed.

Section dijkstra_entero.
Context (g : Graph Z) (M : Z) (Hwf : wf_graph g) (Hnn : nonneg_weights g).
Context (HM : (0 ≤ M)%Z) (Hac : acotado g M).

#[local] Abbreviation gf := (graph_map entero g).
#[local] Abbreviation F := (λ e : dijkstra_entry Z, (entero e.1, e.2)).

Lemma dijkstra_lt_entero K (a b : dijkstra_entry Z) :
  (K < 2 ^ 53)%Z → (0 ≤ a.1 ≤ K)%Z → (0 ≤ b.1 ≤ K)%Z →
  dijkstra_lt (F a) (F b) = dijkstra_lt a b.
Proof.
  intros HK Ha Hb. unfold dijkstra_lt, lex_lt. simpl.
  change (menor (entero ?x) (entero ?y)) with (fmenor (entero x) (entero y)).
  rewrite !fmenor_entero by lia. done.
Qed.

Lemma peso_cota u v w : edge g u v w → (0 ≤ w ≤ M)%Z.
Proof.
  intros He. split; [by eapply nonneg_edge|].
  destruct Hac as [Hall _]. rewrite Forall_forall in Hall.
  pose proof (Hall w (edge_pesos g u v w He)). lia.
Qed.

Lemma dijkstra_vecinos_entero K d u vis vec :
  (0 ≤ d)%Z → (d + M ≤ K)%Z → (K < 2 ^ 53)%Z →
  ∀ st, cota K st →
    res_rel (λ s1 s2, s2 = estado_map entero s1 ∧ cota K s1)
      (dijkstra_vecinos g d u vis st vec)
      (dijkstra_vecinos gf (entero d) u vis (estado_map entero st) vec).
Proof.
  intros Hd HdK HK. induction vec as [|v vec IH]; intros st Hst; [done|].
  cbn [dijkstra_vecinos]. case_decide; [|by apply IH].
  rewrite graph_map_weight.
  destruct (weight g u v) as [w| |] eqn:Hw; [|done..].
  cbn [mbind result_mbind result_bind].
  pose proof (peso_cota u v w (edge_of_weight g u v w Hw)) as Hwb.
  change (suma (entero d) (entero w)) with (fsuma (entero d) (entero w)).
  rewrite fsuma_entero by lia.
  unfold getitem. cbn [estado_map distancias predecesores ds_heap].
  rewrite lookup_fmap. enteros.
  destruct (distancias st !! v) as [dv|] eqn:Hdv; [|done].
  cbn [fmap option_fmap option_map mbind result_mbind result_bind].
  assert (dist_lt (entero (d + w)) (dist_map entero dv) = dist_lt (d + w) dv)
    as ->.
  { destruct dv as [b|]; simpl.
    - destruct Hst as [_ Htab]. specialize (Htab v b Hdv).
      apply fmenor_entero; simpl; lia.
    - apply fmenor_entero_inf. simpl. lia. }
  destruct (dist_lt (d + w) dv); [|by apply IH].
  set (st1 := mkDS (<[v:=Fin (d + w)]> (distancias st))
                   (<[v:=Some u]> (predecesores st))
                   (Heapq.heappush dijkstra_lt (ds_heap st) ((d + w)%Z, v))).
  assert (Hst1 : cota K st1).
  { destruct Hst as [Hh Htab]. split.
    - apply heappush_Forall; [done|]. simpl. lia.
    - intros x dx. simpl. rewrite lookup_insert_Some.
      intros [[_ [= <-]]|[_ Hx]]; [simpl; lia|by eapply Htab]. }
  assert (estado_map entero st1
          = mkDS (<[v:=Fin (entero (d + w))]> (dist_map entero <$> distancias st))
                 (<[v:=Some u]> (predecesores st))
                 (Heapq.heappush dijkstra_lt (F <$> ds_heap st)
                    (entero (d + w), v))) as <-.
  { unfold estado_map, st1. simpl. f_equal.
    - by rewrite fmap_insert.
    - symmetry.
      apply (heappush_sim dijkstra_lt dijkstra_lt F
               (λ e : dijkstra_entry Z, (0 ≤ e.1 ≤ K)%Z)
               (λ a b Ha Hb, dijkstra_lt_entero K a b HK Ha Hb)
               (ds_heap st) ((d + w)%Z, v)); [apply Hst|simpl; lia]. }
  by apply IH.
Qed.

Lemma dijkstra_loop_entero fuel :
  ∀ vis st, (∀ x, x ∈ vis → x ∈ nodes g) →
    cota (Z.of_nat (size vis) * M) st →
    res_rel (λ r1 r2, r2 = (dist_map entero <$> r1.1, r1.2))
      (dijkstra_loop fuel g vis st)
      (dijkstra_loop fuel gf vis (estado_map entero st)).
Proof.
  destruct Hac as [_ Hb].
  induction fuel as [|fuel IH]; intros vis st Hvis Hst; [done|].
  cbn [dijkstra_loop]. cbn [estado_map ds_heap distancias predecesores].
  assert (Hsz : ∀ u, u ∈ nodes g → u ∉ vis →
            (Z.of_nat (size ({[u]} ∪ vis)) * M < 2 ^ 53)%Z
            ∧ Z.of_nat (size ({[u]} ∪ vis)) = (Z.of_nat (size vis) + 1)%Z).
  { intros u Hu Hn.
    assert (size ({[u]} ∪ vis) ≤ length (nodes g)).
    { rewrite <-(size_list_to_set (C:=gset node) (nodes g)) by (by apply wf_nodup).
      apply subseteq_size. intros x [->%elem_of_singleton|Hx]%elem_of_union;
        apply elem_of_list_to_set; [done|by apply Hvis]. }
    rewrite size_union, size_singleton in * by set_solver. split; [nia|lia]. }
  destruct (decide (ds_heap st ≠ [])) as [Hne|Hne].
  2:{ rewrite decide_False; [done|]. intros Hne'. apply Hne. intros Heq.
      apply Hne'. by rewrite Heq. }
  rewrite decide_True by (by destruct (ds_heap st)).
  assert (HK : (Z.of_nat (size vis) * M < 2 ^ 53)%Z).
  { assert (Z.of_nat (size vis) ≤ Z.of_nat (length (nodes g)))%Z; [|nia].
    apply inj_le.
    rewrite <-(size_list_to_set (C:=gset node) (nodes g)) by (by apply wf_nodup).
    apply subseteq_size. intros x Hx. apply elem_of_list_to_set. by apply Hvis. }
  rewrite (heappop_sim dijkstra_lt dijkstra_lt F
             (λ e : dijkstra_entry Z, (0 ≤ e.1 ≤ Z.of_nat (size vis) * M)%Z)
             (λ a b Ha Hb, dijkstra_lt_entero _ a b HK Ha Hb)) by apply Hst.
  destruct (Heapq.heappop dijkstra_lt (ds_heap st)) as [[[d u] h1]|] eqn:Hpop;
    [|done].
  apply (heappop_Forall dijkstra_lt
           (λ e : dijkstra_entry Z, (0 ≤ e.1 ≤ Z.of_nat (size vis) * M)%Z))
    in Hpop as [Hd Hh1]; [|apply Hst].
  cbn [fmap option_fmap option_map fst snd]. simpl in Hd.
  set (st0 := mkDS (distancias st) (predecesores st) h1).
  assert (Hst0 : cota (Z.of_nat (size vis) * M) st0).
  { split; [done|apply Hst]. }
  case_decide.
  { by apply (IH vis st0). }
  rewrite graph_map_neighbors.
  destruct (neighbors g u) as [vecinos| |] eqn:Hn; [|done..].
  assert (Hu : u ∈ nodes g).
  { unfold neighbors in Hn. apply alookup_is_Some.
    destruct (alookup u (adj g)); [by eexists|done]. }
  destruct (Hsz u Hu) as [HK' Hsz']; [done|].
  cbn [mbind result_mbind result_bind].
  eapply res_rel_bind.
  - apply (dijkstra_vecinos_entero (Z.of_nat (size ({[u]} ∪ vis)) * M) d u
             ({[u]} ∪ vis) vecinos) with (st := st0); [lia|nia|done|].
    eapply cota_mono; [|exact Hst0]. nia.
  - intros s1 s2 [-> Hs1]. cbv beta. apply IH; [|done].
    intros x [->%elem_of_singleton|Hx]%elem_of_union; [done|by apply Hvis].
Qed.

End dijkstra_entero.

Lemma acotado_max g M : acotado g M → acotado g (Z.max M 0).
Proof.
  intros [Hall Hb]. split.
  - eapply Forall_impl; [exact Hall|]. intros w ?. simpl in *. lia.
  - destruct (Z.max_spec M 0) as [[? ->]|[? ->]]; [lia|done].
Qed.

Lemma dist_map_init {W1 W2} (f : W1 → W2) (l : list node) :
  dist_map f <$> (list_to_map ((λ n, (n, Inf)) <$> l) : gmap node (dist W1))
  = list_to_map ((λ n, (n, Inf)) <$> l).
Proof.
  induction l as [|n l IH]; [apply fmap_empty|].
  simpl. rewrite fmap_insert. simpl. f_equal. exact IH.
Qed.

(** Dijkstra on non-negative integer weights, run on their floats. *)
Lemma dijkstra_entero (g : Graph Z) M src D P :
  wf_graph g → nonneg_weights g → acotado g M →
  algoritmo_dijkstra g src = Ok (D, P) →
  algoritmo_dijkstra (graph_map entero g) src = Ok (dist_map entero <$> D, P).
Proof.
  intros Hwf Hnn Hac%acotado_max. unfold algoritmo_dijkstra.
  rewrite graph_map_nodes, graph_map_fuel. case_decide; [done|].
  intros Hrun.
  set (st := mkDS (<[src:=Fin cero]> (list_to_map ((λ n, (n, Inf)) <$> nodes g)))
                  (list_to_map ((λ n, (n, None)) <$> nodes g))
                  [(cero (W:=Z), src)]) in *.
  assert (Hc : cota (Z.of_nat (size (∅ : gset node)) * Z.max M 0) st).
  { rewrite size_empty. split.
    - apply Forall_singleton. simpl. lia.
    - intros v d. simpl. rewrite lookup_insert_Some.
      intros [[_ [= <-]]|[_ Hv]]; [simpl; lia|].
      by apply elem_of_list_to_map_2, list_elem_of_fmap in Hv as (? & [= _ ?] & _). }
  assert (Hv : ∀ x, x ∈ (∅ : gset node) → x ∈ nodes g) by set_solver.
  pose proof (dijkstra_loop_entero g (Z.max M 0) Hwf Hnn (Z.le_max_r _ _) Hac
                (fuel_of g) ∅ st Hv Hc) as Hsim.
  rewrite Hrun in Hsim.
  assert (estado_map entero st
          = mkDS (<[src:=Fin cero]> (list_to_map ((λ n, (n, Inf)) <$> nodes g)))
                 (list_to_map ((λ n, (n, None)) <$> nodes g))
                 [(cero, src)]) as Heq.
  { unfold estado_map, st. simpl. f_equal.
    by rewrite fmap_insert, dist_map_init. }
  rewrite Heq in Hsim.
  destruct (dijkstra_loop _ (graph_map entero g) _ _) as [r| |]; simpl in Hsim;
    [by rewrite Hsim|done..].
Qed.

Lemma dist_map_lookup {W1 W2} (f : W1 → W2) (D : gmap node (dist W1)) v :
  (dist_map f <$> D) !! v = dist_map f <$> D !! v.
Proof. apply lookup_fmap. Qed.

Lemma dist_map_Fin {W1 W2} (f : W1 → W2) (D : gmap node (dist W1)) v d :
  D !! v = Some (Fin d) → (dist_map f <$> D) !! v = Some (Fin (f d)).
Proof. intros H. by rewrite lookup_fmap, H. Qed.

Lemma dist_map_Inf {W1 W2} (f : W1 → W2) (D : gmap node (dist W1)) v :
  (dist_map f <$> D) !! v = Some Inf ↔ D !! v = Some Inf.
Proof.
  rewrite lookup_fmap. destruct (D !! v) as [[d|]|]; simpl; split; done.
Qed.

Lemma dist_map_is_Some {W1 W2} (f : W1 → W2) (D : gmap node (dist W1)) v :
  is_Some ((dist_map f <$> D) !! v) ↔ is_Some (D !! v).
Proof. rewrite lookup_fmap. apply fmap_is_Some. Qed.


(** C8 — unknown source.  For a source that is not a node of the graph
    [algoritmo_dijkstra] raises [ValueError] at once: no distance and no
    predecessor map is returned. *)
Theorem C8_dijkstra_unknown_source (g : Graph float) src :
  src ∉ nodes g →
  algoritmo_dijkstra g src
  = Raise (ValueError ("El nodo origen '" +:+ src
                         +:+ "' no existe en el grafo")).
Proof. intros Hsrc. unfold algoritmo_dijkstra. by rewrite decide_True. Qed.

(** X8 — [reconstruir_camino] returns a shortest path when the sums are
    exact.  After [algoritmo_dijkstra] on the floats of non-negative
    integer weights, few and small enough for their sums to stay below
    2^53, from a source of a well-formed graph, for every node other than
    the source that a walk from the source reaches, [reconstruir_camino]
    returns a list of nodes that is a walk of the graph from the source
    to that node, whose total weight is the recorded distance, the least
    weight of any walk between the two. *)
Theorem reconstruir_camino_shortest (g : Graph Z) M src :
  wf_graph g → nonneg_weights g → acotado g M → src ∈ nodes g →
  ∃ D P, algoritmo_dijkstra (graph_map entero g) src = Ok (D, P)
    ∧ ∀ v, reachable g src v → v ≠ src →
        ∃ camino d, reconstruir_camino v P = Ok (Some camino)
          ∧ D !! v = Some (Fin (entero d))
          ∧ camino_de g src camino v d
          ∧ head camino = Some src ∧ last camino = Some v
          ∧ ∀ d', path g src v d' → (d ≤ d')%Z.
Proof.
  intros Hwf Hnn Hac Hsrc.
  destruct (reconstruir_camino_shortest_Z g src Hwf Hnn Hsrc) as (D & P & Hrun & H).
  exists (dist_map entero <$> D), P.
  split; [by apply (dijkstra_entero g M)|].
  intros v Hv Hne. destruct (H v Hv Hne) as (camino & d & Hrec & Hd & Hrest).
  exists camino, d. split; [done|]. split; [by apply dist_map_Fin|done].
Qed.

(** X9 — [obtener_aristas_caminos] returns the tree of shortest paths
    when the sums are exact.  On the predecessors that
    [algoritmo_dijkstra] returns on the floats of non-negative integer
    weights, few and small enough for their sums to stay below 2^53, it
    lists one pair (predecessor, node) for every node other than the
    source that a walk from the source reaches, and no other pair; every
    pair is an edge of the graph along which the distance of the node is
    the distance of the predecessor plus the weight of the edge. *)
Theorem obtener_aristas_caminos_tree (g : Graph Z) M src :
  wf_graph g → nonneg_weights g → acotado g M → src ∈ nodes g →
  ∃ D P, algoritmo_dijkstra (graph_map entero g) src = Ok (D, P)
    ∧ let aristas :=
        obtener_aristas_caminos
          (dict_items (nodes (graph_map entero g)) P) src in
      NoDup aristas.*2
      ∧ (∀ v, v ∈ aristas.*2 ↔ reachable g src v ∧ v ≠ src)
      ∧ (∀ p v, (p, v) ∈ aristas →
           ∃ w dp, edge (graph_map entero g) p v (entero w)
                   ∧ D !! p = Some (Fin (entero dp))
                   ∧ D !! v = Some (Fin (entero (dp + w)))).
Proof.
  intros Hwf Hnn Hac Hsrc.
  destruct (obtener_aristas_caminos_tree_Z g src Hwf Hnn Hsrc)
    as (D & P & Hrun & Hnd & Hel & Hed).
  exists (dist_map entero <$> D), P.
  split; [by apply (dijkstra_entero g M)|].
  cbv zeta. rewrite graph_map_nodes. split; [done|]. split; [done|].
  intros p v Hin. destruct (Hed p v Hin) as (w & dp & He & Hp & Hv).
  exists w, dp. split; [apply graph_map_edge; by exists w|].
  split; by apply dist_map_Fin.
Qed.

(** X13 — the two dictionaries of [algoritmo_dijkstra] when the sums are
    exact.  On the floats of non-negative integer weights, few and small
    enough for their sums to stay below 2^53, both have one entry per
    node of the graph and no other key; the distance is infinite exactly
    at the nodes no walk from the source reaches; the predecessor is
    [None] exactly at the source and at those nodes, and is otherwise a
    node with a finite distance. *)
Theorem dijkstra_tables (g : Graph Z) M src :
  wf_graph g → nonneg_weights g → acotado g M → src ∈ nodes g →
  ∃ D P, algoritmo_dijkstra (graph_map entero g) src = Ok (D, P)
    ∧ (∀ v, is_Some (D !! v) ↔ v ∈ nodes (graph_map entero g))
    ∧ (∀ v, is_Some (P !! v) ↔ v ∈ nodes (graph_map entero g))
    ∧ (∀ v, D !! v = Some Inf ↔ v ∈ nodes g ∧ ¬ reachable g src v)
    ∧ (∀ v, P !! v = Some None ↔
            v ∈ nodes g ∧ (v = src ∨ ¬ reachable g src v))
    ∧ (∀ v p, P !! v = Some (Some p) →
              ∃ dp, D !! p = Some (Fin (entero dp))).
Proof.
  intros Hwf Hnn Hac Hsrc.
  destruct (dijkstra_tables_Z g src Hwf Hnn Hsrc)
    as (D & P & Hrun & HdD & HdP & Hinf & Hnone & Hpred).
  exists (dist_map entero <$> D), P.
  split; [by apply (dijkstra_entero g M)|]. rewrite graph_map_nodes.
  split; [intros v; by rewrite dist_map_is_Some|]. split; [done|].
  split; [intros v; by rewrite dist_map_Inf|]. split; [done|].
  intros v p Hp. destruct (Hpred v p Hp) as [dp Hdp].
  exists dp. by apply dist_map_Fin.
Qed.

(** ** Example graphs *)

Lemma wf_triangulo_Z : wf_graph triangulo_Z.
Proof. apply grafo_de_filas_wf. Qed.
Lemma wf_dos_aristas_Z : wf_graph dos_aristas_Z.
Proof. apply grafo_de_filas_wf. Qed.
Lemma wf_grafo_triangulo : wf_graph grafo_triangulo.
Proof. apply graph_map_wf, wf_triangulo_Z. Qed.
Lemma wf_grafo_dos_aristas : wf_graph grafo_dos_aristas.
Proof. apply graph_map_wf, wf_dos_aristas_Z. Qed.
Lemma wf_grafo_decimal : wf_graph grafo_decimal.
Proof. apply grafo_de_filas_wf. Qed.

Lemma sin_nan_triangulo : sin_nan grafo_triangulo.
Proof. apply (bool_decide_unpack _). by vm_compute. Defined.
Lemma sin_nan_dos_aristas : sin_nan grafo_dos_aristas.
Proof. apply (bool_decide_unpack _). by vm_compute. Defined.
Lemma sin_nan_decimal : sin_nan grafo_decimal.
Proof. apply (bool_decide_unpack _). by vm_compute. Defined.

Lemma nonneg_triangulo_Z : nonneg_weights triangulo_Z.
Proof. apply (bool_decide_unpack _). by vm_compute. Defined.
Lemma acotado_triangulo_Z : acotado triangulo_Z 3.
Proof. apply (bool_decide_unpack _). by vm_compute. Defined.
Lemma nonneg_dos_aristas_Z : nonneg_weights dos_aristas_Z.
Proof. apply (bool_decide_unpack _). by vm_compute. Defined.
Lemma acotado_dos_aristas_Z : acotado dos_aristas_Z 1.
Proof. apply (bool_decide_unpack _). by vm_compute. Defined.

(** A graph in which the first node has an edge to every other node is
    connected. *)
Lemma connected_estrella {W} (g : Graph W) centro resto :
  nodes g = centro :: resto →
  Forall (λ u, ∃ w, weight g centro u = Ok w) resto →
  connected g.
Proof.
  intros Hn Hall. rewrite Forall_forall in Hall.
  assert (HA : ∀ u, u ∈ nodes g → conn g centro u).
  { intros u. rewrite Hn. intros [->|Hu]%elem_of_cons; [done|].
    destruct (Hall u Hu) as [w Hw]. apply rtsc_lr. exists w.
    by apply edge_of_weight. }
  split; [by rewrite Hn|].
  intros u v Hu Hv. etrans; [symmetry; by apply HA|by apply HA].
Qed.

Lemma connected_triangulo_Z : connected triangulo_Z.
Proof.
  apply (connected_estrella _ "A" ["B"; "C"]); [done|].
  repeat constructor; by eexists.
Defined.

Lemma connected_grafo_triangulo : connected grafo_triangulo.
Proof. apply graph_map_connected, connected_triangulo_Z. Defined.

(** The nodes A and B of the two separate edges are not connected to C
    and D. *)
Lemma dos_aristas_separadas x y :
  conn dos_aristas_Z x y → x ∈ ({["A"; "B"]} : gset node) →
  y ∈ ({["A"; "B"]} : gset node).
Proof.
  apply closed_conn; [exact wf_dos_aristas_Z|].
  intros a b w Ha He. unfold edge in He.
  assert (a = "A" ∨ a = "B") as [->| ->] by set_solver.
  - change (alookup "A" (adj dos_aristas_Z)) with (Some [("B", 1%Z)]) in He.
    simpl in He. case_decide; [set_solver|done].
  - change (alookup "B" (adj dos_aristas_Z)) with (Some [("A", 1%Z)]) in He.
    simpl in He. case_decide; [set_solver|done].
Qed.

Lemma components_dos_aristas_Z : n_components dos_aristas_Z 2.
Proof.
  exists ["A"; "C"]. split; [|done]. split.
  - apply (bool_decide_unpack _). by vm_compute.
  - change (nodes dos_aristas_Z) with ["A"; "B"; "C"; "D"]. set_solver.
  - intros r1 r2 Hr1 Hr2 Hc.
    assert (r1 = "A" ∨ r1 = "C") as [->| ->] by set_solver;
    assert (r2 = "A" ∨ r2 = "C") as [->| ->] by set_solver; try done.
    + apply dos_aristas_separadas in Hc; set_solver.
    + symmetry in Hc. apply dos_aristas_separadas in Hc; set_solver.
  - intros v Hv. change (nodes dos_aristas_Z) with ["A"; "B"; "C"; "D"] in Hv.
    apply elem_of_cons in Hv as [->|Hv]; [exists "A"; split; [set_solver|done]|].
    apply elem_of_cons in Hv as [->|Hv].
    { exists "A". split; [set_solver|]. apply rtsc_lr. exists 1%Z.
      by apply edge_of_weight. }
    apply elem_of_cons in Hv as [->|Hv]; [exists "C"; split; [set_solver|done]|].
    apply elem_of_cons in Hv as [->|Hv]; [|by apply elem_of_nil in Hv].
    exists "C". split; [set_solver|]. apply rtsc_lr. exists 1%Z.
    by apply edge_of_weight.
Qed.

Lemma components_grafo_dos_aristas : n_components grafo_dos_aristas 2.
Proof. apply graph_map_components, components_dos_aristas_Z. Qed.

(** The example graphs are the graphs built from the rows with the floats
    of the weights. *)
Lemma grafo_triangulo_filas :
  grafo_triangulo
  = grafo_de_filas [("A", "B", entero 1); ("B", "C", entero 2);
                    ("A", "C", entero 3)].
Proof. exact (graph_map_filas entero filas_triangulo). Qed.

Lemma grafo_dos_aristas_filas :
  grafo_dos_aristas
  = grafo_de_filas [("A", "B", entero 1); ("C", "D", entero 1)].
Proof. exact (graph_map_filas entero filas_dos_aristas). Qed.

Lemma no_negativos_dos_aristas : no_negativos grafo_dos_aristas.
Proof. apply (bool_decide_unpack _). by vm_compute. Qed.
Lemma no_negativos_decimal : no_negativos grafo_decimal.
Proof. apply (bool_decide_unpack _). by vm_compute. Qed.

Lemma connected_decimal : connected grafo_decimal.
Proof.
  assert (HDC : conn grafo_decimal "D" "C").
  { apply rtsc_lr. eexists. by apply edge_of_weight. }
  assert (HCB : conn grafo_decimal "C" "B").
  { apply rtsc_lr. eexists. by apply edge_of_weight. }
  assert (HBA : conn grafo_decimal "B" "A").
  { apply rtsc_lr. eexists. by apply edge_of_weight. }
  assert (HA : ∀ u, u ∈ nodes grafo_decimal → conn grafo_decimal "D" u).
  { intros u. change (nodes grafo_decimal) with ["D"; "C"; "B"; "A"].
    intros Hu. repeat (apply elem_of_cons in Hu as [->|Hu]);
      [done|done|by etrans|by do 2 (etrans; [eassumption|])|].
    by apply elem_of_nil in Hu. }
  split; [by change (nodes grafo_decimal) with ["D"; "C"; "B"; "A"]|].
  intros u v Hu Hv. etrans; [symmetry; by apply HA|by apply HA].
Qed.

(** ** The claims on the example graphs *)

(** C2, the failing input — on the two separate edges, from the source A,
    [reconstruir_camino] answers [None] for the target A, the source
    itself, exactly as it does for the unreachable target C; a reachable
    target gets its path. *)
Theorem C2_reconstruir_camino_source_none :
  ∃ D P, algoritmo_dijkstra grafo_dos_aristas "A" = Ok (D, P)
    ∧ reconstruir_camino "A" P = Ok None
    ∧ reconstruir_camino "C" P = Ok None
    ∧ reconstruir_camino "B" P = Ok (Some ["A"; "B"]).
Proof.
  eexists _, _. split; [vm_compute; reflexivity|].
  repeat split; vm_compute; reflexivity.
Qed.

Lemma C3_mst_edge_count_witness :
  (∀ k, n_components grafo_triangulo k →
     ∃ T tot, algoritmo_kruskal grafo_triangulo = Ok (T, tot)
              ∧ length T + k = length (nodes grafo_triangulo)) ∧
  (∀ start, start ∈ nodes grafo_triangulo →
     ∃ T tot comp, algoritmo_prim grafo_triangulo (Some start) = Ok (T, tot)
       ∧ NoDup comp ∧ (∀ x, x ∈ comp ↔ conn grafo_triangulo start x)
       ∧ length T + 1 = length comp) ∧
  (connected grafo_triangulo →
     (∃ T tot, algoritmo_kruskal grafo_triangulo = Ok (T, tot)
               ∧ length T + 1 = length (nodes grafo_triangulo)) ∧
     (∀ start, start ∈ nodes grafo_triangulo →
        ∃ T tot, algoritmo_prim grafo_triangulo (Some start) = Ok (T, tot)
                 ∧ length T + 1 = length (nodes grafo_triangulo))).
Proof.
  apply (C3_mst_edge_count grafo_triangulo).
  - exact wf_grafo_triangulo.
  - exact sin_nan_triangulo.
Defined.

(** C3 fails for Prim on a graph that is not connected: on the two
    separate edges (V = 4, k = 2) Prim from A returns one edge, not two. *)
Lemma C3_prim_counterexample :
  wf_graph grafo_dos_aristas ∧ sin_nan grafo_dos_aristas
  ∧ no_negativos grafo_dos_aristas
  ∧ n_components grafo_dos_aristas 2
  ∧ "A" ∈ nodes grafo_dos_aristas
  ∧ algoritmo_prim grafo_dos_aristas (Some "A")
    = Ok ([("A", "B", entero 1)], entero 1)
  ∧ length [("A", "B", entero 1)] + 2 ≠ length (nodes grafo_dos_aristas).
Proof.
  split; [exact wf_grafo_dos_aristas|]. split; [exact sin_nan_dos_aristas|].
  split; [exact no_negativos_dos_aristas|].
  split; [exact components_grafo_dos_aristas|].
  split; [by left|]. split; [by vm_compute|]. by vm_compute.
Qed.



Lemma C5_prim_kruskal_same_weight_witness :
  ∃ T2 tot2, algoritmo_kruskal grafo_triangulo = Ok (T2, tot2)
    ∧ tot2 = suma_lista (weights T2)
    ∧ ∀ inicio,
        inicio = None ∨ (∃ s, inicio = Some s ∧ s ∈ nodes grafo_triangulo) →
        ∃ T1 tot1, algoritmo_prim grafo_triangulo inicio = Ok (T1, tot1)
          ∧ tot1 = suma_lista (weights T1)
          ∧ mismos_pesos (weights T1) (weights T2)
          ∧ (∀ gz M, wf_graph gz → acotado gz M →
               grafo_triangulo = graph_map entero gz → tot1 = tot2).
Proof.
  apply (C5_prim_kruskal_same_weight grafo_triangulo).
  - exact wf_grafo_triangulo.
  - exact sin_nan_triangulo.
  - exact connected_grafo_triangulo.
Defined.

(** C5 fails when the sums of the weights are rounded.  On the rows
    D,C,0.3 / C,B,0.2 / B,A,0.1 both return the three edges; Kruskal adds
    0.1 + 0.2 + 0.3 and returns 0.6000000000000001, Prim, from the
    default start node D, adds 0.3 + 0.2 + 0.1 and returns 0.6. *)
Lemma C5_totals_counterexample :
  wf_graph grafo_decimal ∧ sin_nan grafo_decimal
  ∧ no_negativos grafo_decimal ∧ connected grafo_decimal
  ∧ algoritmo_kruskal grafo_decimal
    = Ok ([("B", "A", flotante 3602879701896397 (-55));
           ("C", "B", flotante 3602879701896397 (-54));
           ("D", "C", flotante 5404319552844595 (-54))],
          flotante 5404319552844596 (-53))
  ∧ algoritmo_prim grafo_decimal None
    = Ok ([("D", "C", flotante 5404319552844595 (-54));
           ("C", "B", flotante 3602879701896397 (-54));
           ("B", "A", flotante 3602879701896397 (-55))],
          flotante 5404319552844595 (-53))
  ∧ flotante 5404319552844596 (-53) ≠ flotante 5404319552844595 (-53).
Proof.
  split; [exact wf_grafo_decimal|]. split; [exact sin_nan_decimal|].
  split; [exact no_negativos_decimal|]. split; [exact connected_decimal|].
  split; [by vm_compute|]. split; by vm_compute.
Qed.

Lemma C8_dijkstra_unknown_source_witness :
  algoritmo_dijkstra grafo_triangulo "Z"
  = Raise (ValueError "El nodo origen 'Z' no existe en el grafo").
Proof.
  apply (C8_dijkstra_unknown_source grafo_triangulo "Z").
  change (nodes grafo_triangulo) with ["A"; "B"; "C"]. set_solver.
Defined.

(** ** The further properties on the example graphs *)

Lemma kruskal_spanning_forest_witness :
  ∃ T tot, algoritmo_kruskal grafo_dos_aristas = Ok (T, tot)
    ∧ (∀ u v w, (u, v, w) ∈ T → edge grafo_dos_aristas u v w)
    ∧ inc_forest (nodes grafo_dos_aristas) (pairs T)
    ∧ tot = suma_lista (weights T)
    ∧ (∀ a b, linked (pairs T) a b ↔ conn grafo_dos_aristas a b).
Proof.
  apply (kruskal_spanning_forest grafo_dos_aristas).
  - exact wf_grafo_dos_aristas.
  - exact sin_nan_dos_aristas.
Defined.

Lemma kruskal_minimum_witness :
  ∃ T tot, algoritmo_kruskal (graph_map entero triangulo_Z)
           = Ok (mapa_arista entero <$> T, entero tot)
    ∧ tot = sum_Z (weights T)
    ∧ ∀ T' tot', forest_of triangulo_Z T' tot' →
        (∀ a b, conn triangulo_Z a b → linked (pairs T') a b) →
        (tot ≤ tot')%Z.
Proof.
  apply (kruskal_minimum triangulo_Z 3).
  - exact wf_triangulo_Z.
  - exact acotado_triangulo_Z.
Defined.

Lemma kruskal_sorted_witness :
  ∃ T tot, algoritmo_kruskal grafo_triangulo = Ok (T, tot)
    ∧ StronglySorted no_mayor (weights T).
Proof.
  apply (kruskal_sorted grafo_triangulo).
  - exact wf_grafo_triangulo.
  - exact sin_nan_triangulo.
Defined.

Lemma prim_spanning_tree_witness :
  ∃ T tot, algoritmo_prim grafo_dos_aristas (Some "C") = Ok (T, tot)
    ∧ (∀ u v w, (u, v, w) ∈ T → edge grafo_dos_aristas u v w)
    ∧ inc_forest (nodes grafo_dos_aristas) (pairs T)
    ∧ tot = suma_lista (weights T)
    ∧ (∀ x, conn grafo_dos_aristas "C" x → linked (pairs T) "C" x).
Proof.
  apply (prim_spanning_tree grafo_dos_aristas "C").
  - exact wf_grafo_dos_aristas.
  - exact sin_nan_dos_aristas.
  - change (nodes grafo_dos_aristas) with ["A"; "B"; "C"; "D"]. set_solver.
Defined.


Lemma prim_unknown_start_witness :
  algoritmo_prim grafo_triangulo (Some "Z") = Raise (NetworkXError "Z").
Proof.
  apply (prim_unknown_start grafo_triangulo "Z").
  - by change (nodes grafo_triangulo) with ["A"; "B"; "C"].
  - change (nodes grafo_triangulo) with ["A"; "B"; "C"]. set_solver.
Defined.

Lemma kruskal_minimum_connecting_witness :
  ∃ T tot, algoritmo_kruskal (graph_map entero triangulo_Z)
           = Ok (mapa_arista entero <$> T, entero tot)
    ∧ ∀ T', (∀ u v w, (u, v, w) ∈ T' → edge triangulo_Z u v w) →
        (∀ a b, conn triangulo_Z a b → linked (pairs T') a b) →
        (tot ≤ sum_Z (weights T'))%Z.
Proof.
  apply (kruskal_minimum_connecting triangulo_Z 3).
  - exact wf_triangulo_Z.
  - exact acotado_triangulo_Z.
  - exact nonneg_triangulo_Z.
Defined.

Lemma prim_kruskal_same_edges_witness :
  ∃ T2 tot2, algoritmo_kruskal grafo_triangulo = Ok (T2, tot2)
    ∧ ∀ start, start ∈ nodes grafo_triangulo →
        ∃ T1 tot1, algoritmo_prim grafo_triangulo (Some start) = Ok (T1, tot1)
          ∧ mismos_pesos (weights T1) (weights T2)
          ∧ ((∀ u v w u' v' w', edge grafo_triangulo u v w →
                edge grafo_triangulo u' v' w' → igual w w' →
                (u = u' ∧ v = v') ∨ (u = v' ∧ v = u')) →
             ∀ u v w, (u, v, w) ∈ T1 → (u, v, w) ∈ T2 ∨ (v, u, w) ∈ T2).
Proof.
  apply (prim_kruskal_same_edges grafo_triangulo).
  - exact wf_grafo_triangulo.
  - exact sin_nan_triangulo.
  - exact connected_grafo_triangulo.
Defined.

Lemma reconstruir_camino_shortest_witness :
  ∃ D P, algoritmo_dijkstra (graph_map entero triangulo_Z) "A" = Ok (D, P)
    ∧ ∀ v, reachable triangulo_Z "A" v → v ≠ "A" →
        ∃ camino d, reconstruir_camino v P = Ok (Some camino)
          ∧ D !! v = Some (Fin (entero d))
          ∧ camino_de triangulo_Z "A" camino v d
          ∧ head camino = Some "A" ∧ last camino = Some v
          ∧ ∀ d', path triangulo_Z "A" v d' → (d ≤ d')%Z.
Proof.
  apply (reconstruir_camino_shortest triangulo_Z 3 "A").
  - exact wf_triangulo_Z.
  - exact nonneg_triangulo_Z.
  - exact acotado_triangulo_Z.
  - by left.
Defined.

Lemma obtener_aristas_caminos_tree_witness :
  ∃ D P, algoritmo_dijkstra (graph_map entero dos_aristas_Z) "A" = Ok (D, P)
    ∧ let aristas :=
        obtener_aristas_caminos
          (dict_items (nodes (graph_map entero dos_aristas_Z)) P) "A" in
      NoDup aristas.*2
      ∧ (∀ v, v ∈ aristas.*2 ↔ reachable dos_aristas_Z "A" v ∧ v ≠ "A")
      ∧ (∀ p v, (p, v) ∈ aristas →
           ∃ w dp, edge (graph_map entero dos_aristas_Z) p v (entero w)
                   ∧ D !! p = Some (Fin (entero dp))
                   ∧ D !! v = Some (Fin (entero (dp + w)))).
Proof.
  apply (obtener_aristas_caminos_tree dos_aristas_Z 1 "A").
  - exact wf_dos_aristas_Z.
  - exact nonneg_dos_aristas_Z.
  - exact acotado_dos_aristas_Z.
  - by left.
Defined.

Lemma dijkstra_tables_witness :
  ∃ D P, algoritmo_dijkstra (graph_map entero dos_aristas_Z) "A" = Ok (D, P)
    ∧ (∀ v, is_Some (D !! v) ↔ v ∈ nodes (graph_map entero dos_aristas_Z))
    ∧ (∀ v, is_Some (P !! v) ↔ v ∈ nodes (graph_map entero dos_aristas_Z))
    ∧ (∀ v, D !! v = Some Inf ↔
            v ∈ nodes dos_aristas_Z ∧ ¬ reachable dos_aristas_Z "A" v)
    ∧ (∀ v, P !! v = Some None ↔
            v ∈ nodes dos_aristas_Z
            ∧ (v = "A" ∨ ¬ reachable dos_aristas_Z "A" v))
    ∧ (∀ v p, P !! v = Some (Some p) →
              ∃ dp, D !! p = Some (Fin (entero dp))).
Proof.
  apply (dijkstra_tables dos_aristas_Z 1 "A").
  - exact wf_dos_aristas_Z.
  - exact nonneg_dos_aristas_Z.
  - exact acotado_dos_aristas_Z.
  - by left.
Defined.
